(** * XShaderCompiler: the GLSL code generator (GLSLGenerator.cpp)

    A shallow embedding of [Xsc::GLSLGenerator], the visitor that writes a
    GLSL shader from the decorated HLSL syntax tree, and the properties of
    its output that the specification states.

    The generator is a C++ class deriving from [Generator]; it writes to an
    output stream, reports diagnostics and keeps a few member fields.  Here
    every member function is a computation in the monad [Gen]: it takes the
    member fields ([GenState]) and returns a result, the new fields and the
    list of effects ([Event]) it had on the outside world, in order. *)

From Stdlib Require Import String Ascii List ZArith Bool Lia DecimalString.
Import ListNotations.
Local Open Scope string_scope.
Local Open Scope Z_scope.

Set Implicit Arguments.

(** Induction principles that go through the lists and the optional
    children of the nodes of the syntax tree. *)
Scheme All for list.
Scheme All for option.

(* ===================================================================== *)
(** ** Enumerations of the syntax tree *)
(* ===================================================================== *)

(** Modelled from the spec: the shader stages of [ShaderTarget]
    (Targets.h is not part of this file). *)
Inductive ShaderTarget : Type :=
| VertexShader
| TessellationControlShader
| TessellationEvaluationShader
| GeometryShader
| FragmentShader
| ComputeShader.

Definition ShaderTarget_eqb (a b : ShaderTarget) : bool :=
  match a, b with
  | VertexShader, VertexShader
  | TessellationControlShader, TessellationControlShader
  | TessellationEvaluationShader, TessellationEvaluationShader
  | GeometryShader, GeometryShader
  | FragmentShader, FragmentShader
  | ComputeShader, ComputeShader => true
  | _, _ => false
  end.

(** [OutputShaderVersion] is an integer enumerant (110, 120, ..., 450). *)
Definition OutputShaderVersion := Z.
Definition GLSL400 : OutputShaderVersion := 400.

(** Modelled from the spec: the intrinsics the generator tells apart.  The
    interlocked intrinsics are a contiguous range of the enumeration, from
    [InterlockedAdd] to [InterlockedXor]. *)
Inductive Intrinsic : Type :=
| Intrinsic_Undefined
| Intrinsic_Clip
| Intrinsic_Mul
| Intrinsic_Rcp
| Intrinsic_InterlockedAdd
| Intrinsic_InterlockedAnd
| Intrinsic_InterlockedCompareExchange
| Intrinsic_InterlockedCompareStore
| Intrinsic_InterlockedExchange
| Intrinsic_InterlockedMax
| Intrinsic_InterlockedMin
| Intrinsic_InterlockedOr
| Intrinsic_InterlockedXor
| Intrinsic_Other (name : string).

Definition Intrinsic_IsInterlocked (i : Intrinsic) : bool :=
  match i with
  | Intrinsic_InterlockedAdd | Intrinsic_InterlockedAnd
  | Intrinsic_InterlockedCompareExchange | Intrinsic_InterlockedCompareStore
  | Intrinsic_InterlockedExchange | Intrinsic_InterlockedMax
  | Intrinsic_InterlockedMin | Intrinsic_InterlockedOr
  | Intrinsic_InterlockedXor => true
  | _ => false
  end.

Definition Intrinsic_IsClip (i : Intrinsic) : bool :=
  match i with Intrinsic_Clip => true | _ => false end.

(** Modelled from the spec: the data type of a base type denoter is a
    scalar, a vector or a matrix. *)
Inductive ScalarType : Type := Bool_ | Int_ | UInt_ | Half_ | Float_ | Double_.

Inductive DataType : Type :=
| DataType_Undefined
| Scalar (s : ScalarType)
| Vector (s : ScalarType) (n : nat)
| Matrix (s : ScalarType) (rows cols : nat).

Definition IsScalarType (d : DataType) : bool :=
  match d with Scalar _ => true | _ => false end.

(** Modelled from the spec: [double*] is demoted to [float*]. *)
Definition DoubleToFloatDataType (d : DataType) : DataType :=
  let demote s := match s with Double_ => Float_ | _ => s end in
  match d with
  | DataType_Undefined => DataType_Undefined
  | Scalar s => Scalar (demote s)
  | Vector s n => Vector (demote s) n
  | Matrix s r c => Matrix (demote s) r c
  end.

Inductive BufferType : Type :=
| BufferType_Undefined
| Buffer_
| Texture1D | Texture1DArray
| Texture2D | Texture2DArray
| Texture3D
| TextureCube | TextureCubeArray
| Texture2DMS | Texture2DMSArray.

Definition BufferType_IsUndefined (b : BufferType) : bool :=
  match b with BufferType_Undefined => true | _ => false end.

Inductive StorageClass : Type :=
| Extern | Precise | Shared | GroupShared | Static | Uniform | Volatile
| NoInterpolation | Linear | Centroid | NoPerspective | Sample.

Inductive BinaryOp : Type :=
| LogicalAnd | LogicalOr | Or | Xor | And | LShift | RShift
| Add | Sub | Mul | Div | Mod
| Equal | NotEqual | Less | Greater | LessEqual | GreaterEqual.

Inductive UnaryOp : Type :=
| LogicalNot | Not | Nop | Negate | Inc | Dec.

Inductive AssignOp : Type :=
| AssignSet | AssignAdd | AssignSub | AssignMul | AssignDiv | AssignMod
| AssignLShift | AssignRShift | AssignOr | AssignAnd | AssignXor.

Inductive CtrlTransfer : Type := Break | Continue | Discard.

(** Modelled from the spec: a semantic is undefined, user defined or a
    system value ([SV_*]); it carries an index. *)
Inductive Semantic : Type :=
| Semantic_Undefined
| Semantic_UserDefined (name : string)
| Semantic_SystemValue (name : string).

Record IndexedSemantic : Type := {
  semantic_ : Semantic;
  index_ : Z
}.

Definition IsValid (s : IndexedSemantic) : bool :=
  match semantic_ s with Semantic_Undefined => false | _ => true end.

Definition IsSystemValue (s : IndexedSemantic) : bool :=
  match semantic_ s with Semantic_SystemValue _ => true | _ => false end.

Definition Index (s : IndexedSemantic) : Z := index_ s.

(** A slot register: its kind, its slot and the stage it is for. *)
Inductive RegisterType : Type :=
| RegisterType_b | RegisterType_t | RegisterType_s | RegisterType_u.

Record Register : Type := {
  registerType : RegisterType;
  slot : Z;
  registerTarget : option ShaderTarget
}.

(** The position of a node in the source text, [ast->area.Pos()]. *)
Record SourcePosition : Type := {
  Row : Z;
  Column : Z
}.

(** [AST::Types], the kind of a node as [Type()] returns it. *)
Inductive Types : Type :=
| Types_ListExpr | Types_LiteralExpr | Types_TypeNameExpr | Types_TernaryExpr
| Types_BinaryExpr | Types_UnaryExpr | Types_PostUnaryExpr
| Types_FunctionCallExpr | Types_BracketExpr | Types_SuffixExpr
| Types_ArrayAccessExpr | Types_CastExpr | Types_VarAccessExpr
| Types_InitializerExpr
| Types_NullStmnt | Types_CodeBlockStmnt | Types_ForLoopStmnt
| Types_WhileLoopStmnt | Types_DoWhileLoopStmnt | Types_IfStmnt
| Types_ElseStmnt | Types_SwitchStmnt | Types_ExprStmnt | Types_ReturnStmnt
| Types_CtrlTransferStmnt
| Types_FunctionDecl | Types_BufferDeclStmnt | Types_TextureDeclStmnt
| Types_StructDeclStmnt | Types_VarDeclStmnt | Types_AliasDeclStmnt.

Scheme Equality for Types.

(* ===================================================================== *)
(** ** The syntax tree *)
(* ===================================================================== *)

(** What [symbolRef] of a [VarIdent] points to: a variable declaration,
    seen through its current identifier (the converter may have renamed
    it), or another declaration. *)
Inductive SymbolRef : Type :=
| SymbolRef_VarDecl (ident : string)
| SymbolRef_Other.

(** Expressions, function calls, identifier chains and type denoters. *)
Inductive Expr : Type :=
| ListExpr (area : SourcePosition) (firstExpr nextExpr : Expr)
| LiteralExpr (area : SourcePosition) (value : string)
| TypeNameExpr (area : SourcePosition) (typeDenoter : TypeDenoter)
| TernaryExpr (area : SourcePosition) (condExpr thenExpr elseExpr : Expr)
| BinaryExpr (area : SourcePosition) (lhsExpr : Expr) (op : BinaryOp)
    (rhsExpr : Expr)
| UnaryExpr (area : SourcePosition) (op : UnaryOp) (expr : Expr)
| PostUnaryExpr (area : SourcePosition) (expr : Expr) (op : UnaryOp)
| FunctionCallExpr (area : SourcePosition) (call : FunctionCall)
| BracketExpr (area : SourcePosition) (expr : Expr)
| SuffixExpr (area : SourcePosition) (expr : Expr) (varIdent : VarIdent)
| ArrayAccessExpr (area : SourcePosition) (expr : Expr)
    (arrayIndices : list Expr)
| CastExpr (area : SourcePosition) (typeExpr : Expr) (expr : Expr)
| VarAccessExpr (area : SourcePosition) (varIdent : VarIdent)
    (assignOp : AssignOp) (assignExpr : option Expr)
| InitializerExpr (area : SourcePosition) (exprs : list Expr)

with FunctionCall : Type :=
| mkFunctionCall (area : SourcePosition) (varIdent : option VarIdent)
    (typeDenoter : option TypeDenoter) (intrinsic : Intrinsic)
    (arguments : list Expr)

with VarIdent : Type :=
| mkVarIdent (area : SourcePosition) (ident : string)
    (arrayIndices : list Expr) (next : option VarIdent)
    (symbolRef : option SymbolRef)

with TypeDenoter : Type :=
| VoidTypeDenoter
| BaseTypeDenoter (dataType : DataType)
| TextureTypeDenoter (textureType : BufferType)
    (textureDeclRef : option BufferType)
| StructTypeDenoter (ident : string)
| AliasTypeDenoter (ident : string) (aliased : TypeDenoter)
| ArrayTypeDenoter (baseTypeDenoter : TypeDenoter) (arrayDims : list Expr).

(** In [TextureTypeDenoter] the back reference [textureDeclRef] is seen
    through the one thing the generator reads from it,
    [texDecl->declStmntRef->textureType]. *)

Definition Expr_Type (e : Expr) : Types :=
  match e with
  | ListExpr _ _ _ => Types_ListExpr
  | LiteralExpr _ _ => Types_LiteralExpr
  | TypeNameExpr _ _ => Types_TypeNameExpr
  | TernaryExpr _ _ _ _ => Types_TernaryExpr
  | BinaryExpr _ _ _ _ => Types_BinaryExpr
  | UnaryExpr _ _ _ => Types_UnaryExpr
  | PostUnaryExpr _ _ _ => Types_PostUnaryExpr
  | FunctionCallExpr _ _ => Types_FunctionCallExpr
  | BracketExpr _ _ => Types_BracketExpr
  | SuffixExpr _ _ _ => Types_SuffixExpr
  | ArrayAccessExpr _ _ _ => Types_ArrayAccessExpr
  | CastExpr _ _ _ => Types_CastExpr
  | VarAccessExpr _ _ _ _ => Types_VarAccessExpr
  | InitializerExpr _ _ => Types_InitializerExpr
  end.

Definition Expr_area (e : Expr) : SourcePosition :=
  match e with
  | ListExpr a _ _ | LiteralExpr a _ | TypeNameExpr a _
  | TernaryExpr a _ _ _ | BinaryExpr a _ _ _ | UnaryExpr a _ _
  | PostUnaryExpr a _ _ | FunctionCallExpr a _ | BracketExpr a _
  | SuffixExpr a _ _ | ArrayAccessExpr a _ _ | CastExpr a _ _
  | VarAccessExpr a _ _ _ | InitializerExpr a _ => a
  end.

Definition FunctionCall_area (c : FunctionCall) : SourcePosition :=
  match c with mkFunctionCall a _ _ _ _ => a end.
Definition FunctionCall_intrinsic (c : FunctionCall) : Intrinsic :=
  match c with mkFunctionCall _ _ _ i _ => i end.
Definition FunctionCall_arguments (c : FunctionCall) : list Expr :=
  match c with mkFunctionCall _ _ _ _ l => l end.
Definition FunctionCall_varIdent (c : FunctionCall) : option VarIdent :=
  match c with mkFunctionCall _ v _ _ _ => v end.

Definition VarIdent_area (v : VarIdent) : SourcePosition :=
  match v with mkVarIdent a _ _ _ _ => a end.
Definition VarIdent_ident (v : VarIdent) : string :=
  match v with mkVarIdent _ i _ _ _ => i end.
Definition VarIdent_next (v : VarIdent) : option VarIdent :=
  match v with mkVarIdent _ _ _ n _ => n end.

(** Type denoter queries.  Modelled from the spec: [Get] resolves aliases,
    [GetAliased] is the target of an alias (TypeDenoter.h is not part of
    this file). *)
Definition IsVoid (t : TypeDenoter) : bool :=
  match t with VoidTypeDenoter => true | _ => false end.
Definition IsBase (t : TypeDenoter) : bool :=
  match t with BaseTypeDenoter _ => true | _ => false end.
Definition IsStruct (t : TypeDenoter) : bool :=
  match t with StructTypeDenoter _ => true | _ => false end.
Definition IsAlias (t : TypeDenoter) : bool :=
  match t with AliasTypeDenoter _ _ => true | _ => false end.
Definition IsScalar (t : TypeDenoter) : bool :=
  match t with BaseTypeDenoter d => IsScalarType d | _ => false end.

Fixpoint Get (t : TypeDenoter) : TypeDenoter :=
  match t with
  | AliasTypeDenoter _ a => Get a
  | _ => t
  end.

(** Variable declarations and the declaration statements around them. *)
Record VarDecl : Type := {
  VarDecl_area : SourcePosition;
  VarDecl_ident : string;
  VarDecl_arrayDims : list Expr;
  VarDecl_initializer : option Expr;
  VarDecl_semantic : IndexedSemantic;
  VarDecl_disableCodeGen : bool
}.

Inductive VarType : Type :=
| mkVarType (area : SourcePosition) (structDecl : option StructDecl)
    (typeDenoter : TypeDenoter)

with StructDecl : Type :=
| mkStructDecl (area : SourcePosition) (ident : string)
    (aliasName : string)
    (isReachable isNestedStruct isShaderInput isShaderOutput : bool)
    (members : list VarDeclStmnt)
    (nestedStructDeclRefs : list StructDecl)
    (baseStructRef : option StructDecl)

with VarDeclStmnt : Type :=
| mkVarDeclStmnt (area : SourcePosition)
    (isShaderInput isShaderOutput : bool)
    (inputModifier : string)
    (storageClasses : list StorageClass)
    (typeModifiers : list string)
    (varType : VarType)
    (varDecls : list VarDecl).

Definition VarType_area (v : VarType) : SourcePosition :=
  match v with mkVarType a _ _ => a end.

Definition StructDecl_ident (s : StructDecl) : string :=
  match s with mkStructDecl _ i _ _ _ _ _ _ _ _ => i end.
Definition StructDecl_isReachable (s : StructDecl) : bool :=
  match s with mkStructDecl _ _ _ r _ _ _ _ _ _ => r end.
Definition StructDecl_IsAnonymous (s : StructDecl) : bool :=
  match StructDecl_ident s with EmptyString => true | _ => false end.

Definition VarDeclStmnt_area (v : VarDeclStmnt) : SourcePosition :=
  match v with mkVarDeclStmnt a _ _ _ _ _ _ _ => a end.

(** A variable of the entry point's semantics: the declaration and the
    type of the statement that declares it ([declStmntRef->varType]). *)
Record VarDeclRef : Type := {
  varDecl : VarDecl;
  declStmntRef_varType : VarType
}.

Record Attribute : Type := {
  Attribute_area : SourcePosition;
  Attribute_ident : string;
  Attribute_arguments : list Expr
}.

Record TextureDecl : Type := {
  TextureDecl_area : SourcePosition;
  TextureDecl_ident : string;
  TextureDecl_isReachable : bool;
  TextureDecl_slotRegisters : list Register
}.

Record TextureDeclStmnt : Type := {
  TextureDeclStmnt_area : SourcePosition;
  TextureDeclStmnt_isReachable : bool;
  textureType_ : BufferType;
  textureDecls : list TextureDecl
}.

Record BufferDeclStmnt : Type := {
  BufferDeclStmnt_area : SourcePosition;
  BufferDeclStmnt_isReachable : bool;
  BufferDeclStmnt_ident : string;
  BufferDeclStmnt_slotRegisters : list Register;
  BufferDeclStmnt_members : list VarDeclStmnt
}.

Record StructDeclStmnt : Type := {
  StructDeclStmnt_area : SourcePosition;
  StructDeclStmnt_structDecl : StructDecl
}.

Record AliasDeclStmnt : Type := {
  AliasDeclStmnt_area : SourcePosition;
  AliasDeclStmnt_structDecl : option StructDecl
}.

Record ReturnStmnt : Type := {
  ReturnStmnt_area : SourcePosition;
  ReturnStmnt_expr : option Expr;
  isEndOfFunction : bool
}.

Record SemanticBucket : Type := {
  varDeclRefs : list VarDeclRef;
  varDeclRefsSV : list VarDeclRef
}.

(** Statements.  Every class of statement of the source is a type of its
    own, and [Stmnt] is the base class they are visited through. *)
Inductive Stmnt : Type :=
| Stmnt_Null (area : SourcePosition)
| Stmnt_CodeBlock (s : CodeBlockStmnt)
| Stmnt_ForLoop (s : ForLoopStmnt)
| Stmnt_WhileLoop (s : WhileLoopStmnt)
| Stmnt_DoWhileLoop (s : DoWhileLoopStmnt)
| Stmnt_If (s : IfStmnt)
| Stmnt_Else (s : ElseStmnt)
| Stmnt_Switch (s : SwitchStmnt)
| Stmnt_Expr (area : SourcePosition) (expr : Expr)
| Stmnt_Return (s : ReturnStmnt)
| Stmnt_CtrlTransfer (area : SourcePosition) (transfer : CtrlTransfer)
| Stmnt_FunctionDecl (s : FunctionDecl)
| Stmnt_BufferDecl (s : BufferDeclStmnt)
| Stmnt_TextureDecl (s : TextureDeclStmnt)
| Stmnt_StructDecl (s : StructDeclStmnt)
| Stmnt_VarDecl (s : VarDeclStmnt)
| Stmnt_AliasDecl (s : AliasDeclStmnt)

with CodeBlock : Type :=
| mkCodeBlock (area : SourcePosition) (stmnts : list Stmnt)

with CodeBlockStmnt : Type :=
| mkCodeBlockStmnt (area : SourcePosition) (codeBlock : CodeBlock)

with ForLoopStmnt : Type :=
| mkForLoopStmnt (area : SourcePosition) (initSmnt : option Stmnt)
    (condition : option Expr) (iteration : option Expr)
    (bodyStmnt : option Stmnt)

with WhileLoopStmnt : Type :=
| mkWhileLoopStmnt (area : SourcePosition) (condition : option Expr)
    (bodyStmnt : option Stmnt)

with DoWhileLoopStmnt : Type :=
| mkDoWhileLoopStmnt (area : SourcePosition) (bodyStmnt : option Stmnt)
    (condition : option Expr)

with IfStmnt : Type :=
| mkIfStmnt (area : SourcePosition) (condition : option Expr)
    (bodyStmnt : option Stmnt) (elseStmnt : option ElseStmnt)

with ElseStmnt : Type :=
| mkElseStmnt (area : SourcePosition) (bodyStmnt : Stmnt)

with SwitchStmnt : Type :=
| mkSwitchStmnt (area : SourcePosition) (selector : option Expr)
    (cases : list SwitchCase)

with SwitchCase : Type :=
| mkSwitchCase (area : SourcePosition) (expr : option Expr)
    (stmnts : list Stmnt)

with FunctionDecl : Type :=
| mkFunctionDecl (area : SourcePosition) (ident : string)
    (isReachable hasNonReturnControlPath isEntryPoint : bool)
    (returnType : VarType)
    (parameters : list VarDeclStmnt)
    (codeBlock : option CodeBlock)
    (attribs : list Attribute)
    (inputSemantics outputSemantics : SemanticBucket)
    (semantic : IndexedSemantic).

Definition Stmnt_Type (s : Stmnt) : Types :=
  match s with
  | Stmnt_Null _ => Types_NullStmnt
  | Stmnt_CodeBlock _ => Types_CodeBlockStmnt
  | Stmnt_ForLoop _ => Types_ForLoopStmnt
  | Stmnt_WhileLoop _ => Types_WhileLoopStmnt
  | Stmnt_DoWhileLoop _ => Types_DoWhileLoopStmnt
  | Stmnt_If _ => Types_IfStmnt
  | Stmnt_Else _ => Types_ElseStmnt
  | Stmnt_Switch _ => Types_SwitchStmnt
  | Stmnt_Expr _ _ => Types_ExprStmnt
  | Stmnt_Return _ => Types_ReturnStmnt
  | Stmnt_CtrlTransfer _ _ => Types_CtrlTransferStmnt
  | Stmnt_FunctionDecl _ => Types_FunctionDecl
  | Stmnt_BufferDecl _ => Types_BufferDeclStmnt
  | Stmnt_TextureDecl _ => Types_TextureDeclStmnt
  | Stmnt_StructDecl _ => Types_StructDeclStmnt
  | Stmnt_VarDecl _ => Types_VarDeclStmnt
  | Stmnt_AliasDecl _ => Types_AliasDeclStmnt
  end.

Definition FunctionDecl_area (f : FunctionDecl) : SourcePosition :=
  match f with mkFunctionDecl a _ _ _ _ _ _ _ _ _ _ _ => a end.
Definition FunctionDecl_ident (f : FunctionDecl) : string :=
  match f with mkFunctionDecl _ i _ _ _ _ _ _ _ _ _ _ => i end.
Definition FunctionDecl_isReachable (f : FunctionDecl) : bool :=
  match f with mkFunctionDecl _ _ r _ _ _ _ _ _ _ _ _ => r end.
Definition FunctionDecl_hasNonReturnControlPath (f : FunctionDecl) : bool :=
  match f with mkFunctionDecl _ _ _ h _ _ _ _ _ _ _ _ => h end.
Definition FunctionDecl_isEntryPoint (f : FunctionDecl) : bool :=
  match f with mkFunctionDecl _ _ _ _ e _ _ _ _ _ _ _ => e end.
Definition FunctionDecl_attribs (f : FunctionDecl) : list Attribute :=
  match f with mkFunctionDecl _ _ _ _ _ _ _ _ a _ _ _ => a end.
Definition FunctionDecl_inputSemantics (f : FunctionDecl) : SemanticBucket :=
  match f with mkFunctionDecl _ _ _ _ _ _ _ _ _ i _ _ => i end.
Definition FunctionDecl_outputSemantics (f : FunctionDecl) : SemanticBucket :=
  match f with mkFunctionDecl _ _ _ _ _ _ _ _ _ _ o _ => o end.
Definition FunctionDecl_semantic (f : FunctionDecl) : IndexedSemantic :=
  match f with mkFunctionDecl _ _ _ _ _ _ _ _ _ _ _ s => s end.

(** Induction on the syntax tree, through the lists and the optional
    children of its nodes. *)
Scheme Expr_mut := Induction for Expr Sort Prop
  with FunctionCall_mut := Induction for FunctionCall Sort Prop
  with VarIdent_mut := Induction for VarIdent Sort Prop
  with TypeDenoter_mut := Induction for TypeDenoter Sort Prop.
Combined Scheme Expr_mutind
  from Expr_mut, FunctionCall_mut, VarIdent_mut, TypeDenoter_mut.


Scheme VarType_mut := Induction for VarType Sort Prop
  with StructDecl_mut := Induction for StructDecl Sort Prop
  with VarDeclStmnt_mut := Induction for VarDeclStmnt Sort Prop.
Combined Scheme VarType_mutind
  from VarType_mut, StructDecl_mut, VarDeclStmnt_mut.


Scheme Stmnt_mut := Induction for Stmnt Sort Prop
  with CodeBlock_mut := Induction for CodeBlock Sort Prop
  with CodeBlockStmnt_mut := Induction for CodeBlockStmnt Sort Prop
  with ForLoopStmnt_mut := Induction for ForLoopStmnt Sort Prop
  with WhileLoopStmnt_mut := Induction for WhileLoopStmnt Sort Prop
  with DoWhileLoopStmnt_mut := Induction for DoWhileLoopStmnt Sort Prop
  with IfStmnt_mut := Induction for IfStmnt Sort Prop
  with ElseStmnt_mut := Induction for ElseStmnt Sort Prop
  with SwitchStmnt_mut := Induction for SwitchStmnt Sort Prop
  with SwitchCase_mut := Induction for SwitchCase Sort Prop
  with FunctionDecl_mut := Induction for FunctionDecl Sort Prop.
Combined Scheme Stmnt_mutind
  from Stmnt_mut, CodeBlock_mut, CodeBlockStmnt_mut, ForLoopStmnt_mut,
       WhileLoopStmnt_mut, DoWhileLoopStmnt_mut, IfStmnt_mut, ElseStmnt_mut,
       SwitchStmnt_mut, SwitchCase_mut, FunctionDecl_mut.


(** The root of the tree. *)
Record Program : Type := {
  entryPointRef : option FunctionDecl;
  globalStmnts : list Stmnt;
  usedIntrinsics : list Intrinsic;
  hasSM3ScreenSpace : bool
}.

(* ===================================================================== *)
(** ** Diagnostics, exceptions and effects *)
(* ===================================================================== *)

Inductive Severity : Type := Severity_Warning | Severity_Error.

(** A diagnostic: severity, message and, when a node was given, its
    position. *)
Record Report : Type := {
  reportType : Severity;
  message : string;
  position : option SourcePosition
}.

(** The exceptions the source tells apart in its handlers: [Report],
    [ASTRuntimeError] and any other [std::exception].  A handler for
    [std::exception] catches the three of them. *)
Inductive Exn : Type :=
| Exn_Report (r : Report)
| Exn_ASTRuntimeError (msg : string) (ast : option SourcePosition)
| Exn_exception (msg : string).

Definition what (e : Exn) : string :=
  match e with
  | Exn_Report r => message r
  | Exn_ASTRuntimeError m _ => m
  | Exn_exception m => m
  end.

(** What a run of the generator does to the outside world: text pushed
    into the output stream, a diagnostic handed to the log, a record added
    to the statistics output. *)
Inductive Event : Type :=
| EvWrite (text : string)
| EvReport (r : Report)
| EvTexture (ident : string) (binding : Z).

(** The text a list of effects leaves in the output stream. *)
Fixpoint output (t : list Event) : string :=
  match t with
  | [] => ""
  | EvWrite s :: r => s ++ output r
  | _ :: r => output r
  end.

(** The diagnostics it leaves in the log, the statistics records it adds. *)
Fixpoint reports (t : list Event) : list Report :=
  match t with
  | [] => []
  | EvReport d :: r => d :: reports r
  | _ :: r => reports r
  end.

Fixpoint textures (t : list Event) : list (string * Z) :=
  match t with
  | [] => []
  | EvTexture i b :: r => (i, b) :: textures r
  | _ :: r => textures r
  end.

(* ===================================================================== *)
(** ** What the generator uses of the rest of the compiler *)
(* ===================================================================== *)

(** The keyword tables, the helpers of the syntax tree and the passes that
    run before the generator live in other files of the compiler.  The
    generator is modelled over any of them.

    [breakWithException] is the policy of [Generator::Error]: the
    diagnostic is thrown as a [Report], or submitted to the log, after
    which the generator goes on.

    [AddressOfLocal] is the stack of the run: the address of the local
    variable ([hasElseParentNode], [semicolon]) that the visitor of the
    node at a position passes on as the extra argument [void* args] of
    [Visit].  The visitors that receive it read the pointer itself, not
    what it points to, so that the address decides what they do. *)
Record Env : Type := {
  breakWithException : bool;
  AddressOfLocal : SourcePosition -> Z;
  TargetToString : ShaderTarget -> string;
  DataTypeToGLSLKeyword : DataType -> option string;
  BufferTypeToGLSLKeyword : BufferType -> option string;
  StorageClassToGLSLKeyword : StorageClass -> option string;
  IntrinsicToGLSLKeyword : Intrinsic -> option string;
  SemanticToGLSLKeyword : IndexedSemantic -> option string;
  BinaryOpToString : BinaryOp -> string;
  UnaryOpToString : UnaryOp -> string;
  AssignOpToString : AssignOp -> string;
  CtrlTransformToString : CtrlTransfer -> string;
  SubscriptDataType : DataType -> string -> Exn + DataType;
  MustResolveStructForTarget : ShaderTarget -> StructDecl -> bool;
  GetTypeDenoter : Expr -> Exn + TypeDenoter;
  GetExplicitTypeDenoter : VarIdent -> Exn + TypeDenoter;
  VarIdent_ToString : VarIdent -> string;
  Register_GetForTarget : list Register -> ShaderTarget -> option Register;
  DetermineRequiredExtensions :
    Program -> OutputShaderVersion -> ShaderTarget -> bool ->
    Exn + list string;
  MarkControlPaths : Program -> Exn + Program;
  Convert : Program -> ShaderTarget -> string -> Exn + Program;
  MarkReferencesFromEntryPoint : Program -> Exn + Program
}.

(* ===================================================================== *)
(** ** The member fields and the monad *)
(* ===================================================================== *)

(** The options of the code writer, as in [PushOptions({ false, false })]. *)
Record Options : Type := {
  enableNewLine : bool;
  enableIndent : bool
}.

(** The parameters [GenerateCodePrimary] stores. *)
Record Config : Type := {
  shaderTarget_ : ShaderTarget;
  versionOut_ : OutputShaderVersion;
  allowExtensions_ : bool;
  allowLineMarks_ : bool;
  nameManglingPrefix_ : string;
  stats_ : bool
}.

(** The member fields: those of the code writer of [Generator] (the string
    of one indentation step, the indentation level, the options stack),
    the program [GetProgram()] returns, the stored parameters and the two
    flags of [GLSLGenerator].  [stats_] is true when a statistics output
    was given. *)
Record GenState : Type := {
  indent_ : string;
  indentLevel : nat;
  optionsStack : list Options;
  program_ : Program;
  config : Config;
  isInsideEntryPoint_ : bool;
  isInsideInterfaceBlock_ : bool
}.

Definition set_indentLevel (n : nat) (st : GenState) : GenState :=
  {| indent_ := indent_ st; indentLevel := n;
     optionsStack := optionsStack st; program_ := program_ st;
     config := config st; isInsideEntryPoint_ := isInsideEntryPoint_ st;
     isInsideInterfaceBlock_ := isInsideInterfaceBlock_ st |}.

Definition set_optionsStack (o : list Options) (st : GenState) : GenState :=
  {| indent_ := indent_ st; indentLevel := indentLevel st;
     optionsStack := o; program_ := program_ st;
     config := config st; isInsideEntryPoint_ := isInsideEntryPoint_ st;
     isInsideInterfaceBlock_ := isInsideInterfaceBlock_ st |}.

Definition set_program (p : Program) (st : GenState) : GenState :=
  {| indent_ := indent_ st; indentLevel := indentLevel st;
     optionsStack := optionsStack st; program_ := p;
     config := config st; isInsideEntryPoint_ := isInsideEntryPoint_ st;
     isInsideInterfaceBlock_ := isInsideInterfaceBlock_ st |}.

Definition set_config (c : Config) (st : GenState) : GenState :=
  {| indent_ := indent_ st; indentLevel := indentLevel st;
     optionsStack := optionsStack st; program_ := program_ st;
     config := c; isInsideEntryPoint_ := isInsideEntryPoint_ st;
     isInsideInterfaceBlock_ := isInsideInterfaceBlock_ st |}.

Definition set_isInsideEntryPoint (b : bool) (st : GenState) : GenState :=
  {| indent_ := indent_ st; indentLevel := indentLevel st;
     optionsStack := optionsStack st; program_ := program_ st;
     config := config st; isInsideEntryPoint_ := b;
     isInsideInterfaceBlock_ := isInsideInterfaceBlock_ st |}.

Definition set_isInsideInterfaceBlock (b : bool) (st : GenState) : GenState :=
  {| indent_ := indent_ st; indentLevel := indentLevel st;
     optionsStack := optionsStack st; program_ := program_ st;
     config := config st; isInsideEntryPoint_ := isInsideEntryPoint_ st;
     isInsideInterfaceBlock_ := b |}.

(** How a member function ends: it returns, it throws, or it runs into
    behaviour the language leaves undefined (a null pointer dereferenced,
    a vector indexed out of its range). *)
Inductive Result (A : Type) : Type :=
| Ok (a : A)
| Throw (e : Exn)
| Undefined.
Arguments Throw {A} e.
Arguments Undefined {A}.

Record Outcome (A : Type) : Type := mkOutcome {
  result : Result A;
  final : GenState;
  events : list Event
}.

Definition Gen (A : Type) : Type := GenState -> Outcome A.

Definition ret {A} (a : A) : Gen A := fun st => mkOutcome (Ok a) st [].

Definition bind {A B} (m : Gen A) (f : A -> Gen B) : Gen B :=
  fun st =>
    let o := m st in
    match result o with
    | Ok a =>
        let o' := f a (final o) in
        mkOutcome (result o') (final o') (events o ++ events o')
    | Throw e => mkOutcome (Throw e) (final o) (events o)
    | Undefined => mkOutcome Undefined (final o) (events o)
    end.

Declare Scope gen_scope.
Delimit Scope gen_scope with gen.
Notation "x <- c1 ;; c2" := (bind c1 (fun x => c2))
  (at level 61, c1 at next level, right associativity) : gen_scope.
Notation "c1 ;; c2" := (bind c1 (fun _ => c2))
  (at level 61, right associativity) : gen_scope.
Local Open Scope gen_scope.

Definition throw {A} (e : Exn) : Gen A := fun st => mkOutcome (Throw e) st [].
Definition undefined {A} : Gen A := fun st => mkOutcome Undefined st [].
Definition tell (t : list Event) : Gen unit := fun st => mkOutcome (Ok tt) st t.
Definition getState : Gen GenState := fun st => mkOutcome (Ok st) st [].
Definition modify (f : GenState -> GenState) : Gen unit :=
  fun st => mkOutcome (Ok tt) (f st) [].

(** [try { m } catch (e) { h e }]. *)
Definition try_catch {A} (m : Gen A) (h : Exn -> Gen A) : Gen A :=
  fun st =>
    let o := m st in
    match result o with
    | Throw e =>
        let o' := h e (final o) in
        mkOutcome (result o') (final o') (events o ++ events o')
    | _ => o
    end.

(** The value of a helper that may throw. *)
Definition lift {A} (r : Exn + A) : Gen A :=
  match r with
  | inl e => throw e
  | inr a => ret a
  end.

(** [for (auto& x : l) f(x)]. *)
Definition forEach {A} (f : A -> Gen unit) : list A -> Gen unit :=
  fix go l :=
    match l with
    | [] => ret tt
    | x :: r => f x ;; go r
    end.

(** The same from [rbegin()] to [rend()]. *)
Definition forEachReverse {A} (f : A -> Gen unit) : list A -> Gen unit :=
  fix go l :=
    match l with
    | [] => ret tt
    | x :: r => go r ;; f x
    end.

(** [for (i = 0; i < l.size(); ++i) { f(l[i]); if (i + 1 < l.size()) sep; }] *)
Definition forEachSeparated {A} (f : A -> Gen unit) (sep : Gen unit)
  : list A -> Gen unit :=
  fix go l :=
    match l with
    | [] => ret tt
    | x :: r =>
        f x ;;
        match r with
        | [] => ret tt
        | _ :: _ => sep ;; go r
        end
    end.

(** [l[i]], continued by [k]; out of range the behaviour is undefined. *)
Definition at_ {A B} (l : list A) (i : nat) (k : A -> Gen B) : Gen B :=
  (fix go l i :=
     match l, i with
     | x :: _, O => k x
     | _ :: r, S j => go r j
     | [], _ => undefined
     end) l i.

(** [(args != nullptr ? *reinterpret_cast<bool*>(&args) : false)], with
    [args] the [void*] argument of a visitor: [None] is the null pointer,
    [Some address] a pointer that is not null.  The cast takes the address
    of the pointer, so that what is read as a [bool] is the first byte of
    the pointer itself, the low byte of the address it holds, and not the
    flag it points to.  A byte other than 0 and 1 is not a value of
    [bool]: the behaviour is undefined. *)
Definition ArgsAsBool (args : option Z) : Gen bool :=
  match args with
  | None => ret false
  | Some address =>
      match Z.land address 255 with
      | 0 => ret false
      | 1 => ret true
      | _ => undefined
      end
  end.

(** [std::to_string] of an [int]. *)
Definition to_string (z : Z) : string := NilZero.string_of_int (Z.to_int z).

Definition newline : string := String (ascii_of_nat 10) "".

Fixpoint repeat_string (s : string) (n : nat) : string :=
  match n with
  | O => ""
  | S k => s ++ repeat_string s k
  end.

(* ===================================================================== *)
(** ** The generator *)
(* ===================================================================== *)

Section Generator.

Variable env : Env.

(** *** The base class [Generator] and its code writer *)

(** Modelled from the spec: the output protocol of the base class
    [Generator] (Generator.cpp and CodeWriter.cpp are not part of this
    file).  It has a sink that receives text, a current indent level, a
    begin-line/end-line protocol and a small options stack; a line begins
    with the indentation and ends with a line feed unless the options on
    top of the stack say otherwise. *)
Definition CurrentOptions (st : GenState) : Options :=
  match optionsStack st with
  | o :: _ => o
  | [] => {| enableNewLine := true; enableIndent := true |}
  end.

Definition FullIndent (st : GenState) : string :=
  repeat_string (indent_ st) (indentLevel st).

Definition Write (text : string) : Gen unit := tell [EvWrite text].

Definition BeginLn : Gen unit :=
  st <- getState ;;
  if enableIndent (CurrentOptions st) then Write (FullIndent st) else ret tt.

Definition EndLn : Gen unit :=
  st <- getState ;;
  if enableNewLine (CurrentOptions st) then Write newline else ret tt.

Definition WriteLn (text : string) : Gen unit :=
  BeginLn ;; Write text ;; EndLn.

Definition Blank : Gen unit := WriteLn "".

Definition IncIndent : Gen unit :=
  modify (fun st => set_indentLevel (S (indentLevel st)) st).

Definition DecIndent : Gen unit :=
  modify (fun st => set_indentLevel (pred (indentLevel st)) st).

Definition PushOptions (o : Options) : Gen unit :=
  modify (fun st => set_optionsStack (o :: optionsStack st) st).

Definition PopOptions : Gen unit :=
  modify (fun st => set_optionsStack (tl (optionsStack st)) st).

(** Modelled from the spec: the diagnostics of the base class [Generator].
    An error carries a message and, when a node is given, its position; it
    is raised as a structured report or recorded, after which emission
    continues.  A warning never aborts. *)
Definition Error (msg : string) (ast : option SourcePosition) : Gen unit :=
  let r := {| reportType := Severity_Error; message := msg;
              position := ast |} in
  if breakWithException env then throw (Exn_Report r) else tell [EvReport r].

Definition Warning (msg : string) (ast : option SourcePosition) : Gen unit :=
  tell [EvReport {| reportType := Severity_Warning; message := msg;
                    position := ast |}].

Definition ErrorInvalidNumArgs (functionName : string)
    (ast : option SourcePosition) : Gen unit :=
  Error ("invalid number of arguments for " ++ functionName) ast.

Definition GetProgram : Gen Program :=
  st <- getState ;; ret (program_ st).

(** [GetProgram()->entryPointRef], dereferenced. *)
Definition GetEntryPoint : Gen FunctionDecl :=
  program <- GetProgram ;;
  match entryPointRef program with
  | Some f => ret f
  | None => undefined
  end.

(** *** GLSLGenerator: lines 103 to 247 *)

Definition Comment (text : string) : Gen unit := WriteLn ("// " ++ text).

Definition Version (versionNumber : Z) : Gen unit :=
  WriteLn ("#version " ++ to_string versionNumber).

Definition Line (lineNumber : Z) : Gen unit :=
  st <- getState ;;
  if allowLineMarks_ (config st)
  then WriteLn ("#line " ++ to_string lineNumber)
  else ret tt.

(** [Line(const AST* ast)]. *)
Definition Line_AST (area : SourcePosition) : Gen unit := Line (Row area).

Definition WriteExtension (extensionName : string) : Gen unit :=
  WriteLn ("#extension " ++ extensionName ++ " : enable").

Definition WriteVersionAndExtensions (ast : Program) : Gen unit :=
  try_catch
    (st <- getState ;;
     requiredExtensions <-
       lift (DetermineRequiredExtensions env ast (versionOut_ (config st))
               (shaderTarget_ (config st)) (allowExtensions_ (config st))) ;;
     Version (versionOut_ (config st)) ;;
     Blank ;;
     match requiredExtensions with
     | [] => ret tt
     | _ :: _ => forEach WriteExtension requiredExtensions ;; Blank
     end)
    (fun e => Error (what e) None).

Definition WriteClipIntrinsics : Gen unit :=
  WriteLn "void clip(float x) { if (x < 0.0) discard; }" ;;
  forEach
    (fun typeName =>
       WriteLn ("void clip(" ++ typeName ++ " x) { if (any(lessThan(x, "
                ++ typeName ++ "(0.0)))) discard; }"))
    ["vec2"; "vec3"; "vec4"] ;;
  Blank.

Definition WriteReferencedIntrinsics (ast : Program) : Gen unit :=
  let Used intr := existsb intr (usedIntrinsics ast) in
  if Used Intrinsic_IsClip then WriteClipIntrinsics else ret tt.

Definition OpenScope : Gen unit := WriteLn "{" ;; IncIndent.

Definition CloseScope (semicolon : bool) : Gen unit :=
  DecIndent ;; WriteLn (if semicolon then "};" else "}").

(** [registerName[i]] of a [const std::string]: the character at [i], the
    null character at [i = size()], undefined beyond. *)
Definition string_at (s : string) (i : nat) : Gen ascii :=
  match String.get i s with
  | Some c => ret c
  | None => if Nat.eqb i (String.length s) then ret zero else undefined
  end.

(** [registerName.substr(1)]: throws [std::out_of_range] when the string
    is empty. *)
Definition substr1 (s : string) : Gen string :=
  match s with
  | EmptyString => throw (Exn_exception "basic_string::substr")
  | String _ r => ret r
  end.

Definition string_of_char (c : ascii) : string := String c "".

Definition empty (s : string) : bool :=
  match s with EmptyString => true | String _ _ => false end.

Definition ValidateRegisterPrefix (registerName : string) (prefix : ascii)
    (ast : option SourcePosition) : Gen unit :=
  invalid <-
    (if empty registerName then ret true
     else c <- string_at registerName 0 ;; ret (negb (Ascii.eqb c prefix))) ;;
  if invalid then
    c <- string_at registerName 0 ;;
    Error ("invalid register prefix '" ++ string_of_char c
           ++ "' (expected '" ++ string_of_char prefix ++ "')") ast
  else ret tt.

Definition BRegister (registerName : string) (ast : option SourcePosition)
  : Gen string :=
  ValidateRegisterPrefix registerName "b" ast ;; substr1 registerName.

Definition TRegister (registerName : string) (ast : option SourcePosition)
  : Gen string :=
  ValidateRegisterPrefix registerName "t" ast ;; substr1 registerName.

Definition SRegister (registerName : string) (ast : option SourcePosition)
  : Gen string :=
  ValidateRegisterPrefix registerName "s" ast ;; substr1 registerName.

Definition URegister (registerName : string) (ast : option SourcePosition)
  : Gen string :=
  ValidateRegisterPrefix registerName "u" ast ;; substr1 registerName.

Definition MustResolveStruct (ast : StructDecl) : Gen bool :=
  st <- getState ;;
  ret (MustResolveStructForTarget env (shaderTarget_ (config st)) ast).

Definition IsVersionOut (version : Z) : Gen bool :=
  st <- getState ;; ret (version <=? versionOut_ (config st)).


(** *** Identifier chains, type denoters, expressions and function calls *)

Definition FinalIdentFromVarIdent (ast : VarIdent) : string :=
  match ast with
  | mkVarIdent _ ident _ _ (Some (SymbolRef_VarDecl varDeclIdent)) =>
      varDeclIdent
  | mkVarIdent _ ident _ _ _ => ident
  end.

Fixpoint LastVarIdent (ast : VarIdent) : VarIdent :=
  match ast with
  | mkVarIdent _ _ _ (Some n) _ => LastVarIdent n
  | mkVarIdent _ _ _ None _ => ast
  end.

Definition WriteDataType (dataType : DataType) (ast : option SourcePosition)
  : Gen unit :=
  st <- getState ;;
  let dataType :=
    if versionOut_ (config st) <? GLSL400
    then DoubleToFloatDataType dataType else dataType in
  match DataTypeToGLSLKeyword env dataType with
  | Some keyword => Write keyword
  | None => Error "failed to map data type to GLSL keyword" ast
  end.

Definition GetTypeDenoterForSuffixVarIdent (lhsTypeDen : TypeDenoter)
    (ast : VarIdent) : Gen TypeDenoter :=
  match lhsTypeDen with
  | BaseTypeDenoter dataType =>
      subscriptDataType <-
        lift (SubscriptDataType env dataType (VarIdent_ident ast)) ;;
      ret (BaseTypeDenoter subscriptDataType)
  | _ =>
      t <- lift (GetExplicitTypeDenoter env ast) ;;
      ret (Get t)
  end.

Fixpoint WriteSuffixVarIdentBegin (lhsTypeDen : TypeDenoter) (ast : VarIdent)
  {struct ast} : Gen unit :=
  match ast with
  | mkVarIdent area ident _ next _ =>
      match next with
      | Some n =>
          typeDenoter <- GetTypeDenoterForSuffixVarIdent lhsTypeDen ast ;;
          WriteSuffixVarIdentBegin typeDenoter n
      | None => ret tt
      end ;;
      match lhsTypeDen with
      | BaseTypeDenoter dataType =>
          if IsScalarType dataType then
            subscriptDataType <- lift (SubscriptDataType env dataType ident) ;;
            WriteDataType subscriptDataType (Some area) ;;
            Write "("
          else ret tt
      | _ => ret tt
      end
  end.

(** The helpers below call [Visit] on the nodes under the one they write;
    [Visit] is the dispatch of the visitor, which the fixpoint
    [VisitExpr] further down provides. *)

Definition WriteArrayDims (Visit : Expr -> Gen unit) (arrayDims : list Expr)
  : Gen unit :=
  forEach (fun dim => Write "[" ;; Visit dim ;; Write "]") arrayDims.

Definition AssertIntrinsicNumArgs (ast : FunctionCall)
    (numArgsMin numArgsMax : nat) : Gen unit :=
  let size := List.length (FunctionCall_arguments ast) in
  if (size <? numArgsMin)%nat || (numArgsMax <? size)%nat
  then Error "invalid number of arguments in intrinsic"
             (Some (FunctionCall_area ast))
  else ret tt.

(** The lambda [WriteMulArgument] of [WriteFunctionCallIntrinsicMul]. *)
Definition WriteMulArgument (Visit : Expr -> Gen unit) (expr : Expr)
  : Gen unit :=
  let type := Expr_Type expr in
  if Types_beq type Types_TernaryExpr || Types_beq type Types_BinaryExpr
     || Types_beq type Types_UnaryExpr || Types_beq type Types_PostUnaryExpr
  then Write "(" ;; Visit expr ;; Write ")"
  else Visit expr.

Definition WriteFunctionCallIntrinsicMul (Visit : Expr -> Gen unit)
    (ast : FunctionCall) : Gen unit :=
  AssertIntrinsicNumArgs ast 2 2 ;;
  match ast with
  | mkFunctionCall _ _ _ _ arguments =>
      Write "(" ;;
      at_ arguments 0 (fun a0 => WriteMulArgument Visit a0) ;;
      Write " * " ;;
      at_ arguments 1 (fun a1 => WriteMulArgument Visit a1) ;;
      Write ")"
  end.

Definition WriteFunctionCallIntrinsicRcp (Visit : Expr -> Gen unit)
    (WriteTypeDenoter : TypeDenoter -> option SourcePosition -> Gen unit)
    (ast : FunctionCall) : Gen unit :=
  AssertIntrinsicNumArgs ast 1 1 ;;
  match ast with
  | mkFunctionCall area _ _ _ arguments =>
      at_ arguments 0 (fun expr =>
        t <- lift (GetTypeDenoter env expr) ;;
        let typeDenoter := Get t in
        match typeDenoter with
        | BaseTypeDenoter dataType =>
            Write "(" ;;
            WriteTypeDenoter (BaseTypeDenoter dataType) (Some area) ;;
            Write "(1) / (" ;;
            Visit expr ;;
            Write "))"
        | _ =>
            Error "invalid argument type for intrinsic 'rcp'"
                  (Some (Expr_area expr))
        end)
  end.

Definition WriteFunctionCallIntrinsicAtomic (Visit : Expr -> Gen unit)
    (ast : FunctionCall) : Gen unit :=
  AssertIntrinsicNumArgs ast 2 3 ;;
  match ast with
  | mkFunctionCall area varIdent _ intrinsic arguments =>
      match IntrinsicToGLSLKeyword env intrinsic with
      | Some keyword =>
          (if (3 <=? List.length arguments)%nat
           then at_ arguments 2 (fun a2 => Visit a2) ;; Write " = "
           else ret tt) ;;
          Write (keyword ++ "(") ;;
          at_ arguments 0 (fun a0 => Visit a0) ;;
          Write ", " ;;
          at_ arguments 1 (fun a1 => Visit a1) ;;
          Write ")"
      | None =>
          match varIdent with
          | Some v =>
              Error ("failed to map intrinsic '" ++ VarIdent_ToString env v
                     ++ "' to GLSL keyword") (Some area)
          | None => undefined
          end
      end
  end.

Definition Intrinsic_IsUndefined (i : Intrinsic) : bool :=
  match i with Intrinsic_Undefined => true | _ => false end.
Definition Intrinsic_IsMul (i : Intrinsic) : bool :=
  match i with Intrinsic_Mul => true | _ => false end.
Definition Intrinsic_IsRcp (i : Intrinsic) : bool :=
  match i with Intrinsic_Rcp => true | _ => false end.

Definition WriteFunctionCallStandard (Visit : Expr -> Gen unit)
    (VisitVarIdent : VarIdent -> Gen unit)
    (WriteTypeDenoter : TypeDenoter -> option SourcePosition -> Gen unit)
    (ast : FunctionCall) : Gen unit :=
  match ast with
  | mkFunctionCall area varIdent typeDenoter intrinsic arguments =>
      match varIdent with
      | Some v =>
          if negb (Intrinsic_IsUndefined intrinsic) then
            match IntrinsicToGLSLKeyword env intrinsic with
            | Some keyword => Write keyword
            | None =>
                Error ("failed to map intrinsic '"
                       ++ VarIdent_ToString env (LastVarIdent v)
                       ++ "' to GLSL keyword") (Some area)
            end
          else VisitVarIdent v
      | None =>
          match typeDenoter with
          | Some t => WriteTypeDenoter t (Some area)
          | None => Error "missing function name" (Some area)
          end
      end ;;
      Write "(" ;;
      forEachSeparated Visit (Write ", ") arguments ;;
      Write ")"
  end.

(** The body of [WriteVarIdent]; [WriteNext] is the call of
    [WriteVarIdent] on the next node of the chain, with the default value
    of [recursive]. *)
Definition WriteVarIdent_ (Visit : Expr -> Gen unit)
    (WriteNext : VarIdent -> Gen unit) (ast : VarIdent) (recursive : bool)
  : Gen unit :=
  match ast with
  | mkVarIdent _ _ arrayIndices next _ =>
      Write (FinalIdentFromVarIdent ast) ;;
      WriteArrayDims Visit arrayIndices ;;
      match next with
      | Some n => if recursive then Write "." ;; WriteNext n else ret tt
      | None => ret tt
      end
  end.

(** The handlers of [WriteTypeDenoter]: a [Report] is thrown again, any
    other exception becomes an error at [ast]. *)
Definition WriteTypeDenoter_catch (ast : option SourcePosition) (e : Exn)
  : Gen unit :=
  match e with
  | Exn_Report _ => throw e
  | _ => Error (what e) ast
  end.

Fixpoint WriteTypeDenoter_ (Visit : Expr -> Gen unit)
    (typeDenoter : TypeDenoter) (ast : option SourcePosition)
    {struct typeDenoter} : Gen unit :=
  try_catch
    match typeDenoter with
    | VoidTypeDenoter => Write "void"
    | BaseTypeDenoter dataType => WriteDataType dataType ast
    | TextureTypeDenoter textureType textureDeclRef =>
        textureType <-
          (if BufferType_IsUndefined textureType then
             match textureDeclRef with
             | Some declTextureType => ret declTextureType
             | None =>
                 Error "missing reference to texture type denoter" ast ;;
                 ret textureType
             end
           else ret textureType) ;;
        match BufferTypeToGLSLKeyword env textureType with
        | Some keyword => Write keyword
        | None => Error "failed to map texture type to GLSL keyword" ast
        end
    | StructTypeDenoter ident => Write ident
    | AliasTypeDenoter _ aliased => WriteTypeDenoter_ Visit aliased ast
    | ArrayTypeDenoter baseTypeDenoter arrayDims =>
        WriteTypeDenoter_ Visit baseTypeDenoter ast ;;
        WriteArrayDims Visit arrayDims
    end
    (WriteTypeDenoter_catch ast).

Fixpoint VisitExpr (ast : Expr) {struct ast} : Gen unit :=
  match ast with
  | ListExpr _ firstExpr nextExpr =>
      VisitExpr firstExpr ;; Write ", " ;; VisitExpr nextExpr
  | LiteralExpr _ value => Write value
  | TypeNameExpr area typeDenoter =>
      WriteTypeDenoter_ VisitExpr typeDenoter (Some area)
  | TernaryExpr _ condExpr thenExpr elseExpr =>
      VisitExpr condExpr ;; Write " ? " ;;
      VisitExpr thenExpr ;; Write " : " ;;
      VisitExpr elseExpr
  | BinaryExpr _ lhsExpr op rhsExpr =>
      VisitExpr lhsExpr ;;
      Write (" " ++ BinaryOpToString env op ++ " ") ;;
      VisitExpr rhsExpr
  | UnaryExpr _ op expr =>
      Write (UnaryOpToString env op) ;; VisitExpr expr
  | PostUnaryExpr _ expr op =>
      VisitExpr expr ;; Write (UnaryOpToString env op)
  | FunctionCallExpr _ call => VisitFunctionCall call
  | BracketExpr _ expr => Write "(" ;; VisitExpr expr ;; Write ")"
  | SuffixExpr _ expr varIdent =>
      t <- lift (GetTypeDenoter env expr) ;;
      let typeDenoter := Get t in
      WriteSuffixVarIdentBegin typeDenoter varIdent ;;
      VisitExpr expr ;;
      WriteSuffixVarIdentEnd typeDenoter varIdent
  | ArrayAccessExpr _ expr arrayIndices =>
      VisitExpr expr ;; WriteArrayDims VisitExpr arrayIndices
  | CastExpr _ typeExpr expr =>
      VisitExpr typeExpr ;; Write "(" ;; VisitExpr expr ;; Write ")"
  | VarAccessExpr _ varIdent assignOp assignExpr =>
      WriteVarIdent varIdent true ;;
      match assignExpr with
      | Some e =>
          Write (" " ++ AssignOpToString env assignOp ++ " ") ;; VisitExpr e
      | None => ret tt
      end
  | InitializerExpr _ exprs =>
      Write "{ " ;;
      forEachSeparated VisitExpr (Write ", ") exprs ;;
      Write " }"
  end

with VisitFunctionCall (ast : FunctionCall) {struct ast} : Gen unit :=
  match ast with
  | mkFunctionCall _ _ _ intrinsic _ =>
      if Intrinsic_IsMul intrinsic then
        WriteFunctionCallIntrinsicMul VisitExpr ast
      else if Intrinsic_IsRcp intrinsic then
        WriteFunctionCallIntrinsicRcp VisitExpr
          (WriteTypeDenoter_ VisitExpr) ast
      else if Intrinsic_IsInterlocked intrinsic then
        WriteFunctionCallIntrinsicAtomic VisitExpr ast
      else
        WriteFunctionCallStandard VisitExpr
          (fun v => WriteVarIdent v true) (WriteTypeDenoter_ VisitExpr) ast
  end

with WriteVarIdent (ast : VarIdent) (recursive : bool) {struct ast}
  : Gen unit :=
  WriteVarIdent_ VisitExpr (fun n => WriteVarIdent n true) ast recursive

with WriteSuffixVarIdentEnd (lhsTypeDen : TypeDenoter) (ast : VarIdent)
  {struct ast} : Gen unit :=
  match ast with
  | mkVarIdent _ _ _ next _ =>
      (if IsScalar lhsTypeDen then Write ")"
       else Write "." ;;
            WriteVarIdent_ VisitExpr (fun n => WriteVarIdent n true)
              ast false) ;;
      match next with
      | Some n =>
          typeDenoter <- GetTypeDenoterForSuffixVarIdent lhsTypeDen ast ;;
          WriteSuffixVarIdentEnd typeDenoter n
      | None => ret tt
      end
  end.

Definition VisitVarIdent (ast : VarIdent) : Gen unit := WriteVarIdent ast true.

Definition WriteTypeDenoter (typeDenoter : TypeDenoter)
    (ast : option SourcePosition) : Gen unit :=
  WriteTypeDenoter_ VisitExpr typeDenoter ast.


(** *** Declarations *)

Definition VisitVarDecl (ast : VarDecl) : Gen unit :=
  Write (VarDecl_ident ast) ;;
  WriteArrayDims VisitExpr (VarDecl_arrayDims ast) ;;
  match VarDecl_initializer ast with
  | Some initializer => Write " = " ;; VisitExpr initializer
  | None => ret tt
  end.

(** [WriteStructDecl]; [VisitMember] and [WriteMembers] are the calls of
    [Visit] on a member and of [WriteStructDeclMembers] that the fixpoint
    below provides. *)
Definition WriteStructDecl_ (VisitMember : VarDeclStmnt -> Gen unit)
    (WriteMembers : StructDecl -> Gen unit)
    (ast : StructDecl) (writeSemicolon allowNestedStruct : bool) : Gen unit :=
  match ast with
  | mkStructDecl _ ident aliasName _ isNestedStruct isShaderInput
      isShaderOutput members _ _ =>
      if negb isNestedStruct || allowNestedStruct then
        if isShaderInput || isShaderOutput then
          BeginLn ;;
          (if isShaderInput then Write "in " else Write "out ") ;;
          Write ident ;;
          EndLn ;;
          OpenScope ;;
          modify (set_isInsideInterfaceBlock true) ;;
          forEach VisitMember members ;;
          modify (set_isInsideInterfaceBlock false) ;;
          CloseScope false ;;
          WriteLn (aliasName ++ ";")
        else
          BeginLn ;;
          Write "struct" ;;
          (if negb (empty ident) then Write (" " ++ ident) else ret tt) ;;
          EndLn ;;
          OpenScope ;;
          WriteMembers ast ;;
          CloseScope writeSemicolon
      else if negb writeSemicolon then
        BeginLn ;;
        Write (ident ++ " ")
      else ret tt
  end.

(** [VisitStructDecl]; [args] is the extra argument of the visitor. *)
Definition VisitStructDecl_ (VisitMember : VarDeclStmnt -> Gen unit)
    (WriteMembers : StructDecl -> Gen unit)
    (ast : StructDecl) (args : option Z) : Gen unit :=
  mustResolve <- MustResolveStruct ast ;;
  if negb mustResolve then
    semicolon <- ArgsAsBool args ;;
    match ast with
    | mkStructDecl _ _ _ _ isNestedStruct _ _ _ nestedStructDeclRefs _ =>
        (if negb isNestedStruct then
           forEachReverse
             (fun nestedStruct =>
                WriteStructDecl_ VisitMember WriteMembers nestedStruct
                  true true ;;
                Blank)
             nestedStructDeclRefs
         else ret tt) ;;
        WriteStructDecl_ VisitMember WriteMembers ast semicolon false
    end
  else ret tt.

Definition isConst (modifier : string) : bool := String.eqb modifier "const".

Definition WriteTypeModifiers (typeModifiers : list string) : Gen unit :=
  forEach
    (fun modifier =>
       if isConst modifier then Write (modifier ++ " ") else ret tt)
    typeModifiers.

Fixpoint VisitVarType (ast : VarType) {struct ast} : Gen unit :=
  match ast with
  | mkVarType area structDecl typeDenoter =>
      match structDecl with
      | Some s => VisitStructDecl_ VisitVarDeclStmnt WriteStructDeclMembers
                    s None
      | None => WriteTypeDenoter typeDenoter (Some area)
      end
  end

with WriteStructDeclMembers (ast : StructDecl) {struct ast} : Gen unit :=
  match ast with
  | mkStructDecl _ _ _ _ _ _ _ members _ baseStructRef =>
      match baseStructRef with
      | Some b => WriteStructDeclMembers b
      | None => ret tt
      end ;;
      forEach VisitVarDeclStmnt members
  end

with VisitVarDeclStmnt (ast : VarDeclStmnt) {struct ast} : Gen unit :=
  match ast with
  | mkVarDeclStmnt area isShaderInput isShaderOutput _ storageClasses
      typeModifiers varType varDecls =>
      st <- getState ;;
      let varDecls :=
        filter
          (fun it =>
             negb (VarDecl_disableCodeGen it
                   || (isInsideInterfaceBlock_ st
                       && IsSystemValue (VarDecl_semantic it))))
          varDecls in
      match varDecls with
      | [] => ret tt
      | _ :: _ =>
          BeginLn ;;
          (if isShaderInput then Write "in "
           else if isShaderOutput then Write "out "
           else ret tt) ;;
          forEach
            (fun storageClass =>
               match StorageClassToGLSLKeyword env storageClass with
               | Some keyword => Write (keyword ++ " ")
               | None =>
                   Error "not all storage classes or interpolation modifiers can be mapped to GLSL keyword"
                         (Some area)
               end)
            storageClasses ;;
          WriteTypeModifiers typeModifiers ;;
          match varType with
          | mkVarType _ (Some _) _ => VisitVarType varType ;; BeginLn
          | mkVarType _ None _ => VisitVarType varType ;; Write " "
          end ;;
          forEachSeparated VisitVarDecl (Write ", ") varDecls ;;
          Write ";" ;;
          EndLn
      end
  end.

Definition WriteStructDecl (ast : StructDecl)
    (writeSemicolon allowNestedStruct : bool) : Gen unit :=
  WriteStructDecl_ VisitVarDeclStmnt WriteStructDeclMembers ast
    writeSemicolon allowNestedStruct.

Definition VisitStructDecl (ast : StructDecl) (args : option Z)
  : Gen unit :=
  VisitStructDecl_ VisitVarDeclStmnt WriteStructDeclMembers ast args.

Definition WriteParameter (ast : VarDeclStmnt) : Gen unit :=
  match ast with
  | mkVarDeclStmnt area _ _ inputModifier _ typeModifiers varType varDecls =>
      (if negb (empty inputModifier) then Write (inputModifier ++ " ")
       else ret tt) ;;
      WriteTypeModifiers typeModifiers ;;
      VisitVarType varType ;;
      Write " " ;;
      match varDecls with
      | [front] => VisitVarDecl front
      | _ => Error "invalid number of variables in function parameter"
                   (Some area)
      end
  end.


(** *** Attributes and the semantics of the entry point *)

Definition dquote : string := String (ascii_of_nat 34) "".

Definition WriteAttributeNumThreads (ast : Attribute) : Gen unit :=
  match Attribute_arguments ast with
  | [a0; a1; a2] =>
      BeginLn ;;
      Write "layout(local_size_x = " ;;
      VisitExpr a0 ;;
      Write ", local_size_y = " ;;
      VisitExpr a1 ;;
      Write ", local_size_z = " ;;
      VisitExpr a2 ;;
      Write ") in;" ;;
      EndLn
  | _ =>
      ErrorInvalidNumArgs (dquote ++ "numthreads" ++ dquote ++ " attribute")
        (Some (Attribute_area ast))
  end.

Definition WriteAttributeEarlyDepthStencil : Gen unit :=
  WriteLn "layout(early_fragment_tests) in;".

Definition WriteAttribute (ast : Attribute) : Gen unit :=
  if String.eqb (Attribute_ident ast) "numthreads" then
    WriteAttributeNumThreads ast
  else if String.eqb (Attribute_ident ast) "earlydepthstencil" then
    WriteAttributeEarlyDepthStencil
  else ret tt.

(** [for (auto x : l) if (f(x)) paramsWritten = true;] *)
Definition anyWritten {A} (f : A -> Gen bool) : list A -> Gen bool :=
  fix go l :=
    match l with
    | [] => ret false
    | x :: r => b <- f x ;; b' <- go r ;; ret (b || b')
    end.

Definition WriteLocalInputSemanticsVarDecl (ref : VarDeclRef) : Gen bool :=
  let v := varDecl ref in
  if IsValid (VarDecl_semantic v) then
    match SemanticToGLSLKeyword env (VarDecl_semantic v) with
    | Some semanticKeyword =>
        BeginLn ;;
        VisitVarType (declStmntRef_varType ref) ;;
        Write (" " ++ VarDecl_ident v ++ " = " ++ semanticKeyword ++ ";") ;;
        EndLn
    | None =>
        Error "failed to map semantic name to GLSL keyword"
              (Some (VarDecl_area v))
    end ;;
    ret true
  else ret false.

Definition WriteLocalInputSemantics : Gen unit :=
  entryPoint <- GetEntryPoint ;;
  let varDeclRefs := varDeclRefsSV (FunctionDecl_inputSemantics entryPoint) in
  paramsWritten <- anyWritten WriteLocalInputSemanticsVarDecl varDeclRefs ;;
  if paramsWritten then Blank else ret tt.

Definition WriteGlobalInputSemanticsVarDecl (ref : VarDeclRef) : Gen bool :=
  BeginLn ;;
  Write "in " ;;
  VisitVarType (declStmntRef_varType ref) ;;
  Write (" " ++ VarDecl_ident (varDecl ref) ++ ";") ;;
  EndLn ;;
  ret true.

Definition WriteGlobalInputSemantics : Gen unit :=
  entryPoint <- GetEntryPoint ;;
  let varDeclRefs := varDeclRefs (FunctionDecl_inputSemantics entryPoint) in
  paramsWritten <- anyWritten WriteGlobalInputSemanticsVarDecl varDeclRefs ;;
  if paramsWritten then Blank else ret tt.

Definition WriteLocalOutputSemanticsVarDecl (ref : VarDeclRef) : Gen bool :=
  BeginLn ;;
  VisitVarType (declStmntRef_varType ref) ;;
  Write (" " ++ VarDecl_ident (varDecl ref) ++ ";") ;;
  EndLn ;;
  ret true.

Definition WriteLocalOutputSemantics : Gen unit :=
  entryPoint <- GetEntryPoint ;;
  let varDeclRefs := varDeclRefsSV (FunctionDecl_outputSemantics entryPoint) in
  paramsWritten <- anyWritten WriteLocalOutputSemanticsVarDecl varDeclRefs ;;
  if paramsWritten then Blank else ret tt.

Definition WriteGlobalOutputSemanticsVarDecl (ref : VarDeclRef) : Gen bool :=
  let v := varDecl ref in
  BeginLn ;;
  (if IsValid (VarDecl_semantic v)
   then Write ("layout(location = " ++ to_string (Index (VarDecl_semantic v))
               ++ ") out ")
   else Write "out ") ;;
  VisitVarType (declStmntRef_varType ref) ;;
  Write (" " ++ VarDecl_ident v ++ ";") ;;
  EndLn ;;
  ret true.

Definition WriteGlobalOutputSemantics : Gen unit :=
  entryPoint <- GetEntryPoint ;;
  let varDeclRefs := varDeclRefs (FunctionDecl_outputSemantics entryPoint) in
  paramsWritten <- anyWritten WriteGlobalOutputSemanticsVarDecl varDeclRefs ;;
  if paramsWritten then Blank else ret tt.

Definition WriteOutputSemanticsAssignment (ast : option Expr) : Gen unit :=
  entryPoint <- GetEntryPoint ;;
  let semantic := FunctionDecl_semantic entryPoint in
  let varDeclRefs := varDeclRefsSV (FunctionDecl_outputSemantics entryPoint) in
  st <- getState ;;
  match varDeclRefs with
  | _ :: _ =>
      forEach
        (fun ref =>
           let v := varDecl ref in
           if IsValid (VarDecl_semantic v) then
             match SemanticToGLSLKeyword env (VarDecl_semantic v) with
             | Some semanticKeyword =>
                 BeginLn ;;
                 Write (semanticKeyword ++ " = " ++ VarDecl_ident v ++ ";") ;;
                 EndLn
             | None => ret tt
             end
           else ret tt)
        varDeclRefs
  | [] =>
      match (if IsSystemValue semantic then ast else None) with
      | Some e =>
          match SemanticToGLSLKeyword env semantic with
          | Some semanticKeyword =>
              BeginLn ;;
              Write semanticKeyword ;;
              Write " = " ;;
              VisitExpr e ;;
              Write ";" ;;
              EndLn
          | None =>
              Error "failed to map output semantic to GLSL keyword"
                    (Some (FunctionDecl_area entryPoint))
          end
      | None =>
          if negb (ShaderTarget_eqb (shaderTarget_ (config st))
                     ComputeShader)
          then Error "missing output semantic" (option_map Expr_area ast)
          else ret tt
      end
  end.

(** *** Statements without statements under them *)

Definition VisitNullStmnt : Gen unit := WriteLn ";".

Definition VisitExprStmnt (expr : Expr) : Gen unit :=
  BeginLn ;;
  VisitExpr expr ;;
  Write ";" ;;
  EndLn.

Definition VisitReturnStmnt (ast : ReturnStmnt) : Gen unit :=
  st <- getState ;;
  if isInsideEntryPoint_ st then
    WriteOutputSemanticsAssignment (ReturnStmnt_expr ast) ;;
    if negb (isEndOfFunction ast) then WriteLn "return;" else ret tt
  else
    match ReturnStmnt_expr ast with
    | Some expr =>
        BeginLn ;;
        Write "return " ;;
        VisitExpr expr ;;
        Write ";" ;;
        EndLn
    | None =>
        if negb (isEndOfFunction ast) then WriteLn "return;" else ret tt
    end.

Definition VisitCtrlTransferStmnt (transfer : CtrlTransfer) : Gen unit :=
  WriteLn (CtrlTransformToString env transfer ++ ";").

Definition VisitBufferDeclStmnt (ast : BufferDeclStmnt) : Gen unit :=
  if negb (BufferDeclStmnt_isReachable ast) then ret tt
  else
    st <- getState ;;
    Line_AST (BufferDeclStmnt_area ast) ;;
    BeginLn ;;
    Write "layout(std140" ;;
    match Register_GetForTarget env (BufferDeclStmnt_slotRegisters ast)
            (shaderTarget_ (config st)) with
    | Some slotRegister =>
        Write (", binding = " ++ to_string (slot slotRegister))
    | None => ret tt
    end ;;
    Write ") uniform " ;;
    Write (BufferDeclStmnt_ident ast) ;;
    EndLn ;;
    OpenScope ;;
    forEach VisitVarDeclStmnt (BufferDeclStmnt_members ast) ;;
    CloseScope true ;;
    Blank.

(** The body of the loop of [VisitTextureDeclStmnt]. *)
Definition WriteTextureDecl (samplerType : option string)
    (texDecl : TextureDecl) : Gen unit :=
  if TextureDecl_isReachable texDecl then
    st <- getState ;;
    BeginLn ;;
    let binding := -1 in
    match Register_GetForTarget env (TextureDecl_slotRegisters texDecl)
            (shaderTarget_ (config st)) with
    | Some slotRegister =>
        Write ("layout(binding = " ++ to_string (slot slotRegister) ++ ") ")
    | None => ret tt
    end ;;
    match samplerType with
    | Some keyword =>
        Write ("uniform " ++ keyword ++ " " ++ TextureDecl_ident texDecl
               ++ ";")
    | None => undefined
    end ;;
    (if stats_ (config st)
     then tell [EvTexture (TextureDecl_ident texDecl) binding]
     else ret tt) ;;
    EndLn
  else ret tt.

Definition VisitTextureDeclStmnt (ast : TextureDeclStmnt) : Gen unit :=
  if negb (TextureDeclStmnt_isReachable ast) then ret tt
  else
    let samplerType := BufferTypeToGLSLKeyword env (textureType_ ast) in
    match samplerType with
    | Some _ => ret tt
    | None =>
        Error "failed to map texture type to GLSL sampler type"
              (Some (TextureDeclStmnt_area ast))
    end ;;
    forEach (WriteTextureDecl samplerType) (textureDecls ast) ;;
    Blank.

Definition VisitStructDeclStmnt (ast : StructDeclStmnt) : Gen unit :=
  if negb (StructDecl_isReachable (StructDeclStmnt_structDecl ast))
  then ret tt
  else
    mustResolve <- MustResolveStruct (StructDeclStmnt_structDecl ast) ;;
    if negb mustResolve then
      Line_AST (StructDeclStmnt_area ast) ;;
      let semicolon := AddressOfLocal env (StructDeclStmnt_area ast) in
      VisitStructDecl (StructDeclStmnt_structDecl ast) (Some semicolon) ;;
      Blank
    else ret tt.

Definition VisitAliasDeclStmnt (ast : AliasDeclStmnt) : Gen unit :=
  match AliasDeclStmnt_structDecl ast with
  | Some structDecl =>
      if negb (StructDecl_IsAnonymous structDecl) then
        Line_AST (AliasDeclStmnt_area ast) ;;
        let semicolon := AddressOfLocal env (AliasDeclStmnt_area ast) in
        VisitStructDecl structDecl (Some semicolon) ;;
        Blank
      else ret tt
  | None => ret tt
  end.


(** *** Statements *)

(** [Visit] of a pointer that may be null. *)
Definition VisitOptional {A} (Visit : A -> Gen unit) (ast : option A)
  : Gen unit :=
  match ast with
  | Some a => Visit a
  | None => ret tt
  end.

Definition WriteScopedStmnt_ (Visit : Stmnt -> Gen unit) (ast : option Stmnt)
  : Gen unit :=
  match ast with
  | Some s =>
      if negb (Types_beq (Stmnt_Type s) Types_CodeBlockStmnt) then
        IncIndent ;; Visit s ;; DecIndent
      else Visit s
  | None => ret tt
  end.

(** [ast->codeBlock->stmnts.empty() ||
     ast->codeBlock->stmnts.back()->Type() != AST::Types::ReturnStmnt] *)
Definition lastIsNotReturnStmnt (stmnts : list Stmnt) : bool :=
  match rev stmnts with
  | [] => true
  | back :: _ => negb (Types_beq (Stmnt_Type back) Types_ReturnStmnt)
  end.

(** The visitor.  [args] is the extra argument of [Visit]: the flag some
    callers pass to the node they visit ([IfStmnt] and [StructDecl] read
    it), or nothing. *)
Fixpoint VisitStmnt (ast : Stmnt) (args : option Z) {struct ast}
  : Gen unit :=
  match ast with
  | Stmnt_Null _ => VisitNullStmnt
  | Stmnt_CodeBlock s => VisitCodeBlockStmnt s
  | Stmnt_ForLoop s => VisitForLoopStmnt s
  | Stmnt_WhileLoop s => VisitWhileLoopStmnt s
  | Stmnt_DoWhileLoop s => VisitDoWhileLoopStmnt s
  | Stmnt_If s => VisitIfStmnt s args
  | Stmnt_Else s => VisitElseStmnt s
  | Stmnt_Switch s => VisitSwitchStmnt s
  | Stmnt_Expr _ expr => VisitExprStmnt expr
  | Stmnt_Return s => VisitReturnStmnt s
  | Stmnt_CtrlTransfer _ transfer => VisitCtrlTransferStmnt transfer
  | Stmnt_FunctionDecl s => VisitFunctionDecl s
  | Stmnt_BufferDecl s => VisitBufferDeclStmnt s
  | Stmnt_TextureDecl s => VisitTextureDeclStmnt s
  | Stmnt_StructDecl s => VisitStructDeclStmnt s
  | Stmnt_VarDecl s => VisitVarDeclStmnt s
  | Stmnt_AliasDecl s => VisitAliasDeclStmnt s
  end

with VisitCodeBlock (ast : CodeBlock) {struct ast} : Gen unit :=
  match ast with
  | mkCodeBlock _ stmnts =>
      OpenScope ;;
      forEach (fun s => VisitStmnt s None) stmnts ;;
      CloseScope false
  end

with VisitCodeBlockStmnt (ast : CodeBlockStmnt) {struct ast} : Gen unit :=
  match ast with
  | mkCodeBlockStmnt _ codeBlock => VisitCodeBlock codeBlock
  end

with VisitForLoopStmnt (ast : ForLoopStmnt) {struct ast} : Gen unit :=
  match ast with
  | mkForLoopStmnt _ initSmnt condition iteration bodyStmnt =>
      BeginLn ;;
      Write "for (" ;;
      PushOptions {| enableNewLine := false; enableIndent := false |} ;;
      VisitOptional (fun s => VisitStmnt s None) initSmnt ;;
      Write " " ;;
      VisitOptional VisitExpr condition ;;
      Write "; " ;;
      VisitOptional VisitExpr iteration ;;
      PopOptions ;;
      Write ")" ;;
      EndLn ;;
      WriteScopedStmnt_ (fun s => VisitStmnt s None) bodyStmnt
  end

with VisitWhileLoopStmnt (ast : WhileLoopStmnt) {struct ast} : Gen unit :=
  match ast with
  | mkWhileLoopStmnt _ condition bodyStmnt =>
      BeginLn ;;
      Write "while (" ;;
      VisitOptional VisitExpr condition ;;
      Write ")" ;;
      EndLn ;;
      WriteScopedStmnt_ (fun s => VisitStmnt s None) bodyStmnt
  end

with VisitDoWhileLoopStmnt (ast : DoWhileLoopStmnt) {struct ast}
  : Gen unit :=
  match ast with
  | mkDoWhileLoopStmnt _ bodyStmnt condition =>
      WriteLn "do" ;;
      WriteScopedStmnt_ (fun s => VisitStmnt s None) bodyStmnt ;;
      BeginLn ;;
      Write "while (" ;;
      VisitOptional VisitExpr condition ;;
      Write ");" ;;
      EndLn
  end

with VisitIfStmnt (ast : IfStmnt) (args : option Z) {struct ast}
  : Gen unit :=
  match ast with
  | mkIfStmnt _ condition bodyStmnt elseStmnt =>
      hasElseParentNode <- ArgsAsBool args ;;
      (if negb hasElseParentNode then BeginLn else ret tt) ;;
      Write "if (" ;;
      VisitOptional VisitExpr condition ;;
      Write ")" ;;
      EndLn ;;
      WriteScopedStmnt_ (fun s => VisitStmnt s None) bodyStmnt ;;
      VisitOptional VisitElseStmnt elseStmnt
  end

with VisitElseStmnt (ast : ElseStmnt) {struct ast} : Gen unit :=
  match ast with
  | mkElseStmnt area bodyStmnt =>
      if Types_beq (Stmnt_Type bodyStmnt) Types_IfStmnt then
        BeginLn ;;
        Write "else " ;;
        let hasElseParentNode := AddressOfLocal env area in
        VisitStmnt bodyStmnt (Some hasElseParentNode)
      else
        WriteLn "else" ;;
        WriteScopedStmnt_ (fun s => VisitStmnt s None) (Some bodyStmnt)
  end

with VisitSwitchStmnt (ast : SwitchStmnt) {struct ast} : Gen unit :=
  match ast with
  | mkSwitchStmnt _ selector cases =>
      BeginLn ;;
      Write "switch (" ;;
      VisitOptional VisitExpr selector ;;
      Write ")" ;;
      EndLn ;;
      OpenScope ;;
      forEach VisitSwitchCase cases ;;
      CloseScope false
  end

with VisitSwitchCase (ast : SwitchCase) {struct ast} : Gen unit :=
  match ast with
  | mkSwitchCase _ expr stmnts =>
      match expr with
      | Some e =>
          BeginLn ;;
          Write "case " ;;
          VisitExpr e ;;
          Write ":" ;;
          EndLn
      | None => WriteLn "default:"
      end ;;
      IncIndent ;;
      forEach (fun s => VisitStmnt s None) stmnts ;;
      DecIndent
  end

with VisitFunctionDecl (ast : FunctionDecl) {struct ast} : Gen unit :=
  match ast with
  | mkFunctionDecl area ident isReachable hasNonReturnControlPath
      isEntryPoint returnType parameters codeBlock _ _ _ _ =>
      if negb isReachable then
        if hasNonReturnControlPath then
          Warning ("not all control paths in unreferenced function '"
                   ++ ident ++ "' return a value") (Some area)
        else ret tt
      else
        (if hasNonReturnControlPath then
           Error ("not all control paths in function '" ++ ident
                  ++ "' return a value") (Some area)
         else ret tt) ;;
        Line_AST area ;;
        BeginLn ;;
        (if isEntryPoint then Write "void main()"
         else
           VisitVarType returnType ;;
           Write (" " ++ ident ++ "(") ;;
           forEachSeparated WriteParameter (Write ", ") parameters ;;
           Write ")" ;;
           match codeBlock with
           | None => Write ";"
           | Some _ => ret tt
           end) ;;
        EndLn ;;
        match codeBlock with
        | Some (mkCodeBlock _ stmnts as block) =>
            if isEntryPoint then
              OpenScope ;;
              WriteLocalInputSemantics ;;
              WriteLocalOutputSemantics ;;
              modify (set_isInsideEntryPoint true) ;;
              forEach (fun s => VisitStmnt s None) stmnts ;;
              modify (set_isInsideEntryPoint false) ;;
              (if lastIsNotReturnStmnt stmnts
               then WriteOutputSemanticsAssignment None
               else ret tt) ;;
              CloseScope false
            else VisitCodeBlock block
        | None => ret tt
        end ;;
        Blank
  end.

(** *** The program *)

Definition VisitProgram (ast : Program) : Gen unit :=
  WriteVersionAndExtensions ast ;;
  st <- getState ;;
  (if ShaderTarget_eqb (shaderTarget_ (config st)) FragmentShader then
     program <- GetProgram ;;
     BeginLn ;;
     Write "layout(origin_upper_left" ;;
     (if hasSM3ScreenSpace program
      then Write ", pixel_center_integer" else ret tt) ;;
     Write ") in vec4 gl_FragCoord;" ;;
     EndLn ;;
     Blank
   else ret tt) ;;
  match entryPointRef ast with
  | Some entryPoint =>
      match FunctionDecl_attribs entryPoint with
      | [] => ret tt
      | _ :: _ =>
          forEach WriteAttribute (FunctionDecl_attribs entryPoint) ;;
          Blank
      end
  | None => undefined
  end ;;
  WriteReferencedIntrinsics ast ;;
  (if ShaderTarget_eqb (shaderTarget_ (config st)) VertexShader then
     WriteGlobalInputSemantics
   else if ShaderTarget_eqb (shaderTarget_ (config st)) FragmentShader then
     WriteGlobalOutputSemantics
   else ret tt) ;;
  forEach (fun s => VisitStmnt s None) (globalStmnts ast).

(** The description of the input and of the output. *)
Record ShaderInput : Type := {
  shaderTarget : ShaderTarget;
  entryPoint : string
}.

Record ShaderOutput : Type := {
  shaderVersion : OutputShaderVersion;
  options_allowExtensions : bool;
  formatting_lineMarks : bool;
  formatting_prefix : string;
  statistics : bool
}.

(** The handlers of [GenerateCodePrimary]. *)
Definition GenerateCodePrimary_catch (e : Exn) : Gen unit :=
  match e with
  | Exn_Report _ => throw e
  | Exn_ASTRuntimeError msg ast => Error msg ast
  | Exn_exception msg => Error msg None
  end.

(** [TimePoint] is what the clock reads when the header is written.  The
    three passes that run first change the tree in place; [GetProgram()]
    returns that same tree, so the changed tree is stored in [program_]. *)
Definition GenerateCodePrimary (TimePoint : string) (program : Program)
    (inputDesc : ShaderInput) (outputDesc : ShaderOutput) : Gen unit :=
  modify (set_config
            {| shaderTarget_ := shaderTarget inputDesc;
               versionOut_ := shaderVersion outputDesc;
               allowExtensions_ := options_allowExtensions outputDesc;
               allowLineMarks_ := formatting_lineMarks outputDesc;
               nameManglingPrefix_ := formatting_prefix outputDesc;
               stats_ := statistics outputDesc |}) ;;
  match entryPointRef program with
  | Some _ =>
      try_catch
        (st <- getState ;;
         program <- lift (MarkControlPaths env program) ;;
         program <- lift (Convert env program (shaderTarget inputDesc)
                            (formatting_prefix outputDesc)) ;;
         program <- lift (MarkReferencesFromEntryPoint env program) ;;
         modify (set_program program) ;;
         (if empty (entryPoint inputDesc) then
            Comment ("GLSL " ++ TargetToString env (shaderTarget_ (config st)))
          else
            Comment ("GLSL " ++ TargetToString env (shaderTarget_ (config st))
                     ++ " " ++ dquote ++ entryPoint inputDesc ++ dquote)) ;;
         Comment "Generated by XShaderCompiler" ;;
         Comment TimePoint ;;
         Blank ;;
         VisitProgram program)
        GenerateCodePrimary_catch
  | None =>
      Error ("entry point " ++ dquote ++ entryPoint inputDesc ++ dquote
             ++ " not found") None
  end.

End Generator.

(* ===================================================================== *)
(** ** A concrete environment *)
(* ===================================================================== *)

(** Keyword tables and helpers in the style of the ones of the compiler,
    on which the generator can be run. *)
Module Demo.

Definition scalarPrefix (s : ScalarType) : string :=
  match s with
  | Bool_ => "b" | Int_ => "i" | UInt_ => "u"
  | Half_ | Float_ => "" | Double_ => "d"
  end.

Definition scalarKeyword (s : ScalarType) : string :=
  match s with
  | Bool_ => "bool" | Int_ => "int" | UInt_ => "uint"
  | Half_ | Float_ => "float" | Double_ => "double"
  end.

Definition dimension (n : nat) : option string :=
  match n with
  | 2%nat => Some "2" | 3%nat => Some "3" | 4%nat => Some "4"
  | _ => None
  end.

Definition dataTypeKeyword (d : DataType) : option string :=
  match d with
  | DataType_Undefined => None
  | Scalar s => Some (scalarKeyword s)
  | Vector s n =>
      match dimension n with
      | Some k => Some (scalarPrefix s ++ "vec" ++ k)
      | None => None
      end
  | Matrix s r c =>
      match dimension r, dimension c with
      | Some kr, Some kc =>
          Some (scalarPrefix s ++ "mat"
                ++ (if Nat.eqb r c then kr else kr ++ "x" ++ kc))
      | _, _ => None
      end
  end.

Definition bufferTypeKeyword (b : BufferType) : option string :=
  match b with
  | BufferType_Undefined => None
  | Buffer_ => Some "samplerBuffer"
  | Texture1D => Some "sampler1D"
  | Texture1DArray => Some "sampler1DArray"
  | Texture2D => Some "sampler2D"
  | Texture2DArray => Some "sampler2DArray"
  | Texture3D => Some "sampler3D"
  | TextureCube => Some "samplerCube"
  | TextureCubeArray => Some "samplerCubeArray"
  | Texture2DMS => Some "sampler2DMS"
  | Texture2DMSArray => Some "sampler2DMSArray"
  end.

Definition storageClassKeyword (c : StorageClass) : option string :=
  match c with
  | Extern => Some "extern"
  | GroupShared => Some "shared"
  | Static => Some "static"
  | Volatile => Some "volatile"
  | NoInterpolation => Some "flat"
  | Linear => Some "smooth"
  | Centroid => Some "centroid"
  | NoPerspective => Some "noperspective"
  | Sample => Some "sample"
  | _ => None
  end.

Definition intrinsicKeyword (i : Intrinsic) : option string :=
  match i with
  | Intrinsic_Clip => Some "clip"
  | Intrinsic_InterlockedAdd => Some "atomicAdd"
  | Intrinsic_InterlockedAnd => Some "atomicAnd"
  | Intrinsic_InterlockedOr => Some "atomicOr"
  | Intrinsic_InterlockedXor => Some "atomicXor"
  | Intrinsic_InterlockedMin => Some "atomicMin"
  | Intrinsic_InterlockedMax => Some "atomicMax"
  | Intrinsic_InterlockedCompareExchange => Some "atomicCompSwap"
  | Intrinsic_InterlockedExchange => Some "atomicExchange"
  | Intrinsic_Other name => Some name
  | _ => None
  end.

Definition semanticKeyword (s : IndexedSemantic) : option string :=
  match semantic_ s with
  | Semantic_SystemValue name =>
      if String.eqb name "SV_Position" then Some "gl_Position"
      else if String.eqb name "SV_Depth" then Some "gl_FragDepth"
      else if String.eqb name "SV_VertexID" then Some "gl_VertexID"
      else None
  | _ => None
  end.

Definition binaryOpString (o : BinaryOp) : string :=
  match o with
  | LogicalAnd => "&&" | LogicalOr => "||" | Or => "|" | Xor => "^"
  | And => "&" | LShift => "<<" | RShift => ">>"
  | Add => "+" | Sub => "-" | Mul => "*" | Div => "/" | Mod => "%"
  | Equal => "==" | NotEqual => "!=" | Less => "<" | Greater => ">"
  | LessEqual => "<=" | GreaterEqual => ">="
  end.

Definition unaryOpString (o : UnaryOp) : string :=
  match o with
  | LogicalNot => "!" | Not => "~" | Nop => "+" | Negate => "-"
  | Inc => "++" | Dec => "--"
  end.

Definition assignOpString (o : AssignOp) : string :=
  match o with
  | AssignSet => "=" | AssignAdd => "+=" | AssignSub => "-="
  | AssignMul => "*=" | AssignDiv => "/=" | AssignMod => "%="
  | AssignLShift => "<<=" | AssignRShift => ">>=" | AssignOr => "|="
  | AssignAnd => "&=" | AssignXor => "^="
  end.

Definition ctrlTransferString (c : CtrlTransfer) : string :=
  match c with
  | Break => "break" | Continue => "continue" | Discard => "discard"
  end.

Definition targetString (t : ShaderTarget) : string :=
  match t with
  | VertexShader => "Vertex Shader"
  | TessellationControlShader => "Tessellation Control Shader"
  | TessellationEvaluationShader => "Tessellation Evaluation Shader"
  | GeometryShader => "Geometry Shader"
  | FragmentShader => "Fragment Shader"
  | ComputeShader => "Compute Shader"
  end.

Definition subscriptDataType (d : DataType) (subscript : string)
  : Exn + DataType :=
  let n := String.length subscript in
  let scalar :=
    match d with
    | Scalar s | Vector s _ => Some s
    | _ => None
    end in
  match scalar, n with
  | Some s, 1%nat => inr (Scalar s)
  | Some s, 2%nat | Some s, 3%nat | Some s, 4%nat => inr (Vector s n)
  | _, _ => inl (Exn_exception "invalid vector subscript")
  end.

(** The type of a few expressions: a literal is a [float], brackets and
    casts have the type under them, a variable is of the structure [S]. *)
Fixpoint typeDenoterOf (e : Expr) : Exn + TypeDenoter :=
  match e with
  | LiteralExpr _ _ => inr (BaseTypeDenoter (Scalar Float_))
  | BracketExpr _ x => typeDenoterOf x
  | TypeNameExpr _ t => inr t
  | CastExpr _ t _ => typeDenoterOf t
  | VarAccessExpr _ _ _ _ => inr (StructTypeDenoter "S")
  | _ => inl (Exn_ASTRuntimeError "missing type denoter" (Some (Expr_area e)))
  end.

Fixpoint varIdentString (v : VarIdent) : string :=
  match v with
  | mkVarIdent _ ident _ (Some n) _ => ident ++ "." ++ varIdentString n
  | mkVarIdent _ ident _ None _ => ident
  end.

Definition getForTarget (registers : list Register) (target : ShaderTarget)
  : option Register :=
  find
    (fun r =>
       match registerTarget r with
       | None => true
       | Some t => ShaderTarget_eqb t target
       end)
    registers.

(** The environment; [break] is the policy of [Error]. *)
Definition glsl (break : bool) : Env := {|
  breakWithException := break;
  AddressOfLocal := fun area => 0x7fffffffe001 + 256 * Row area;
  TargetToString := targetString;
  DataTypeToGLSLKeyword := dataTypeKeyword;
  BufferTypeToGLSLKeyword := bufferTypeKeyword;
  StorageClassToGLSLKeyword := storageClassKeyword;
  IntrinsicToGLSLKeyword := intrinsicKeyword;
  SemanticToGLSLKeyword := semanticKeyword;
  BinaryOpToString := binaryOpString;
  UnaryOpToString := unaryOpString;
  AssignOpToString := assignOpString;
  CtrlTransformToString := ctrlTransferString;
  SubscriptDataType := subscriptDataType;
  MustResolveStructForTarget := fun _ _ => false;
  GetTypeDenoter := typeDenoterOf;
  GetExplicitTypeDenoter :=
    fun v => inl (Exn_ASTRuntimeError "missing symbol reference"
                    (Some (VarIdent_area v)));
  VarIdent_ToString := varIdentString;
  Register_GetForTarget := getForTarget;
  DetermineRequiredExtensions := fun _ _ _ _ => inr [];
  MarkControlPaths := fun p => inr p;
  Convert := fun p _ _ => inr p;
  MarkReferencesFromEntryPoint := fun p => inr p
|}.

Definition at_row (n : Z) : SourcePosition := {| Row := n; Column := 1 |}.

Definition lit (s : string) : Expr := LiteralExpr (at_row 1) s.

Definition var (s : string) : Expr :=
  VarAccessExpr (at_row 1) (mkVarIdent (at_row 1) s [] None None)
    AssignSet None.

Definition noSemantic : IndexedSemantic :=
  {| semantic_ := Semantic_Undefined; index_ := 0 |}.

Definition noSemantics : SemanticBucket :=
  {| varDeclRefs := []; varDeclRefsSV := [] |}.

Definition void : VarType := mkVarType (at_row 1) None VoidTypeDenoter.

Definition vec4 : VarType :=
  mkVarType (at_row 1) None (BaseTypeDenoter (Vector Float_ 4)).

(** [void main() { }] of a compute shader. *)
Definition main_empty : FunctionDecl :=
  mkFunctionDecl (at_row 3) "main" true false true void []
    (Some (mkCodeBlock (at_row 3) [])) [] noSemantics noSemantics noSemantic.

Definition program_empty : Program := {|
  entryPointRef := Some main_empty;
  globalStmnts := [Stmnt_FunctionDecl main_empty];
  usedIntrinsics := [];
  hasSM3ScreenSpace := false
|}.

(** The vertex shader [float4 main(float4 p : POSITION) : SV_Position
    { return p; }] after the conversion. *)
Definition decl_p : VarDecl := {|
  VarDecl_area := at_row 1; VarDecl_ident := "p"; VarDecl_arrayDims := [];
  VarDecl_initializer := None;
  VarDecl_semantic :=
    {| semantic_ := Semantic_UserDefined "POSITION"; index_ := 0 |};
  VarDecl_disableCodeGen := false
|}.

Definition main_passthrough : FunctionDecl :=
  mkFunctionDecl (at_row 1) "main" true false true void []
    (Some (mkCodeBlock (at_row 1)
             [Stmnt_Return {| ReturnStmnt_area := at_row 1;
                              ReturnStmnt_expr := Some (var "p");
                              isEndOfFunction := true |}]))
    []
    {| varDeclRefs := [{| varDecl := decl_p; declStmntRef_varType := vec4 |}];
       varDeclRefsSV := [] |}
    noSemantics
    {| semantic_ := Semantic_SystemValue "SV_Position"; index_ := 0 |}.

Definition program_passthrough : Program := {|
  entryPointRef := Some main_passthrough;
  globalStmnts := [Stmnt_FunctionDecl main_passthrough];
  usedIntrinsics := [];
  hasSM3ScreenSpace := false
|}.

Definition config0 (target : ShaderTarget) (lineMarks stats : bool)
  : Config := {|
  shaderTarget_ := target; versionOut_ := 330; allowExtensions_ := false;
  allowLineMarks_ := lineMarks; nameManglingPrefix_ := "xsc_";
  stats_ := stats
|}.

(** The fields of a generator that has written nothing yet. *)
Definition fresh (program : Program) (c : Config) : GenState := {|
  indent_ := "    "; indentLevel := 0; optionsStack := [];
  program_ := program; config := c;
  isInsideEntryPoint_ := false; isInsideInterfaceBlock_ := false
|}.

Definition vertexInput : ShaderInput :=
  {| shaderTarget := VertexShader; entryPoint := "main" |}.

Definition computeInput : ShaderInput :=
  {| shaderTarget := ComputeShader; entryPoint := "" |}.

Definition glsl330 : ShaderOutput := {|
  shaderVersion := 330; options_allowExtensions := false;
  formatting_lineMarks := false; formatting_prefix := "xsc_";
  statistics := false
|}.

(** Inputs on which the properties below are run. *)
Definition state_compute : GenState :=
  fresh program_empty (config0 ComputeShader false false).

Definition state_vertex : GenState :=
  fresh program_passthrough (config0 VertexShader false false).

Definition state_entry : GenState := set_isInsideEntryPoint true state_vertex.

Definition state_marks : GenState :=
  fresh program_empty (config0 ComputeShader true false).

Definition state_stats : GenState :=
  fresh program_empty (config0 FragmentShader false true).

(** [mul(M, p + v)] *)
Definition call_mul : FunctionCall :=
  mkFunctionCall (at_row 1) None None Intrinsic_Mul
    [lit "M"; BinaryExpr (at_row 1) (lit "p") Add (lit "v")].

(** [rcp(x)] with [x] a [float] *)
Definition call_rcp : FunctionCall :=
  mkFunctionCall (at_row 1) None None Intrinsic_Rcp [lit "x"].

(** [rcp(s)] with [s] a structure *)
Definition call_rcp_struct : FunctionCall :=
  mkFunctionCall (at_row 1) None None Intrinsic_Rcp [var "s"].

Definition float : VarType :=
  mkVarType (at_row 1) None (BaseTypeDenoter (Scalar Float_)).

(** [float f() { }], with a path that does not return, not referenced and
    referenced. *)
Definition f_unreferenced : FunctionDecl :=
  mkFunctionDecl (at_row 5) "f" false true false float []
    (Some (mkCodeBlock (at_row 5) [])) [] noSemantics noSemantics noSemantic.

Definition f_referenced : FunctionDecl :=
  mkFunctionDecl (at_row 5) "f" true true false float []
    (Some (mkCodeBlock (at_row 5) [])) [] noSemantics noSemantics noSemantic.

(** [return p;] in the middle of a function, and a bare [return;] at its
    end. *)
Definition return_p : ReturnStmnt :=
  {| ReturnStmnt_area := at_row 2; ReturnStmnt_expr := Some (var "p");
     isEndOfFunction := false |}.

Definition return_at_end : ReturnStmnt :=
  {| ReturnStmnt_area := at_row 9; ReturnStmnt_expr := None;
     isEndOfFunction := true |}.

(** [Texture2D tex : register(t3);] *)
Definition register_t3 : Register :=
  {| registerType := RegisterType_t; slot := 3; registerTarget := None |}.

Definition tex : TextureDecl :=
  {| TextureDecl_area := at_row 4; TextureDecl_ident := "tex";
     TextureDecl_isReachable := true;
     TextureDecl_slotRegisters := [register_t3] |}.

Definition texture_stmnt : TextureDeclStmnt :=
  {| TextureDeclStmnt_area := at_row 4; TextureDeclStmnt_isReachable := true;
     textureType_ := Texture2D; textureDecls := [tex] |}.

(** The statement [x;] at row 7. *)
Definition stmnt_x : Stmnt := Stmnt_Expr (at_row 7) (lit "x").

(** An environment whose converter or extension agent is replaced. *)
Definition with_passes (env : Env)
    (convert : Program -> ShaderTarget -> string -> Exn + Program)
    (extensions : Program -> OutputShaderVersion -> ShaderTarget -> bool ->
                  Exn + list string) : Env := {|
  breakWithException := breakWithException env;
  AddressOfLocal := AddressOfLocal env;
  TargetToString := TargetToString env;
  DataTypeToGLSLKeyword := DataTypeToGLSLKeyword env;
  BufferTypeToGLSLKeyword := BufferTypeToGLSLKeyword env;
  StorageClassToGLSLKeyword := StorageClassToGLSLKeyword env;
  IntrinsicToGLSLKeyword := IntrinsicToGLSLKeyword env;
  SemanticToGLSLKeyword := SemanticToGLSLKeyword env;
  BinaryOpToString := BinaryOpToString env;
  UnaryOpToString := UnaryOpToString env;
  AssignOpToString := AssignOpToString env;
  CtrlTransformToString := CtrlTransformToString env;
  SubscriptDataType := SubscriptDataType env;
  MustResolveStructForTarget := MustResolveStructForTarget env;
  GetTypeDenoter := GetTypeDenoter env;
  GetExplicitTypeDenoter := GetExplicitTypeDenoter env;
  VarIdent_ToString := VarIdent_ToString env;
  Register_GetForTarget := Register_GetForTarget env;
  DetermineRequiredExtensions := extensions;
  MarkControlPaths := MarkControlPaths env;
  Convert := convert;
  MarkReferencesFromEntryPoint := MarkReferencesFromEntryPoint env
|}.

(** A converter that fails at row 9, and an extension agent that asks for
    one extension. *)
Definition glsl_failing_converter : Env :=
  with_passes (glsl false)
    (fun _ _ _ => inl (Exn_ASTRuntimeError "unsupported statement"
                         (Some (at_row 9))))
    (fun _ _ _ _ => inr []).

Definition glsl_with_extension : Env :=
  with_passes (glsl true) (fun p _ _ => inr p)
    (fun _ _ _ _ => inr ["GL_ARB_shading_language_420pack"]).

(** A program without an entry point. *)
Definition program_without_entry : Program := {|
  entryPointRef := None; globalStmnts := []; usedIntrinsics := [];
  hasSM3ScreenSpace := false
|}.

(** The fields two levels deep, inside a pushed set of options. *)
Definition state_nested : GenState := {|
  indent_ := "  "; indentLevel := 2;
  optionsStack := [{| enableNewLine := false; enableIndent := true |}];
  program_ := program_passthrough;
  config := config0 FragmentShader true true;
  isInsideEntryPoint_ := true; isInsideInterfaceBlock_ := true
|}.

(** [{ x; }] *)
Definition block_x : CodeBlock := mkCodeBlock (at_row 6) [stmnt_x].

(** [max(a, b)], [{ 1, 2 }], [InterlockedAdd(d, v, o)], [mul(M)] and
    [1.0.xxxx]. *)
Definition call_max : FunctionCall :=
  mkFunctionCall (at_row 1) (Some (mkVarIdent (at_row 1) "max" [] None None))
    None (Intrinsic_Other "max") [lit "a"; lit "b"].

Definition initializer_1_2 : Expr :=
  InitializerExpr (at_row 1) [lit "1"; lit "2"].

Definition call_interlocked_add : FunctionCall :=
  mkFunctionCall (at_row 1)
    (Some (mkVarIdent (at_row 1) "InterlockedAdd" [] None None)) None
    Intrinsic_InterlockedAdd [lit "d"; lit "v"; lit "o"].

Definition call_mul_one : FunctionCall :=
  mkFunctionCall (at_row 1) None None Intrinsic_Mul [lit "M"].

Definition xxxx : VarIdent := mkVarIdent (at_row 1) "xxxx" [] None None.

(** The alias [real] of the alias [scalar] of [float], and a type without
    a keyword. *)
Definition real : TypeDenoter :=
  AliasTypeDenoter "real"
    (AliasTypeDenoter "scalar" (BaseTypeDenoter (Scalar Float_))).

Definition undefined_type : TypeDenoter := BaseTypeDenoter DataType_Undefined.


Definition if_c : IfStmnt := mkIfStmnt (at_row 3) (Some (lit "c")) None None.

(** [static const float a = 1, b;] where code generation is disabled for
    [b]. *)
Definition decl_a : VarDecl := {|
  VarDecl_area := at_row 1; VarDecl_ident := "a"; VarDecl_arrayDims := [];
  VarDecl_initializer := Some (lit "1"); VarDecl_semantic := noSemantic;
  VarDecl_disableCodeGen := false
|}.

Definition decl_b : VarDecl := {|
  VarDecl_area := at_row 1; VarDecl_ident := "b"; VarDecl_arrayDims := [];
  VarDecl_initializer := None; VarDecl_semantic := noSemantic;
  VarDecl_disableCodeGen := true
|}.

(** [numthreads(8, 8, 1)] *)
Definition numthreads_8_8_1 : Attribute := {|
  Attribute_area := at_row 1; Attribute_ident := "numthreads";
  Attribute_arguments := [lit "8"; lit "8"; lit "1"]
|}.

(** A structure [Outer] with the nested structures [A] and [B]. *)
Definition struct_named (ident : string) (nested : bool)
    (nestedStructs : list StructDecl) : StructDecl :=
  mkStructDecl (at_row 1) ident "" true nested false false [] nestedStructs
    None.

Definition struct_outer : StructDecl :=
  struct_named "Outer" false
    [struct_named "A" true []; struct_named "B" true []].

(** [switch (x) { case 1: x; default: }], [while (c) x;], [do x; while (c);]
    and the chain [a[1].b]. *)
Definition switch_x : SwitchStmnt :=
  mkSwitchStmnt (at_row 2) (Some (lit "x"))
    [mkSwitchCase (at_row 3) (Some (lit "1")) [stmnt_x];
     mkSwitchCase (at_row 4) None []].

Definition a_1_b : VarIdent :=
  mkVarIdent (at_row 1) "a" [lit "1"]
    (Some (mkVarIdent (at_row 1) "b" [] None None)) None.

(** A uniform buffer [Scene] at the register [b3], with one member. *)
Definition register_b3 : Register :=
  {| registerType := RegisterType_b; slot := 3; registerTarget := None |}.

Definition buffer_scene : BufferDeclStmnt := {|
  BufferDeclStmnt_area := at_row 2; BufferDeclStmnt_isReachable := true;
  BufferDeclStmnt_ident := "Scene";
  BufferDeclStmnt_slotRegisters := [register_b3];
  BufferDeclStmnt_members :=
    [mkVarDeclStmnt (at_row 3) false false "" [] [] float [decl_a]]
|}.

(** The entry point of a vertex shader whose output is the variable
    [o_pos : SV_Position], and the statement [return q;]. *)
Definition decl_o_pos : VarDecl := {|
  VarDecl_area := at_row 1; VarDecl_ident := "o_pos";
  VarDecl_arrayDims := []; VarDecl_initializer := None;
  VarDecl_semantic :=
    {| semantic_ := Semantic_SystemValue "SV_Position"; index_ := 0 |};
  VarDecl_disableCodeGen := false
|}.

Definition main_with_output : FunctionDecl :=
  mkFunctionDecl (at_row 1) "main" true false true void []
    (Some (mkCodeBlock (at_row 1) [])) [] noSemantics
    {| varDeclRefs := [];
       varDeclRefsSV :=
         [{| varDecl := decl_o_pos; declStmntRef_varType := vec4 |}] |}
    noSemantic.

Definition program_with_output : Program := {|
  entryPointRef := Some main_with_output;
  globalStmnts := [Stmnt_FunctionDecl main_with_output];
  usedIntrinsics := [];
  hasSM3ScreenSpace := false
|}.

Definition state_entry_output : GenState :=
  set_isInsideEntryPoint true
    (fresh program_with_output (config0 VertexShader false false)).

Definition return_q : ReturnStmnt :=
  {| ReturnStmnt_area := at_row 2; ReturnStmnt_expr := Some (var "q");
     isEndOfFunction := false |}.

End Demo.

(* ===================================================================== *)
(** ** Notions used to state the properties *)
(* ===================================================================== *)

(** The text [WriteLn text] leaves in the stream in the state [st]. *)
Definition lineText (st : GenState) (text : string) : string :=
  (if enableIndent (CurrentOptions st) then FullIndent st else "")
  ++ text
  ++ (if enableNewLine (CurrentOptions st) then newline else "").

(** A run produced the diagnostic [r]: it is in the log, or it was thrown
    to the caller. *)
Definition diagnosed {A} (r : Report) (o : Outcome A) : Prop :=
  In r (reports (events o)) \/ result o = Throw (Exn_Report r).

(** A run wrote no text at all. *)
Definition silent {A} (o : Outcome A) : Prop :=
  forall text, ~ In (EvWrite text) (events o).

(** An expression whose kind is ternary, binary, unary or post-unary. *)
Definition isOperatorExpr (e : Expr) : Prop :=
  Expr_Type e = Types_TernaryExpr \/ Expr_Type e = Types_BinaryExpr \/
  Expr_Type e = Types_UnaryExpr \/ Expr_Type e = Types_PostUnaryExpr.

(** A run that the caller takes for a success: it returns, and no error
    is in the log. *)
Definition successful {A} (o : Outcome A) : Prop :=
  (exists a, result o = Ok a) /\
  forall r, In r (reports (events o)) -> reportType r <> Severity_Error.

(** The fields of a generator that is not inside a line, a scope or a
    pushed set of options: what it writes goes to the first column. *)
Definition atFirstColumn (st : GenState) : Prop :=
  indentLevel st = 0%nat /\ optionsStack st = [].

(** The lines of a text. *)
Definition isNewline (c : ascii) : bool := Ascii.eqb c (ascii_of_nat 10).

Fixpoint lines (s : string) : list string :=
  match s with
  | EmptyString => [""]
  | String c r =>
      if isNewline c then "" :: lines r
      else match lines r with
           | l :: ls => String c l :: ls
           | [] => [String c ""]
           end
  end.

Fixpoint noNewline (s : string) : bool :=
  match s with
  | EmptyString => true
  | String c r => negb (isNewline c) && noNewline r
  end.

Definition isBlankChar (c : ascii) : bool :=
  Ascii.eqb c " " || Ascii.eqb c (ascii_of_nat 9)
  || Ascii.eqb c (ascii_of_nat 13).

Fixpoint isBlank (s : string) : bool :=
  match s with
  | EmptyString => true
  | String c r => isBlankChar c && isBlank r
  end.

Definition isComment (s : string) : bool := String.prefix "//" s.

Definition firstNonBlankLine (s : string) : option string :=
  find (fun l => negb (isBlank l)) (lines s).

(** The first line that is neither blank nor a comment. *)
Definition firstCodeLine (s : string) : option string :=
  find (fun l => negb (isBlank l) && negb (isComment l)) (lines s).

(** The fields with the option [lineMarks] set to [b]. *)
Definition withLineMarks (b : bool) (st : GenState) : GenState :=
  set_config
    {| shaderTarget_ := shaderTarget_ (config st);
       versionOut_ := versionOut_ (config st);
       allowExtensions_ := allowExtensions_ (config st);
       allowLineMarks_ := b;
       nameManglingPrefix_ := nameManglingPrefix_ (config st);
       stats_ := stats_ (config st) |} st.

(** A run that failed: it did not return, or an error is in the log. *)
Definition failed {A} (o : Outcome A) : Prop :=
  (forall a, result o <> Ok a) \/
  exists r, In r (reports (events o)) /\ reportType r = Severity_Error.

(** The text of the first comment of the header. *)
Definition headerComment (env : Env) (inputDesc : ShaderInput) : string :=
  if empty (entryPoint inputDesc)
  then "GLSL " ++ TargetToString env (shaderTarget inputDesc)
  else "GLSL " ++ TargetToString env (shaderTarget inputDesc)
       ++ " " ++ dquote ++ entryPoint inputDesc ++ dquote.

(** [traceAll P m]: whatever the fields, every effect of [m] satisfies
    [P]. *)
Definition traceAll {A} (P : Event -> Prop) (m : Gen A) : Prop :=
  forall st, Forall P (events (m st)).

(** The binding recorded with a texture is -1. *)
Definition recordsMinusOne (ev : Event) : Prop :=
  match ev with
  | EvTexture _ binding => binding = -1
  | _ => True
  end.

(** A computation on which the option [lineMarks] has no bearing: with
    the option set to [b] it has the same result and the same effects, and
    leaves the same fields, but for the option. *)
Definition insensitive {A} (m : Gen A) : Prop :=
  forall b st,
    m (withLineMarks b st) =
    mkOutcome (result (m st)) (withLineMarks b (final (m st)))
      (events (m st)).


(** A statement under which there is no declaration of a function, of a
    uniform buffer, of a structure or of an alias. *)
Fixpoint plainStmnt (s : Stmnt) : bool :=
  let plainOptional (o : option Stmnt) :=
    match o with Some x => plainStmnt x | None => true end in
  match s with
  | Stmnt_Null _ | Stmnt_Expr _ _ | Stmnt_Return _ | Stmnt_CtrlTransfer _ _
  | Stmnt_TextureDecl _ | Stmnt_VarDecl _ => true
  | Stmnt_CodeBlock (mkCodeBlockStmnt _ (mkCodeBlock _ stmnts)) =>
      forallb plainStmnt stmnts
  | Stmnt_ForLoop (mkForLoopStmnt _ initSmnt _ _ bodyStmnt) =>
      plainOptional initSmnt && plainOptional bodyStmnt
  | Stmnt_WhileLoop (mkWhileLoopStmnt _ _ bodyStmnt) =>
      plainOptional bodyStmnt
  | Stmnt_DoWhileLoop (mkDoWhileLoopStmnt _ bodyStmnt _) =>
      plainOptional bodyStmnt
  | Stmnt_If (mkIfStmnt _ _ bodyStmnt elseStmnt) =>
      plainOptional bodyStmnt
      && match elseStmnt with
         | Some (mkElseStmnt _ elseBody) => plainStmnt elseBody
         | None => true
         end
  | Stmnt_Else (mkElseStmnt _ bodyStmnt) => plainStmnt bodyStmnt
  | Stmnt_Switch (mkSwitchStmnt _ _ cases) =>
      forallb
        (fun c => match c with
                  | mkSwitchCase _ _ stmnts => forallb plainStmnt stmnts
                  end)
        cases
  | Stmnt_FunctionDecl _ | Stmnt_BufferDecl _ | Stmnt_StructDecl _
  | Stmnt_AliasDecl _ => false
  end.


Definition plainBody (codeBlock : option CodeBlock) : bool :=
  match codeBlock with
  | Some (mkCodeBlock _ stmnts) => forallb plainStmnt stmnts
  | None => true
  end.

(** The row of the [#line] directive that goes before a declaration: that
    of a function, uniform buffer, structure or alias declaration that is
    written, and under which there is no other such declaration. *)
Definition markedRow (env : Env) (st : GenState) (s : Stmnt) : option Z :=
  match s with
  | Stmnt_FunctionDecl
      (mkFunctionDecl area _ isReachable hasNonReturnControlPath _ _ _
         codeBlock _ _ _ _) =>
      if isReachable
         && (negb hasNonReturnControlPath || negb (breakWithException env))
         && plainBody codeBlock
      then Some (Row area) else None
  | Stmnt_BufferDecl ast =>
      if BufferDeclStmnt_isReachable ast
      then Some (Row (BufferDeclStmnt_area ast)) else None
  | Stmnt_StructDecl ast =>
      if StructDecl_isReachable (StructDeclStmnt_structDecl ast)
         && negb (MustResolveStructForTarget env (shaderTarget_ (config st))
                    (StructDeclStmnt_structDecl ast))
      then Some (Row (StructDeclStmnt_area ast)) else None
  | Stmnt_AliasDecl ast =>
      match AliasDeclStmnt_structDecl ast with
      | Some structDecl =>
          if negb (StructDecl_IsAnonymous structDecl)
          then Some (Row (AliasDeclStmnt_area ast)) else None
      | None => None
      end
  | _ => None
  end.

(** [keeps I P m]: run from fields that satisfy [I], the computation [m]
    leaves fields that satisfy [I], however it ends, and every effect it has
    satisfies [P]. *)
Definition keeps {A} (I : GenState -> Prop) (P : Event -> Prop) (m : Gen A)
  : Prop :=
  forall st, I st -> I (final (m st)) /\ Forall P (events (m st)).

(** An effect that is not a record of the statistics. *)
Definition notTexture (ev : Event) : Prop :=
  match ev with
  | EvTexture _ _ => False
  | _ => True
  end.

(** An effect that is not an error handed to the log. *)
Definition notLoggedError (ev : Event) : Prop :=
  match ev with
  | EvReport r => reportType r = Severity_Warning
  | _ => True
  end.

(** A computation that leaves the fields as they are, however it ends. *)
Definition stateless {A} (m : Gen A) : Prop :=
  forall st, final (m st) = st.

(** [framed k p k' p' m]: when [m] is run [k] levels of indentation deep
    and with the options [p] pushed, and it returns, it leaves the
    generator [k'] levels deep and with the options [p'] pushed instead;
    the string of one indentation step is the same. *)
Definition framed {A} (k : nat) (p : list Options) (k' : nat)
    (p' : list Options) (m : Gen A) : Prop :=
  forall st a n s,
    result (m st) = Ok a ->
    indentLevel st = (n + k)%nat ->
    optionsStack st = (p ++ s)%list ->
    indentLevel (final (m st)) = (n + k')%nat /\
    optionsStack (final (m st)) = (p' ++ s)%list /\
    indent_ (final (m st)) = indent_ st.

(** A computation that, when it returns, has closed the scopes it opened
    and popped the options it pushed. *)
Definition balanced {A} (m : Gen A) : Prop :=
  forall st a,
    result (m st) = Ok a ->
    indentLevel (final (m st)) = indentLevel st /\
    optionsStack (final (m st)) = optionsStack st /\
    indent_ (final (m st)) = indent_ st.

(** A computation that reads of the fields the target version only, and
    leaves them as they are: run from two sets of fields with the same
    target version, it ends the same way and has the same effects. *)
Definition versionOnly {A} (m : Gen A) : Prop :=
  forall st1 st2,
    versionOut_ (config st1) = versionOut_ (config st2) ->
    result (m st1) = result (m st2) /\
    events (m st1) = events (m st2) /\
    final (m st1) = st1.

(** The text visiting an expression writes. *)
Definition textOf (env : Env) (st : GenState) (e : Expr) : string :=
  output (events (VisitExpr env e st)).

(** The parameters [GenerateCodePrimary] stores. *)
Definition storedParameters (inputDesc : ShaderInput)
    (outputDesc : ShaderOutput) : Config :=
  {| shaderTarget_ := shaderTarget inputDesc;
     versionOut_ := shaderVersion outputDesc;
     allowExtensions_ := options_allowExtensions outputDesc;
     allowLineMarks_ := formatting_lineMarks outputDesc;
     nameManglingPrefix_ := formatting_prefix outputDesc;
     stats_ := statistics outputDesc |}.

(** The three passes that run before the header is written, in their
    order: the first exception ends them. *)
Definition passes (env : Env) (program : Program) (inputDesc : ShaderInput)
    (outputDesc : ShaderOutput) : Exn + Program :=
  match MarkControlPaths env program with
  | inl e => inl e
  | inr program =>
      match Convert env program (shaderTarget inputDesc)
              (formatting_prefix outputDesc) with
      | inl e => inl e
      | inr program => MarkReferencesFromEntryPoint env program
      end
  end.

(** The text visiting an expression that may be absent writes. *)
Definition textOfOptional (env : Env) (st : GenState) (e : option Expr)
  : string :=
  output (events (VisitOptional (VisitExpr env) e st)).

(** The fields with the options [o] pushed. *)
Definition pushed (o : Options) (st : GenState) : GenState :=
  set_optionsStack (o :: optionsStack st) st.

(** A declarator for which code is generated: code generation is not
    disabled for it, and it is not a system value inside an interface
    block. *)
Definition generated (st : GenState) (d : VarDecl) : bool :=
  negb (VarDecl_disableCodeGen d
        || (isInsideInterfaceBlock_ st && IsSystemValue (VarDecl_semantic d))).

(** What one of the accessors [BRegister], [TRegister], [SRegister] and
    [URegister] does with a register name, [prefix] being the character it
    expects: a name that begins with it gives the rest of the name and has
    no effect; the empty name never gives a result; a name that begins
    with another character [x] produces the error, and gives the rest of
    the name all the same when errors are recorded. *)
Definition registerAccessor (env : Env)
    (f : string -> option SourcePosition -> Gen string) (prefix : ascii)
  : Prop :=
  (forall rest ast st,
     f (String prefix rest) ast st = mkOutcome (Ok rest) st []) /\
  (forall ast st a, result (f "" ast st) <> Ok a) /\
  (forall x rest ast st,
     x <> prefix ->
     diagnosed {| reportType := Severity_Error;
                  message := "invalid register prefix '" ++ string_of_char x
                             ++ "' (expected '" ++ string_of_char prefix
                             ++ "')";
                  position := ast |}
       (f (String x rest) ast st) /\
     (breakWithException env = false ->
      result (f (String x rest) ast st) = Ok rest) /\
     (breakWithException env = true ->
      forall a, result (f (String x rest) ast st) <> Ok a)).

(** The line that begins a case of a [switch]. *)
Definition caseLabel (env : Env) (st : GenState) (expr : option Expr)
  : string :=
  match expr with
  | Some e => "case " ++ textOf env st e ++ ":"
  | None => "default:"
  end.

(** The nodes of an identifier chain [a.b.c], from the first. *)
Fixpoint identChain (v : VarIdent) : list VarIdent :=
  match v with
  | mkVarIdent _ _ _ next _ =>
      v :: match next with
           | Some n => identChain n
           | None => []
           end
  end.

(** What one node of a chain is written as: its final identifier and its
    array indices. *)
Definition identSegment (env : Env) (st : GenState) (v : VarIdent) : string :=
  match v with
  | mkVarIdent _ _ arrayIndices _ _ =>
      FinalIdentFromVarIdent v
      ++ String.concat ""
           (map (fun dim => "[" ++ textOf env st dim ++ "]") arrayIndices)
  end.

(** The declarations that carry the flag [isReachable], when it is not
    set. *)
Definition unreachable (s : Stmnt) : bool :=
  match s with
  | Stmnt_FunctionDecl f => negb (FunctionDecl_isReachable f)
  | Stmnt_BufferDecl b => negb (BufferDeclStmnt_isReachable b)
  | Stmnt_TextureDecl t => negb (TextureDeclStmnt_isReachable t)
  | Stmnt_StructDecl d =>
      negb (StructDecl_isReachable (StructDeclStmnt_structDecl d))
  | _ => false
  end.

(** The first line of a uniform buffer. *)
Definition bufferHeader (env : Env) (st : GenState) (ast : BufferDeclStmnt)
  : string :=
  "layout(std140"
  ++ match Register_GetForTarget env (BufferDeclStmnt_slotRegisters ast)
             (shaderTarget_ (config st)) with
     | Some slotRegister => ", binding = " ++ to_string (slot slotRegister)
     | None => ""
     end
  ++ ") uniform " ++ BufferDeclStmnt_ident ast.

(** [erases on off]: the effects [off] are the effects [on] without some
    lines [#line N]. *)
Inductive erases : list Event -> list Event -> Prop :=
| erases_nil : erases [] []
| erases_keep (e : Event) (on off : list Event) :
    erases on off -> erases (e :: on) (e :: off)
| erases_line (n : Z) (st : GenState) (on off : list Event) :
    erases on off ->
    erases (events (WriteLn ("#line " ++ to_string n) st) ++ on) off.

(** A computation on which the option [lineMarks] has no other effect
    than lines [#line N] in the output: it ends the same way with the
    option on and off, with the same fields but for the option. *)
Definition marksOnly {A} (m : Gen A) : Prop :=
  forall st, exists sf,
    result (m (withLineMarks true st)) = result (m (withLineMarks false st)) /\
    final (m (withLineMarks true st)) = withLineMarks true sf /\
    final (m (withLineMarks false st)) = withLineMarks false sf /\
    erases (events (m (withLineMarks true st)))
      (events (m (withLineMarks false st))).

(** The row of a declaration of a function, of a uniform buffer, of a
    structure or of an alias that is written. *)
Definition declaredRow (env : Env) (st : GenState) (s : Stmnt) : option Z :=
  match s with
  | Stmnt_FunctionDecl
      (mkFunctionDecl area _ isReachable hasNonReturnControlPath _ _ _
         _ _ _ _ _) =>
      if isReachable
         && (negb hasNonReturnControlPath || negb (breakWithException env))
      then Some (Row area) else None
  | _ => markedRow env st s
  end.

(** The line that assigns a system-value output variable of the entry
    point, when its semantic is valid and has a keyword. *)
Definition outputVariableAssignment (env : Env) (st : GenState)
    (ref : VarDeclRef) : string :=
  if IsValid (VarDecl_semantic (varDecl ref)) then
    match SemanticToGLSLKeyword env (VarDecl_semantic (varDecl ref)) with
    | Some keyword =>
        lineText st (keyword ++ " = " ++ VarDecl_ident (varDecl ref) ++ ";")
    | None => ""
    end
  else "".


(** [flagRead args b]: the flag that a visitor reads from its argument is
    [b]: [false] for the null pointer, and otherwise the low byte of the
    pointer, when it is 0 or 1. *)
Definition flagRead (args : option Z) (b : bool) : Prop :=
  match args with
  | None => b = false
  | Some address => Z.land address 255 = (if b then 1 else 0)
  end.

(** The header line of a structure that is not an interface block. *)
Definition structHeader (s : StructDecl) : string :=
  if empty (StructDecl_ident s) then "struct"
  else "struct " ++ StructDecl_ident s.

(** A structure that is not an interface block. *)
Definition standardStruct (s : StructDecl) : bool :=
  match s with
  | mkStructDecl _ _ _ _ _ isShaderInput isShaderOutput _ _ _ =>
      negb (isShaderInput || isShaderOutput)
  end.

(** [structText env st s semicolon text]: [text] is the declaration of the
    structure [s] written at the indentation of [st]: the header line, the
    line [{], the members written one level deeper (from the fields [st],
    whatever [isInsideInterfaceBlock_] is then) and returning, and the line
    [}], with a semicolon or without. *)
Definition structText (env : Env) (st : GenState) (s : StructDecl)
    (semicolon : bool) (text : string) : Prop :=
  exists b : bool,
    let st1 := set_isInsideInterfaceBlock b
                 (set_indentLevel (S (indentLevel st)) st) in
    result (WriteStructDeclMembers env s st1) = Ok tt /\
    text = lineText st (structHeader s) ++ lineText st "{"
           ++ output (events (WriteStructDeclMembers env s st1))
           ++ lineText st (if semicolon then "};" else "}").


(* ===================================================================== *)
(** ** Properties *)
(* ===================================================================== *)

(** *** Strings and effects *)

Lemma string_app_assoc (a b c : string) : (a ++ b) ++ c = a ++ (b ++ c).
Proof.
  induction a as [|x a IH]; simpl; [reflexivity | now rewrite IH].
Qed.

Lemma string_app_nil_r (a : string) : a ++ "" = a.
Proof.
  induction a as [|x a IH]; simpl; [reflexivity | now rewrite IH].
Qed.

(** Brings the two sides of an equation between texts to the same
    bracketing. *)
Ltac string_norm :=
  repeat first [ rewrite string_app_assoc | rewrite string_app_nil_r
               | progress cbn [String.append] ].

Lemma output_app (t1 t2 : list Event) :
  output (t1 ++ t2) = output t1 ++ output t2.
Proof.
  induction t1 as [|[s|r|i b] t1 IH]; simpl; auto.
  now rewrite IH, string_app_assoc.
Qed.

Lemma reports_app (t1 t2 : list Event) :
  reports (t1 ++ t2) = (reports t1 ++ reports t2)%list.
Proof.
  induction t1 as [|[s|r|i b] t1 IH]; simpl; auto.
  now rewrite IH.
Qed.

Lemma textures_app (t1 t2 : list Event) :
  textures (t1 ++ t2) = (textures t1 ++ textures t2)%list.
Proof.
  induction t1 as [|[s|r|i b] t1 IH]; simpl; auto.
  now rewrite IH.
Qed.

(** *** The monad *)

(** The flag read from the pointer: a value, or undefined behaviour. *)
Lemma ArgsAsBool_cases (args : option Z) :
  (exists b, ArgsAsBool args = ret b) \/ ArgsAsBool args = undefined.
Proof.
  destruct args as [address|]; cbn [ArgsAsBool]; [|left; eauto].
  destruct (Z.land address 255) as [|[p|p|]|p]; eauto.
Qed.

Lemma ArgsAsBool_true (address : Z) :
  Z.land address 255 = 1 -> ArgsAsBool (Some address) = ret true.
Proof. intros H. cbn [ArgsAsBool]. now rewrite H. Qed.

Lemma ArgsAsBool_false (address : Z) :
  Z.land address 255 = 0 -> ArgsAsBool (Some address) = ret false.
Proof. intros H. cbn [ArgsAsBool]. now rewrite H. Qed.

Lemma ArgsAsBool_undefined (address : Z) :
  Z.land address 255 <> 0 -> Z.land address 255 <> 1 ->
  ArgsAsBool (Some address) = undefined.
Proof.
  intros H0 H1. cbn [ArgsAsBool].
  destruct (Z.land address 255) as [|[p|p|]|p]; try reflexivity;
    contradiction.
Qed.

Lemma bind_Ok {A B} (m : Gen A) (f : A -> Gen B) st a st1 t1 :
  m st = mkOutcome (Ok a) st1 t1 ->
  bind m f st =
  mkOutcome (result (f a st1)) (final (f a st1)) (t1 ++ events (f a st1)).
Proof.
  intros H. unfold bind. rewrite H. reflexivity.
Qed.

Lemma bind_Throw {A B} (m : Gen A) (f : A -> Gen B) st e st1 t1 :
  m st = mkOutcome (Throw e) st1 t1 ->
  bind m f st = mkOutcome (Throw e) st1 t1.
Proof.
  intros H. unfold bind. rewrite H. reflexivity.
Qed.

Lemma outcome_eta {A} (o : Outcome A) :
  o = mkOutcome (result o) (final o) (events o).
Proof. destruct o; reflexivity. Qed.

Lemma bind_ret {A B} (a : A) (f : A -> Gen B) st : bind (ret a) f st = f a st.
Proof. unfold bind, ret. cbn. destruct (f a st); reflexivity. Qed.

Lemma bind_getState {B} (f : GenState -> Gen B) st :
  bind getState f st = f st st.
Proof. unfold bind, getState. cbn. destruct (f st st); reflexivity. Qed.

Lemma bind_modify {B} (g : GenState -> GenState) (f : unit -> Gen B) st :
  bind (modify g) f st = f tt (g st).
Proof. unfold bind, modify. cbn. destruct (f tt (g st)); reflexivity. Qed.

Lemma bind_tell {B} (t : list Event) (f : unit -> Gen B) st :
  bind (tell t) f st =
  mkOutcome (result (f tt st)) (final (f tt st)) (t ++ events (f tt st)).
Proof. reflexivity. Qed.

Lemma bind_throw {A B} (e : Exn) (f : A -> Gen B) st :
  bind (throw e) f st = mkOutcome (Throw e) st [].
Proof. reflexivity. Qed.

Lemma bind_undefined {A B} (f : A -> Gen B) st :
  bind (@undefined A) f st = mkOutcome Undefined st [].
Proof. reflexivity. Qed.

Lemma bind_assoc {A B C} (m : Gen A) (f : A -> Gen B) (g : B -> Gen C) st :
  bind (bind m f) g st = bind m (fun x => bind (f x) g) st.
Proof.
  unfold bind. destruct (m st) as [[a|e|] s1 t1]; cbn; auto.
  destruct (f a s1) as [[b|e|] s2 t2]; cbn; auto.
  destruct (g b s2) as [r s3 t3]; cbn. now rewrite app_assoc.
Qed.

Lemma bind_run {A B} (m : Gen A) (f : A -> Gen B) st a st1 t1 r st2 t2 :
  m st = mkOutcome (Ok a) st1 t1 ->
  f a st1 = mkOutcome r st2 t2 ->
  bind m f st = mkOutcome r st2 (t1 ++ t2).
Proof.
  intros H1 H2. rewrite (bind_Ok _ _ _ H1), H2. reflexivity.
Qed.

(** Steps through the returns and the reads and writes of the fields at
    the head of a computation. *)
Ltac gen_simpl :=
  repeat first [ rewrite bind_ret | rewrite bind_getState
               | rewrite bind_modify | rewrite bind_throw
               | rewrite bind_undefined ].

Lemma BeginLn_run (st : GenState) :
  BeginLn st =
  mkOutcome (Ok tt) st
    (if enableIndent (CurrentOptions st)
     then [EvWrite (FullIndent st)] else []).
Proof.
  unfold BeginLn. rewrite bind_getState.
  destruct (enableIndent (CurrentOptions st)); reflexivity.
Qed.

Lemma EndLn_run (st : GenState) :
  EndLn st =
  mkOutcome (Ok tt) st
    (if enableNewLine (CurrentOptions st) then [EvWrite newline] else []).
Proof.
  unfold EndLn. rewrite bind_getState.
  destruct (enableNewLine (CurrentOptions st)); reflexivity.
Qed.

Lemma WriteLn_run (text : string) (st : GenState) :
  result (WriteLn text st) = Ok tt /\
  final (WriteLn text st) = st /\
  output (events (WriteLn text st)) = lineText st text /\
  reports (events (WriteLn text st)) = [] /\
  textures (events (WriteLn text st)) = [].
Proof.
  unfold WriteLn, BeginLn, EndLn, lineText, bind, getState, Write, tell, ret.
  cbn [result final events].
  destruct (enableIndent (CurrentOptions st)); cbn;
    destruct (enableNewLine (CurrentOptions st)); cbn;
    rewrite ?string_app_nil_r; repeat split; reflexivity.
Qed.

(** *** The arguments of [mul] *)

Lemma isOperatorExpr_beq (e : Expr) :
  let type := Expr_Type e in
  Types_beq type Types_TernaryExpr || Types_beq type Types_BinaryExpr
  || Types_beq type Types_UnaryExpr || Types_beq type Types_PostUnaryExpr
  = true <-> isOperatorExpr e.
Proof.
  unfold isOperatorExpr. destruct e; simpl; split; intros H;
    try discriminate; try reflexivity; auto;
    try (destruct H as [H|[H|[H|H]]]; discriminate).
Qed.

Lemma WriteMulArgument_run (Visit : Expr -> Gen unit) e st st1 t :
  Visit e st = mkOutcome (Ok tt) st1 t ->
  exists t',
    WriteMulArgument Visit e st = mkOutcome (Ok tt) st1 t' /\
    reports t' = reports t /\
    (isOperatorExpr e -> output t' = "(" ++ output t ++ ")") /\
    (~ isOperatorExpr e -> output t' = output t).
Proof.
  intros H. unfold WriteMulArgument.
  pose proof (isOperatorExpr_beq e) as Hb. cbv zeta in Hb.
  destruct (Types_beq (Expr_Type e) Types_TernaryExpr
            || Types_beq (Expr_Type e) Types_BinaryExpr
            || Types_beq (Expr_Type e) Types_UnaryExpr
            || Types_beq (Expr_Type e) Types_PostUnaryExpr).
  - exists (EvWrite "(" :: t ++ [EvWrite ")"]). repeat split.
    + unfold bind at 1. simpl. rewrite (bind_Ok _ _ _ H). reflexivity.
    + simpl. rewrite reports_app. simpl. now rewrite app_nil_r.
    + intros _. simpl. rewrite output_app. reflexivity.
    + intros Hn. exfalso. apply Hn, Hb. reflexivity.
  - exists t. repeat split; auto.
    intros Ho. apply Hb in Ho. discriminate.
Qed.

(** C1.  A call [mul(A, B)] is written as [(A' * B')], where [A'] and [B']
    are what visiting [A] and [B] writes, put between one more pair of
    parentheses exactly when the expression is a ternary, binary, unary or
    post-unary expression; the call adds no diagnostic of its own. *)
Theorem mul_emission (env : Env) (area : SourcePosition)
    (varIdent : option VarIdent) (typeDenoter : option TypeDenoter)
    (A B : Expr) (st stA stB : GenState) (tA tB : list Event) :
  VisitExpr env A st = mkOutcome (Ok tt) stA tA ->
  VisitExpr env B stA = mkOutcome (Ok tt) stB tB ->
  let o := VisitFunctionCall env
             (mkFunctionCall area varIdent typeDenoter Intrinsic_Mul [A; B])
             st in
  exists A' B' : string,
    result o = Ok tt /\ final o = stB /\
    output (events o) = "(" ++ A' ++ " * " ++ B' ++ ")" /\
    reports (events o) = (reports tA ++ reports tB)%list /\
    (isOperatorExpr A -> A' = "(" ++ output tA ++ ")") /\
    (~ isOperatorExpr A -> A' = output tA) /\
    (isOperatorExpr B -> B' = "(" ++ output tB ++ ")") /\
    (~ isOperatorExpr B -> B' = output tB).
Proof.
  intros HA HB.
  destruct (WriteMulArgument_run (VisitExpr env) A st HA)
    as (tA' & HA' & RA & OA & NA).
  destruct (WriteMulArgument_run (VisitExpr env) B stA HB)
    as (tB' & HB' & RB & OB & NB).
  exists (output tA'), (output tB').
  assert (E : VisitFunctionCall env
                (mkFunctionCall area varIdent typeDenoter Intrinsic_Mul
                   [A; B]) st
              = mkOutcome (Ok tt) stB
                  (EvWrite "(" :: tA' ++ EvWrite " * " :: tB'
                   ++ [EvWrite ")"])).
  { simpl. unfold WriteFunctionCallIntrinsicMul, AssertIntrinsicNumArgs, at_,
      bind. simpl. rewrite HA'. simpl. rewrite HB'. reflexivity. }
  cbv zeta. rewrite E. simpl.
  repeat split; auto.
  - rewrite output_app. simpl. rewrite output_app. simpl.
    now rewrite ?string_app_assoc.
  - rewrite reports_app. simpl. rewrite reports_app. simpl.
    now rewrite app_nil_r, RA, RB.
Qed.

(** *** Function declarations with a control path that does not return *)

(** C4.  A function declaration flagged [hasNonReturnControlPath]: when it
    is not flagged reachable, visiting it returns normally, leaves the
    fields as they were, and its only effect is one warning (no text is
    written); when it is flagged reachable, visiting it produces an error
    diagnostic. *)
Theorem non_return_control_path (env : Env) (f : FunctionDecl)
    (args : option Z) (st : GenState) :
  FunctionDecl_hasNonReturnControlPath f = true ->
  (FunctionDecl_isReachable f = false ->
   VisitStmnt env (Stmnt_FunctionDecl f) args st =
   mkOutcome (Ok tt) st
     [EvReport {| reportType := Severity_Warning;
                  message := "not all control paths in unreferenced function '"
                             ++ FunctionDecl_ident f ++ "' return a value";
                  position := Some (FunctionDecl_area f) |}]) /\
  (FunctionDecl_isReachable f = true ->
   diagnosed {| reportType := Severity_Error;
                message := "not all control paths in function '"
                           ++ FunctionDecl_ident f ++ "' return a value";
                position := Some (FunctionDecl_area f) |}
     (VisitStmnt env (Stmnt_FunctionDecl f) args st)).
Proof.
  destruct f as [area ident reach nonret entry rty params body attrs ins outs
                 sem].
  cbn [FunctionDecl_hasNonReturnControlPath FunctionDecl_isReachable
       FunctionDecl_ident FunctionDecl_area].
  intros ->. split; intros ->.
  - reflexivity.
  - unfold diagnosed. cbn [VisitStmnt VisitFunctionDecl negb].
    unfold bind at 1. unfold Error.
    destruct (breakWithException env).
    + right. reflexivity.
    + left. cbn [tell result final events]. rewrite reports_app.
      cbn. left. reflexivity.
Qed.

(** *** Return statements *)

(** C10.  A return statement visited outside the entry point, with no
    expression and flagged [isEndOfFunction], has no effect at all:
    nothing is written, not even [return;]. *)
Theorem return_outside_entry_point (env : Env) (r : ReturnStmnt)
    (args : option Z) (st : GenState) :
  isInsideEntryPoint_ st = false ->
  ReturnStmnt_expr r = None ->
  isEndOfFunction r = true ->
  VisitStmnt env (Stmnt_Return r) args st = mkOutcome (Ok tt) st [].
Proof.
  intros Hout Hexpr Hend. cbn [VisitStmnt]. unfold VisitReturnStmnt.
  unfold bind, getState. cbn [result final events].
  rewrite Hout, Hexpr, Hend. reflexivity.
Qed.

(** *** The intrinsic [rcp] *)

Lemma rcp_run (env : Env) (area : SourcePosition)
    (varIdent : option VarIdent) (typeDenoter : option TypeDenoter)
    (x : Expr) (st : GenState) (t : TypeDenoter) :
  GetTypeDenoter env x = inr t ->
  VisitFunctionCall env
    (mkFunctionCall area varIdent typeDenoter Intrinsic_Rcp [x]) st =
  match Get t with
  | BaseTypeDenoter dataType =>
      (Write "(" ;;
       WriteTypeDenoter env (BaseTypeDenoter dataType) (Some area) ;;
       Write "(1) / (" ;;
       VisitExpr env x ;;
       Write "))") st
  | _ => Error env "invalid argument type for intrinsic 'rcp'"
           (Some (Expr_area x)) st
  end.
Proof.
  intros Hty.
  cbn [VisitFunctionCall Intrinsic_IsMul Intrinsic_IsRcp].
  unfold WriteFunctionCallIntrinsicRcp, AssertIntrinsicNumArgs, at_.
  cbn [FunctionCall_arguments List.length Nat.ltb Nat.leb orb].
  rewrite bind_ret, Hty. cbn [lift]. rewrite bind_ret.
  destruct (Get t); reflexivity.
Qed.

Lemma WriteTypeDenoter_base (env : Env) (dataType : DataType)
    (ast : option SourcePosition) (st : GenState) (keyword : string) :
  DataTypeToGLSLKeyword env
    (if versionOut_ (config st) <? GLSL400
     then DoubleToFloatDataType dataType else dataType) = Some keyword ->
  WriteTypeDenoter env (BaseTypeDenoter dataType) ast st =
  mkOutcome (Ok tt) st [EvWrite keyword].
Proof.
  intros Hkw. unfold WriteTypeDenoter. cbn [WriteTypeDenoter_].
  unfold try_catch, WriteDataType. rewrite bind_getState, Hkw. reflexivity.
Qed.

(** C6.  A call [rcp(x)]: when the type of [x], aliases resolved, is a
    base type whose data type (demoted from double to float below GLSL
    400) has the keyword [TYPE], the call is written [(TYPE(1) / (x'))],
    [x'] being what visiting [x] writes; when it is not a base type, the
    error [invalid argument type for intrinsic 'rcp'] is produced at [x]
    and no text is written. *)
Theorem rcp_emission (env : Env) (area : SourcePosition)
    (varIdent : option VarIdent) (typeDenoter : option TypeDenoter)
    (x : Expr) (st : GenState) (t : TypeDenoter) :
  GetTypeDenoter env x = inr t ->
  let o := VisitFunctionCall env
             (mkFunctionCall area varIdent typeDenoter Intrinsic_Rcp [x])
             st in
  (forall (dataType : DataType) (TYPE : string) (stx : GenState)
          (tx : list Event),
     Get t = BaseTypeDenoter dataType ->
     DataTypeToGLSLKeyword env
       (if versionOut_ (config st) <? GLSL400
        then DoubleToFloatDataType dataType else dataType) = Some TYPE ->
     VisitExpr env x st = mkOutcome (Ok tt) stx tx ->
     result o = Ok tt /\ final o = stx /\
     output (events o) = "(" ++ TYPE ++ "(1) / (" ++ output tx ++ "))" /\
     reports (events o) = reports tx) /\
  (IsBase (Get t) = false ->
   diagnosed {| reportType := Severity_Error;
                message := "invalid argument type for intrinsic 'rcp'";
                position := Some (Expr_area x) |} o /\
   silent o).
Proof.
  intros Hty o. subst o. rewrite (rcp_run _ _ _ _ _ _ Hty). split.
  - intros dataType TYPE stx tx Hbase Hkw Hx. rewrite Hbase.
    assert (E : (Write "(" ;;
                 WriteTypeDenoter env (BaseTypeDenoter dataType)
                   (Some area) ;;
                 Write "(1) / (" ;;
                 VisitExpr env x ;;
                 Write "))") st
                = mkOutcome (Ok tt) stx
                    (EvWrite "(" :: EvWrite TYPE :: EvWrite "(1) / ("
                     :: tx ++ [EvWrite "))"])).
    { etransitivity;
        [ eapply bind_run; [reflexivity|];
          eapply bind_run; [apply WriteTypeDenoter_base, Hkw|];
          eapply bind_run; [reflexivity|];
          eapply bind_run; [exact Hx|]; reflexivity
        | reflexivity ]. }
    rewrite E. cbn [result final events]. repeat split.
    + cbn [output]. rewrite output_app. cbn [output].
      now rewrite string_app_nil_r.
    + cbn [reports]. rewrite reports_app. cbn [reports].
      now rewrite app_nil_r.
  - intros Hnb. unfold diagnosed, silent, Error.
    destruct (Get t); try discriminate;
      destruct (breakWithException env);
      cbn [throw tell result final events reports In];
      (split; [auto | intros text Hin; cbn in Hin; intuition discriminate]).
Qed.

(** *** Properties of every effect of a computation *)

Section TraceAll.

Variable P : Event -> Prop.

Lemma traceAll_ret {A} (a : A) : traceAll P (ret a).
Proof. intros st. constructor. Qed.

Lemma traceAll_throw {A} (e : Exn) : traceAll P (@throw A e).
Proof. intros st. constructor. Qed.

Lemma traceAll_undefined {A} : traceAll P (@undefined A).
Proof. intros st. constructor. Qed.

Lemma traceAll_getState : traceAll P getState.
Proof. intros st. constructor. Qed.

Lemma traceAll_modify (g : GenState -> GenState) : traceAll P (modify g).
Proof. intros st. constructor. Qed.

Lemma traceAll_tell (t : list Event) : Forall P t -> traceAll P (tell t).
Proof. intros H st. exact H. Qed.

Lemma traceAll_bind {A B} (m : Gen A) (f : A -> Gen B) :
  traceAll P m -> (forall a, traceAll P (f a)) -> traceAll P (bind m f).
Proof.
  intros Hm Hf st. unfold bind. specialize (Hm st).
  destruct (result (m st)); cbn [events]; auto.
  apply Forall_app. split; [exact Hm | apply Hf].
Qed.

Lemma traceAll_forEach {A} (f : A -> Gen unit) (l : list A) :
  (forall x, traceAll P (f x)) -> traceAll P (forEach f l).
Proof.
  intros Hf. induction l as [|x l IH]; cbn [forEach].
  - apply traceAll_ret.
  - apply traceAll_bind; auto.
Qed.

Hypothesis P_Write : forall text, P (EvWrite text).
Hypothesis P_Report : forall r, P (EvReport r).

Lemma traceAll_Write (text : string) : traceAll P (Write text).
Proof. apply traceAll_tell. constructor; auto. Qed.

Lemma traceAll_BeginLn : traceAll P BeginLn.
Proof.
  apply traceAll_bind; [apply traceAll_getState|]. intros st.
  destruct (enableIndent _); [apply traceAll_Write | apply traceAll_ret].
Qed.

Lemma traceAll_EndLn : traceAll P EndLn.
Proof.
  apply traceAll_bind; [apply traceAll_getState|]. intros st.
  destruct (enableNewLine _); [apply traceAll_Write | apply traceAll_ret].
Qed.

Lemma traceAll_WriteLn (text : string) : traceAll P (WriteLn text).
Proof.
  apply traceAll_bind; [apply traceAll_BeginLn|]. intros _.
  apply traceAll_bind; [apply traceAll_Write|]. intros _.
  apply traceAll_EndLn.
Qed.

Lemma traceAll_Error (env : Env) msg ast : traceAll P (Error env msg ast).
Proof.
  unfold Error. destruct (breakWithException env);
    [apply traceAll_throw | apply traceAll_tell; constructor; auto].
Qed.

End TraceAll.

Lemma textures_In (t : list Event) (ident : string) (binding : Z) :
  In (ident, binding) (textures t) -> In (EvTexture ident binding) t.
Proof.
  induction t as [|[s|r|i b] t IH]; cbn; auto.
  intros [H|H]; [left; congruence | right; auto].
Qed.

(** *** Texture declarations and the statistics *)

Lemma WriteTextureDecl_records (env : Env) (samplerType : option string)
    (texDecl : TextureDecl) :
  traceAll recordsMinusOne (WriteTextureDecl env samplerType texDecl).
Proof.
  unfold WriteTextureDecl.
  destruct (TextureDecl_isReachable texDecl); [|apply traceAll_ret].
  apply traceAll_bind; [apply traceAll_getState|]. intros st.
  apply traceAll_bind; [apply traceAll_BeginLn; exact (fun _ => I)|].
  intros _. apply traceAll_bind.
  { destruct (Register_GetForTarget _ _ _);
      [apply traceAll_Write; exact (fun _ => I) | apply traceAll_ret]. }
  intros _. apply traceAll_bind.
  { destruct samplerType;
      [apply traceAll_Write; exact (fun _ => I) | apply traceAll_undefined]. }
  intros _. apply traceAll_bind.
  { destruct (stats_ _); [|apply traceAll_ret].
    apply traceAll_tell. constructor; [reflexivity | constructor]. }
  intros _. apply traceAll_EndLn. exact (fun _ => I).
Qed.

Lemma VisitTextureDeclStmnt_records (env : Env) (ast : TextureDeclStmnt) :
  traceAll recordsMinusOne (VisitTextureDeclStmnt env ast).
Proof.
  unfold VisitTextureDeclStmnt.
  destruct (negb _); [apply traceAll_ret|].
  apply traceAll_bind.
  { destruct (BufferTypeToGLSLKeyword _ _);
      [apply traceAll_ret | apply traceAll_Error; exact (fun _ => I)]. }
  intros _. apply traceAll_bind.
  { apply traceAll_forEach. intros x. apply WriteTextureDecl_records. }
  intros _. apply traceAll_WriteLn; exact (fun _ => I).
Qed.

Lemma WriteTextureDecl_run (env : Env) (keyword : string)
    (texDecl : TextureDecl) (st : GenState) :
  TextureDecl_isReachable texDecl = true ->
  exists t,
    WriteTextureDecl env (Some keyword) texDecl st = mkOutcome (Ok tt) st t /\
    output t =
      lineText st
        (match Register_GetForTarget env (TextureDecl_slotRegisters texDecl)
                 (shaderTarget_ (config st)) with
         | Some slotRegister =>
             "layout(binding = " ++ to_string (slot slotRegister) ++ ") "
         | None => ""
         end ++ "uniform " ++ keyword ++ " " ++ TextureDecl_ident texDecl
         ++ ";") /\
    textures t =
      if stats_ (config st) then [(TextureDecl_ident texDecl, -1)] else [].
Proof.
  intros Hr. unfold WriteTextureDecl. rewrite Hr.
  set (layout := match Register_GetForTarget env
                         (TextureDecl_slotRegisters texDecl)
                         (shaderTarget_ (config st)) with
                 | Some slotRegister =>
                     "layout(binding = " ++ to_string (slot slotRegister)
                     ++ ") "
                 | None => ""
                 end).
  set (uniform := "uniform " ++ keyword ++ " " ++ TextureDecl_ident texDecl
                  ++ ";").
  exists ((if enableIndent (CurrentOptions st)
           then [EvWrite (FullIndent st)] else [])
          ++ match Register_GetForTarget env
                     (TextureDecl_slotRegisters texDecl)
                     (shaderTarget_ (config st)) with
             | Some _ => [EvWrite layout]
             | None => []
             end
          ++ [EvWrite uniform]
          ++ (if stats_ (config st)
              then [EvTexture (TextureDecl_ident texDecl) (-1)] else [])
          ++ (if enableNewLine (CurrentOptions st)
              then [EvWrite newline] else []))%list.
  split; [|split].
  - rewrite bind_getState.
    apply bind_run with (a := tt) (st1 := st); [apply BeginLn_run|].
    apply bind_run with (a := tt) (st1 := st).
    { subst layout. destruct (Register_GetForTarget _ _ _); reflexivity. }
    apply bind_run with (a := tt) (st1 := st); [reflexivity|].
    apply bind_run with (a := tt) (st1 := st).
    { destruct (stats_ (config st)); reflexivity. }
    apply EndLn_run.
  - rewrite !output_app. unfold lineText.
    rewrite (string_app_assoc layout uniform).
    f_equal;
      [destruct (enableIndent _); cbn [output];
       rewrite ?string_app_nil_r; reflexivity|].
    f_equal.
    { subst layout. destruct (Register_GetForTarget _ _ _); cbn [output];
        rewrite ?string_app_nil_r; reflexivity. }
    cbn [output]. rewrite string_app_nil_r. f_equal.
    destruct (stats_ (config st)), (enableNewLine _); reflexivity.
  - rewrite !textures_app.
    destruct (enableIndent _), (Register_GetForTarget _ _ _),
      (stats_ (config st)), (enableNewLine _); reflexivity.
Qed.

(** C9.  Every record a texture declaration statement adds to the
    statistics has the binding -1.  This holds also for a reachable
    declaration with a slot register for the current stage: the line
    written for it carries [layout(binding = N)] with the slot [N] of the
    register, and the record added for it is its identifier with -1. *)
Theorem texture_statistics_binding (env : Env) (ast : TextureDeclStmnt)
    (args : option Z) (st : GenState) :
  (forall (ident : string) (binding : Z),
     In (ident, binding)
        (textures (events (VisitStmnt env (Stmnt_TextureDecl ast) args st))) ->
     binding = -1) /\
  (forall (keyword : string) (texDecl : TextureDecl)
          (slotRegister : Register),
     TextureDecl_isReachable texDecl = true ->
     stats_ (config st) = true ->
     Register_GetForTarget env (TextureDecl_slotRegisters texDecl)
       (shaderTarget_ (config st)) = Some slotRegister ->
     let o := WriteTextureDecl env (Some keyword) texDecl st in
     result o = Ok tt /\
     output (events o) =
       lineText st ("layout(binding = " ++ to_string (slot slotRegister)
                    ++ ") uniform " ++ keyword ++ " "
                    ++ TextureDecl_ident texDecl ++ ";") /\
     textures (events o) = [(TextureDecl_ident texDecl, -1)]).
Proof.
  split.
  - intros ident binding Hin. apply textures_In in Hin.
    cbn [VisitStmnt] in Hin.
    pose proof (VisitTextureDeclStmnt_records env ast st) as Hall.
    rewrite Forall_forall in Hall. exact (Hall _ Hin).
  - intros keyword texDecl slotRegister Hr Hs Hreg o.
    destruct (WriteTextureDecl_run env keyword texDecl st Hr)
      as (t & E & O & T).
    subst o. rewrite E. cbn [result events]. rewrite O, T, Hreg, Hs.
    repeat split; string_norm; reflexivity.
Qed.

(** *** The prefix of a register name *)

(** A name that is not empty and does not begin with the expected
    character: the error names the first character of the name, which is
    the only character read. *)
Lemma register_prefix_of_nonempty_name (env : Env) (X : ascii)
    (rest : string) (prefix : ascii) (ast : option SourcePosition)
    (st : GenState) :
  X <> prefix ->
  ValidateRegisterPrefix env (String X rest) prefix ast st =
  Error env ("invalid register prefix '" ++ string_of_char X
             ++ "' (expected '" ++ string_of_char prefix ++ "')") ast st.
Proof.
  intros Hne. unfold ValidateRegisterPrefix, string_at.
  cbn [empty String.get Nat.eqb]. rewrite bind_assoc, !bind_ret.
  destruct (Ascii.eqb_spec X prefix) as [E|_]; [contradiction|].
  cbn [negb]. rewrite bind_ret. reflexivity.
Qed.

(** A name that begins with the expected character passes. *)
Lemma register_prefix_accepted (env : Env) (rest : string) (prefix : ascii)
    (ast : option SourcePosition) (st : GenState) :
  ValidateRegisterPrefix env (String prefix rest) prefix ast st =
  mkOutcome (Ok tt) st [].
Proof.
  unfold ValidateRegisterPrefix, string_at.
  cbn [empty String.get Nat.eqb]. rewrite bind_assoc, !bind_ret.
  rewrite Ascii.eqb_refl. reflexivity.
Qed.

(** On the empty name the validation produces the error too; the
    character in its message is the one [registerName[0]] yields there,
    the terminator. *)
Lemma register_prefix_of_empty (env : Env) (prefix : ascii)
    (ast : option SourcePosition) (st : GenState) :
  ValidateRegisterPrefix env "" prefix ast st =
  Error env ("invalid register prefix '" ++ string_of_char zero
             ++ "' (expected '" ++ string_of_char prefix ++ "')") ast st.
Proof.
  unfold ValidateRegisterPrefix, string_at.
  cbn [empty String.get Nat.eqb String.length]. rewrite !bind_ret.
  reflexivity.
Qed.

(** C5.  Every register name that does not begin with the expected
    character produces the error "invalid register prefix 'X' (expected
    'K')".  For a name that is not empty [X] is its first character.  The
    empty name has no first character: [X] is then the null character
    that [registerName[0]] yields, the terminator at position [size()].
    No other position is read, so that the validation never reads outside
    the string, whatever the name. *)
Theorem register_prefix_validation (env : Env) (registerName : string)
    (prefix : ascii) (ast : option SourcePosition) (st : GenState) :
  let X := match registerName with
           | String first _ => first
           | EmptyString => zero
           end in
  let r := {| reportType := Severity_Error;
              message := "invalid register prefix '" ++ string_of_char X
                         ++ "' (expected '" ++ string_of_char prefix ++ "')";
              position := ast |} in
  let o := ValidateRegisterPrefix env registerName prefix ast st in
  ((forall rest, registerName <> String prefix rest) ->
   diagnosed r o /\
   reports (events o) = (if breakWithException env then [] else [r]) /\
   result o =
     (if breakWithException env then Throw (Exn_Report r) else Ok tt) /\
   output (events o) = "" /\ final o = st) /\
  result o <> Undefined.
Proof.
  cbv zeta.
  assert (E : (forall rest, registerName <> String prefix rest) ->
              ValidateRegisterPrefix env registerName prefix ast st =
              Error env
                ("invalid register prefix '"
                 ++ string_of_char match registerName with
                                   | String first _ => first
                                   | EmptyString => zero
                                   end
                 ++ "' (expected '" ++ string_of_char prefix ++ "')")
                ast st).
  { intros Hn. destruct registerName as [|x rest].
    - apply register_prefix_of_empty.
    - apply register_prefix_of_nonempty_name. intros ->.
      now apply (Hn rest). }
  split.
  - intros Hn. rewrite (E Hn). unfold diagnosed, Error.
    destruct (breakWithException env); cbn; repeat split; auto.
  - destruct registerName as [|x rest].
    + rewrite register_prefix_of_empty. unfold Error.
      destruct (breakWithException env); discriminate.
    + destruct (Ascii.eqb_spec x prefix) as [->|Hx].
      * rewrite register_prefix_accepted. discriminate.
      * rewrite (register_prefix_of_nonempty_name env rest ast st Hx).
        unfold Error. destruct (breakWithException env); discriminate.
Qed.

(** *** The header and the version line *)

(** *** Lines *)

Lemma noNewline_app (a b : string) :
  noNewline (a ++ b) = noNewline a && noNewline b.
Proof.
  induction a as [|c a IH]; cbn; [reflexivity|].
  now rewrite IH, andb_assoc.
Qed.

Lemma lines_nonempty (s : string) : lines s <> [].
Proof.
  induction s as [|c s IH]; cbn; [discriminate|].
  destruct (isNewline c); [discriminate|].
  destruct (lines s); [contradiction | discriminate].
Qed.

Lemma lines_line (a b : string) :
  noNewline a = true -> lines (a ++ newline ++ b) = a :: lines b.
Proof.
  induction a as [|c a IH]; cbn [noNewline String.append]; intros H.
  - reflexivity.
  - apply andb_prop in H as [Hc Ha]. cbn [lines].
    destruct (isNewline c); [discriminate|].
    rewrite (IH Ha). reflexivity.
Qed.

Lemma noNewline_string_of_uint (d : Decimal.uint) :
  noNewline (NilEmpty.string_of_uint d) = true.
Proof. induction d; cbn; auto. Qed.

Lemma noNewline_to_string (z : Z) : noNewline (to_string z) = true.
Proof.
  unfold to_string, NilZero.string_of_int, NilZero.string_of_uint.
  destruct (Z.to_int z) as [d|d]; destruct d; cbn;
    try reflexivity; apply noNewline_string_of_uint.
Qed.

(** *** Runs that succeed *)

Lemma failed_not_successful {A} (o : Outcome A) : failed o -> ~ successful o.
Proof.
  intros [Hf|(r & Hin & Hr)] [[a Ha] Hs].
  - exact (Hf a Ha).
  - exact (Hs r Hin Hr).
Qed.

Lemma Error_failed (env : Env) msg ast st : failed (Error env msg ast st).
Proof.
  unfold Error, failed. destruct (breakWithException env); cbn.
  - left. discriminate.
  - right. eexists. split; [left; reflexivity | reflexivity].
Qed.

Lemma throw_failed {A} (e : Exn) st : failed (@throw A e st).
Proof. left. discriminate. Qed.

Lemma successful_bind {A B} (m : Gen A) (f : A -> Gen B) st :
  successful (bind m f st) ->
  exists a, result (m st) = Ok a /\ successful (m st) /\
            successful (f a (final (m st))) /\
            events (bind m f st) =
              (events (m st) ++ events (f a (final (m st))))%list.
Proof.
  unfold bind. intros [[b Hb] Hs].
  destruct (m st) as [[a|e|] s1 t1]; cbn in *; try discriminate.
  exists a. split; [reflexivity|]. split; [|split; [|reflexivity]].
  - split; [exists a; reflexivity|]. intros r Hr. apply Hs.
    rewrite reports_app. apply in_or_app. now left.
  - split; [exists b; exact Hb|]. intros r Hr. apply Hs.
    rewrite reports_app. apply in_or_app. now right.
Qed.

Lemma successful_try_catch {A} (m : Gen A) (h : Exn -> Gen A) st :
  (forall e s, failed (h e s)) ->
  successful (try_catch m h st) ->
  try_catch m h st = m st.
Proof.
  unfold try_catch. intros Hh Hs.
  destruct (m st) as [[a|e|] s1 t1] eqn:E; cbn in *; try reflexivity.
  exfalso. revert Hs. apply failed_not_successful.
  destruct (Hh e s1) as [Hf|(r & Hin & Hr)].
  - left. exact Hf.
  - right. exists r. split; [|exact Hr]. cbn. rewrite reports_app.
    apply in_or_app. now right.
Qed.

Lemma WriteLn_eq (text : string) (st : GenState) :
  WriteLn text st = mkOutcome (Ok tt) st (events (WriteLn text st)).
Proof.
  destruct (WriteLn_run text st) as (R & F & _).
  rewrite (outcome_eta (WriteLn text st)) at 1. now rewrite R, F.
Qed.

Lemma WriteVersionAndExtensions_successful (env : Env) (ast : Program) st :
  successful (WriteVersionAndExtensions env ast st) ->
  exists t',
    events (WriteVersionAndExtensions env ast st) =
    (events (WriteLn ("#version " ++ to_string (versionOut_ (config st))) st)
     ++ t')%list.
Proof.
  unfold WriteVersionAndExtensions. intros Hs.
  rewrite successful_try_catch in * by (auto using Error_failed).
  rewrite bind_getState in *.
  destruct (DetermineRequiredExtensions env ast _ _ _) as [e|exts];
    cbn [lift] in *.
  - rewrite bind_throw in Hs. exfalso. revert Hs.
    apply failed_not_successful. left. discriminate.
  - rewrite bind_ret in *. unfold Version.
    rewrite (bind_Ok _ _ _ (WriteLn_eq _ st)). cbn [events]. eauto.
Qed.

Lemma VisitProgram_successful (env : Env) (ast : Program) st :
  successful (VisitProgram env ast st) ->
  exists t',
    events (VisitProgram env ast st) =
    (events (WriteLn ("#version " ++ to_string (versionOut_ (config st))) st)
     ++ t')%list.
Proof.
  unfold VisitProgram. intros Hs.
  apply successful_bind in Hs as (a & _ & Hv & _ & E).
  apply WriteVersionAndExtensions_successful in Hv as (t' & Ev).
  rewrite E, Ev, <- app_assoc. eauto.
Qed.

Lemma GenerateCodePrimary_catch_failed (env : Env) e st :
  failed (GenerateCodePrimary_catch env e st).
Proof.
  destruct e; cbn; auto using Error_failed, throw_failed.
Qed.

Lemma lineText_set_config c st text :
  lineText (set_config c st) text = lineText st text.
Proof. reflexivity. Qed.

Lemma GenerateCodePrimary_successful (env : Env) (time : string)
    (program : Program) (inputDesc : ShaderInput) (outputDesc : ShaderOutput)
    (st : GenState) :
  let o := GenerateCodePrimary env time program inputDesc outputDesc st in
  successful o ->
  exists rest,
    output (events o) =
    lineText st ("// " ++ headerComment env inputDesc)
    ++ lineText st "// Generated by XShaderCompiler"
    ++ lineText st ("// " ++ time)
    ++ lineText st ""
    ++ lineText st ("#version " ++ to_string (shaderVersion outputDesc))
    ++ rest.
Proof.
  intros o. subst o. unfold GenerateCodePrimary. rewrite bind_modify.
  destruct (entryPointRef program) as [ep|].
  2:{ intros Hs. exfalso. revert Hs. apply failed_not_successful.
      apply Error_failed. }
  intros Hs.
  rewrite successful_try_catch in *
    by (auto using GenerateCodePrimary_catch_failed).
  rewrite bind_getState in *.
  destruct (MarkControlPaths env program) as [e|p1]; cbn [lift] in *.
  { rewrite bind_throw in Hs. exfalso. revert Hs.
    apply failed_not_successful, throw_failed. }
  rewrite bind_ret in *.
  destruct (Convert env p1 _ _) as [e|p2]; cbn [lift] in *.
  { rewrite bind_throw in Hs. exfalso. revert Hs.
    apply failed_not_successful, throw_failed. }
  rewrite bind_ret in *.
  destruct (MarkReferencesFromEntryPoint env p2) as [e|p3]; cbn [lift] in *.
  { rewrite bind_throw in Hs. exfalso. revert Hs.
    apply failed_not_successful, throw_failed. }
  rewrite bind_ret in *. cbv beta in *. rewrite bind_modify in *.
  match goal with
  | H : successful (bind _ ?k ?s) |- _ => set (st2 := s) in *
  end.
  assert (E1 : (if empty (entryPoint inputDesc)
                then Comment ("GLSL " ++ TargetToString env
                                (shaderTarget inputDesc))
                else Comment ("GLSL " ++ TargetToString env
                                (shaderTarget inputDesc) ++ " " ++ dquote
                              ++ entryPoint inputDesc ++ dquote)) st2
               = WriteLn ("// " ++ headerComment env inputDesc) st2).
  { unfold headerComment, Comment.
    destruct (empty (entryPoint inputDesc)); reflexivity. }
  cbn [shaderTarget_ config set_config] in Hs |- *.
  apply successful_bind in Hs as (a1 & _ & _ & Hs & Ev1). rewrite Ev1.
  rewrite E1 in *. clear Ev1.
  destruct (WriteLn_run ("// " ++ headerComment env inputDesc) st2)
    as (_ & F1 & O1 & _). rewrite F1 in *.
  unfold Comment in *.
  apply successful_bind in Hs as (a2 & _ & _ & Hs & Ev2). rewrite Ev2.
  destruct (WriteLn_run ("// " ++ "Generated by XShaderCompiler") st2)
    as (_ & F2 & O2 & _). rewrite F2 in *.
  apply successful_bind in Hs as (a3 & _ & _ & Hs & Ev3). rewrite Ev3.
  destruct (WriteLn_run ("// " ++ time) st2) as (_ & F3 & O3 & _).
  rewrite F3 in *.
  apply successful_bind in Hs as (a4 & _ & _ & Hs & Ev4). rewrite Ev4.
  unfold Blank in *.
  destruct (WriteLn_run "" st2) as (_ & F4 & O4 & _). rewrite F4 in *.
  apply VisitProgram_successful in Hs as (t' & Ev5). rewrite Ev5.
  destruct (WriteLn_run ("#version " ++ to_string (versionOut_ (config st2)))
              st2) as (_ & _ & O5 & _).
  exists (output t'). rewrite !output_app, O1, O2, O3, O4, O5.
  reflexivity.
Qed.

Lemma firstCodeLine_skip (a b : string) :
  noNewline a = true ->
  isBlank a || isComment a = true ->
  firstCodeLine ((a ++ newline) ++ b) = firstCodeLine b.
Proof.
  intros Hn Hs. unfold firstCodeLine.
  rewrite string_app_assoc, (lines_line _ _ Hn). cbn [find].
  destruct (isBlank a); cbn in *; [reflexivity|]. now rewrite Hs.
Qed.

Lemma firstCodeLine_hit (a b : string) :
  noNewline a = true ->
  isBlank a = false ->
  isComment a = false ->
  firstCodeLine ((a ++ newline) ++ b) = Some a.
Proof.
  intros Hn Hb Hc. unfold firstCodeLine.
  rewrite string_app_assoc, (lines_line _ _ Hn). cbn [find].
  now rewrite Hb, Hc.
Qed.

Lemma lineText_atFirstColumn (st : GenState) (text : string) :
  atFirstColumn st -> lineText st text = text ++ newline.
Proof.
  intros [Hi Ho]. unfold lineText, CurrentOptions, FullIndent.
  rewrite Hi, Ho. reflexivity.
Qed.

Lemma noNewline_headerComment (env : Env) (inputDesc : ShaderInput) :
  noNewline (TargetToString env (shaderTarget inputDesc)) = true ->
  noNewline (entryPoint inputDesc) = true ->
  noNewline ("// " ++ headerComment env inputDesc) = true.
Proof.
  intros Ht He. unfold headerComment.
  destruct (empty (entryPoint inputDesc));
    rewrite !noNewline_app, ?Ht, ?He; reflexivity.
Qed.

(** C3.  In a successful run of a generator that starts at the first
    column, with a target name, an entry point name and a time that hold
    no line feed, the first line of the output that is neither blank nor a
    comment is [#version NNN], where [NNN] is the target version in
    decimal, with nothing after it; the lines before it are the three
    comments of the header and one blank line. *)
Theorem version_line_first (env : Env) (time : string) (program : Program)
    (inputDesc : ShaderInput) (outputDesc : ShaderOutput) (st : GenState) :
  let o := GenerateCodePrimary env time program inputDesc outputDesc st in
  successful o ->
  atFirstColumn st ->
  noNewline (TargetToString env (shaderTarget inputDesc)) = true ->
  noNewline (entryPoint inputDesc) = true ->
  noNewline time = true ->
  firstCodeLine (output (events o)) =
    Some ("#version " ++ to_string (shaderVersion outputDesc)) /\
  exists rest,
    output (events o) =
    ("// " ++ headerComment env inputDesc ++ newline)
    ++ ("// Generated by XShaderCompiler" ++ newline)
    ++ ("// " ++ time ++ newline)
    ++ newline
    ++ ("#version " ++ to_string (shaderVersion outputDesc) ++ newline)
    ++ rest.
Proof.
  intros o Hs Hc Ht He Hn.
  destruct (GenerateCodePrimary_successful Hs) as (rest & E).
  fold o in E. rewrite E, !(lineText_atFirstColumn _ Hc). split.
  - rewrite firstCodeLine_skip;
      [| now apply noNewline_headerComment | apply orb_true_r ].
    rewrite firstCodeLine_skip; [| reflexivity | reflexivity ].
    rewrite firstCodeLine_skip;
      [| rewrite noNewline_app, Hn; reflexivity | apply orb_true_r ].
    rewrite firstCodeLine_skip; [| reflexivity | reflexivity ].
    apply firstCodeLine_hit; [|reflexivity|reflexivity].
    rewrite noNewline_app, noNewline_to_string. reflexivity.
  - exists rest. string_norm. reflexivity.
Qed.

(** *** The time in the header *)

Lemma try_catch_bind_Ok {A B} (m : Gen A) (f : A -> Gen B)
    (h : Exn -> Gen B) st a st1 t1 :
  m st = mkOutcome (Ok a) st1 t1 ->
  try_catch (bind m f) h st =
  mkOutcome (result (try_catch (f a) h st1)) (final (try_catch (f a) h st1))
    (t1 ++ events (try_catch (f a) h st1)).
Proof.
  intros H. unfold try_catch. rewrite (bind_Ok _ _ _ H).
  cbn [result final events].
  destruct (f a st1) as [[b|e|] s2 t2]; cbn [result final events];
    try reflexivity.
  now rewrite app_assoc.
Qed.

Lemma WriteLn_events (text : string) (st : GenState) :
  events (WriteLn text st) =
  ((if enableIndent (CurrentOptions st) then [EvWrite (FullIndent st)]
    else [])
   ++ [EvWrite text]
   ++ (if enableNewLine (CurrentOptions st) then [EvWrite newline] else []))%list.
Proof.
  unfold WriteLn. rewrite (bind_Ok _ _ _ (BeginLn_run st)).
  cbn [events]. f_equal. unfold Write. rewrite bind_tell. cbn [events].
  now rewrite EndLn_run.
Qed.

(** What a run is, but for the time: the effects before the line with the
    time, whether that line is written, and the outcome of what follows. *)
Lemma GenerateCodePrimary_time (env : Env) (program : Program)
    (inputDesc : ShaderInput) (outputDesc : ShaderOutput) (st : GenState) :
  exists (before : list Event) (stamped : bool) (after : Outcome unit),
    forall time : string,
      GenerateCodePrimary env time program inputDesc outputDesc st =
      mkOutcome (result after) (final after)
        (before
         ++ (if stamped then events (WriteLn ("// " ++ time) st) else [])
         ++ events after).
Proof.
  unfold GenerateCodePrimary.
  match goal with
  | |- context [modify (set_config ?c)] => set (st1 := set_config c st)
  end.
  destruct (entryPointRef program) as [ep|].
  2:{ exists [], false, (Error env ("entry point " ++ dquote
                                       ++ entryPoint inputDesc ++ dquote
                                       ++ " not found") None st1).
      intros time. rewrite bind_modify. fold st1. apply outcome_eta. }
  destruct (MarkControlPaths env program) as [e|p1] eqn:E1.
  { exists [], false, (GenerateCodePrimary_catch env e st1). intros time.
    rewrite bind_modify. fold st1. unfold try_catch at 1.
    rewrite bind_getState. cbn [lift]. rewrite bind_throw.
    reflexivity. }
  destruct (Convert env p1 (shaderTarget inputDesc)
              (formatting_prefix outputDesc)) as [e|p2] eqn:E2.
  { exists [], false, (GenerateCodePrimary_catch env e st1). intros time.
    rewrite bind_modify. fold st1. unfold try_catch at 1.
    rewrite bind_getState. cbn [lift]. rewrite bind_ret. cbv beta.
    rewrite E2. cbn [lift]. rewrite bind_throw. reflexivity. }
  destruct (MarkReferencesFromEntryPoint env p2) as [e|p3] eqn:E3.
  { exists [], false, (GenerateCodePrimary_catch env e st1). intros time.
    rewrite bind_modify. fold st1. unfold try_catch at 1.
    rewrite bind_getState. cbn [lift]. rewrite bind_ret. cbv beta.
    rewrite E2. cbn [lift]. rewrite bind_ret. cbv beta. rewrite E3.
    cbn [lift]. rewrite bind_throw. reflexivity. }
  set (st2 := set_program p3 st1).
  set (c1 := if empty (entryPoint inputDesc)
             then "// " ++ "GLSL " ++ TargetToString env
                                        (shaderTarget inputDesc)
             else "// " ++ "GLSL " ++ TargetToString env
                                        (shaderTarget inputDesc)
                  ++ " " ++ dquote ++ entryPoint inputDesc ++ dquote).
  exists (events (WriteLn c1 st2)
          ++ events (WriteLn ("// " ++ "Generated by XShaderCompiler") st2))%list,
    true,
    (try_catch (Blank ;; VisitProgram env p3) (GenerateCodePrimary_catch env)
       st2).
  intros time. rewrite bind_modify. fold st1.
  transitivity
    (try_catch
       (modify (set_program p3) ;;
        WriteLn c1 ;;
        WriteLn ("// " ++ "Generated by XShaderCompiler") ;;
        WriteLn ("// " ++ time) ;; Blank ;; VisitProgram env p3)
       (GenerateCodePrimary_catch env) st1).
  { unfold try_catch. rewrite bind_getState. cbn [lift].
    rewrite bind_ret. cbv beta. rewrite E2. cbn [lift]. rewrite bind_ret.
    cbv beta. rewrite E3. cbn [lift]. rewrite bind_ret. cbv beta. unfold Comment. subst c1. cbn [shaderTarget_ config st1 set_config].
    destruct (empty (entryPoint inputDesc)); reflexivity. }
  rewrite (@try_catch_bind_Ok _ _ (modify (set_program p3)) _ _ st1 tt st2 []);
    [|reflexivity].
  rewrite (try_catch_bind_Ok _ _ _ _ (WriteLn_eq c1 st2)).
  rewrite (try_catch_bind_Ok _ _ _ _ (WriteLn_eq _ st2)).
  rewrite (try_catch_bind_Ok _ _ _ _ (WriteLn_eq _ st2)).
  cbn [result final events app]. rewrite <- app_assoc.
  rewrite (WriteLn_events ("// " ++ time) st2),
    (WriteLn_events ("// " ++ time) st).
  reflexivity.
Qed.

(** The result, the final fields, the diagnostics and the statistics of
    a run are those of the run made at any other time. *)
Lemma GenerateCodePrimary_any_time (env : Env) (program : Program)
    (inputDesc : ShaderInput) (outputDesc : ShaderOutput) (st : GenState)
    (time1 time2 : string) :
  let o1 := GenerateCodePrimary env time1 program inputDesc outputDesc st in
  let o2 := GenerateCodePrimary env time2 program inputDesc outputDesc st in
  result o1 = result o2 /\ final o1 = final o2 /\
  reports (events o1) = reports (events o2) /\
  textures (events o1) = textures (events o2).
Proof.
  destruct (GenerateCodePrimary_time env program inputDesc outputDesc st)
    as (before & stamped & after & H).
  cbn zeta. rewrite !H. cbn [result final events].
  rewrite !reports_app, !textures_app.
  repeat split; f_equal; f_equal; destruct stamped; try reflexivity.
  - destruct (WriteLn_run ("// " ++ time1) st) as (_ & _ & _ & D1 & _).
    destruct (WriteLn_run ("// " ++ time2) st) as (_ & _ & _ & D2 & _).
    now rewrite D1, D2.
  - destruct (WriteLn_run ("// " ++ time1) st) as (_ & _ & _ & _ & T1).
    destruct (WriteLn_run ("// " ++ time2) st) as (_ & _ & _ & _ & T2).
    now rewrite T1, T2.
Qed.


(** *** Line marks *)

Create HintDb ins discriminated.

Lemma ins_ret {A} (a : A) : insensitive (ret a).
Proof. intros b st. reflexivity. Qed.

Lemma ins_throw {A} (e : Exn) : insensitive (@throw A e).
Proof. intros b st. reflexivity. Qed.

Lemma ins_undefined {A} : insensitive (@undefined A).
Proof. intros b st. reflexivity. Qed.

Lemma ins_tell (t : list Event) : insensitive (tell t).
Proof. intros b st. reflexivity. Qed.

Lemma ins_lift {A} (r : Exn + A) : insensitive (lift r).
Proof. destruct r; [apply ins_throw | apply ins_ret]. Qed.

Lemma ins_bind {A B} (m : Gen A) (f : A -> Gen B) :
  insensitive m -> (forall a, insensitive (f a)) -> insensitive (bind m f).
Proof.
  intros Hm Hf b st. unfold bind. cbv zeta. rewrite !Hm.
  cbn [result final events].
  destruct (result (m st)); cbn [result final events]; try reflexivity.
  rewrite !Hf. reflexivity.
Qed.

Lemma ins_try_catch {A} (m : Gen A) (h : Exn -> Gen A) :
  insensitive m -> (forall e, insensitive (h e)) ->
  insensitive (try_catch m h).
Proof.
  intros Hm Hh b st. unfold try_catch. cbv zeta. rewrite !Hm.
  cbn [result final events].
  destruct (m st) as [[a|e|] s1 t1]; cbn [result final events];
    try reflexivity.
  rewrite !Hh. reflexivity.
Qed.

(** A computation that begins by reading the fields, and uses of them
    only what the option leaves alone. *)
Lemma ins_getState {B} (k : GenState -> Gen B) :
  (forall b s st, k (withLineMarks b s) st = k s st) ->
  (forall s, insensitive (k s)) ->
  insensitive (bind getState k).
Proof.
  intros Hk Hi b st. rewrite !bind_getState, Hk. apply Hi.
Qed.

Lemma ins_modify (g : GenState -> GenState) :
  (forall b st, g (withLineMarks b st) = withLineMarks b (g st)) ->
  insensitive (modify g).
Proof. intros Hg b st. unfold modify. now rewrite Hg. Qed.

Lemma ins_forEach {A} (f : A -> Gen unit) (l : list A) :
  (forall x, In x l -> insensitive (f x)) -> insensitive (forEach f l).
Proof.
  induction l as [|x l IH]; intros H; cbn [forEach].
  - apply ins_ret.
  - apply ins_bind; [apply H; now left|]. intros _. apply IH.
    intros y Hy. apply H. now right.
Qed.

Lemma ins_forEachReverse {A} (f : A -> Gen unit) (l : list A) :
  (forall x, In x l -> insensitive (f x)) ->
  insensitive (forEachReverse f l).
Proof.
  induction l as [|x l IH]; intros H; cbn [forEachReverse].
  - apply ins_ret.
  - apply ins_bind.
    + apply IH. intros y Hy. apply H. now right.
    + intros _. apply H. now left.
Qed.

Lemma ins_forEachSeparated {A} (f : A -> Gen unit) (sep : Gen unit)
    (l : list A) :
  insensitive sep ->
  (forall x, In x l -> insensitive (f x)) ->
  insensitive (forEachSeparated f sep l).
Proof.
  intros Hsep. induction l as [|x l IH]; intros H; cbn [forEachSeparated].
  - apply ins_ret.
  - apply ins_bind; [apply H; now left|]. intros _.
    destruct l as [|y l]; [apply ins_ret|].
    apply ins_bind; [exact Hsep|]. intros _. apply IH.
    intros z Hz. apply H. now right.
Qed.

Lemma ins_at {A B} (l : list A) (i : nat) (k : A -> Gen B) :
  (forall x, In x l -> insensitive (k x)) -> insensitive (at_ l i k).
Proof.
  unfold at_. revert i. induction l as [|x l IH]; intros i H.
  - destruct i; apply ins_undefined.
  - destruct i as [|j]; [apply H; now left|].
    apply IH. intros y Hy. apply H. now right.
Qed.

Lemma ins_anyWritten {A} (f : A -> Gen bool) (l : list A) :
  (forall x, insensitive (f x)) -> insensitive (anyWritten f l).
Proof.
  intros H. induction l as [|x l IH]; cbn [anyWritten].
  - apply ins_ret.
  - apply ins_bind; [apply H|]. intros b.
    apply ins_bind; [apply IH|]. intros b'. apply ins_ret.
Qed.

Lemma ins_VisitOptional {A} (Visit : A -> Gen unit) (ast : option A) :
  (forall a, ast = Some a -> insensitive (Visit a)) ->
  insensitive (VisitOptional Visit ast).
Proof.
  destruct ast as [a|]; intros H; [apply H; reflexivity | apply ins_ret].
Qed.

(** The writer and the diagnostics. *)
Lemma ins_Write (text : string) : insensitive (Write text).
Proof. apply ins_tell. Qed.

Lemma ins_BeginLn : insensitive BeginLn.
Proof.
  apply ins_getState; [reflexivity|]. intros s.
  destruct (enableIndent _); [apply ins_Write | apply ins_ret].
Qed.

Lemma ins_EndLn : insensitive EndLn.
Proof.
  apply ins_getState; [reflexivity|]. intros s.
  destruct (enableNewLine _); [apply ins_Write | apply ins_ret].
Qed.

Lemma ins_WriteLn (text : string) : insensitive (WriteLn text).
Proof.
  apply ins_bind; [apply ins_BeginLn|]. intros _.
  apply ins_bind; [apply ins_Write|]. intros _. apply ins_EndLn.
Qed.

Lemma ins_Blank : insensitive Blank.
Proof. apply ins_WriteLn. Qed.

Lemma ins_IncIndent : insensitive IncIndent.
Proof. apply ins_modify. reflexivity. Qed.

Lemma ins_DecIndent : insensitive DecIndent.
Proof. apply ins_modify. reflexivity. Qed.

Lemma ins_PushOptions o : insensitive (PushOptions o).
Proof. apply ins_modify. reflexivity. Qed.

Lemma ins_PopOptions : insensitive PopOptions.
Proof. apply ins_modify. reflexivity. Qed.

Lemma ins_OpenScope : insensitive OpenScope.
Proof. apply ins_bind; [apply ins_WriteLn | intros _; apply ins_IncIndent]. Qed.

Lemma ins_CloseScope b : insensitive (CloseScope b).
Proof. apply ins_bind; [apply ins_DecIndent | intros _; apply ins_WriteLn]. Qed.

Lemma ins_Error (env : Env) msg ast : insensitive (Error env msg ast).
Proof.
  unfold Error. destruct (breakWithException env);
    [apply ins_throw | apply ins_tell].
Qed.

Lemma ins_Warning msg ast : insensitive (Warning msg ast).
Proof. apply ins_tell. Qed.

Lemma ins_set_isInsideInterfaceBlock b :
  insensitive (modify (set_isInsideInterfaceBlock b)).
Proof. apply ins_modify. reflexivity. Qed.

Lemma ins_set_isInsideEntryPoint b :
  insensitive (modify (set_isInsideEntryPoint b)).
Proof. apply ins_modify. reflexivity. Qed.

Lemma ins_ArgsAsBool (args : option Z) : insensitive (ArgsAsBool args).
Proof.
  destruct (ArgsAsBool_cases args) as [[b ->]| ->];
    [apply ins_ret | apply ins_undefined].
Qed.

#[local] Hint Resolve ins_ArgsAsBool : ins.

#[local] Hint Resolve ins_ret ins_throw ins_undefined ins_tell ins_lift
  ins_Write ins_BeginLn ins_EndLn ins_WriteLn ins_Blank ins_IncIndent
  ins_DecIndent ins_PushOptions ins_PopOptions ins_OpenScope ins_CloseScope
  ins_Error ins_Warning ins_set_isInsideInterfaceBlock
  ins_set_isInsideEntryPoint : ins.

(** Splits a computation along its sequencing and its case analyses. *)
Ltac ins_step :=
  match goal with
  | |- insensitive (bind getState _) =>
      apply ins_getState; [reflexivity | intros ?]
  | |- insensitive (bind _ _) => apply ins_bind; [| intros ?]
  | |- insensitive (try_catch _ _) => apply ins_try_catch; [| intros ?]
  | |- insensitive (if ?c then _ else _) => destruct c
  | |- insensitive (match ?c with _ => _ end) => destruct c
  | |- insensitive _ => solve [auto with ins]
  end.

Ltac ins_auto := repeat ins_step.

Lemma list_all_In {A} (P : A -> Prop) (l : list A) :
  list_all P l -> forall x, In x l -> P x.
Proof.
  induction 1 as [|a Ha l Hl IH]; intros x Hin; cbn in Hin.
  - contradiction.
  - destruct Hin as [E|Hin]; [now subst | auto].
Qed.

Section InsensitiveExpr.

Variable env : Env.

Lemma ins_WriteDataType dataType ast :
  insensitive (WriteDataType env dataType ast).
Proof. unfold WriteDataType. ins_auto. Qed.

Lemma ins_GetTypeDenoterForSuffixVarIdent lhs ast :
  insensitive (GetTypeDenoterForSuffixVarIdent env lhs ast).
Proof. unfold GetTypeDenoterForSuffixVarIdent. ins_auto. Qed.

Hint Resolve ins_WriteDataType ins_GetTypeDenoterForSuffixVarIdent : ins.

Lemma ins_WriteArrayDims (Visit : Expr -> Gen unit) (arrayDims : list Expr) :
  (forall x, In x arrayDims -> insensitive (Visit x)) ->
  insensitive (WriteArrayDims Visit arrayDims).
Proof.
  intros H. apply ins_forEach. intros x Hx. specialize (H x Hx). ins_auto.
Qed.

Lemma ins_AssertIntrinsicNumArgs ast lo hi :
  insensitive (AssertIntrinsicNumArgs env ast lo hi).
Proof. unfold AssertIntrinsicNumArgs. ins_auto. Qed.

Hint Resolve ins_AssertIntrinsicNumArgs : ins.

Lemma ins_WriteMulArgument (Visit : Expr -> Gen unit) (expr : Expr) :
  insensitive (Visit expr) -> insensitive (WriteMulArgument Visit expr).
Proof. intros H. unfold WriteMulArgument. cbv zeta. ins_auto. Qed.

Lemma ins_WriteTypeDenoter_catch ast e :
  insensitive (WriteTypeDenoter_catch env ast e).
Proof. unfold WriteTypeDenoter_catch. ins_auto. Qed.

Hint Resolve ins_WriteTypeDenoter_catch : ins.

Theorem ins_Expr :
  (forall e, insensitive (VisitExpr env e)) /\
  (forall c, insensitive (VisitFunctionCall env c)) /\
  (forall v,
     (forall r, insensitive (WriteVarIdent env v r)) /\
     (forall lhs, insensitive (WriteSuffixVarIdentEnd env lhs v)) /\
     (forall lhs, insensitive (WriteSuffixVarIdentBegin env lhs v))) /\
  (forall t ast, insensitive (WriteTypeDenoter_ env (VisitExpr env) t ast)).
Proof.
  apply Expr_mutind.
  - (* ListExpr *) intros a e1 H1 e2 H2. cbn [VisitExpr]. ins_auto.
  - (* LiteralExpr *) intros a v. cbn [VisitExpr]. ins_auto.
  - (* TypeNameExpr *) intros a t Ht. cbn [VisitExpr]. apply Ht.
  - (* TernaryExpr *) intros a c Hc t Ht e He. cbn [VisitExpr]. ins_auto.
  - (* BinaryExpr *) intros a l Hl op r Hr. cbn [VisitExpr]. ins_auto.
  - (* UnaryExpr *) intros a op e He. cbn [VisitExpr]. ins_auto.
  - (* PostUnaryExpr *) intros a e He op. cbn [VisitExpr]. ins_auto.
  - (* FunctionCallExpr *) intros a c Hc. cbn [VisitExpr]. exact Hc.
  - (* BracketExpr *) intros a e He. cbn [VisitExpr]. ins_auto.
  - (* SuffixExpr *)
    intros a e He v (Hv & Hend & Hbegin). cbn [VisitExpr]. ins_auto.
  - (* ArrayAccessExpr *)
    intros a e He l Hl. cbn [VisitExpr]. ins_auto.
    apply ins_WriteArrayDims, (list_all_In Hl).
  - (* CastExpr *) intros a t Ht e He. cbn [VisitExpr]. ins_auto.
  - (* VarAccessExpr *)
    intros a v (Hv & _) op e He. cbn [VisitExpr].
    apply ins_bind; [apply Hv|]. intros _.
    destruct e as [e|]; [|apply ins_ret]. inversion He; subst. ins_auto.
  - (* InitializerExpr *)
    intros a l Hl. cbn [VisitExpr]. ins_auto.
    apply ins_forEachSeparated; [ins_auto | apply (list_all_In Hl)].
  - (* FunctionCall *)
    intros a v Hv t Ht i l Hl. pose proof (list_all_In Hl) as Hin.
    cbn [VisitFunctionCall].
    destruct (Intrinsic_IsMul i); [|destruct (Intrinsic_IsRcp i);
      [|destruct (Intrinsic_IsInterlocked i)]].
    + unfold WriteFunctionCallIntrinsicMul. ins_auto;
        apply ins_at; intros x Hx; apply ins_WriteMulArgument, Hin, Hx.
    + unfold WriteFunctionCallIntrinsicRcp. ins_auto.
      apply ins_at. intros x Hx. specialize (Hin x Hx). ins_auto.
      cbn [WriteTypeDenoter_]. ins_auto.
    + unfold WriteFunctionCallIntrinsicAtomic. ins_auto;
        try (apply ins_at; intros x Hx; apply Hin, Hx).
    + unfold WriteFunctionCallStandard.
      apply ins_bind.
      * destruct v as [v|].
        { inversion Hv as [v' (Hw & _)|]; subst. ins_auto. }
        destruct t as [t|]; [|ins_auto].
        inversion Ht; subst. auto.
      * intros _. ins_auto. apply ins_forEachSeparated; [ins_auto | exact Hin].
  - (* VarIdent *)
    intros a i l Hl n Hn s. pose proof (list_all_In Hl) as Hin.
    assert (Hhead : forall r,
              insensitive (WriteVarIdent_ (VisitExpr env)
                             (fun n => WriteVarIdent env n true)
                             (mkVarIdent a i l n s) r)).
    { intros r. unfold WriteVarIdent_. ins_auto.
      - now apply ins_WriteArrayDims.
      - inversion Hn as [n' (Hw & _)|]; subst. apply Hw. }
    split; [|split].
    + intros r. cbn [WriteVarIdent]. apply Hhead.
    + intros lhs. cbn [WriteSuffixVarIdentEnd]. ins_auto.
      inversion Hn as [n' (_ & He & _)|]; subst. apply He.
    + intros lhs. cbn [WriteSuffixVarIdentBegin]. ins_auto.
      inversion Hn as [n' (_ & _ & Hb)|]; subst. apply Hb.
  - (* VoidTypeDenoter *) intros ast. cbn [WriteTypeDenoter_]. ins_auto.
  - (* BaseTypeDenoter *) intros d ast. cbn [WriteTypeDenoter_]. ins_auto.
  - (* TextureTypeDenoter *)
    intros t r ast. cbn [WriteTypeDenoter_]. ins_auto.
  - (* StructTypeDenoter *) intros i ast. cbn [WriteTypeDenoter_]. ins_auto.
  - (* AliasTypeDenoter *)
    intros i t Ht ast. cbn [WriteTypeDenoter_]. ins_auto.
  - (* ArrayTypeDenoter *)
    intros t Ht l Hl ast. cbn [WriteTypeDenoter_]. ins_auto.
    apply ins_WriteArrayDims, (list_all_In Hl).
Qed.

Lemma ins_VisitExpr e : insensitive (VisitExpr env e).
Proof. apply ins_Expr. Qed.

Lemma ins_WriteTypeDenoter t ast : insensitive (WriteTypeDenoter env t ast).
Proof. apply ins_Expr. Qed.

Hint Resolve ins_VisitExpr ins_WriteTypeDenoter : ins.

Lemma ins_VisitVarDecl ast : insensitive (VisitVarDecl env ast).
Proof.
  unfold VisitVarDecl. ins_auto. apply ins_WriteArrayDims. auto with ins.
Qed.

Lemma ins_MustResolveStruct ast : insensitive (MustResolveStruct env ast).
Proof. unfold MustResolveStruct. ins_auto. Qed.

Lemma ins_WriteTypeModifiers l : insensitive (WriteTypeModifiers l).
Proof. apply ins_forEach. intros x _. ins_auto. Qed.

Hint Resolve ins_VisitVarDecl ins_MustResolveStruct ins_WriteTypeModifiers
  : ins.

Lemma ins_WriteStructDecl_ (VisitMember : VarDeclStmnt -> Gen unit)
    (WriteMembers : StructDecl -> Gen unit) a i al r n si so ms ns bs ws an :
  (forall m, In m ms -> insensitive (VisitMember m)) ->
  insensitive (WriteMembers (mkStructDecl a i al r n si so ms ns bs)) ->
  insensitive (WriteStructDecl_ VisitMember WriteMembers
                 (mkStructDecl a i al r n si so ms ns bs) ws an).
Proof.
  intros Hm Hw. unfold WriteStructDecl_. ins_auto; now apply ins_forEach.
Qed.

Theorem ins_Decl :
  (forall t, insensitive (VisitVarType env t)) /\
  (forall s,
     insensitive (WriteStructDeclMembers env s) /\
     (forall ws an, insensitive (WriteStructDecl env s ws an)) /\
     (forall args, insensitive (VisitStructDecl env s args))) /\
  (forall v, insensitive (VisitVarDeclStmnt env v)).
Proof.
  apply VarType_mutind.
  - (* VarType *)
    intros a s Hs t. cbn [VisitVarType].
    destruct s as [s|]; [|auto with ins].
    inversion Hs as [s' (_ & _ & Hv)|]; subst. apply Hv.
  - (* StructDecl *)
    intros a i al r n si so ms Hms ns Hns bs Hbs.
    pose proof (list_all_In Hms) as Hm. pose proof (list_all_In Hns) as Hn.
    assert (Hmem : insensitive (WriteStructDeclMembers env
                      (mkStructDecl a i al r n si so ms ns bs))).
    { cbn [WriteStructDeclMembers]. apply ins_bind.
      - destruct bs as [b|]; [|apply ins_ret].
        inversion Hbs as [b' (Hb & _)|]; subst. exact Hb.
      - intros _. now apply ins_forEach. }
    assert (Hdecl : forall ws an,
              insensitive (WriteStructDecl env
                             (mkStructDecl a i al r n si so ms ns bs) ws an)).
    { intros ws an. unfold WriteStructDecl. now apply ins_WriteStructDecl_. }
    split; [exact Hmem|]. split; [exact Hdecl|].
    intros args. unfold VisitStructDecl, VisitStructDecl_. ins_auto;
      try apply Hdecl.
    apply ins_forEachReverse. intros x Hx. ins_auto.
    destruct (Hn x Hx) as (_ & Hd & _). apply Hd.
  - (* VarDeclStmnt *)
    intros a si so im sc tm t Ht l. cbn [VisitVarDeclStmnt].
    apply ins_getState; [reflexivity|]. intros s.
    destruct (filter _ l) as [|d ds] eqn:E; [apply ins_ret|].
    ins_auto;
      first [ apply ins_forEach; intros ? _; ins_auto
            | apply ins_forEachSeparated; auto with ins
            | inversion Ht; subst; assumption ].
Qed.

End InsensitiveExpr.

Section InsensitiveStmnt.

Variable env : Env.

Hint Resolve ins_VisitExpr ins_WriteTypeDenoter ins_VisitVarDecl
  ins_MustResolveStruct ins_WriteTypeModifiers : ins.

Lemma ins_VisitVarType t : insensitive (VisitVarType env t).
Proof. apply ins_Decl. Qed.

Lemma ins_VisitVarDeclStmnt v : insensitive (VisitVarDeclStmnt env v).
Proof. apply ins_Decl. Qed.

Lemma ins_VisitStructDecl s args : insensitive (VisitStructDecl env s args).
Proof. apply ins_Decl. Qed.

Hint Resolve ins_VisitVarType ins_VisitVarDeclStmnt ins_VisitStructDecl : ins.

Lemma ins_GetProgram : insensitive GetProgram.
Proof. unfold GetProgram. ins_auto. Qed.

Lemma ins_GetEntryPoint : insensitive GetEntryPoint.
Proof. unfold GetEntryPoint. apply ins_bind; [apply ins_GetProgram|]. intros p. ins_auto. Qed.

Hint Resolve ins_GetProgram ins_GetEntryPoint : ins.

Lemma ins_WriteOutputSemanticsAssignment ast :
  insensitive (WriteOutputSemanticsAssignment env ast).
Proof.
  unfold WriteOutputSemanticsAssignment.
  apply ins_bind; [apply ins_GetEntryPoint|]. intros f. cbv zeta.
  apply ins_getState; [reflexivity|]. intros s.
  destruct (varDeclRefsSV _) as [|x l].
  - ins_auto.
  - apply ins_forEach. intros y _. ins_auto.
Qed.

Hint Resolve ins_WriteOutputSemanticsAssignment : ins.

Lemma ins_VisitReturnStmnt r : insensitive (VisitReturnStmnt env r).
Proof. unfold VisitReturnStmnt. ins_auto. Qed.

Lemma ins_VisitExprStmnt e : insensitive (VisitExprStmnt env e).
Proof. unfold VisitExprStmnt. ins_auto. Qed.

Lemma ins_VisitNullStmnt : insensitive VisitNullStmnt.
Proof. unfold VisitNullStmnt. ins_auto. Qed.

Lemma ins_VisitCtrlTransferStmnt t :
  insensitive (VisitCtrlTransferStmnt env t).
Proof. unfold VisitCtrlTransferStmnt. ins_auto. Qed.

Lemma ins_WriteTextureDecl k d : insensitive (WriteTextureDecl env k d).
Proof. unfold WriteTextureDecl. ins_auto. Qed.

Lemma ins_VisitTextureDeclStmnt t : insensitive (VisitTextureDeclStmnt env t).
Proof.
  unfold VisitTextureDeclStmnt. ins_auto;
    apply ins_forEach; intros x _; apply ins_WriteTextureDecl.
Qed.

Hint Resolve ins_VisitReturnStmnt ins_VisitExprStmnt ins_VisitNullStmnt
  ins_VisitCtrlTransferStmnt ins_VisitTextureDeclStmnt : ins.

Lemma ins_WriteScopedStmnt_ (Visit : Stmnt -> Gen unit) (ast : option Stmnt) :
  (forall s, ast = Some s -> insensitive (Visit s)) ->
  insensitive (WriteScopedStmnt_ Visit ast).
Proof.
  intros H. destruct ast as [s|]; [|apply ins_ret].
  specialize (H s eq_refl). unfold WriteScopedStmnt_. ins_auto.
Qed.

Lemma ins_statements (stmnts : list Stmnt) :
  list_all (fun s => plainStmnt s = true ->
                     forall args, insensitive (VisitStmnt env s args))
    stmnts ->
  forallb plainStmnt stmnts = true ->
  insensitive (forEach (fun s => VisitStmnt env s None) stmnts).
Proof.
  intros Hl Hp. apply ins_forEach. intros x Hx.
  apply (list_all_In Hl x Hx). rewrite forallb_forall in Hp. now apply Hp.
Qed.

Lemma ins_optional_stmnt (o : option Stmnt) :
  option_all (fun s => plainStmnt s = true ->
                       forall args, insensitive (VisitStmnt env s args)) o ->
  match o with Some x => plainStmnt x | None => true end = true ->
  forall s, o = Some s -> insensitive (VisitStmnt env s None).
Proof.
  intros Ho Hp s ->. inversion Ho; subst. auto.
Qed.

Theorem ins_Stmnt :
  forall s, plainStmnt s = true ->
            forall args, insensitive (VisitStmnt env s args).
Proof.
  apply (@Stmnt_mut
    (fun s => plainStmnt s = true ->
              forall args, insensitive (VisitStmnt env s args))
    (fun b => forall a,
              plainStmnt (Stmnt_CodeBlock (mkCodeBlockStmnt a b)) = true ->
              insensitive (VisitCodeBlock env b))
    (fun c => plainStmnt (Stmnt_CodeBlock c) = true ->
              insensitive (VisitCodeBlockStmnt env c))
    (fun f => plainStmnt (Stmnt_ForLoop f) = true ->
              insensitive (VisitForLoopStmnt env f))
    (fun w => plainStmnt (Stmnt_WhileLoop w) = true ->
              insensitive (VisitWhileLoopStmnt env w))
    (fun d => plainStmnt (Stmnt_DoWhileLoop d) = true ->
              insensitive (VisitDoWhileLoopStmnt env d))
    (fun i => plainStmnt (Stmnt_If i) = true ->
              forall args, insensitive (VisitIfStmnt env i args))
    (fun e => plainStmnt (Stmnt_Else e) = true ->
              insensitive (VisitElseStmnt env e))
    (fun s => plainStmnt (Stmnt_Switch s) = true ->
              insensitive (VisitSwitchStmnt env s))
    (fun c => match c with
              | mkSwitchCase _ _ stmnts => forallb plainStmnt stmnts
              end = true ->
              insensitive (VisitSwitchCase env c))
    (fun f => True)); cbn [VisitStmnt]; try discriminate; auto with ins.
  - (* CodeBlock *)
    intros a stmnts Hl a' Hp. cbn [plainStmnt] in Hp. cbn [VisitCodeBlock].
    ins_auto. now apply ins_statements.
  - (* CodeBlockStmnt *)
    intros a b Hb Hp. cbn [VisitCodeBlockStmnt]. apply (Hb a).
    destruct b. exact Hp.
  - (* ForLoopStmnt *)
    intros a init Hi c it b Hb Hp. cbn [plainStmnt] in Hp.
    apply andb_prop in Hp as [Hpi Hpb]. cbn [VisitForLoopStmnt]. ins_auto.
    + apply ins_VisitOptional. now apply ins_optional_stmnt.
    + apply ins_VisitOptional. auto with ins.
    + apply ins_VisitOptional. auto with ins.
    + apply ins_WriteScopedStmnt_. now apply ins_optional_stmnt.
  - (* WhileLoopStmnt *)
    intros a c b Hb Hp. cbn [plainStmnt] in Hp.
    cbn [VisitWhileLoopStmnt]. ins_auto.
    + apply ins_VisitOptional. auto with ins.
    + apply ins_WriteScopedStmnt_. now apply ins_optional_stmnt.
  - (* DoWhileLoopStmnt *)
    intros a b Hb c Hp. cbn [plainStmnt] in Hp.
    cbn [VisitDoWhileLoopStmnt]. ins_auto.
    + apply ins_WriteScopedStmnt_. now apply ins_optional_stmnt.
    + apply ins_VisitOptional. auto with ins.
  - (* IfStmnt *)
    intros a c b Hb e He Hp args. cbn [plainStmnt] in Hp.
    apply andb_prop in Hp as [Hpb Hpe]. cbn [VisitIfStmnt]. cbv zeta.
    apply ins_bind; [auto with ins|]. intros hasElseParentNode.
    apply ins_bind; [destruct (negb _); auto with ins|]. intros _.
    apply ins_bind; [auto with ins|]. intros _.
    apply ins_bind; [apply ins_VisitOptional; auto with ins|]. intros _.
    apply ins_bind; [auto with ins|]. intros _.
    apply ins_bind; [auto with ins|]. intros _.
    apply ins_bind;
      [apply ins_WriteScopedStmnt_; now apply ins_optional_stmnt|].
    intros _. apply ins_VisitOptional. intros x ->.
    inversion He as [x' Hx|]; subst. apply Hx. destruct x. exact Hpe.
  - (* ElseStmnt *)
    intros a b Hb Hp. cbn [plainStmnt] in Hp. cbn [VisitElseStmnt].
    ins_auto; try (now apply Hb).
    apply ins_WriteScopedStmnt_. intros s E. inversion E; subst.
    now apply Hb.
  - (* SwitchStmnt *)
    intros a sel cases Hc Hp. cbn [plainStmnt] in Hp.
    cbn [VisitSwitchStmnt]. ins_auto.
    + apply ins_VisitOptional. auto with ins.
    + apply ins_forEach. intros x Hx. apply (list_all_In Hc x Hx).
      rewrite forallb_forall in Hp. exact (Hp x Hx).
  - (* SwitchCase *)
    intros a e stmnts Hl Hp. cbn [VisitSwitchCase]. ins_auto;
      now apply ins_statements.
Qed.

End InsensitiveStmnt.

Section LineMarks.

Variable env : Env.

Hint Resolve ins_VisitExpr ins_WriteTypeDenoter ins_VisitVarDecl
  ins_MustResolveStruct ins_WriteTypeModifiers ins_VisitVarType
  ins_VisitVarDeclStmnt ins_VisitStructDecl ins_GetProgram ins_GetEntryPoint
  ins_WriteOutputSemanticsAssignment : ins.

(** What [Line] adds in front of a computation that the option leaves
    alone. *)
Lemma Line_then_on {A} (n : Z) (R : Gen A) (st : GenState) :
  insensitive R ->
  (Line n ;; R) (withLineMarks true st) =
  mkOutcome (result (R st)) (withLineMarks true (final (R st)))
    (events (WriteLn ("#line " ++ to_string n) st) ++ events (R st)).
Proof.
  intros HR. unfold Line. rewrite bind_assoc, bind_getState.
  cbn [allowLineMarks_ config withLineMarks set_config].
  pose proof (ins_WriteLn ("#line " ++ to_string n) true st) as E.
  rewrite (proj1 (WriteLn_run _ st)) in E.
  rewrite (proj1 (proj2 (WriteLn_run _ st))) in E.
  rewrite (bind_Ok _ _ _ E), HR. reflexivity.
Qed.

Lemma Line_then_off {A} (n : Z) (R : Gen A) (st : GenState) :
  insensitive R ->
  (Line n ;; R) (withLineMarks false st) =
  mkOutcome (result (R st)) (withLineMarks false (final (R st)))
    (events (R st)).
Proof.
  intros HR. unfold Line. rewrite bind_assoc, bind_getState.
  cbn [allowLineMarks_ config withLineMarks set_config].
  rewrite bind_ret, HR. reflexivity.
Qed.

(** The same as one statement on the two runs. *)
Lemma Line_then {A} (n : Z) (R : Gen A) (st : GenState) :
  insensitive R ->
  let on := (Line n ;; R) (withLineMarks true st) in
  let off := (Line n ;; R) (withLineMarks false st) in
  output (events on) =
    lineText st ("#line " ++ to_string n) ++ output (events off) /\
  result on = result off /\
  reports (events on) = reports (events off).
Proof.
  intros HR. cbv zeta. rewrite (Line_then_on n st HR), (Line_then_off n st HR).
  cbn [result events].
  destruct (WriteLn_run ("#line " ++ to_string n) st) as (_ & _ & O & D & _).
  rewrite output_app, reports_app, O, D. repeat split.
Qed.

Lemma ins_WriteParameter p : insensitive (WriteParameter env p).
Proof. unfold WriteParameter. ins_auto. Qed.

Lemma ins_WriteLocalInputSemantics : insensitive (WriteLocalInputSemantics env).
Proof.
  unfold WriteLocalInputSemantics.
  apply ins_bind; [auto with ins|]. intros f. cbv zeta.
  apply ins_bind; [|intros b; destruct b; auto with ins].
  apply ins_anyWritten. intros x. unfold WriteLocalInputSemanticsVarDecl.
  cbv zeta. ins_auto.
Qed.

Lemma ins_WriteLocalOutputSemantics :
  insensitive (WriteLocalOutputSemantics env).
Proof.
  unfold WriteLocalOutputSemantics.
  apply ins_bind; [auto with ins|]. intros f. cbv zeta.
  apply ins_bind; [|intros b; destruct b; auto with ins].
  apply ins_anyWritten. intros x. unfold WriteLocalOutputSemanticsVarDecl.
  ins_auto.
Qed.

Hint Resolve ins_WriteParameter ins_WriteLocalInputSemantics
  ins_WriteLocalOutputSemantics : ins.

Lemma ins_body (stmnts : list Stmnt) :
  forallb plainStmnt stmnts = true ->
  insensitive (forEach (fun s => VisitStmnt env s None) stmnts).
Proof.
  intros Hp. apply ins_forEach. intros x Hx. apply ins_Stmnt.
  rewrite forallb_forall in Hp. now apply Hp.
Qed.

(** The declarations before which the directive goes. *)

Lemma line_before_buffer (ast : BufferDeclStmnt) (st : GenState) :
  BufferDeclStmnt_isReachable ast = true ->
  exists R : Gen unit,
    insensitive R /\
    forall b, VisitBufferDeclStmnt env ast (withLineMarks b st) =
              (Line (Row (BufferDeclStmnt_area ast)) ;; R)
                (withLineMarks b st).
Proof.
  intros Hr. unfold VisitBufferDeclStmnt. rewrite Hr. cbn [negb].
  eexists. split.
  2:{ intros b. rewrite bind_getState.
      cbn [shaderTarget_ config withLineMarks set_config]. reflexivity. }
  ins_auto. apply ins_forEach. auto with ins.
Qed.

Lemma line_before_struct (ast : StructDeclStmnt) (st : GenState) :
  StructDecl_isReachable (StructDeclStmnt_structDecl ast) = true ->
  MustResolveStructForTarget env (shaderTarget_ (config st))
    (StructDeclStmnt_structDecl ast) = false ->
  exists R : Gen unit,
    insensitive R /\
    forall b, VisitStructDeclStmnt env ast (withLineMarks b st) =
              (Line (Row (StructDeclStmnt_area ast)) ;; R)
                (withLineMarks b st).
Proof.
  intros Hr Hm. unfold VisitStructDeclStmnt. rewrite Hr. cbn [negb].
  eexists. split.
  2:{ intros b. unfold MustResolveStruct. rewrite bind_assoc, bind_getState.
      rewrite bind_ret.
      cbn [shaderTarget_ config withLineMarks set_config]. rewrite Hm.
      cbn [negb]. reflexivity. }
  ins_auto.
Qed.

Lemma line_before_alias (ast : AliasDeclStmnt) (structDecl : StructDecl)
    (st : GenState) :
  AliasDeclStmnt_structDecl ast = Some structDecl ->
  StructDecl_IsAnonymous structDecl = false ->
  exists R : Gen unit,
    insensitive R /\
    forall b, VisitAliasDeclStmnt env ast (withLineMarks b st) =
              (Line (Row (AliasDeclStmnt_area ast)) ;; R)
                (withLineMarks b st).
Proof.
  intros Hs Ha. unfold VisitAliasDeclStmnt. rewrite Hs, Ha. cbn [negb].
  eexists. split; [|intros b; reflexivity]. ins_auto.
Qed.

Lemma line_before_function area ident nonret entry rty params body attrs ins
    outs sem :
  plainBody body = true ->
  exists R : Gen unit,
    insensitive R /\
    VisitFunctionDecl env
      (mkFunctionDecl area ident true nonret entry rty params body attrs ins
         outs sem) =
    ((if nonret
      then Error env ("not all control paths in function '" ++ ident
                      ++ "' return a value") (Some area)
      else ret tt) ;;
     Line (Row area) ;; R).
Proof.
  intros Hp. cbn [VisitFunctionDecl negb]. eexists. split; [|reflexivity].
  apply ins_bind; [auto with ins|]. intros _.
  apply ins_bind.
  { destruct entry; [auto with ins|].
    apply ins_bind; [auto with ins|]. intros _.
    apply ins_bind; [auto with ins|]. intros _.
    apply ins_bind; [apply ins_forEachSeparated; auto with ins|]. intros _.
    apply ins_bind; [auto with ins|]. intros _.
    destruct body; auto with ins. }
  intros _. apply ins_bind; [auto with ins|]. intros _.
  apply ins_bind; [|auto with ins]. 
  destruct body as [[a stmnts]|]; [|auto with ins]. cbn [plainBody] in Hp.
  destruct entry.
  - ins_auto; now apply ins_body.
  - cbn [VisitCodeBlock]. ins_auto. now apply ins_body.
Qed.

End LineMarks.


(** *** The option adds lines [#line N] and nothing else *)

Lemma erases_refl (t : list Event) : erases t t.
Proof. induction t; constructor; assumption. Qed.

Lemma erases_app (a b c d : list Event) :
  erases a b -> erases c d -> erases (a ++ c) (b ++ d).
Proof.
  intros H1 H2. induction H1; cbn [app].
  - exact H2.
  - now constructor.
  - rewrite <- app_assoc. now constructor.
Qed.

Lemma withLineMarks_twice (b c : bool) (st : GenState) :
  withLineMarks b (withLineMarks c st) = withLineMarks b st.
Proof. reflexivity. Qed.

Create HintDb marks discriminated.

Lemma marksOnly_ins {A} (m : Gen A) : insensitive m -> marksOnly m.
Proof.
  intros H st. exists (final (m st)). rewrite !H. cbn [result final events].
  repeat split. apply erases_refl.
Qed.

Lemma marksOnly_bind {A B} (m : Gen A) (f : A -> Gen B) :
  marksOnly m -> (forall a, marksOnly (f a)) -> marksOnly (bind m f).
Proof.
  intros Hm Hf st. destruct (Hm st) as (sf & R & Fon & Foff & E).
  unfold bind. cbv zeta. rewrite <- R.
  destruct (result (m (withLineMarks true st))) as [a|e|];
    cbn [result final events].
  - rewrite Fon, Foff. destruct (Hf a sf) as (sf' & R' & Fon' & Foff' & E').
    exists sf'. repeat split; auto. now apply erases_app.
  - exists sf. auto.
  - exists sf. auto.
Qed.

Lemma marksOnly_getState {B} (k : GenState -> Gen B) :
  (forall b s st, k (withLineMarks b s) st = k s st) ->
  (forall s, marksOnly (k s)) ->
  marksOnly (bind getState k).
Proof.
  intros Hk Hi st. rewrite !bind_getState, !Hk. apply Hi.
Qed.

Lemma marksOnly_forEach {A} (f : A -> Gen unit) (l : list A) :
  (forall x, In x l -> marksOnly (f x)) -> marksOnly (forEach f l).
Proof.
  induction l as [|x l IH]; intros H; cbn [forEach].
  - apply marksOnly_ins, ins_ret.
  - apply marksOnly_bind; [apply H; now left|]. intros _. apply IH.
    intros y Hy. apply H. now right.
Qed.

Lemma marksOnly_VisitOptional {A} (Visit : A -> Gen unit) (ast : option A) :
  (forall a, ast = Some a -> marksOnly (Visit a)) ->
  marksOnly (VisitOptional Visit ast).
Proof.
  destruct ast as [a|]; intros H;
    [apply H; reflexivity | apply marksOnly_ins, ins_ret].
Qed.

Lemma marksOnly_Line (n : Z) : marksOnly (Line n).
Proof.
  intros st. exists st. unfold Line. rewrite !bind_getState.
  cbn [allowLineMarks_ config withLineMarks set_config].
  pose proof (ins_WriteLn ("#line " ++ to_string n) true st) as E.
  rewrite (proj1 (WriteLn_run _ st)) in E.
  rewrite (proj1 (proj2 (WriteLn_run _ st))) in E.
  fold (withLineMarks true st). rewrite E. cbn [result final events ret].
  repeat split.
  rewrite <- (app_nil_r (events (WriteLn ("#line " ++ to_string n) st))).
  apply erases_line. constructor.
Qed.

#[local] Hint Resolve marksOnly_Line : marks.

(** Splits a computation along its sequencing and its case analyses. *)
Ltac marks_step :=
  match goal with
  | |- marksOnly (bind getState _) =>
      apply marksOnly_getState; [reflexivity | intros ?]
  | |- marksOnly (bind _ _) => apply marksOnly_bind; [| intros ?]
  | |- marksOnly (if ?c then _ else _) => destruct c
  | |- marksOnly (match ?c with _ => _ end) => destruct c
  | |- marksOnly _ =>
      solve [auto with marks | apply marksOnly_ins; auto with ins]
  end.

Ltac marks_auto := repeat marks_step.

Section MarksOnly.

Variable env : Env.

Hint Resolve ins_VisitExpr ins_WriteTypeDenoter ins_VisitVarDecl
  ins_MustResolveStruct ins_WriteTypeModifiers ins_VisitVarType
  ins_VisitVarDeclStmnt ins_VisitStructDecl ins_GetProgram ins_GetEntryPoint
  ins_WriteOutputSemanticsAssignment ins_VisitReturnStmnt ins_VisitExprStmnt
  ins_VisitNullStmnt ins_VisitCtrlTransferStmnt ins_VisitTextureDeclStmnt
  ins_WriteParameter ins_WriteLocalInputSemantics
  ins_WriteLocalOutputSemantics : ins.

Lemma marksOnly_VisitBufferDeclStmnt b :
  marksOnly (VisitBufferDeclStmnt env b).
Proof.
  unfold VisitBufferDeclStmnt, Line_AST. marks_auto.
  apply marksOnly_ins, ins_forEach. auto with ins.
Qed.

Lemma marksOnly_VisitStructDeclStmnt s :
  marksOnly (VisitStructDeclStmnt env s).
Proof. unfold VisitStructDeclStmnt, Line_AST. marks_auto. Qed.

Lemma marksOnly_VisitAliasDeclStmnt s :
  marksOnly (VisitAliasDeclStmnt env s).
Proof. unfold VisitAliasDeclStmnt, Line_AST. marks_auto. Qed.

Hint Resolve marksOnly_VisitBufferDeclStmnt marksOnly_VisitStructDeclStmnt
  marksOnly_VisitAliasDeclStmnt : marks.

Lemma marksOnly_WriteScopedStmnt_ (Visit : Stmnt -> Gen unit)
    (ast : option Stmnt) :
  (forall s, ast = Some s -> marksOnly (Visit s)) ->
  marksOnly (WriteScopedStmnt_ Visit ast).
Proof.
  intros H. destruct ast as [s|]; [|apply marksOnly_ins, ins_ret].
  specialize (H s eq_refl). unfold WriteScopedStmnt_.
  destruct (negb _); [|exact H].
  apply marksOnly_bind; [apply marksOnly_ins; auto with ins|]. intros _.
  apply marksOnly_bind; [exact H|]. intros _.
  apply marksOnly_ins. auto with ins.
Qed.

Lemma marksOnly_statements (stmnts : list Stmnt) :
  list_all (fun s => forall args, marksOnly (VisitStmnt env s args)) stmnts ->
  marksOnly (forEach (fun s => VisitStmnt env s None) stmnts).
Proof.
  intros Hl. apply marksOnly_forEach. intros x Hx.
  apply (list_all_In Hl x Hx).
Qed.

Lemma marksOnly_optional_stmnt (o : option Stmnt) :
  option_all (fun s => forall args, marksOnly (VisitStmnt env s args)) o ->
  forall s, o = Some s -> marksOnly (VisitStmnt env s None).
Proof. intros Ho s ->. inversion Ho; subst. auto. Qed.

Ltac leaf := solve [auto with marks | apply marksOnly_ins; ins_auto].

Theorem marksOnly_Stmnt :
  (forall s args, marksOnly (VisitStmnt env s args)) /\
  (forall b,
     marksOnly (VisitCodeBlock env b) /\
     match b with
     | mkCodeBlock _ stmnts =>
         marksOnly (forEach (fun s => VisitStmnt env s None) stmnts)
     end) /\
  (forall c, marksOnly (VisitCodeBlockStmnt env c)) /\
  (forall f, marksOnly (VisitForLoopStmnt env f)) /\
  (forall w, marksOnly (VisitWhileLoopStmnt env w)) /\
  (forall d, marksOnly (VisitDoWhileLoopStmnt env d)) /\
  (forall i args, marksOnly (VisitIfStmnt env i args)) /\
  (forall e, marksOnly (VisitElseStmnt env e)) /\
  (forall s, marksOnly (VisitSwitchStmnt env s)) /\
  (forall c, marksOnly (VisitSwitchCase env c)) /\
  (forall f, marksOnly (VisitFunctionDecl env f)).
Proof.
  apply Stmnt_mutind; cbn [VisitStmnt]; auto with marks;
    try (intros; leaf).
  - (* CodeBlock *)
    intros a stmnts Hl. pose proof (marksOnly_statements Hl) as Hs.
    split; [|exact Hs]. cbn [VisitCodeBlock].
    apply marksOnly_bind; [leaf|]. intros _.
    apply marksOnly_bind; [exact Hs|]. intros _. leaf.
  - (* CodeBlockStmnt *)
    intros a b [Hb _]. exact Hb.
  - (* ForLoopStmnt *)
    intros a init Hi c it b Hb. cbn [VisitForLoopStmnt].
    apply marksOnly_bind; [leaf|]. intros _.
    apply marksOnly_bind; [leaf|]. intros _.
    apply marksOnly_bind; [leaf|]. intros _.
    apply marksOnly_bind;
      [apply marksOnly_VisitOptional; now apply marksOnly_optional_stmnt|].
    intros _. apply marksOnly_bind; [leaf|]. intros _.
    apply marksOnly_bind; [apply marksOnly_ins, ins_VisitOptional; auto with ins|].
    intros _. apply marksOnly_bind; [leaf|]. intros _.
    apply marksOnly_bind; [apply marksOnly_ins, ins_VisitOptional; auto with ins|].
    intros _. apply marksOnly_bind; [leaf|]. intros _.
    apply marksOnly_bind; [leaf|]. intros _.
    apply marksOnly_bind; [leaf|]. intros _.
    apply marksOnly_WriteScopedStmnt_. now apply marksOnly_optional_stmnt.
  - (* WhileLoopStmnt *)
    intros a c b Hb. cbn [VisitWhileLoopStmnt].
    apply marksOnly_bind; [leaf|]. intros _.
    apply marksOnly_bind; [leaf|]. intros _.
    apply marksOnly_bind; [apply marksOnly_ins, ins_VisitOptional; auto with ins|].
    intros _. apply marksOnly_bind; [leaf|]. intros _.
    apply marksOnly_bind; [leaf|]. intros _.
    apply marksOnly_WriteScopedStmnt_. now apply marksOnly_optional_stmnt.
  - (* DoWhileLoopStmnt *)
    intros a b Hb c. cbn [VisitDoWhileLoopStmnt].
    apply marksOnly_bind; [leaf|]. intros _.
    apply marksOnly_bind;
      [apply marksOnly_WriteScopedStmnt_; now apply marksOnly_optional_stmnt|].
    intros _. apply marksOnly_bind; [leaf|]. intros _.
    apply marksOnly_bind; [leaf|]. intros _.
    apply marksOnly_bind; [apply marksOnly_ins, ins_VisitOptional; auto with ins|].
    intros _. apply marksOnly_bind; [leaf|]. intros _. leaf.
  - (* IfStmnt *)
    intros a c b Hb e He args. cbn [VisitIfStmnt].
    apply marksOnly_bind; [leaf|]. intros hasElseParentNode.
    apply marksOnly_bind; [destruct (negb _); leaf|]. intros _.
    apply marksOnly_bind; [leaf|]. intros _.
    apply marksOnly_bind; [apply marksOnly_ins, ins_VisitOptional; auto with ins|].
    intros _. apply marksOnly_bind; [leaf|]. intros _.
    apply marksOnly_bind; [leaf|]. intros _.
    apply marksOnly_bind;
      [apply marksOnly_WriteScopedStmnt_; now apply marksOnly_optional_stmnt|].
    intros _. apply marksOnly_VisitOptional. intros x ->.
    inversion He as [x' Hx|]; subst. apply Hx.
  - (* ElseStmnt *)
    intros a b Hb. cbn [VisitElseStmnt].
    destruct (Types_beq _ _).
    + apply marksOnly_bind; [leaf|]. intros _.
      apply marksOnly_bind; [leaf|]. intros _. apply Hb.
    + apply marksOnly_bind; [leaf|]. intros _.
      apply marksOnly_WriteScopedStmnt_. intros s E. inversion E; subst.
      apply Hb.
  - (* SwitchStmnt *)
    intros a sel cases Hc. cbn [VisitSwitchStmnt].
    apply marksOnly_bind; [leaf|]. intros _.
    apply marksOnly_bind; [leaf|]. intros _.
    apply marksOnly_bind; [apply marksOnly_ins, ins_VisitOptional; auto with ins|].
    intros _. apply marksOnly_bind; [leaf|]. intros _.
    apply marksOnly_bind; [leaf|]. intros _.
    apply marksOnly_bind; [leaf|]. intros _.
    apply marksOnly_bind; [|intros _; leaf].
    apply marksOnly_forEach. intros x Hx. apply (list_all_In Hc x Hx).
  - (* SwitchCase *)
    intros a e stmnts Hl. cbn [VisitSwitchCase].
    apply marksOnly_bind; [destruct e; leaf|]. intros _.
    apply marksOnly_bind; [leaf|]. intros _.
    apply marksOnly_bind; [now apply marksOnly_statements | intros _; leaf].
  - (* FunctionDecl *)
    intros area ident reach nonret entry rty params body Hbody attrs ins outs
      sem.
    cbn [VisitFunctionDecl].
    destruct (negb reach); [destruct nonret; leaf|].
    apply marksOnly_bind; [destruct nonret; leaf|]. intros _.
    apply marksOnly_bind; [unfold Line_AST; auto with marks|]. intros _.
    apply marksOnly_bind; [leaf|]. intros _.
    apply marksOnly_bind.
    { destruct entry; [leaf|].
      apply marksOnly_bind; [leaf|]. intros _.
      apply marksOnly_bind; [leaf|]. intros _.
      apply marksOnly_bind;
        [apply marksOnly_ins, ins_forEachSeparated; auto with ins|].
      intros _. apply marksOnly_bind; [leaf|]. intros _.
      destruct body; leaf. }
    intros _. apply marksOnly_bind; [leaf|]. intros _.
    apply marksOnly_bind; [|intros _; leaf].
    destruct body as [[a stmnts]|]; [|leaf].
    inversion Hbody as [b' Hb|]; subst.
    destruct Hb as [Hb Hs]. destruct entry; [|exact Hb].
    apply marksOnly_bind; [leaf|]. intros _.
    apply marksOnly_bind; [leaf|]. intros _.
    apply marksOnly_bind; [leaf|]. intros _.
    apply marksOnly_bind; [leaf|]. intros _.
    apply marksOnly_bind; [exact Hs|]. intros _.
    apply marksOnly_bind; [leaf|]. intros _.
    apply marksOnly_bind; [destruct (lastIsNotReturnStmnt _); leaf|].
    intros _. leaf.
Qed.

End MarksOnly.

Section Directive.

Variable env : Env.

Hint Resolve ins_VisitExpr ins_WriteTypeDenoter ins_VisitVarDecl
  ins_MustResolveStruct ins_WriteTypeModifiers ins_VisitVarType
  ins_VisitVarDeclStmnt ins_VisitStructDecl ins_GetProgram ins_GetEntryPoint
  ins_WriteOutputSemanticsAssignment ins_WriteParameter
  ins_WriteLocalInputSemantics ins_WriteLocalOutputSemantics : ins.

(** What [Line] adds in front of any computation. *)
Lemma Line_first {A} (n : Z) (R : Gen A) (st : GenState) :
  events ((Line n ;; R) (withLineMarks true st)) =
    (events (WriteLn ("#line " ++ to_string n) st)
     ++ events (R (withLineMarks true st)))%list /\
  result ((Line n ;; R) (withLineMarks true st)) =
    result (R (withLineMarks true st)) /\
  (Line n ;; R) (withLineMarks false st) = R (withLineMarks false st).
Proof.
  unfold Line. rewrite !bind_assoc, !bind_getState.
  cbn [allowLineMarks_ config withLineMarks set_config].
  pose proof (ins_WriteLn ("#line " ++ to_string n) true st) as E.
  rewrite (proj1 (WriteLn_run _ st)) in E.
  rewrite (proj1 (proj2 (WriteLn_run _ st))) in E.
  fold (withLineMarks true st). fold (withLineMarks false st).
  rewrite (bind_Ok _ _ _ E), bind_ret. cbn [result final events].
  repeat split.
Qed.

(** The directive of a declaration that begins with [Line]. *)
Lemma directive_first {A} (n : Z) (R : Gen A) (st : GenState) :
  marksOnly R ->
  exists pre rest : list Event,
    events ((Line n ;; R) (withLineMarks true st)) =
      (pre ++ events (WriteLn ("#line " ++ to_string n) st) ++ rest)%list /\
    output pre = "" /\
    erases (pre ++ rest) (events ((Line n ;; R) (withLineMarks false st))).
Proof.
  intros HR. destruct (Line_first n R st) as (Eon & _ & Eoff).
  destruct (HR st) as (sf & _ & _ & _ & E).
  exists [], (events (R (withLineMarks true st))).
  rewrite Eon, Eoff. repeat split. exact E.
Qed.

Lemma line_before_any_function area ident nonret entry rty params body attrs
    ins outs sem :
  exists R : Gen unit,
    marksOnly R /\
    VisitFunctionDecl env
      (mkFunctionDecl area ident true nonret entry rty params body attrs ins
         outs sem) =
    ((if nonret
      then Error env ("not all control paths in function '" ++ ident
                      ++ "' return a value") (Some area)
      else ret tt) ;;
     Line (Row area) ;; R).
Proof.
  cbn [VisitFunctionDecl negb]. eexists. split; [|reflexivity].
  pose proof (marksOnly_Stmnt env) as
    (_ & Hblock & _ & _ & _ & _ & _ & _ & _ & _ & _).
  apply marksOnly_bind; [apply marksOnly_ins; auto with ins|]. intros _.
  apply marksOnly_bind.
  { apply marksOnly_ins. destruct entry; [auto with ins|].
    apply ins_bind; [auto with ins|]. intros _.
    apply ins_bind; [auto with ins|]. intros _.
    apply ins_bind; [apply ins_forEachSeparated; auto with ins|]. intros _.
    apply ins_bind; [auto with ins|]. intros _.
    destruct body; auto with ins. }
  intros _. apply marksOnly_bind; [apply marksOnly_ins; auto with ins|].
  intros _.
  apply marksOnly_bind; [|intros _; apply marksOnly_ins; auto with ins].
  destruct body as [[a stmnts]|]; [|apply marksOnly_ins; auto with ins].
  destruct (Hblock (mkCodeBlock a stmnts)) as [Hb Hs].
  destruct entry; [|exact Hb].
  apply marksOnly_bind; [apply marksOnly_ins; auto with ins|]. intros _.
  apply marksOnly_bind; [apply marksOnly_ins; auto with ins|]. intros _.
  apply marksOnly_bind; [apply marksOnly_ins; auto with ins|]. intros _.
  apply marksOnly_bind; [apply marksOnly_ins; auto with ins|]. intros _.
  apply marksOnly_bind; [exact Hs|]. intros _.
  apply marksOnly_bind; [apply marksOnly_ins; auto with ins|]. intros _.
  apply marksOnly_bind;
    [destruct (lastIsNotReturnStmnt _); apply marksOnly_ins; auto with ins|].
  intros _. apply marksOnly_ins; auto with ins.
Qed.

End Directive.

(** C7.  The option [lineMarks] and a statement visited with it on and
    off, from the same fields otherwise.  Whatever the statement, the two
    runs end the same way, and the effects with the option off are those
    with the option on without some lines [#line N]: the option adds
    such lines and nothing else.  For a declaration of a function, of a
    uniform buffer, of a structure or of an alias that is written, the
    effects with the option on begin with the line [#line N], [N] being
    the row of the declaration in decimal, before which no text is
    written: the directive goes immediately before the declaration.  When
    no other such declaration is under it, what follows the directive is
    the text with the option off.  For a statement under which there is
    no such declaration (expression, return, null, control transfer and
    variable declaration statements, texture declarations, loops,
    conditionals, switches and code blocks made of these), the option
    changes nothing: no directive is written. *)
Theorem line_marks (env : Env) (s : Stmnt) (args : option Z)
    (st : GenState) :
  let on := VisitStmnt env s args (withLineMarks true st) in
  let off := VisitStmnt env s args (withLineMarks false st) in
  (result on = result off /\ erases (events on) (events off)) /\
  (forall n : Z,
     declaredRow env st s = Some n ->
     exists pre rest : list Event,
       events on =
         (pre ++ events (WriteLn ("#line " ++ to_string n) st) ++ rest)%list /\
       output pre = "" /\
       erases (pre ++ rest) (events off)) /\
  (forall n : Z,
     markedRow env st s = Some n ->
     output (events on) =
       lineText st ("#line " ++ to_string n) ++ output (events off) /\
     result on = result off /\
     reports (events on) = reports (events off)) /\
  (plainStmnt s = true ->
   events on = events off /\ result on = result off).
Proof.
  cbv zeta. split; [|split; [|split]].
  - destruct (proj1 (marksOnly_Stmnt env) s args st) as (sf & R & _ & _ & E).
    split; assumption.
  - intros n Hn. destruct s; cbn [declaredRow markedRow] in Hn;
      try discriminate Hn; cbn [VisitStmnt].
    + (* FunctionDecl *)
      destruct s as [area ident reach nonret entry rty params body attrs ins
                     outs sem].
      destruct reach; [|discriminate Hn]. cbn [andb] in Hn.
      destruct (@line_before_any_function env area ident nonret entry rty
                  params body attrs ins outs sem) as (R & HR & E).
      rewrite E. clear E.
      destruct nonret; cbn [negb orb] in Hn.
      * destruct (breakWithException env) eqn:Hb; [discriminate Hn|].
        injection Hn as <-. unfold Error. rewrite Hb, !bind_tell.
        cbn [events].
        destruct (@directive_first unit (Row area) R st HR)
          as (pre & rest & E & Op & Er).
        eexists (_ :: pre), rest. rewrite E. cbn [app output].
        split; [reflexivity|]. split; [exact Op|]. now constructor.
      * injection Hn as <-. rewrite !bind_ret.
        apply (@directive_first unit (Row area) R st HR).
    + (* BufferDeclStmnt *)
      destruct (BufferDeclStmnt_isReachable s) eqn:Hr; [|discriminate Hn].
      injection Hn as <-.
      destruct (@line_before_buffer env s st Hr) as (R & HR & E).
      rewrite !E. apply directive_first, marksOnly_ins, HR.
    + (* StructDeclStmnt *)
      destruct (StructDecl_isReachable _) eqn:Hr; [|discriminate Hn].
      destruct (MustResolveStructForTarget _ _ _) eqn:Hm; [discriminate Hn|].
      injection Hn as <-.
      destruct (@line_before_struct env s st Hr Hm) as (R & HR & E).
      rewrite !E. apply directive_first, marksOnly_ins, HR.
    + (* AliasDeclStmnt *)
      destruct (AliasDeclStmnt_structDecl s) as [structDecl|] eqn:Hs;
        [|discriminate Hn].
      destruct (StructDecl_IsAnonymous structDecl) eqn:Ha;
        [discriminate Hn|].
      injection Hn as <-.
      destruct (@line_before_alias env s structDecl st Hs Ha) as (R & HR & E).
      rewrite !E. apply directive_first, marksOnly_ins, HR.
  - intros n Hn. destruct s; cbn [markedRow] in Hn; try discriminate Hn;
      cbn [VisitStmnt].
    + (* FunctionDecl *)
      destruct s as [area ident reach nonret entry rty params body attrs ins
                     outs sem].
      destruct reach; [|discriminate Hn]. cbn [andb] in Hn.
      destruct (plainBody body) eqn:Hp;
        [|rewrite andb_false_r in Hn; discriminate Hn].
      rewrite andb_true_r in Hn.
      destruct (@line_before_function env area ident nonret entry rty params
                  body attrs ins outs sem Hp) as (R & HR & E).
      rewrite E. clear E.
      destruct nonret; cbn [negb orb] in Hn.
      * destruct (breakWithException env) eqn:Hb; [discriminate Hn|].
        injection Hn as <-. unfold Error. rewrite Hb, !bind_tell.
        cbn [result events output reports app].
        destruct (@Line_then unit (Row area) R st HR) as (O & Rs & D).
        cbv zeta in O, Rs, D. rewrite O, Rs, D. repeat split.
      * injection Hn as <-. rewrite !bind_ret.
        apply (@Line_then unit (Row area) R st HR).
    + (* BufferDeclStmnt *)
      destruct (BufferDeclStmnt_isReachable s) eqn:Hr; [|discriminate Hn].
      injection Hn as <-.
      destruct (@line_before_buffer env s st Hr) as (R & HR & E).
      rewrite !E. apply (@Line_then unit _ R st HR).
    + (* StructDeclStmnt *)
      destruct (StructDecl_isReachable _) eqn:Hr; [|discriminate Hn].
      destruct (MustResolveStructForTarget _ _ _) eqn:Hm; [discriminate Hn|].
      injection Hn as <-.
      destruct (@line_before_struct env s st Hr Hm) as (R & HR & E).
      rewrite !E. apply (@Line_then unit _ R st HR).
    + (* AliasDeclStmnt *)
      destruct (AliasDeclStmnt_structDecl s) as [structDecl|] eqn:Hs;
        [|discriminate Hn].
      destruct (StructDecl_IsAnonymous structDecl) eqn:Ha;
        [discriminate Hn|].
      injection Hn as <-.
      destruct (@line_before_alias env s structDecl st Hs Ha) as (R & HR & E).
      rewrite !E. apply (@Line_then unit _ R st HR).
  - intros Hp. rewrite !(@ins_Stmnt env s Hp args). split; reflexivity.
Qed.

(** *** Invariants of the fields and of the effects *)

Create HintDb keeps discriminated.

Section Keeps.

Variable I : GenState -> Prop.
Variable P : Event -> Prop.

Lemma keeps_ret {A} (a : A) : keeps I P (ret a).
Proof. intros st H. split; [exact H | constructor]. Qed.

Lemma keeps_throw {A} (e : Exn) : keeps I P (@throw A e).
Proof. intros st H. split; [exact H | constructor]. Qed.

Lemma keeps_undefined {A} : keeps I P (@undefined A).
Proof. intros st H. split; [exact H | constructor]. Qed.

Lemma keeps_lift {A} (r : Exn + A) : keeps I P (lift r).
Proof. destruct r; [apply keeps_throw | apply keeps_ret]. Qed.

Lemma keeps_tell (t : list Event) : Forall P t -> keeps I P (tell t).
Proof. intros Ht st H. split; [exact H | exact Ht]. Qed.

Lemma keeps_modify (g : GenState -> GenState) :
  (forall st, I st -> I (g st)) -> keeps I P (modify g).
Proof. intros Hg st H. split; [apply Hg, H | constructor]. Qed.

Lemma keeps_bind {A B} (m : Gen A) (f : A -> Gen B) :
  keeps I P m -> (forall a, keeps I P (f a)) -> keeps I P (bind m f).
Proof.
  intros Hm Hf st H. unfold bind. destruct (Hm st H) as [H1 T1].
  destruct (result (m st)) as [a| |]; cbn [final events]; auto.
  destruct (Hf a _ H1) as [H2 T2]. split; [exact H2|].
  apply Forall_app. now split.
Qed.

(** A computation that begins by reading the fields. *)
Lemma keeps_getState {B} (k : GenState -> Gen B) :
  (forall s, I s -> keeps I P (k s)) -> keeps I P (bind getState k).
Proof. intros Hk st H. rewrite bind_getState. now apply Hk. Qed.

Lemma keeps_try_catch {A} (m : Gen A) (h : Exn -> Gen A) :
  keeps I P m -> (forall e, keeps I P (h e)) -> keeps I P (try_catch m h).
Proof.
  intros Hm Hh st H. unfold try_catch. destruct (Hm st H) as [H1 T1].
  destruct (result (m st)) as [a|e|]; cbn [final events]; auto.
  destruct (Hh e _ H1) as [H2 T2]. split; [exact H2|].
  apply Forall_app. now split.
Qed.

Lemma keeps_forEach {A} (f : A -> Gen unit) (l : list A) :
  (forall x, In x l -> keeps I P (f x)) -> keeps I P (forEach f l).
Proof.
  induction l as [|x l IH]; intros H; cbn [forEach].
  - apply keeps_ret.
  - apply keeps_bind; [apply H; now left|]. intros _. apply IH.
    intros y Hy. apply H. now right.
Qed.

Lemma keeps_forEachReverse {A} (f : A -> Gen unit) (l : list A) :
  (forall x, In x l -> keeps I P (f x)) -> keeps I P (forEachReverse f l).
Proof.
  induction l as [|x l IH]; intros H; cbn [forEachReverse].
  - apply keeps_ret.
  - apply keeps_bind.
    + apply IH. intros y Hy. apply H. now right.
    + intros _. apply H. now left.
Qed.

Lemma keeps_forEachSeparated {A} (f : A -> Gen unit) (sep : Gen unit)
    (l : list A) :
  keeps I P sep ->
  (forall x, In x l -> keeps I P (f x)) ->
  keeps I P (forEachSeparated f sep l).
Proof.
  intros Hsep. induction l as [|x l IH]; intros H; cbn [forEachSeparated].
  - apply keeps_ret.
  - apply keeps_bind; [apply H; now left|]. intros _.
    destruct l as [|y l]; [apply keeps_ret|].
    apply keeps_bind; [exact Hsep|]. intros _. apply IH.
    intros z Hz. apply H. now right.
Qed.

Lemma keeps_at {A B} (l : list A) (i : nat) (k : A -> Gen B) :
  (forall x, In x l -> keeps I P (k x)) -> keeps I P (at_ l i k).
Proof.
  unfold at_. revert i. induction l as [|x l IH]; intros i H.
  - destruct i; apply keeps_undefined.
  - destruct i as [|j]; [apply H; now left|].
    apply IH. intros y Hy. apply H. now right.
Qed.

Lemma keeps_anyWritten {A} (f : A -> Gen bool) (l : list A) :
  (forall x, keeps I P (f x)) -> keeps I P (anyWritten f l).
Proof.
  intros H. induction l as [|x l IH]; cbn [anyWritten].
  - apply keeps_ret.
  - apply keeps_bind; [apply H|]. intros b.
    apply keeps_bind; [apply IH|]. intros b'. apply keeps_ret.
Qed.

Lemma keeps_VisitOptional {A} (Visit : A -> Gen unit) (ast : option A) :
  (forall a, ast = Some a -> keeps I P (Visit a)) ->
  keeps I P (VisitOptional Visit ast).
Proof.
  destruct ast as [a|]; intros H; [apply H; reflexivity | apply keeps_ret].
Qed.

Lemma keeps_ArgsAsBool (args : option Z) : keeps I P (ArgsAsBool args).
Proof.
  destruct (ArgsAsBool_cases args) as [[b ->]| ->];
    [apply keeps_ret | apply keeps_undefined].
Qed.

End Keeps.

#[local] Hint Resolve keeps_ret keeps_throw keeps_undefined keeps_lift
  keeps_ArgsAsBool : keeps.

(** Splits a computation along its sequencing and its case analyses. *)
Ltac keeps_step :=
  match goal with
  | |- keeps _ _ (bind getState _) => apply keeps_getState; intros ? ?
  | |- keeps _ _ (bind _ _) => apply keeps_bind; [| intros ?]
  | |- keeps _ _ (try_catch _ _) => apply keeps_try_catch; [| intros ?]
  | |- keeps _ _ (if ?c then _ else _) => destruct c eqn:?
  | |- keeps _ _ (match ?c with _ => _ end) => destruct c eqn:?
  | |- keeps _ _ _ => solve [auto with keeps]
  end.

Ltac keeps_auto := repeat keeps_step.

(** The generator, under an invariant [I] of the fields that the writer
    does not disturb and a property [P] that holds of the text written, of
    the warnings, of the errors when they are submitted to the log and of
    the statistics records when a statistics output was given. *)
Section KeepsGenerator.

Variable env : Env.
Variable I : GenState -> Prop.
Variable P : Event -> Prop.

Hypothesis P_Write : forall text, P (EvWrite text).
Hypothesis P_Warning :
  forall msg ast,
    P (EvReport {| reportType := Severity_Warning; message := msg;
                   position := ast |}).
Hypothesis P_Error :
  breakWithException env = false ->
  forall msg ast,
    P (EvReport {| reportType := Severity_Error; message := msg;
                   position := ast |}).
Hypothesis P_Texture :
  forall st ident binding,
    I st -> stats_ (config st) = true -> P (EvTexture ident binding).

Lemma keeps_Write (text : string) : keeps I P (Write text).
Proof. apply keeps_tell. constructor; auto. Qed.

Hint Resolve keeps_Write : keeps.

Lemma keeps_BeginLn : keeps I P BeginLn.
Proof. unfold BeginLn. keeps_auto. Qed.

Lemma keeps_EndLn : keeps I P EndLn.
Proof. unfold EndLn. keeps_auto. Qed.

Hint Resolve keeps_BeginLn keeps_EndLn : keeps.

Lemma keeps_WriteLn (text : string) : keeps I P (WriteLn text).
Proof. unfold WriteLn. keeps_auto. Qed.

Lemma keeps_Error msg ast : keeps I P (Error env msg ast).
Proof.
  unfold Error. destruct (breakWithException env) eqn:E;
    [apply keeps_throw | apply keeps_tell; constructor; auto].
Qed.

Lemma keeps_Warning msg ast : keeps I P (Warning msg ast).
Proof. apply keeps_tell. constructor; auto. Qed.

Hint Resolve keeps_WriteLn keeps_Error keeps_Warning : keeps.

Lemma keeps_Blank : keeps I P Blank.
Proof. apply keeps_WriteLn. Qed.

Lemma keeps_Line n : keeps I P (Line n).
Proof. unfold Line. keeps_auto. Qed.

Lemma keeps_WriteDataType dataType ast :
  keeps I P (WriteDataType env dataType ast).
Proof. unfold WriteDataType. keeps_auto. Qed.

Lemma keeps_GetTypeDenoterForSuffixVarIdent lhs ast :
  keeps I P (GetTypeDenoterForSuffixVarIdent env lhs ast).
Proof. unfold GetTypeDenoterForSuffixVarIdent. keeps_auto. Qed.

Lemma keeps_AssertIntrinsicNumArgs ast lo hi :
  keeps I P (AssertIntrinsicNumArgs env ast lo hi).
Proof. unfold AssertIntrinsicNumArgs. keeps_auto. Qed.

Lemma keeps_WriteTypeDenoter_catch ast e :
  keeps I P (WriteTypeDenoter_catch env ast e).
Proof. unfold WriteTypeDenoter_catch. keeps_auto. Qed.

Hint Resolve keeps_Blank keeps_Line keeps_WriteDataType
  keeps_GetTypeDenoterForSuffixVarIdent keeps_AssertIntrinsicNumArgs
  keeps_WriteTypeDenoter_catch : keeps.

Lemma keeps_WriteArrayDims (Visit : Expr -> Gen unit) (arrayDims : list Expr) :
  (forall x, In x arrayDims -> keeps I P (Visit x)) ->
  keeps I P (WriteArrayDims Visit arrayDims).
Proof.
  intros H. apply keeps_forEach. intros x Hx. specialize (H x Hx).
  keeps_auto.
Qed.

Lemma keeps_WriteMulArgument (Visit : Expr -> Gen unit) (expr : Expr) :
  keeps I P (Visit expr) -> keeps I P (WriteMulArgument Visit expr).
Proof. intros H. unfold WriteMulArgument. cbv zeta. keeps_auto. Qed.

Theorem keeps_Expr :
  (forall e, keeps I P (VisitExpr env e)) /\
  (forall c, keeps I P (VisitFunctionCall env c)) /\
  (forall v,
     (forall r, keeps I P (WriteVarIdent env v r)) /\
     (forall lhs, keeps I P (WriteSuffixVarIdentEnd env lhs v)) /\
     (forall lhs, keeps I P (WriteSuffixVarIdentBegin env lhs v))) /\
  (forall t ast, keeps I P (WriteTypeDenoter_ env (VisitExpr env) t ast)).
Proof.
  apply Expr_mutind.
  - (* ListExpr *) intros a e1 H1 e2 H2. cbn [VisitExpr]. keeps_auto.
  - (* LiteralExpr *) intros a v. cbn [VisitExpr]. keeps_auto.
  - (* TypeNameExpr *) intros a t Ht. cbn [VisitExpr]. apply Ht.
  - (* TernaryExpr *) intros a c Hc t Ht e He. cbn [VisitExpr]. keeps_auto.
  - (* BinaryExpr *) intros a l Hl op r Hr. cbn [VisitExpr]. keeps_auto.
  - (* UnaryExpr *) intros a op e He. cbn [VisitExpr]. keeps_auto.
  - (* PostUnaryExpr *) intros a e He op. cbn [VisitExpr]. keeps_auto.
  - (* FunctionCallExpr *) intros a c Hc. cbn [VisitExpr]. exact Hc.
  - (* BracketExpr *) intros a e He. cbn [VisitExpr]. keeps_auto.
  - (* SuffixExpr *)
    intros a e He v (Hv & Hend & Hbegin). cbn [VisitExpr]. keeps_auto.
  - (* ArrayAccessExpr *)
    intros a e He l Hl. cbn [VisitExpr]. keeps_auto.
    apply keeps_WriteArrayDims, (list_all_In Hl).
  - (* CastExpr *) intros a t Ht e He. cbn [VisitExpr]. keeps_auto.
  - (* VarAccessExpr *)
    intros a v (Hv & _) op e He. cbn [VisitExpr].
    apply keeps_bind; [apply Hv|]. intros _.
    destruct e as [e|]; [|apply keeps_ret]. inversion He; subst. keeps_auto.
  - (* InitializerExpr *)
    intros a l Hl. cbn [VisitExpr]. keeps_auto.
    apply keeps_forEachSeparated; [keeps_auto | apply (list_all_In Hl)].
  - (* FunctionCall *)
    intros a v Hv t Ht i l Hl. pose proof (list_all_In Hl) as Hin.
    cbn [VisitFunctionCall].
    destruct (Intrinsic_IsMul i); [|destruct (Intrinsic_IsRcp i);
      [|destruct (Intrinsic_IsInterlocked i)]].
    + unfold WriteFunctionCallIntrinsicMul. keeps_auto;
        apply keeps_at; intros x Hx; apply keeps_WriteMulArgument, Hin, Hx.
    + unfold WriteFunctionCallIntrinsicRcp. keeps_auto.
      apply keeps_at. intros x Hx. specialize (Hin x Hx). keeps_auto.
      cbn [WriteTypeDenoter_]. keeps_auto.
    + unfold WriteFunctionCallIntrinsicAtomic. keeps_auto;
        try (apply keeps_at; intros x Hx; apply Hin, Hx).
    + unfold WriteFunctionCallStandard.
      apply keeps_bind.
      * destruct v as [v|].
        { inversion Hv as [v' (Hw & _)|]; subst. keeps_auto. }
        destruct t as [t|]; [|keeps_auto].
        inversion Ht; subst. auto.
      * intros _. keeps_auto.
        apply keeps_forEachSeparated; [keeps_auto | exact Hin].
  - (* VarIdent *)
    intros a i l Hl n Hn s. pose proof (list_all_In Hl) as Hin.
    assert (Hhead : forall r,
              keeps I P (WriteVarIdent_ (VisitExpr env)
                           (fun n => WriteVarIdent env n true)
                           (mkVarIdent a i l n s) r)).
    { intros r. unfold WriteVarIdent_.
      apply keeps_bind; [auto with keeps|]. intros _.
      apply keeps_bind; [now apply keeps_WriteArrayDims|]. intros _.
      destruct n as [n|]; [|auto with keeps].
      destruct r; [|auto with keeps].
      apply keeps_bind; [auto with keeps|]. intros _.
      inversion Hn as [n' (Hw & _)|]; subst. apply Hw. }
    split; [|split].
    + intros r. cbn [WriteVarIdent]. apply Hhead.
    + intros lhs. cbn [WriteSuffixVarIdentEnd].
      apply keeps_bind.
      { destruct (IsScalar lhs); [auto with keeps|].
        apply keeps_bind; [auto with keeps|]. intros _. apply Hhead. }
      intros _. destruct n as [n|]; [|auto with keeps].
      apply keeps_bind; [auto with keeps|]. intros t.
      inversion Hn as [n' (_ & He & _)|]; subst. apply He.
    + intros lhs. cbn [WriteSuffixVarIdentBegin].
      apply keeps_bind.
      { destruct n as [n|]; [|auto with keeps].
        apply keeps_bind; [auto with keeps|]. intros t.
        inversion Hn as [n' (_ & _ & Hb)|]; subst. apply Hb. }
      intros _. keeps_auto.
  - (* VoidTypeDenoter *) intros ast. cbn [WriteTypeDenoter_]. keeps_auto.
  - (* BaseTypeDenoter *) intros d ast. cbn [WriteTypeDenoter_]. keeps_auto.
  - (* TextureTypeDenoter *)
    intros t r ast. cbn [WriteTypeDenoter_]. keeps_auto.
  - (* StructTypeDenoter *) intros i ast. cbn [WriteTypeDenoter_]. keeps_auto.
  - (* AliasTypeDenoter *)
    intros i t Ht ast. cbn [WriteTypeDenoter_]. keeps_auto.
  - (* ArrayTypeDenoter *)
    intros t Ht l Hl ast. cbn [WriteTypeDenoter_]. keeps_auto.
    apply keeps_WriteArrayDims, (list_all_In Hl).
Qed.

Lemma keeps_VisitExpr e : keeps I P (VisitExpr env e).
Proof. apply keeps_Expr. Qed.

Lemma keeps_WriteTypeDenoter t ast : keeps I P (WriteTypeDenoter env t ast).
Proof. apply keeps_Expr. Qed.

Hint Resolve keeps_VisitExpr keeps_WriteTypeDenoter : keeps.

Lemma keeps_VisitVarDecl ast : keeps I P (VisitVarDecl env ast).
Proof.
  unfold VisitVarDecl. keeps_auto. apply keeps_WriteArrayDims.
  auto with keeps.
Qed.

Lemma keeps_MustResolveStruct ast : keeps I P (MustResolveStruct env ast).
Proof. unfold MustResolveStruct. keeps_auto. Qed.

Lemma keeps_WriteTypeModifiers l : keeps I P (WriteTypeModifiers l).
Proof. apply keeps_forEach. intros x _. keeps_auto. Qed.

Lemma keeps_GetProgram : keeps I P GetProgram.
Proof. unfold GetProgram. keeps_auto. Qed.

Lemma keeps_GetEntryPoint : keeps I P GetEntryPoint.
Proof.
  unfold GetEntryPoint. apply keeps_bind; [apply keeps_GetProgram|].
  intros p. keeps_auto.
Qed.

Hint Resolve keeps_VisitVarDecl keeps_MustResolveStruct
  keeps_WriteTypeModifiers keeps_GetProgram keeps_GetEntryPoint : keeps.

Lemma keeps_WriteOutputSemanticsAssignment ast :
  keeps I P (WriteOutputSemanticsAssignment env ast).
Proof.
  unfold WriteOutputSemanticsAssignment.
  apply keeps_bind; [apply keeps_GetEntryPoint|]. intros f. cbv zeta.
  apply keeps_getState. intros s _.
  destruct (varDeclRefsSV _) as [|x l].
  - keeps_auto.
  - apply keeps_forEach. intros y _. keeps_auto.
Qed.

Hint Resolve keeps_WriteOutputSemanticsAssignment : keeps.

Lemma keeps_VisitReturnStmnt r : keeps I P (VisitReturnStmnt env r).
Proof. unfold VisitReturnStmnt. keeps_auto. Qed.

Lemma keeps_VisitExprStmnt e : keeps I P (VisitExprStmnt env e).
Proof. unfold VisitExprStmnt. keeps_auto. Qed.

Lemma keeps_VisitNullStmnt : keeps I P VisitNullStmnt.
Proof. unfold VisitNullStmnt. keeps_auto. Qed.

Lemma keeps_VisitCtrlTransferStmnt t :
  keeps I P (VisitCtrlTransferStmnt env t).
Proof. unfold VisitCtrlTransferStmnt. keeps_auto. Qed.

(** A record goes to the statistics only when a statistics output was
    given. *)
Lemma keeps_WriteTextureDecl k d : keeps I P (WriteTextureDecl env k d).
Proof.
  unfold WriteTextureDecl.
  destruct (TextureDecl_isReachable d); [|auto with keeps].
  apply keeps_getState. intros s Hs. cbv zeta.
  apply keeps_bind; [auto with keeps|]. intros _.
  apply keeps_bind; [keeps_auto|]. intros _.
  apply keeps_bind; [keeps_auto|]. intros _.
  apply keeps_bind; [|auto with keeps]. 
  destruct (stats_ (config s)) eqn:E; [|auto with keeps].
  apply keeps_tell. constructor; [|constructor].
  exact (P_Texture _ _ Hs E).
Qed.

Lemma keeps_VisitTextureDeclStmnt t : keeps I P (VisitTextureDeclStmnt env t).
Proof.
  unfold VisitTextureDeclStmnt. keeps_auto;
    apply keeps_forEach; intros x _; apply keeps_WriteTextureDecl.
Qed.

Hint Resolve keeps_VisitReturnStmnt keeps_VisitExprStmnt keeps_VisitNullStmnt
  keeps_VisitCtrlTransferStmnt keeps_VisitTextureDeclStmnt : keeps.

(** From here on the computations move the indentation, push and pop
    options and set the two flags: [I] is an invariant that these leave
    alone. *)
Hypothesis I_indentLevel : forall n st, I st -> I (set_indentLevel n st).
Hypothesis I_optionsStack : forall o st, I st -> I (set_optionsStack o st).
Hypothesis I_isInsideEntryPoint :
  forall b st, I st -> I (set_isInsideEntryPoint b st).
Hypothesis I_isInsideInterfaceBlock :
  forall b st, I st -> I (set_isInsideInterfaceBlock b st).

Lemma keeps_IncIndent : keeps I P IncIndent.
Proof. apply keeps_modify. auto. Qed.

Lemma keeps_DecIndent : keeps I P DecIndent.
Proof. apply keeps_modify. auto. Qed.

Lemma keeps_PushOptions o : keeps I P (PushOptions o).
Proof. apply keeps_modify. auto. Qed.

Lemma keeps_PopOptions : keeps I P PopOptions.
Proof. apply keeps_modify. auto. Qed.

Lemma keeps_set_isInsideInterfaceBlock b :
  keeps I P (modify (set_isInsideInterfaceBlock b)).
Proof. apply keeps_modify. auto. Qed.

Lemma keeps_set_isInsideEntryPoint b :
  keeps I P (modify (set_isInsideEntryPoint b)).
Proof. apply keeps_modify. auto. Qed.

Hint Resolve keeps_IncIndent keeps_DecIndent keeps_PushOptions
  keeps_PopOptions keeps_set_isInsideInterfaceBlock
  keeps_set_isInsideEntryPoint : keeps.

Lemma keeps_OpenScope : keeps I P OpenScope.
Proof. unfold OpenScope. keeps_auto. Qed.

Lemma keeps_CloseScope b : keeps I P (CloseScope b).
Proof. unfold CloseScope. keeps_auto. Qed.

Hint Resolve keeps_OpenScope keeps_CloseScope : keeps.

Lemma keeps_WriteStructDecl_ (VisitMember : VarDeclStmnt -> Gen unit)
    (WriteMembers : StructDecl -> Gen unit) a i al r n si so ms ns bs ws an :
  (forall m, In m ms -> keeps I P (VisitMember m)) ->
  keeps I P (WriteMembers (mkStructDecl a i al r n si so ms ns bs)) ->
  keeps I P (WriteStructDecl_ VisitMember WriteMembers
               (mkStructDecl a i al r n si so ms ns bs) ws an).
Proof.
  intros Hm Hw. unfold WriteStructDecl_. keeps_auto; now apply keeps_forEach.
Qed.

Theorem keeps_Decl :
  (forall t, keeps I P (VisitVarType env t)) /\
  (forall s,
     keeps I P (WriteStructDeclMembers env s) /\
     (forall ws an, keeps I P (WriteStructDecl env s ws an)) /\
     (forall args, keeps I P (VisitStructDecl env s args))) /\
  (forall v, keeps I P (VisitVarDeclStmnt env v)).
Proof.
  apply VarType_mutind.
  - (* VarType *)
    intros a s Hs t. cbn [VisitVarType].
    destruct s as [s|]; [|auto with keeps].
    inversion Hs as [s' (_ & _ & Hv)|]; subst. apply Hv.
  - (* StructDecl *)
    intros a i al r n si so ms Hms ns Hns bs Hbs.
    pose proof (list_all_In Hms) as Hm. pose proof (list_all_In Hns) as Hn.
    assert (Hmem : keeps I P (WriteStructDeclMembers env
                      (mkStructDecl a i al r n si so ms ns bs))).
    { cbn [WriteStructDeclMembers]. apply keeps_bind.
      - destruct bs as [b|]; [|apply keeps_ret].
        inversion Hbs as [b' (Hb & _)|]; subst. exact Hb.
      - intros _. now apply keeps_forEach. }
    assert (Hdecl : forall ws an,
              keeps I P (WriteStructDecl env
                           (mkStructDecl a i al r n si so ms ns bs) ws an)).
    { intros ws an. unfold WriteStructDecl. now apply keeps_WriteStructDecl_. }
    split; [exact Hmem|]. split; [exact Hdecl|].
    intros args. unfold VisitStructDecl, VisitStructDecl_.
    apply keeps_bind; [auto with keeps|]. intros mustResolve.
    destruct (negb mustResolve); [|auto with keeps].
    apply keeps_bind; [auto with keeps|]. intros semicolon.
    apply keeps_bind; [|intros _; apply Hdecl].
    destruct (negb n); [|auto with keeps].
    apply keeps_forEachReverse. intros x Hx.
    apply keeps_bind; [|auto with keeps].
    destruct (Hn x Hx) as (_ & Hd & _). apply Hd.
  - (* VarDeclStmnt *)
    intros a si so im sc tm t Ht l. cbn [VisitVarDeclStmnt].
    apply keeps_getState. intros s _.
    destruct (filter _ l) as [|d ds] eqn:E; [apply keeps_ret|].
    apply keeps_bind; [auto with keeps|]. intros _.
    apply keeps_bind; [keeps_auto|]. intros _.
    apply keeps_bind.
    { apply keeps_forEach. intros x _. keeps_auto. }
    intros _. apply keeps_bind; [auto with keeps|]. intros _.
    apply keeps_bind.
    { destruct t as [ta [sd|] td];
        (apply keeps_bind; [exact Ht | auto with keeps]). }
    intros _. apply keeps_bind.
    { apply keeps_forEachSeparated; auto with keeps. }
    intros _. keeps_auto.
Qed.

Lemma keeps_VisitVarType t : keeps I P (VisitVarType env t).
Proof. apply keeps_Decl. Qed.

Lemma keeps_VisitVarDeclStmnt v : keeps I P (VisitVarDeclStmnt env v).
Proof. apply keeps_Decl. Qed.

Lemma keeps_VisitStructDecl s args : keeps I P (VisitStructDecl env s args).
Proof. apply keeps_Decl. Qed.

Hint Resolve keeps_VisitVarType keeps_VisitVarDeclStmnt keeps_VisitStructDecl
  : keeps.

Lemma keeps_WriteParameter p : keeps I P (WriteParameter env p).
Proof. unfold WriteParameter. keeps_auto. Qed.

Lemma keeps_WriteLocalInputSemantics : keeps I P (WriteLocalInputSemantics env).
Proof.
  unfold WriteLocalInputSemantics.
  apply keeps_bind; [auto with keeps|]. intros f. cbv zeta.
  apply keeps_bind; [|intros b; destruct b; auto with keeps].
  apply keeps_anyWritten. intros x. unfold WriteLocalInputSemanticsVarDecl.
  cbv zeta. keeps_auto.
Qed.

Lemma keeps_WriteLocalOutputSemantics :
  keeps I P (WriteLocalOutputSemantics env).
Proof.
  unfold WriteLocalOutputSemantics.
  apply keeps_bind; [auto with keeps|]. intros f. cbv zeta.
  apply keeps_bind; [|intros b; destruct b; auto with keeps].
  apply keeps_anyWritten. intros x. unfold WriteLocalOutputSemanticsVarDecl.
  keeps_auto.
Qed.

Lemma keeps_WriteGlobalInputSemantics :
  keeps I P (WriteGlobalInputSemantics env).
Proof.
  unfold WriteGlobalInputSemantics.
  apply keeps_bind; [auto with keeps|]. intros f. cbv zeta.
  apply keeps_bind; [|intros b; destruct b; auto with keeps].
  apply keeps_anyWritten. intros x. unfold WriteGlobalInputSemanticsVarDecl.
  keeps_auto.
Qed.

Lemma keeps_WriteGlobalOutputSemantics :
  keeps I P (WriteGlobalOutputSemantics env).
Proof.
  unfold WriteGlobalOutputSemantics.
  apply keeps_bind; [auto with keeps|]. intros f. cbv zeta.
  apply keeps_bind; [|intros b; destruct b; auto with keeps].
  apply keeps_anyWritten. intros x. unfold WriteGlobalOutputSemanticsVarDecl.
  cbv zeta. keeps_auto.
Qed.

Lemma keeps_VisitBufferDeclStmnt b : keeps I P (VisitBufferDeclStmnt env b).
Proof.
  unfold VisitBufferDeclStmnt, Line_AST. keeps_auto.
  apply keeps_forEach. auto with keeps.
Qed.

Lemma keeps_VisitStructDeclStmnt s : keeps I P (VisitStructDeclStmnt env s).
Proof. unfold VisitStructDeclStmnt, Line_AST. keeps_auto. Qed.

Lemma keeps_VisitAliasDeclStmnt s : keeps I P (VisitAliasDeclStmnt env s).
Proof. unfold VisitAliasDeclStmnt, Line_AST. keeps_auto. Qed.

Hint Resolve keeps_WriteParameter keeps_WriteLocalInputSemantics
  keeps_WriteLocalOutputSemantics keeps_WriteGlobalInputSemantics
  keeps_WriteGlobalOutputSemantics keeps_VisitBufferDeclStmnt
  keeps_VisitStructDeclStmnt keeps_VisitAliasDeclStmnt : keeps.

Lemma keeps_WriteScopedStmnt_ (Visit : Stmnt -> Gen unit) (ast : option Stmnt) :
  (forall s, ast = Some s -> keeps I P (Visit s)) ->
  keeps I P (WriteScopedStmnt_ Visit ast).
Proof.
  intros H. destruct ast as [s|]; [|apply keeps_ret].
  specialize (H s eq_refl). unfold WriteScopedStmnt_. keeps_auto.
Qed.

Lemma keeps_statements (stmnts : list Stmnt) :
  list_all (fun s => forall args, keeps I P (VisitStmnt env s args)) stmnts ->
  keeps I P (forEach (fun s => VisitStmnt env s None) stmnts).
Proof.
  intros Hl. apply keeps_forEach. intros x Hx. apply (list_all_In Hl x Hx).
Qed.

Lemma keeps_optional_stmnt (o : option Stmnt) :
  option_all (fun s => forall args, keeps I P (VisitStmnt env s args)) o ->
  forall s, o = Some s -> keeps I P (VisitStmnt env s None).
Proof. intros Ho s ->. inversion Ho; subst. auto. Qed.

Theorem keeps_Stmnt :
  (forall s args, keeps I P (VisitStmnt env s args)) /\
  (forall b,
     keeps I P (VisitCodeBlock env b) /\
     match b with
     | mkCodeBlock _ stmnts =>
         keeps I P (forEach (fun s => VisitStmnt env s None) stmnts)
     end) /\
  (forall c, keeps I P (VisitCodeBlockStmnt env c)) /\
  (forall f, keeps I P (VisitForLoopStmnt env f)) /\
  (forall w, keeps I P (VisitWhileLoopStmnt env w)) /\
  (forall d, keeps I P (VisitDoWhileLoopStmnt env d)) /\
  (forall i args, keeps I P (VisitIfStmnt env i args)) /\
  (forall e, keeps I P (VisitElseStmnt env e)) /\
  (forall s, keeps I P (VisitSwitchStmnt env s)) /\
  (forall c, keeps I P (VisitSwitchCase env c)) /\
  (forall f, keeps I P (VisitFunctionDecl env f)).
Proof.
  apply Stmnt_mutind; cbn [VisitStmnt]; auto with keeps.
  - (* CodeBlock *)
    intros a stmnts Hl. pose proof (keeps_statements Hl) as Hs.
    split; [|exact Hs]. cbn [VisitCodeBlock]. keeps_auto.
  - (* CodeBlockStmnt *)
    intros a b [Hb _]. exact Hb.
  - (* ForLoopStmnt *)
    intros a init Hi c it b Hb. cbn [VisitForLoopStmnt].
    apply keeps_bind; [auto with keeps|]. intros _.
    apply keeps_bind; [auto with keeps|]. intros _.
    apply keeps_bind; [auto with keeps|]. intros _.
    apply keeps_bind;
      [apply keeps_VisitOptional; now apply keeps_optional_stmnt|].
    intros _. apply keeps_bind; [auto with keeps|]. intros _.
    apply keeps_bind; [apply keeps_VisitOptional; auto with keeps|].
    intros _. apply keeps_bind; [auto with keeps|]. intros _.
    apply keeps_bind; [apply keeps_VisitOptional; auto with keeps|].
    intros _. apply keeps_bind; [auto with keeps|]. intros _.
    apply keeps_bind; [auto with keeps|]. intros _.
    apply keeps_bind; [auto with keeps|]. intros _.
    apply keeps_WriteScopedStmnt_. now apply keeps_optional_stmnt.
  - (* WhileLoopStmnt *)
    intros a c b Hb. cbn [VisitWhileLoopStmnt].
    apply keeps_bind; [auto with keeps|]. intros _.
    apply keeps_bind; [auto with keeps|]. intros _.
    apply keeps_bind; [apply keeps_VisitOptional; auto with keeps|].
    intros _. apply keeps_bind; [auto with keeps|]. intros _.
    apply keeps_bind; [auto with keeps|]. intros _.
    apply keeps_WriteScopedStmnt_. now apply keeps_optional_stmnt.
  - (* DoWhileLoopStmnt *)
    intros a b Hb c. cbn [VisitDoWhileLoopStmnt].
    apply keeps_bind; [auto with keeps|]. intros _.
    apply keeps_bind;
      [apply keeps_WriteScopedStmnt_; now apply keeps_optional_stmnt|].
    intros _. apply keeps_bind; [auto with keeps|]. intros _.
    apply keeps_bind; [auto with keeps|]. intros _.
    apply keeps_bind; [apply keeps_VisitOptional; auto with keeps|].
    intros _. keeps_auto.
  - (* IfStmnt *)
    intros a c b Hb e He args. cbn [VisitIfStmnt]. cbv zeta.
    apply keeps_bind; [auto with keeps|]. intros hasElseParentNode.
    apply keeps_bind; [destruct (negb _); auto with keeps|]. intros _.
    apply keeps_bind; [auto with keeps|]. intros _.
    apply keeps_bind; [apply keeps_VisitOptional; auto with keeps|].
    intros _. apply keeps_bind; [auto with keeps|]. intros _.
    apply keeps_bind; [auto with keeps|]. intros _.
    apply keeps_bind;
      [apply keeps_WriteScopedStmnt_; now apply keeps_optional_stmnt|].
    intros _. apply keeps_VisitOptional. intros x ->.
    inversion He as [x' Hx|]; subst. apply Hx.
  - (* ElseStmnt *)
    intros a b Hb. cbn [VisitElseStmnt].
    destruct (Types_beq _ _).
    + apply keeps_bind; [auto with keeps|]. intros _.
      apply keeps_bind; [auto with keeps|]. intros _. apply Hb.
    + apply keeps_bind; [auto with keeps|]. intros _.
      apply keeps_WriteScopedStmnt_. intros s E. inversion E; subst.
      apply Hb.
  - (* SwitchStmnt *)
    intros a sel cases Hc. cbn [VisitSwitchStmnt].
    apply keeps_bind; [auto with keeps|]. intros _.
    apply keeps_bind; [auto with keeps|]. intros _.
    apply keeps_bind; [apply keeps_VisitOptional; auto with keeps|].
    intros _. apply keeps_bind; [auto with keeps|]. intros _.
    apply keeps_bind; [auto with keeps|]. intros _.
    apply keeps_bind; [auto with keeps|]. intros _.
    apply keeps_bind; [|auto with keeps].
    apply keeps_forEach. intros x Hx. apply (list_all_In Hc x Hx).
  - (* SwitchCase *)
    intros a e stmnts Hl. cbn [VisitSwitchCase].
    apply keeps_bind; [keeps_auto|]. intros _.
    apply keeps_bind; [auto with keeps|]. intros _.
    apply keeps_bind; [now apply keeps_statements | auto with keeps].
  - (* FunctionDecl *)
    intros area ident reach nonret entry rty params body Hbody attrs ins outs
      sem.
    cbn [VisitFunctionDecl].
    destruct (negb reach); [destruct nonret; auto with keeps|].
    apply keeps_bind; [destruct nonret; auto with keeps|]. intros _.
    apply keeps_bind; [unfold Line_AST; auto with keeps|]. intros _.
    apply keeps_bind; [auto with keeps|]. intros _.
    apply keeps_bind.
    { destruct entry; [auto with keeps|].
      apply keeps_bind; [auto with keeps|]. intros _.
      apply keeps_bind; [auto with keeps|]. intros _.
      apply keeps_bind; [apply keeps_forEachSeparated; auto with keeps|].
      intros _. apply keeps_bind; [auto with keeps|]. intros _.
      destruct body; auto with keeps. }
    intros _. apply keeps_bind; [auto with keeps|]. intros _.
    apply keeps_bind; [|auto with keeps].
    destruct body as [[a stmnts]|]; [|auto with keeps].
    inversion Hbody as [b' Hb|]; subst.
    destruct Hb as [Hb Hs]. destruct entry; [|exact Hb]. keeps_auto.
Qed.

Lemma keeps_VisitStmnt s args : keeps I P (VisitStmnt env s args).
Proof. apply keeps_Stmnt. Qed.

Lemma keeps_WriteVersionAndExtensions ast :
  keeps I P (WriteVersionAndExtensions env ast).
Proof.
  unfold WriteVersionAndExtensions, Version, WriteExtension. keeps_auto.
  apply keeps_forEach. auto with keeps.
Qed.

Lemma keeps_WriteAttribute a : keeps I P (WriteAttribute env a).
Proof.
  unfold WriteAttribute, WriteAttributeNumThreads,
    WriteAttributeEarlyDepthStencil, ErrorInvalidNumArgs.
  keeps_auto.
Qed.

Lemma keeps_WriteReferencedIntrinsics ast :
  keeps I P (WriteReferencedIntrinsics ast).
Proof.
  unfold WriteReferencedIntrinsics, WriteClipIntrinsics. cbv zeta.
  keeps_auto. apply keeps_forEach. auto with keeps.
Qed.

Hint Resolve keeps_VisitStmnt keeps_WriteVersionAndExtensions
  keeps_WriteAttribute keeps_WriteReferencedIntrinsics : keeps.

Lemma keeps_VisitProgram ast : keeps I P (VisitProgram env ast).
Proof.
  unfold VisitProgram. keeps_auto; apply keeps_forEach; auto with keeps.
Qed.

(** The whole run, from fields in which the stored parameters satisfy
    [I]; the passes that run first replace the program. *)
Hypothesis I_program : forall p st, I st -> I (set_program p st).

Lemma keeps_GenerateCodePrimary (time : string) (program : Program)
    (inputDesc : ShaderInput) (outputDesc : ShaderOutput) (st : GenState) :
  I (set_config
       {| shaderTarget_ := shaderTarget inputDesc;
          versionOut_ := shaderVersion outputDesc;
          allowExtensions_ := options_allowExtensions outputDesc;
          allowLineMarks_ := formatting_lineMarks outputDesc;
          nameManglingPrefix_ := formatting_prefix outputDesc;
          stats_ := statistics outputDesc |} st) ->
  let o := GenerateCodePrimary env time program inputDesc outputDesc st in
  I (final o) /\ Forall P (events o).
Proof.
  intros H. cbv zeta. unfold GenerateCodePrimary. rewrite bind_modify.
  revert H. generalize (set_config
       {| shaderTarget_ := shaderTarget inputDesc;
          versionOut_ := shaderVersion outputDesc;
          allowExtensions_ := options_allowExtensions outputDesc;
          allowLineMarks_ := formatting_lineMarks outputDesc;
          nameManglingPrefix_ := formatting_prefix outputDesc;
          stats_ := statistics outputDesc |} st).
  change (keeps I P
            match entryPointRef program with
            | Some _ =>
                try_catch
                  (st0 <- getState ;;
                   program0 <- lift (MarkControlPaths env program) ;;
                   program1 <- lift (Convert env program0
                                       (shaderTarget inputDesc)
                                       (formatting_prefix outputDesc)) ;;
                   program2 <- lift (MarkReferencesFromEntryPoint env
                                       program1) ;;
                   modify (set_program program2) ;;
                   (if empty (entryPoint inputDesc)
                    then Comment ("GLSL " ++ TargetToString env
                                    (shaderTarget_ (config st0)))
                    else Comment ("GLSL " ++ TargetToString env
                                    (shaderTarget_ (config st0)) ++ " "
                                  ++ dquote ++ entryPoint inputDesc
                                  ++ dquote)) ;;
                   Comment "Generated by XShaderCompiler" ;;
                   Comment time ;;
                   Blank ;;
                   VisitProgram env program2)
                  (GenerateCodePrimary_catch env)
            | None =>
                Error env ("entry point " ++ dquote ++ entryPoint inputDesc
                           ++ dquote ++ " not found") None
            end).
  destruct (entryPointRef program); [|auto with keeps].
  apply keeps_try_catch.
  - unfold Comment. keeps_auto.
    + apply keeps_modify. auto.
    + apply keeps_VisitProgram.
  - intros e. unfold GenerateCodePrimary_catch. keeps_auto.
Qed.

End KeepsGenerator.


Lemma textures_notTexture (t : list Event) :
  Forall notTexture t -> textures t = [].
Proof.
  induction 1 as [|[s|r|i b] t Hx Ht IH]; cbn; auto. contradiction.
Qed.

Lemma reports_notLoggedError (t : list Event) :
  Forall notLoggedError t ->
  forall r, In r (reports t) -> reportType r = Severity_Warning.
Proof.
  induction 1 as [|[s|r'|i b] t Hx Ht IH]; cbn; auto; try contradiction.
  intros r [<-|Hr]; auto.
Qed.

(** X1.  A visit of a statement that returns or throws (that does not
    run into undefined behaviour) leaves the stored parameters, the
    program and the indentation string as they were: they are set once,
    at the start of the run, and only read when statements are visited.
    Of a visit that runs into undefined behaviour nothing is stated. *)
Theorem statement_keeps_parameters (env : Env) (s : Stmnt)
    (args : option Z) (st : GenState) :
  let o := VisitStmnt env s args st in
  result o <> Undefined ->
  config (final o) = config st /\
  program_ (final o) = program_ st /\
  indent_ (final o) = indent_ st.
Proof.
  cbv zeta. intros _.
  refine (proj1 (@keeps_VisitStmnt env
            (fun x => config x = config st /\ program_ x = program_ st /\
                      indent_ x = indent_ st)
            (fun _ => True) _ _ _ _ _ _ _ _ s args st _));
    try (intros; exact I); try (intros ? ? H; exact H); auto.
Qed.

(** X2.  Without a statistics output nothing is recorded: a statement
    visited with [stats_] unset adds no record, and a whole run with no
    statistics output adds none. *)
Theorem no_statistics_unless_requested (env : Env) :
  (forall (s : Stmnt) (args : option Z) (st : GenState),
     stats_ (config st) = false ->
     textures (events (VisitStmnt env s args st)) = []) /\
  (forall (time : string) (program : Program) (inputDesc : ShaderInput)
          (outputDesc : ShaderOutput) (st : GenState),
     statistics outputDesc = false ->
     textures (events (GenerateCodePrimary env time program inputDesc
                         outputDesc st)) = []).
Proof.
  split.
  - intros s args st Hs. apply textures_notTexture.
    refine (proj2 (@keeps_VisitStmnt env
              (fun x => stats_ (config x) = false) notTexture
              _ _ _ _ _ _ _ _ s args st Hs));
      try (intros; exact I); try (intros ? ? H; exact H).
    intros x i b Hx Ht. congruence.
  - intros time program inputDesc outputDesc st Hs.
    apply textures_notTexture.
    refine (proj2 (@keeps_GenerateCodePrimary env
              (fun x => stats_ (config x) = false) notTexture
              _ _ _ _ _ _ _ _ _ time program inputDesc outputDesc st Hs));
      try (intros; exact I); try (intros ? ? H; exact H).
    intros x i b Hx Ht. congruence.
Qed.

(** X3.  When errors are thrown ([breakWithException]), the log receives
    warnings only: no error is ever submitted to it, neither while a
    statement is visited nor in a whole run. *)
Theorem thrown_errors_are_not_logged (env : Env) :
  breakWithException env = true ->
  (forall (s : Stmnt) (args : option Z) (st : GenState) (r : Report),
     In r (reports (events (VisitStmnt env s args st))) ->
     reportType r = Severity_Warning) /\
  (forall (time : string) (program : Program) (inputDesc : ShaderInput)
          (outputDesc : ShaderOutput) (st : GenState) (r : Report),
     In r (reports (events (GenerateCodePrimary env time program inputDesc
                              outputDesc st))) ->
     reportType r = Severity_Warning).
Proof.
  intros Hb. split.
  - intros s args st. apply reports_notLoggedError.
    refine (proj2 (@keeps_VisitStmnt env (fun _ => True) notLoggedError
              _ _ _ _ _ _ _ _ s args st I));
      try (intros; exact I); try reflexivity.
    intros E. congruence.
  - intros time program inputDesc outputDesc st.
    apply reports_notLoggedError.
    refine (proj2 (@keeps_GenerateCodePrimary env (fun _ => True)
              notLoggedError _ _ _ _ _ _ _ _ _ time program inputDesc
              outputDesc st I));
      try (intros; exact I); try reflexivity.
    intros E. congruence.
Qed.

(** *** Scopes and options are closed in the order they were opened *)

Lemma stateless_keeps {A} (m : Gen A) :
  (forall st0, keeps (eq st0) (fun _ => True) m) -> stateless m.
Proof. intros H st. symmetry. exact (proj1 (H st st eq_refl)). Qed.

Lemma balanced_stateless {A} (m : Gen A) : stateless m -> balanced m.
Proof. intros H st a _. rewrite H. auto. Qed.

Lemma framed_balanced {A} (k : nat) (p : list Options) (m : Gen A) :
  balanced m -> framed k p k p m.
Proof.
  intros H st a n s Ha L O. destruct (H st a Ha) as (L' & O' & S').
  now rewrite L', O', S'.
Qed.

Lemma balanced_framed {A} (m : Gen A) : framed 0 [] 0 [] m -> balanced m.
Proof.
  intros H st a Ha.
  destruct (H st a (indentLevel st) (optionsStack st) Ha) as (L & O & S);
    [now rewrite Nat.add_0_r | reflexivity |].
  now rewrite L, O, S, Nat.add_0_r.
Qed.

Lemma bind_result_Ok {A B} (m : Gen A) (f : A -> Gen B) st b :
  result (bind m f st) = Ok b ->
  exists a, result (m st) = Ok a /\
            result (f a (final (m st))) = Ok b /\
            final (bind m f st) = final (f a (final (m st))).
Proof.
  unfold bind. destruct (result (m st)) as [a|e|]; cbn; try discriminate.
  intros H. exists a. auto.
Qed.

Lemma framed_bind {A B} (k1 k2 k3 : nat) (p1 p2 p3 : list Options)
    (m : Gen A) (f : A -> Gen B) :
  framed k1 p1 k2 p2 m -> (forall a, framed k2 p2 k3 p3 (f a)) ->
  framed k1 p1 k3 p3 (bind m f).
Proof.
  intros Hm Hf st b n s Hb L O.
  apply bind_result_Ok in Hb as (a & Ha & Hb & E). rewrite E.
  destruct (Hm st a n s Ha L O) as (L1 & O1 & S1).
  destruct (Hf a _ b n s Hb L1 O1) as (L2 & O2 & S2).
  now rewrite L2, O2, S2, S1.
Qed.

Lemma balanced_bind {A B} (m : Gen A) (f : A -> Gen B) :
  balanced m -> (forall a, balanced (f a)) -> balanced (bind m f).
Proof.
  intros Hm Hf. apply balanced_framed.
  apply framed_bind with (k2 := 0%nat) (p2 := @nil Options).
  - now apply framed_balanced.
  - intros a. now apply framed_balanced.
Qed.

Lemma framed_IncIndent k p : framed k p (S k) p IncIndent.
Proof.
  intros st a n s _ L O. cbn. rewrite L, O. repeat split. lia.
Qed.

Lemma framed_DecIndent k p : framed (S k) p k p DecIndent.
Proof.
  intros st a n s _ L O. cbn. rewrite L, O. repeat split. lia.
Qed.

Lemma framed_PushOptions o k p : framed k p k (o :: p) (PushOptions o).
Proof. intros st a n s _ L O. cbn. rewrite L, O. repeat split. Qed.

Lemma framed_PopOptions o k p : framed k (o :: p) k p PopOptions.
Proof. intros st a n s _ L O. cbn. rewrite L, O. repeat split. Qed.

Lemma balanced_ret {A} (a : A) : balanced (ret a).
Proof. intros st x _. cbn. auto. Qed.

Lemma balanced_throw {A} (e : Exn) : balanced (@throw A e).
Proof. intros st x H. discriminate H. Qed.

Lemma balanced_undefined {A} : balanced (@undefined A).
Proof. intros st x H. discriminate H. Qed.

Lemma balanced_tell t : balanced (tell t).
Proof. intros st x _. cbn. auto. Qed.

Lemma balanced_lift {A} (r : Exn + A) : balanced (lift r).
Proof. destruct r; [apply balanced_throw | apply balanced_ret]. Qed.

Lemma balanced_getState : balanced getState.
Proof. intros st x _. cbn. auto. Qed.

Lemma balanced_set_isInsideInterfaceBlock b :
  balanced (modify (set_isInsideInterfaceBlock b)).
Proof. intros st x _. cbn. auto. Qed.

Lemma balanced_set_isInsideEntryPoint b :
  balanced (modify (set_isInsideEntryPoint b)).
Proof. intros st x _. cbn. auto. Qed.

Lemma balanced_forEach {A} (f : A -> Gen unit) (l : list A) :
  (forall x, In x l -> balanced (f x)) -> balanced (forEach f l).
Proof.
  induction l as [|x l IH]; intros H; cbn [forEach].
  - apply balanced_ret.
  - apply balanced_bind; [apply H; now left|]. intros _. apply IH.
    intros y Hy. apply H. now right.
Qed.

Lemma balanced_forEachReverse {A} (f : A -> Gen unit) (l : list A) :
  (forall x, In x l -> balanced (f x)) -> balanced (forEachReverse f l).
Proof.
  induction l as [|x l IH]; intros H; cbn [forEachReverse].
  - apply balanced_ret.
  - apply balanced_bind.
    + apply IH. intros y Hy. apply H. now right.
    + intros _. apply H. now left.
Qed.

Lemma balanced_forEachSeparated {A} (f : A -> Gen unit) (sep : Gen unit)
    (l : list A) :
  balanced sep ->
  (forall x, In x l -> balanced (f x)) ->
  balanced (forEachSeparated f sep l).
Proof.
  intros Hsep. induction l as [|x l IH]; intros H; cbn [forEachSeparated].
  - apply balanced_ret.
  - apply balanced_bind; [apply H; now left|]. intros _.
    destruct l as [|y l]; [apply balanced_ret|].
    apply balanced_bind; [exact Hsep|]. intros _. apply IH.
    intros z Hz. apply H. now right.
Qed.

Lemma balanced_anyWritten {A} (f : A -> Gen bool) (l : list A) :
  (forall x, balanced (f x)) -> balanced (anyWritten f l).
Proof.
  intros H. induction l as [|x l IH]; cbn [anyWritten].
  - apply balanced_ret.
  - apply balanced_bind; [apply H|]. intros b.
    apply balanced_bind; [apply IH|]. intros b'. apply balanced_ret.
Qed.

Lemma balanced_VisitOptional {A} (Visit : A -> Gen unit) (ast : option A) :
  (forall a, ast = Some a -> balanced (Visit a)) ->
  balanced (VisitOptional Visit ast).
Proof.
  destruct ast as [a|]; intros H; [apply H; reflexivity | apply balanced_ret].
Qed.

Create HintDb balanced discriminated.

Lemma balanced_ArgsAsBool (args : option Z) : balanced (ArgsAsBool args).
Proof.
  destruct (ArgsAsBool_cases args) as [[b ->]| ->];
    [apply balanced_ret | apply balanced_undefined].
Qed.

#[local] Hint Resolve balanced_ret balanced_throw balanced_undefined
  balanced_ArgsAsBool balanced_tell balanced_lift balanced_getState
  balanced_set_isInsideInterfaceBlock balanced_set_isInsideEntryPoint
  : balanced.

(** The computations that do not touch the fields. *)
Section Stateless.

Variable env : Env.

(** Discharges the side conditions of the invariants of the fields on the
    invariant [eq st0]. *)
Ltac by_keeps :=
  apply balanced_stateless, stateless_keeps; intros st0;
  first [ apply keeps_Write | apply keeps_BeginLn | apply keeps_EndLn
        | apply keeps_WriteLn | apply keeps_Error | apply keeps_Warning
        | apply keeps_Blank | apply keeps_Line | apply keeps_VisitExpr
        | apply keeps_WriteTypeDenoter | apply keeps_VisitVarDecl
        | apply keeps_MustResolveStruct | apply keeps_WriteTypeModifiers
        | apply keeps_GetProgram | apply keeps_GetEntryPoint
        | apply keeps_WriteOutputSemanticsAssignment
        | apply keeps_VisitReturnStmnt | apply keeps_VisitExprStmnt
        | apply keeps_VisitNullStmnt | apply keeps_VisitCtrlTransferStmnt
        | apply keeps_VisitTextureDeclStmnt ];
  intros; exact I.

Lemma balanced_Write text : balanced (Write text).
Proof. by_keeps. Qed.
Lemma balanced_BeginLn : balanced BeginLn.
Proof. by_keeps. Qed.
Lemma balanced_EndLn : balanced EndLn.
Proof. by_keeps. Qed.
Lemma balanced_WriteLn text : balanced (WriteLn text).
Proof. by_keeps. Qed.
Lemma balanced_Error msg ast : balanced (Error env msg ast).
Proof. by_keeps. Qed.
Lemma balanced_Warning msg ast : balanced (Warning msg ast).
Proof. by_keeps. Qed.
Lemma balanced_Blank : balanced Blank.
Proof. by_keeps. Qed.
Lemma balanced_Line n : balanced (Line n).
Proof. by_keeps. Qed.
Lemma balanced_VisitExpr e : balanced (VisitExpr env e).
Proof. by_keeps. Qed.
Lemma balanced_WriteTypeDenoter t ast : balanced (WriteTypeDenoter env t ast).
Proof. by_keeps. Qed.
Lemma balanced_VisitVarDecl d : balanced (VisitVarDecl env d).
Proof. by_keeps. Qed.
Lemma balanced_MustResolveStruct s : balanced (MustResolveStruct env s).
Proof. by_keeps. Qed.
Lemma balanced_WriteTypeModifiers l : balanced (WriteTypeModifiers l).
Proof. by_keeps. Qed.
Lemma balanced_GetProgram : balanced GetProgram.
Proof. by_keeps. Qed.
Lemma balanced_GetEntryPoint : balanced GetEntryPoint.
Proof. by_keeps. Qed.
Lemma balanced_WriteOutputSemanticsAssignment e :
  balanced (WriteOutputSemanticsAssignment env e).
Proof. by_keeps. Qed.
Lemma balanced_VisitReturnStmnt r : balanced (VisitReturnStmnt env r).
Proof. by_keeps. Qed.
Lemma balanced_VisitExprStmnt e : balanced (VisitExprStmnt env e).
Proof. by_keeps. Qed.
Lemma balanced_VisitNullStmnt : balanced VisitNullStmnt.
Proof. by_keeps. Qed.
Lemma balanced_VisitCtrlTransferStmnt t :
  balanced (VisitCtrlTransferStmnt env t).
Proof. by_keeps. Qed.
Lemma balanced_VisitTextureDeclStmnt t :
  balanced (VisitTextureDeclStmnt env t).
Proof. by_keeps. Qed.

End Stateless.

#[local] Hint Resolve balanced_Write balanced_BeginLn balanced_EndLn
  balanced_WriteLn balanced_Error balanced_Warning balanced_Blank
  balanced_Line balanced_VisitExpr balanced_WriteTypeDenoter
  balanced_VisitVarDecl balanced_MustResolveStruct balanced_WriteTypeModifiers
  balanced_GetProgram balanced_GetEntryPoint
  balanced_WriteOutputSemanticsAssignment balanced_VisitReturnStmnt
  balanced_VisitExprStmnt balanced_VisitNullStmnt
  balanced_VisitCtrlTransferStmnt balanced_VisitTextureDeclStmnt : balanced.

Lemma framed_OpenScope k p : framed k p (S k) p OpenScope.
Proof.
  unfold OpenScope.
  eapply framed_bind; [apply framed_balanced, balanced_WriteLn|].
  intros _. apply framed_IncIndent.
Qed.

Lemma framed_CloseScope b k p : framed (S k) p k p (CloseScope b).
Proof.
  unfold CloseScope.
  eapply framed_bind; [apply framed_DecIndent|].
  intros _. apply framed_balanced, balanced_WriteLn.
Qed.

(** Follows a computation along its sequencing, composing what its steps
    do to the indentation and to the options; a case analysis is between
    balanced computations. *)
Ltac framed_step :=
  match goal with
  | |- framed _ _ _ _ (bind _ _) => eapply framed_bind; [| intros ?]
  | |- framed _ _ _ _ IncIndent => apply framed_IncIndent
  | |- framed _ _ _ _ DecIndent => apply framed_DecIndent
  | |- framed _ _ _ _ (PushOptions _) => apply framed_PushOptions
  | |- framed _ _ _ _ PopOptions => apply framed_PopOptions
  | |- framed _ _ _ _ OpenScope => apply framed_OpenScope
  | |- framed _ _ _ _ (CloseScope _) => apply framed_CloseScope
  | |- framed _ _ _ _ _ => apply framed_balanced
  | |- balanced (bind _ _) => apply balanced_framed
  | |- balanced (if ?c then _ else _) => destruct c eqn:?
  | |- balanced (match ?c with _ => _ end) => destruct c eqn:?
  | |- balanced _ => solve [auto with balanced]
  end.

Ltac framed_auto := repeat framed_step.

Section Balanced.

Variable env : Env.

Lemma balanced_WriteStructDecl_ (VisitMember : VarDeclStmnt -> Gen unit)
    (WriteMembers : StructDecl -> Gen unit) a i al r n si so ms ns bs ws an :
  (forall m, In m ms -> balanced (VisitMember m)) ->
  balanced (WriteMembers (mkStructDecl a i al r n si so ms ns bs)) ->
  balanced (WriteStructDecl_ VisitMember WriteMembers
              (mkStructDecl a i al r n si so ms ns bs) ws an).
Proof.
  intros Hm Hw. unfold WriteStructDecl_. framed_auto.
  now apply balanced_forEach.
Qed.

Theorem balanced_Decl :
  (forall t, balanced (VisitVarType env t)) /\
  (forall s,
     balanced (WriteStructDeclMembers env s) /\
     (forall ws an, balanced (WriteStructDecl env s ws an)) /\
     (forall args, balanced (VisitStructDecl env s args))) /\
  (forall v, balanced (VisitVarDeclStmnt env v)).
Proof.
  apply VarType_mutind.
  - (* VarType *)
    intros a s Hs t. cbn [VisitVarType].
    destruct s as [s|]; [|auto with balanced].
    inversion Hs as [s' (_ & _ & Hv)|]; subst. apply Hv.
  - (* StructDecl *)
    intros a i al r n si so ms Hms ns Hns bs Hbs.
    pose proof (list_all_In Hms) as Hm. pose proof (list_all_In Hns) as Hn.
    assert (Hmem : balanced (WriteStructDeclMembers env
                      (mkStructDecl a i al r n si so ms ns bs))).
    { cbn [WriteStructDeclMembers]. apply balanced_bind.
      - destruct bs as [b|]; [|apply balanced_ret].
        inversion Hbs as [b' (Hb & _)|]; subst. exact Hb.
      - intros _. now apply balanced_forEach. }
    assert (Hdecl : forall ws an,
              balanced (WriteStructDecl env
                          (mkStructDecl a i al r n si so ms ns bs) ws an)).
    { intros ws an. unfold WriteStructDecl.
      now apply balanced_WriteStructDecl_. }
    split; [exact Hmem|]. split; [exact Hdecl|].
    intros args. unfold VisitStructDecl, VisitStructDecl_.
    apply balanced_bind; [auto with balanced|]. intros mustResolve.
    destruct (negb mustResolve); [|auto with balanced].
    apply balanced_bind; [auto with balanced|]. intros semicolon.
    apply balanced_bind; [|intros _; apply Hdecl].
    destruct (negb n); [|auto with balanced].
    apply balanced_forEachReverse. intros x Hx.
    apply balanced_bind; [|auto with balanced].
    destruct (Hn x Hx) as (_ & Hd & _). apply Hd.
  - (* VarDeclStmnt *)
    intros a si so im sc tm t Ht l. cbn [VisitVarDeclStmnt].
    apply balanced_bind; [auto with balanced|]. intros s.
    destruct (filter _ l) as [|d ds] eqn:E; [apply balanced_ret|].
    apply balanced_bind; [auto with balanced|]. intros _.
    apply balanced_bind; [framed_auto|]. intros _.
    apply balanced_bind.
    { apply balanced_forEach. intros x _. framed_auto. }
    intros _. apply balanced_bind; [auto with balanced|]. intros _.
    apply balanced_bind.
    { destruct t as [ta [sd|] td];
        (apply balanced_bind; [exact Ht | auto with balanced]). }
    intros _. apply balanced_bind.
    { apply balanced_forEachSeparated; auto with balanced. }
    intros _. apply balanced_bind; auto with balanced.
Qed.

Lemma balanced_VisitVarType t : balanced (VisitVarType env t).
Proof. apply balanced_Decl. Qed.

Lemma balanced_VisitVarDeclStmnt v : balanced (VisitVarDeclStmnt env v).
Proof. apply balanced_Decl. Qed.

Lemma balanced_VisitStructDecl s args : balanced (VisitStructDecl env s args).
Proof. apply balanced_Decl. Qed.

Hint Resolve balanced_VisitVarType balanced_VisitVarDeclStmnt
  balanced_VisitStructDecl : balanced.

Lemma balanced_WriteParameter p : balanced (WriteParameter env p).
Proof.
  unfold WriteParameter. destruct p as [a si so im sc tm t l].
  apply balanced_bind; [framed_auto|]. intros _.
  apply balanced_bind; [auto with balanced|]. intros _.
  apply balanced_bind; [auto with balanced|]. intros _.
  apply balanced_bind; [auto with balanced|]. intros _.
  destruct l as [|x [|y l]]; auto with balanced.
Qed.

Lemma balanced_WriteLocalInputSemantics :
  balanced (WriteLocalInputSemantics env).
Proof.
  unfold WriteLocalInputSemantics.
  apply balanced_bind; [auto with balanced|]. intros f. cbv zeta.
  apply balanced_bind; [|intros b; destruct b; auto with balanced].
  apply balanced_anyWritten. intros x. unfold WriteLocalInputSemanticsVarDecl.
  cbv zeta. destruct (IsValid _); [|auto with balanced].
  apply balanced_bind; [|auto with balanced].
  destruct (SemanticToGLSLKeyword _ _); [|auto with balanced].
  repeat (apply balanced_bind; [auto with balanced | intros _]).
  auto with balanced.
Qed.

Lemma balanced_WriteLocalOutputSemantics :
  balanced (WriteLocalOutputSemantics env).
Proof.
  unfold WriteLocalOutputSemantics.
  apply balanced_bind; [auto with balanced|]. intros f. cbv zeta.
  apply balanced_bind; [|intros b; destruct b; auto with balanced].
  apply balanced_anyWritten. intros x. unfold WriteLocalOutputSemanticsVarDecl.
  repeat (apply balanced_bind; [auto with balanced | intros _]).
  auto with balanced.
Qed.

Lemma balanced_VisitBufferDeclStmnt b : balanced (VisitBufferDeclStmnt env b).
Proof.
  unfold VisitBufferDeclStmnt, Line_AST.
  destruct (negb _); [auto with balanced|].
  apply balanced_bind; [auto with balanced|]. intros s.
  framed_auto. apply balanced_forEach. auto with balanced.
Qed.

Lemma balanced_VisitStructDeclStmnt s : balanced (VisitStructDeclStmnt env s).
Proof.
  unfold VisitStructDeclStmnt, Line_AST.
  destruct (negb _); [auto with balanced|].
  apply balanced_bind; [auto with balanced|]. intros m.
  destruct (negb m); [|auto with balanced].
  repeat (apply balanced_bind; [auto with balanced | intros _]).
  auto with balanced.
Qed.

Lemma balanced_VisitAliasDeclStmnt s : balanced (VisitAliasDeclStmnt env s).
Proof.
  unfold VisitAliasDeclStmnt, Line_AST.
  destruct (AliasDeclStmnt_structDecl s); [|auto with balanced].
  destruct (negb _); [|auto with balanced].
  repeat (apply balanced_bind; [auto with balanced | intros _]).
  auto with balanced.
Qed.

Hint Resolve balanced_WriteParameter balanced_WriteLocalInputSemantics
  balanced_WriteLocalOutputSemantics balanced_VisitBufferDeclStmnt
  balanced_VisitStructDeclStmnt balanced_VisitAliasDeclStmnt : balanced.

Lemma balanced_WriteScopedStmnt_ (Visit : Stmnt -> Gen unit)
    (ast : option Stmnt) :
  (forall s, ast = Some s -> balanced (Visit s)) ->
  balanced (WriteScopedStmnt_ Visit ast).
Proof.
  intros H. destruct ast as [s|]; [|apply balanced_ret].
  specialize (H s eq_refl). unfold WriteScopedStmnt_.
  destruct (negb _); [|exact H]. framed_auto.
Qed.

Lemma balanced_statements (stmnts : list Stmnt) :
  list_all (fun s => forall args, balanced (VisitStmnt env s args)) stmnts ->
  balanced (forEach (fun s => VisitStmnt env s None) stmnts).
Proof.
  intros Hl. apply balanced_forEach. intros x Hx. apply (list_all_In Hl x Hx).
Qed.

Lemma balanced_optional_stmnt (o : option Stmnt) :
  option_all (fun s => forall args, balanced (VisitStmnt env s args)) o ->
  forall s, o = Some s -> balanced (VisitStmnt env s None).
Proof. intros Ho s ->. inversion Ho; subst. auto. Qed.

Theorem balanced_Stmnt :
  (forall s args, balanced (VisitStmnt env s args)) /\
  (forall b,
     balanced (VisitCodeBlock env b) /\
     match b with
     | mkCodeBlock _ stmnts =>
         balanced (forEach (fun s => VisitStmnt env s None) stmnts)
     end) /\
  (forall c, balanced (VisitCodeBlockStmnt env c)) /\
  (forall f, balanced (VisitForLoopStmnt env f)) /\
  (forall w, balanced (VisitWhileLoopStmnt env w)) /\
  (forall d, balanced (VisitDoWhileLoopStmnt env d)) /\
  (forall i args, balanced (VisitIfStmnt env i args)) /\
  (forall e, balanced (VisitElseStmnt env e)) /\
  (forall s, balanced (VisitSwitchStmnt env s)) /\
  (forall c, balanced (VisitSwitchCase env c)) /\
  (forall f, balanced (VisitFunctionDecl env f)).
Proof.
  apply Stmnt_mutind; cbn [VisitStmnt]; auto with balanced.
  - (* CodeBlock *)
    intros a stmnts Hl. pose proof (balanced_statements Hl) as Hs.
    split; [|exact Hs]. cbn [VisitCodeBlock]. framed_auto.
  - (* CodeBlockStmnt *)
    intros a b [Hb _]. exact Hb.
  - (* ForLoopStmnt *)
    intros a init Hi c it b Hb. cbn [VisitForLoopStmnt].
    pose proof (balanced_VisitOptional (fun s => VisitStmnt env s None)
                  (balanced_optional_stmnt Hi)) as Hinit.
    pose proof (balanced_WriteScopedStmnt_ (fun s => VisitStmnt env s None)
                  (balanced_optional_stmnt Hb)) as Hbody.
    assert (Hc : forall o, balanced (VisitOptional (VisitExpr env) o)).
    { intros o. apply balanced_VisitOptional. auto with balanced. }
    framed_auto.
  - (* WhileLoopStmnt *)
    intros a c b Hb. cbn [VisitWhileLoopStmnt].
    repeat (apply balanced_bind; [auto with balanced | intros _]).
    + apply balanced_VisitOptional. auto with balanced.
    + apply balanced_WriteScopedStmnt_. now apply balanced_optional_stmnt.
  - (* DoWhileLoopStmnt *)
    intros a b Hb c. cbn [VisitDoWhileLoopStmnt].
    apply balanced_bind; [auto with balanced|]. intros _.
    apply balanced_bind;
      [apply balanced_WriteScopedStmnt_; now apply balanced_optional_stmnt|].
    intros _. apply balanced_bind; [auto with balanced|]. intros _.
    apply balanced_bind; [auto with balanced|]. intros _.
    apply balanced_bind; [apply balanced_VisitOptional; auto with balanced|].
    intros _. apply balanced_bind; auto with balanced.
  - (* IfStmnt *)
    intros a c b Hb e He args. cbn [VisitIfStmnt]. cbv zeta.
    apply balanced_bind; [auto with balanced|]. intros hasElseParentNode.
    apply balanced_bind; [destruct (negb _); auto with balanced|]. intros _.
    apply balanced_bind; [auto with balanced|]. intros _.
    apply balanced_bind; [apply balanced_VisitOptional; auto with balanced|].
    intros _. apply balanced_bind; [auto with balanced|]. intros _.
    apply balanced_bind; [auto with balanced|]. intros _.
    apply balanced_bind;
      [apply balanced_WriteScopedStmnt_; now apply balanced_optional_stmnt|].
    intros _. apply balanced_VisitOptional. intros x ->.
    inversion He as [x' Hx|]; subst. apply Hx.
  - (* ElseStmnt *)
    intros a b Hb. cbn [VisitElseStmnt].
    destruct (Types_beq _ _).
    + apply balanced_bind; [auto with balanced|]. intros _.
      apply balanced_bind; [auto with balanced|]. intros _. apply Hb.
    + apply balanced_bind; [auto with balanced|]. intros _.
      apply balanced_WriteScopedStmnt_. intros s E. inversion E; subst.
      apply Hb.
  - (* SwitchStmnt *)
    intros a sel cases Hc. cbn [VisitSwitchStmnt].
    assert (Hcases : balanced (forEach (VisitSwitchCase env) cases)).
    { apply balanced_forEach. intros x Hx. apply (list_all_In Hc x Hx). }
    assert (Hsel : balanced (VisitOptional (VisitExpr env) sel)).
    { apply balanced_VisitOptional. auto with balanced. }
    framed_auto.
  - (* SwitchCase *)
    intros a e stmnts Hl. cbn [VisitSwitchCase].
    pose proof (balanced_statements Hl) as Hs.
    framed_auto.
  - (* FunctionDecl *)
    intros area ident reach nonret entry rty params body Hbody attrs ins outs
      sem.
    cbn [VisitFunctionDecl].
    destruct (negb reach); [destruct nonret; auto with balanced|].
    apply balanced_bind; [destruct nonret; auto with balanced|]. intros _.
    apply balanced_bind; [unfold Line_AST; auto with balanced|]. intros _.
    apply balanced_bind; [auto with balanced|]. intros _.
    apply balanced_bind.
    { destruct entry; [auto with balanced|].
      apply balanced_bind; [auto with balanced|]. intros _.
      apply balanced_bind; [auto with balanced|]. intros _.
      apply balanced_bind;
        [apply balanced_forEachSeparated; auto with balanced|].
      intros _. apply balanced_bind; [auto with balanced|]. intros _.
      destruct body; auto with balanced. }
    intros _. apply balanced_bind; [auto with balanced|]. intros _.
    apply balanced_bind; [|auto with balanced].
    destruct body as [[a stmnts]|]; [|auto with balanced].
    inversion Hbody as [b' Hb|]; subst.
    destruct Hb as [Hb Hs]. destruct entry; [|exact Hb].
    framed_auto.
Qed.

End Balanced.

(** X4.  A statement that returns leaves the indentation level and the
    options stack as it found them: every scope it opened is closed and
    every set of options it pushed is popped. *)
Theorem statement_restores_indentation (env : Env) (s : Stmnt)
    (args : option Z) (st : GenState) (a : unit) :
  result (VisitStmnt env s args st) = Ok a ->
  indentLevel (final (VisitStmnt env s args st)) = indentLevel st /\
  optionsStack (final (VisitStmnt env s args st)) = optionsStack st.
Proof.
  intros H. destruct (proj1 (balanced_Stmnt env) s args st a H) as (L & O & _).
  auto.
Qed.

Lemma lineText_frame (st st' : GenState) (text : string) :
  indentLevel st' = indentLevel st ->
  optionsStack st' = optionsStack st ->
  indent_ st' = indent_ st ->
  lineText st' text = lineText st text.
Proof.
  intros L O S. unfold lineText, CurrentOptions, FullIndent.
  now rewrite L, O, S.
Qed.

Lemma OpenScope_run (st : GenState) :
  OpenScope st =
  mkOutcome (Ok tt) (set_indentLevel (S (indentLevel st)) st)
    (events (WriteLn "{" st)).
Proof.
  unfold OpenScope. rewrite (bind_Ok _ _ _ (WriteLn_eq "{" st)).
  cbn. now rewrite app_nil_r.
Qed.

Lemma CloseScope_run (semicolon : bool) (st : GenState) :
  let st' := set_indentLevel (pred (indentLevel st)) st in
  CloseScope semicolon st =
  mkOutcome (Ok tt) st'
    (events (WriteLn (if semicolon then "};" else "}") st')).
Proof.
  cbv zeta. unfold CloseScope, DecIndent. rewrite bind_modify.
  apply WriteLn_eq.
Qed.

(** X5.  A code block whose statements return is written as the line [{],
    the statements one level deeper, and the line [}] at the indentation
    of the [{]; the generator is then back at that indentation. *)
Theorem code_block_braces (env : Env) (area : SourcePosition)
    (stmnts : list Stmnt) (st : GenState) (a : unit) :
  let inner :=
    forEach (fun s => VisitStmnt env s None) stmnts
      (set_indentLevel (S (indentLevel st)) st) in
  let o := VisitCodeBlock env (mkCodeBlock area stmnts) st in
  result inner = Ok a ->
  result o = Ok tt /\
  output (events o) =
    lineText st "{" ++ output (events inner) ++ lineText st "}" /\
  indentLevel (final o) = indentLevel st.
Proof.
  cbv zeta. intros Hin.
  set (st1 := set_indentLevel (S (indentLevel st)) st) in *.
  set (inner := forEach (fun s => VisitStmnt env s None) stmnts st1) in *.
  assert (Hb : balanced (forEach (fun s => VisitStmnt env s None) stmnts)).
  { apply balanced_forEach. intros x _. apply balanced_Stmnt. }
  destruct (Hb st1 a Hin) as (L & O & S). fold inner in L, O, S.
  set (st2 := set_indentLevel (pred (indentLevel (final inner)))
                (final inner)).
  assert (E : VisitCodeBlock env (mkCodeBlock area stmnts) st =
              mkOutcome (Ok tt) st2
                (events (WriteLn "{" st) ++ events inner
                 ++ events (WriteLn "}" st2))%list).
  { cbn [VisitCodeBlock].
    apply bind_run with (a := tt) (st1 := st1); [apply OpenScope_run|].
    apply bind_run with (a := a) (st1 := final inner).
    - fold inner. rewrite (outcome_eta inner) at 1. now rewrite Hin.
    - apply (CloseScope_run false). }
  rewrite E. cbn [result events final]. split; [reflexivity|]. split.
  - rewrite !output_app.
    destruct (WriteLn_run "{" st) as (_ & _ & O1 & _).
    destruct (WriteLn_run "}" st2) as (_ & _ & O2 & _).
    rewrite O1, O2. f_equal. f_equal. apply lineText_frame.
    + subst st2. cbn. now rewrite L.
    + subst st2. cbn. now rewrite O.
    + subst st2. cbn. now rewrite S.
  - subst st2. cbn. now rewrite L.
Qed.

(** *** Expressions do not depend on the state of the writer *)

Create HintDb versionOnly discriminated.

Lemma versionOnly_ret {A} (a : A) : versionOnly (ret a).
Proof. intros st1 st2 _. auto. Qed.

Lemma versionOnly_throw {A} (e : Exn) : versionOnly (@throw A e).
Proof. intros st1 st2 _. auto. Qed.

Lemma versionOnly_undefined {A} : versionOnly (@undefined A).
Proof. intros st1 st2 _. auto. Qed.

Lemma versionOnly_tell (t : list Event) : versionOnly (tell t).
Proof. intros st1 st2 _. auto. Qed.

Lemma versionOnly_lift {A} (r : Exn + A) : versionOnly (lift r).
Proof. destruct r; [apply versionOnly_throw | apply versionOnly_ret]. Qed.

Lemma versionOnly_bind {A B} (m : Gen A) (f : A -> Gen B) :
  versionOnly m -> (forall a, versionOnly (f a)) -> versionOnly (bind m f).
Proof.
  intros Hm Hf st1 st2 E.
  destruct (Hm st1 st2 E) as (R & Ev & F1).
  destruct (Hm st2 st1 (eq_sym E)) as (_ & _ & F2).
  unfold bind. rewrite <- R, <- Ev, F1, F2.
  destruct (result (m st1)) as [a|e|]; cbn [result events final]; auto.
  destruct (Hf a st1 st2 E) as (R' & Ev' & F'). now rewrite R', Ev', F'.
Qed.

Lemma versionOnly_try_catch {A} (m : Gen A) (h : Exn -> Gen A) :
  versionOnly m -> (forall e, versionOnly (h e)) ->
  versionOnly (try_catch m h).
Proof.
  intros Hm Hh st1 st2 E.
  destruct (Hm st1 st2 E) as (R & Ev & F1).
  destruct (Hm st2 st1 (eq_sym E)) as (_ & _ & F2).
  unfold try_catch. rewrite <- R.
  destruct (result (m st1)) as [a|e|]; cbn [result events final]; auto.
  rewrite <- Ev, F1, F2.
  destruct (Hh e st1 st2 E) as (R' & Ev' & F'). now rewrite R', Ev', F'.
Qed.

Lemma versionOnly_forEach {A} (f : A -> Gen unit) (l : list A) :
  (forall x, In x l -> versionOnly (f x)) -> versionOnly (forEach f l).
Proof.
  induction l as [|x l IH]; intros H; cbn [forEach].
  - apply versionOnly_ret.
  - apply versionOnly_bind; [apply H; now left|]. intros _. apply IH.
    intros y Hy. apply H. now right.
Qed.

Lemma versionOnly_forEachSeparated {A} (f : A -> Gen unit) (sep : Gen unit)
    (l : list A) :
  versionOnly sep ->
  (forall x, In x l -> versionOnly (f x)) ->
  versionOnly (forEachSeparated f sep l).
Proof.
  intros Hsep. induction l as [|x l IH]; intros H; cbn [forEachSeparated].
  - apply versionOnly_ret.
  - apply versionOnly_bind; [apply H; now left|]. intros _.
    destruct l as [|y l]; [apply versionOnly_ret|].
    apply versionOnly_bind; [exact Hsep|]. intros _. apply IH.
    intros z Hz. apply H. now right.
Qed.

Lemma versionOnly_at {A B} (l : list A) (i : nat) (k : A -> Gen B) :
  (forall x, In x l -> versionOnly (k x)) -> versionOnly (at_ l i k).
Proof.
  unfold at_. revert i. induction l as [|x l IH]; intros i H.
  - destruct i; apply versionOnly_undefined.
  - destruct i as [|j]; [apply H; now left|].
    apply IH. intros y Hy. apply H. now right.
Qed.

Lemma versionOnly_Write (text : string) : versionOnly (Write text).
Proof. apply versionOnly_tell. Qed.

Lemma versionOnly_Error (env : Env) msg ast : versionOnly (Error env msg ast).
Proof.
  unfold Error. destruct (breakWithException env);
    [apply versionOnly_throw | apply versionOnly_tell].
Qed.

#[local] Hint Resolve versionOnly_ret versionOnly_throw versionOnly_undefined
  versionOnly_tell versionOnly_lift versionOnly_Write versionOnly_Error
  : versionOnly.

Ltac versionOnly_step :=
  match goal with
  | |- versionOnly (bind _ _) => apply versionOnly_bind; [| intros ?]
  | |- versionOnly (try_catch _ _) => apply versionOnly_try_catch; [| intros ?]
  | |- versionOnly (if ?c then _ else _) => destruct c
  | |- versionOnly (match ?c with _ => _ end) => destruct c
  | |- versionOnly _ => solve [auto with versionOnly]
  end.

Ltac versionOnly_auto := repeat versionOnly_step.

Section VersionOnly.

Variable env : Env.

(** The one place where an expression reads the fields: below GLSL 4.00
    a [double] is written as a [float]. *)
Lemma versionOnly_WriteDataType dataType ast :
  versionOnly (WriteDataType env dataType ast).
Proof.
  intros st1 st2 E. unfold WriteDataType. rewrite !bind_getState, E.
  destruct (DataTypeToGLSLKeyword env _); [now cbn|].
  apply versionOnly_Error. exact E.
Qed.

Lemma versionOnly_GetTypeDenoterForSuffixVarIdent lhs ast :
  versionOnly (GetTypeDenoterForSuffixVarIdent env lhs ast).
Proof. unfold GetTypeDenoterForSuffixVarIdent. versionOnly_auto. Qed.

Lemma versionOnly_AssertIntrinsicNumArgs ast lo hi :
  versionOnly (AssertIntrinsicNumArgs env ast lo hi).
Proof. unfold AssertIntrinsicNumArgs. versionOnly_auto. Qed.

Lemma versionOnly_WriteTypeDenoter_catch ast e :
  versionOnly (WriteTypeDenoter_catch env ast e).
Proof. unfold WriteTypeDenoter_catch. versionOnly_auto. Qed.

Hint Resolve versionOnly_WriteDataType
  versionOnly_GetTypeDenoterForSuffixVarIdent
  versionOnly_AssertIntrinsicNumArgs versionOnly_WriteTypeDenoter_catch
  : versionOnly.

Lemma versionOnly_WriteArrayDims (Visit : Expr -> Gen unit)
    (arrayDims : list Expr) :
  (forall x, In x arrayDims -> versionOnly (Visit x)) ->
  versionOnly (WriteArrayDims Visit arrayDims).
Proof.
  intros H. apply versionOnly_forEach. intros x Hx. specialize (H x Hx).
  versionOnly_auto.
Qed.

Lemma versionOnly_WriteMulArgument (Visit : Expr -> Gen unit) (expr : Expr) :
  versionOnly (Visit expr) -> versionOnly (WriteMulArgument Visit expr).
Proof. intros H. unfold WriteMulArgument. cbv zeta. versionOnly_auto. Qed.

Theorem versionOnly_Expr :
  (forall e, versionOnly (VisitExpr env e)) /\
  (forall c, versionOnly (VisitFunctionCall env c)) /\
  (forall v,
     (forall r, versionOnly (WriteVarIdent env v r)) /\
     (forall lhs, versionOnly (WriteSuffixVarIdentEnd env lhs v)) /\
     (forall lhs, versionOnly (WriteSuffixVarIdentBegin env lhs v))) /\
  (forall t ast, versionOnly (WriteTypeDenoter_ env (VisitExpr env) t ast)).
Proof.
  apply Expr_mutind.
  - (* ListExpr *) intros a e1 H1 e2 H2. cbn [VisitExpr]. versionOnly_auto.
  - (* LiteralExpr *) intros a v. cbn [VisitExpr]. versionOnly_auto.
  - (* TypeNameExpr *) intros a t Ht. cbn [VisitExpr]. apply Ht.
  - (* TernaryExpr *)
    intros a c Hc t Ht e He. cbn [VisitExpr]. versionOnly_auto.
  - (* BinaryExpr *) intros a l Hl op r Hr. cbn [VisitExpr]. versionOnly_auto.
  - (* UnaryExpr *) intros a op e He. cbn [VisitExpr]. versionOnly_auto.
  - (* PostUnaryExpr *) intros a e He op. cbn [VisitExpr]. versionOnly_auto.
  - (* FunctionCallExpr *) intros a c Hc. cbn [VisitExpr]. exact Hc.
  - (* BracketExpr *) intros a e He. cbn [VisitExpr]. versionOnly_auto.
  - (* SuffixExpr *)
    intros a e He v (Hv & Hend & Hbegin). cbn [VisitExpr]. versionOnly_auto.
  - (* ArrayAccessExpr *)
    intros a e He l Hl. cbn [VisitExpr]. versionOnly_auto.
    apply versionOnly_WriteArrayDims, (list_all_In Hl).
  - (* CastExpr *) intros a t Ht e He. cbn [VisitExpr]. versionOnly_auto.
  - (* VarAccessExpr *)
    intros a v (Hv & _) op e He. cbn [VisitExpr].
    apply versionOnly_bind; [apply Hv|]. intros _.
    destruct e as [e|]; [|apply versionOnly_ret].
    inversion He; subst. versionOnly_auto.
  - (* InitializerExpr *)
    intros a l Hl. cbn [VisitExpr]. versionOnly_auto.
    apply versionOnly_forEachSeparated;
      [versionOnly_auto | apply (list_all_In Hl)].
  - (* FunctionCall *)
    intros a v Hv t Ht i l Hl. pose proof (list_all_In Hl) as Hin.
    cbn [VisitFunctionCall].
    destruct (Intrinsic_IsMul i); [|destruct (Intrinsic_IsRcp i);
      [|destruct (Intrinsic_IsInterlocked i)]].
    + unfold WriteFunctionCallIntrinsicMul. versionOnly_auto;
        apply versionOnly_at; intros x Hx;
        apply versionOnly_WriteMulArgument, Hin, Hx.
    + unfold WriteFunctionCallIntrinsicRcp. versionOnly_auto.
      apply versionOnly_at. intros x Hx. specialize (Hin x Hx).
      versionOnly_auto. cbn [WriteTypeDenoter_]. versionOnly_auto.
    + unfold WriteFunctionCallIntrinsicAtomic. versionOnly_auto;
        try (apply versionOnly_at; intros x Hx; apply Hin, Hx).
    + unfold WriteFunctionCallStandard.
      apply versionOnly_bind.
      * destruct v as [v|].
        { inversion Hv as [v' (Hw & _)|]; subst. versionOnly_auto. }
        destruct t as [t|]; [|versionOnly_auto].
        inversion Ht; subst. auto.
      * intros _. versionOnly_auto.
        apply versionOnly_forEachSeparated; [versionOnly_auto | exact Hin].
  - (* VarIdent *)
    intros a i l Hl n Hn s. pose proof (list_all_In Hl) as Hin.
    assert (Hhead : forall r,
              versionOnly (WriteVarIdent_ (VisitExpr env)
                             (fun n => WriteVarIdent env n true)
                             (mkVarIdent a i l n s) r)).
    { intros r. unfold WriteVarIdent_.
      apply versionOnly_bind; [auto with versionOnly|]. intros _.
      apply versionOnly_bind; [now apply versionOnly_WriteArrayDims|].
      intros _. destruct n as [n|]; [|auto with versionOnly].
      destruct r; [|auto with versionOnly].
      apply versionOnly_bind; [auto with versionOnly|]. intros _.
      inversion Hn as [n' (Hw & _)|]; subst. apply Hw. }
    split; [|split].
    + intros r. cbn [WriteVarIdent]. apply Hhead.
    + intros lhs. cbn [WriteSuffixVarIdentEnd].
      apply versionOnly_bind.
      { destruct (IsScalar lhs); [auto with versionOnly|].
        apply versionOnly_bind; [auto with versionOnly|]. intros _.
        apply Hhead. }
      intros _. destruct n as [n|]; [|auto with versionOnly].
      apply versionOnly_bind; [auto with versionOnly|]. intros t.
      inversion Hn as [n' (_ & He & _)|]; subst. apply He.
    + intros lhs. cbn [WriteSuffixVarIdentBegin].
      apply versionOnly_bind.
      { destruct n as [n|]; [|auto with versionOnly].
        apply versionOnly_bind; [auto with versionOnly|]. intros t.
        inversion Hn as [n' (_ & _ & Hb)|]; subst. apply Hb. }
      intros _. versionOnly_auto.
  - (* VoidTypeDenoter *)
    intros ast. cbn [WriteTypeDenoter_]. versionOnly_auto.
  - (* BaseTypeDenoter *)
    intros d ast. cbn [WriteTypeDenoter_]. versionOnly_auto.
  - (* TextureTypeDenoter *)
    intros t r ast. cbn [WriteTypeDenoter_]. versionOnly_auto.
  - (* StructTypeDenoter *)
    intros i ast. cbn [WriteTypeDenoter_]. versionOnly_auto.
  - (* AliasTypeDenoter *)
    intros i t Ht ast. cbn [WriteTypeDenoter_]. versionOnly_auto.
  - (* ArrayTypeDenoter *)
    intros t Ht l Hl ast. cbn [WriteTypeDenoter_]. versionOnly_auto.
    apply versionOnly_WriteArrayDims, (list_all_In Hl).
Qed.

End VersionOnly.

(** X6.  What an expression writes does not depend on the state of the
    writer: visited from two sets of fields with the same target version
    (whatever the indentation, the options, the flags, the program), an
    expression ends the same way with the same text and the same
    diagnostics, and it leaves the fields as they were. *)
Theorem expression_reads_version_only (env : Env) (e : Expr)
    (st1 st2 : GenState) :
  versionOut_ (config st1) = versionOut_ (config st2) ->
  result (VisitExpr env e st1) = result (VisitExpr env e st2) /\
  events (VisitExpr env e st1) = events (VisitExpr env e st2) /\
  final (VisitExpr env e st1) = st1.
Proof. apply (proj1 (versionOnly_Expr env)). Qed.

(** *** The text of expressions *)

Lemma bind_Ok_inv {A B} (m : Gen A) (f : A -> Gen B) st b :
  result (bind m f st) = Ok b ->
  exists a,
    result (m st) = Ok a /\
    result (f a (final (m st))) = Ok b /\
    final (bind m f st) = final (f a (final (m st))) /\
    events (bind m f st) = (events (m st) ++ events (f a (final (m st))))%list.
Proof.
  unfold bind. destruct (result (m st)) as [a|e|]; cbn; try discriminate.
  intros H. exists a. auto.
Qed.

Lemma bind_Write {B} (text : string) (f : unit -> Gen B) st :
  bind (Write text) f st =
  mkOutcome (result (f tt st)) (final (f tt st))
    (EvWrite text :: events (f tt st)).
Proof. reflexivity. Qed.

Lemma final_VisitExpr (env : Env) (e : Expr) (st : GenState) :
  final (VisitExpr env e st) = st.
Proof. exact (proj2 (proj2 (proj1 (versionOnly_Expr env) e st st eq_refl))). Qed.

Lemma final_WriteVarIdent (env : Env) (v : VarIdent) (r : bool)
    (st : GenState) :
  final (WriteVarIdent env v r st) = st.
Proof.
  destruct (proj1 (proj2 (proj2 (versionOnly_Expr env))) v) as (H & _).
  exact (proj2 (proj2 (H r st st eq_refl))).
Qed.

Lemma final_WriteTypeDenoter (env : Env) t ast (st : GenState) :
  final (WriteTypeDenoter env t ast st) = st.
Proof.
  exact (proj2 (proj2 (proj2 (proj2 (proj2 (versionOnly_Expr env))) t ast st
                         st eq_refl))).
Qed.

Lemma final_Error (env : Env) msg ast st : final (Error env msg ast st) = st.
Proof. unfold Error. destruct (breakWithException env); reflexivity. Qed.

Lemma output_Error (env : Env) msg ast st :
  output (events (Error env msg ast st)) = "".
Proof. unfold Error. destruct (breakWithException env); reflexivity. Qed.

(** The elements of a list written one after the other, with a separator
    between two of them. *)
Lemma forEachSeparated_text {A} (f : A -> Gen unit) (sep : string)
    (l : list A) (st : GenState) :
  (forall x, final (f x st) = st) ->
  result (forEachSeparated f (Write sep) l st) = Ok tt ->
  output (events (forEachSeparated f (Write sep) l st)) =
    String.concat sep (map (fun x => output (events (f x st))) l) /\
  final (forEachSeparated f (Write sep) l st) = st.
Proof.
  intros Hf. unfold Write.
  induction l as [|x l IH]; cbn [forEachSeparated map].
  - intros _. split; reflexivity.
  - intros H. apply bind_Ok_inv in H as ([] & Hx & H & F & Ev).
    rewrite F, Ev, output_app, Hf in *. clear F Ev.
    destruct l as [|y l].
    + cbn. rewrite string_app_nil_r. split; reflexivity.
    + rewrite bind_tell in H |- *. cbn [result final events] in H |- *.
      destruct (IH H) as (O & F). rewrite F. split; [|reflexivity].
      cbn [app output]. rewrite O. reflexivity.
Qed.

(** X7.  A binary expression is written as its operands with the operator
    between them, and nothing else: no parentheses are added for an operand
    that is itself a binary expression.  The trees [(x op1 y) op2 z] and
    [x op1 (y op2 z)] are written as the same text; the grouping is in the
    text only where the tree has a bracket expression. *)
Theorem binary_expression_is_flat (env : Env) (a1 a2 a3 a4 : SourcePosition)
    (x y z : Expr) (op1 op2 : BinaryOp) (st : GenState) :
  result (VisitExpr env x st) = Ok tt ->
  result (VisitExpr env y st) = Ok tt ->
  result (VisitExpr env z st) = Ok tt ->
  let left := BinaryExpr a1 (BinaryExpr a2 x op1 y) op2 z in
  let right := BinaryExpr a3 x op1 (BinaryExpr a4 y op2 z) in
  textOf env st left =
    textOf env st x ++ " " ++ BinaryOpToString env op1 ++ " "
    ++ textOf env st y ++ " " ++ BinaryOpToString env op2 ++ " "
    ++ textOf env st z /\
  textOf env st right = textOf env st left /\
  result (VisitExpr env left st) = Ok tt /\
  result (VisitExpr env right st) = Ok tt.
Proof.
  intros Hx Hy Hz. cbv zeta.
  pose proof (final_VisitExpr env x st) as Fx.
  pose proof (final_VisitExpr env y st) as Fy.
  pose proof (final_VisitExpr env z st) as Fz.
  assert (Ex : VisitExpr env x st
               = mkOutcome (Ok tt) st (events (VisitExpr env x st))).
  { rewrite (outcome_eta (VisitExpr env x st)) at 1. now rewrite Hx, Fx. }
  assert (Ey : VisitExpr env y st
               = mkOutcome (Ok tt) st (events (VisitExpr env y st))).
  { rewrite (outcome_eta (VisitExpr env y st)) at 1. now rewrite Hy, Fy. }
  assert (Ez : VisitExpr env z st
               = mkOutcome (Ok tt) st (events (VisitExpr env z st))).
  { rewrite (outcome_eta (VisitExpr env z st)) at 1. now rewrite Hz, Fz. }
  assert (L : VisitExpr env (BinaryExpr a1 (BinaryExpr a2 x op1 y) op2 z) st
              = mkOutcome (Ok tt) st
                  ((events (VisitExpr env x st)
                    ++ [EvWrite (" " ++ BinaryOpToString env op1 ++ " ")]
                    ++ events (VisitExpr env y st))
                   ++ [EvWrite (" " ++ BinaryOpToString env op2 ++ " ")]
                   ++ events (VisitExpr env z st))%list).
  { cbn [VisitExpr].
    apply bind_run with (a := tt) (st1 := st).
    - apply bind_run with (a := tt) (st1 := st); [exact Ex|].
      rewrite bind_Write, Ey. reflexivity.
    - rewrite bind_Write, Ez. reflexivity. }
  assert (R : VisitExpr env (BinaryExpr a3 x op1 (BinaryExpr a4 y op2 z)) st
              = mkOutcome (Ok tt) st
                  (events (VisitExpr env x st)
                   ++ [EvWrite (" " ++ BinaryOpToString env op1 ++ " ")]
                   ++ events (VisitExpr env y st)
                   ++ [EvWrite (" " ++ BinaryOpToString env op2 ++ " ")]
                   ++ events (VisitExpr env z st))%list).
  { assert (In : VisitExpr env (BinaryExpr a4 y op2 z) st
                 = mkOutcome (Ok tt) st
                     (events (VisitExpr env y st)
                      ++ [EvWrite (" " ++ BinaryOpToString env op2 ++ " ")]
                      ++ events (VisitExpr env z st))%list).
    { cbn [VisitExpr].
      apply bind_run with (a := tt) (st1 := st); [exact Ey|].
      rewrite bind_Write, Ez. reflexivity. }
    change (VisitExpr env (BinaryExpr a3 x op1 (BinaryExpr a4 y op2 z)) st)
      with ((VisitExpr env x ;;
             Write (" " ++ BinaryOpToString env op1 ++ " ") ;;
             VisitExpr env (BinaryExpr a4 y op2 z)) st).
    apply bind_run with (a := tt) (st1 := st); [exact Ex|].
    rewrite bind_Write, In. reflexivity. }
  unfold textOf. rewrite L, R. cbn [result events].
  rewrite !output_app. cbn [output]. string_norm.
  repeat split; reflexivity.
Qed.

(** X8.  A call that is not one of the rewritten intrinsics is written as
    its name, [(], the arguments separated by [, ], and [)].  The name is
    the keyword of the intrinsic, the identifier of the function, or the
    type of a constructor call. *)
Theorem function_call_emission (env : Env) (area : SourcePosition)
    (varIdent : option VarIdent) (typeDenoter : option TypeDenoter)
    (intrinsic : Intrinsic) (arguments : list Expr) (st : GenState) :
  let call := mkFunctionCall area varIdent typeDenoter intrinsic arguments in
  Intrinsic_IsMul intrinsic = false ->
  Intrinsic_IsRcp intrinsic = false ->
  Intrinsic_IsInterlocked intrinsic = false ->
  result (VisitFunctionCall env call st) = Ok tt ->
  exists name : string,
    output (events (VisitFunctionCall env call st)) =
      name ++ "("
      ++ String.concat ", " (map (textOf env st) arguments) ++ ")" /\
    (forall v keyword,
       varIdent = Some v -> Intrinsic_IsUndefined intrinsic = false ->
       IntrinsicToGLSLKeyword env intrinsic = Some keyword ->
       name = keyword) /\
    (forall v,
       varIdent = Some v -> intrinsic = Intrinsic_Undefined ->
       name = output (events (WriteVarIdent env v true st))) /\
    (forall t,
       varIdent = None -> typeDenoter = Some t ->
       name = output (events (WriteTypeDenoter env t (Some area) st))).
Proof.
  cbv zeta. intros Hm Hr Hi H. cbn [VisitFunctionCall] in *.
  rewrite Hm, Hr, Hi in *. unfold WriteFunctionCallStandard in *.
  apply bind_Ok_inv in H as ([] & Hn & H & _ & Ev). rewrite Ev. clear Ev.
  match type of Hn with
  | result (?n st) = _ => set (name := n) in *
  end.
  assert (Fn : final (name st) = st).
  { subst name. destruct varIdent as [v|].
    - destruct (negb (Intrinsic_IsUndefined intrinsic));
        [|apply final_WriteVarIdent].
      destruct (IntrinsicToGLSLKeyword env intrinsic);
        [reflexivity | apply final_Error].
    - destruct typeDenoter as [t|];
        [apply final_WriteTypeDenoter | apply final_Error]. }
  rewrite Fn in *. rewrite bind_Write in H |- *.
  cbn [result final events] in H |- *.
  apply bind_Ok_inv in H as ([] & Ha & H & _ & Ev). rewrite Ev. clear Ev.
  destruct (@forEachSeparated_text _ (VisitExpr env) ", " arguments st
              (fun x => final_VisitExpr env x st) Ha) as (Oa & Fa).
  exists (output (events (name st))).
  rewrite output_app. cbn [app output]. rewrite output_app, Oa, Fa.
  cbn [Write tell events output]. split; [reflexivity|].
  subst name. split; [|split].
  - intros v k -> Hu Hk. rewrite Hu, Hk. cbn. now rewrite string_app_nil_r.
  - intros v -> ->. reflexivity.
  - intros t -> ->. reflexivity.
Qed.

(** X9.  An initializer list is written as [{ ], its expressions separated
    by [, ], and [ }]. *)
Theorem initializer_emission (env : Env) (area : SourcePosition)
    (exprs : list Expr) (st : GenState) :
  result (VisitExpr env (InitializerExpr area exprs) st) = Ok tt ->
  textOf env st (InitializerExpr area exprs) =
    "{ " ++ String.concat ", " (map (textOf env st) exprs) ++ " }".
Proof.
  intros H. unfold textOf at 1. cbn [VisitExpr] in *.
  rewrite bind_Write in H |- *. cbn [result final events] in H |- *.
  apply bind_Ok_inv in H as ([] & Ha & H & _ & Ev). rewrite Ev. clear Ev.
  destruct (@forEachSeparated_text _ (VisitExpr env) ", " exprs st
              (fun x => final_VisitExpr env x st) Ha) as (Oa & Fa).
  cbn [app output]. rewrite output_app, Oa. reflexivity.
Qed.

Lemma AssertIntrinsicNumArgs_Ok (env : Env) (ast : FunctionCall)
    (lo hi : nat) (st : GenState) (a : unit) :
  result (AssertIntrinsicNumArgs env ast lo hi st) = Ok a ->
  final (AssertIntrinsicNumArgs env ast lo hi st) = st /\
  output (events (AssertIntrinsicNumArgs env ast lo hi st)) = "".
Proof.
  intros _. unfold AssertIntrinsicNumArgs.
  destruct (_ || _); [|split; reflexivity].
  split; [apply final_Error | apply output_Error].
Qed.

Lemma interlocked_not_mul_rcp (i : Intrinsic) :
  Intrinsic_IsInterlocked i = true ->
  Intrinsic_IsMul i = false /\ Intrinsic_IsRcp i = false.
Proof. destruct i; cbn; intros H; try discriminate H; auto. Qed.

(** X10.  An interlocked intrinsic with a keyword is written as a call of
    the keyword on its first two arguments, [keyword(dest, value)]; when
    there is a third argument, the call is assigned to it:
    [original = keyword(dest, value)]. *)
Theorem atomic_emission (env : Env) (area : SourcePosition)
    (varIdent : option VarIdent) (typeDenoter : option TypeDenoter)
    (intrinsic : Intrinsic) (dest value : Expr) (rest : list Expr)
    (keyword : string) (st : GenState) :
  let call :=
    mkFunctionCall area varIdent typeDenoter intrinsic
      (dest :: value :: rest) in
  Intrinsic_IsInterlocked intrinsic = true ->
  IntrinsicToGLSLKeyword env intrinsic = Some keyword ->
  result (VisitFunctionCall env call st) = Ok tt ->
  output (events (VisitFunctionCall env call st)) =
    match rest with
    | original :: _ => textOf env st original ++ " = "
    | [] => ""
    end
    ++ keyword ++ "(" ++ textOf env st dest ++ ", " ++ textOf env st value
    ++ ")".
Proof.
  cbv zeta. intros Hi Hk H.
  destruct (interlocked_not_mul_rcp _ Hi) as (Hm & Hr).
  cbn [VisitFunctionCall] in *. rewrite Hm, Hr, Hi in *.
  unfold WriteFunctionCallIntrinsicAtomic in *.
  apply bind_Ok_inv in H as ([] & Ha & H & _ & Ev). rewrite Ev. clear Ev.
  destruct (AssertIntrinsicNumArgs_Ok _ _ _ _ _ Ha) as (Fa & Oa).
  rewrite Fa in *. rewrite output_app, Oa. clear Fa Oa Ha.
  rewrite Hk in *. cbn [String.append].
  apply bind_Ok_inv in H as ([] & Ho & H & _ & Ev). rewrite Ev. clear Ev.
  rewrite output_app.
  assert (Fo : final ((if (3 <=? length (dest :: value :: rest))%nat
                       then at_ (dest :: value :: rest) 2
                              (fun a2 => VisitExpr env a2) ;; Write " = "
                       else ret tt) st) = st /\
               output (events
                 ((if (3 <=? length (dest :: value :: rest))%nat
                   then at_ (dest :: value :: rest) 2
                          (fun a2 => VisitExpr env a2) ;; Write " = "
                   else ret tt) st)) =
               match rest with
               | original :: _ => textOf env st original ++ " = "
               | [] => ""
               end).
  { destruct rest as [|original rest']; [split; reflexivity|].
    cbn [length Nat.leb at_] in Ho |- *.
    apply bind_Ok_inv in Ho as ([] & Ho1 & _ & F & Ev). rewrite F, Ev.
    rewrite final_VisitExpr. split; [reflexivity|].
    rewrite output_app. reflexivity. }
  destruct Fo as (Fo & Oo). rewrite Fo in *. rewrite Oo. clear Fo Oo Ho.
  f_equal. rewrite bind_Write in H |- *. cbn [result final events] in H |- *.
  cbn [at_] in H |- *.
  apply bind_Ok_inv in H as ([] & Hd & H & _ & Ev). rewrite Ev. clear Ev.
  rewrite final_VisitExpr in *.
  rewrite bind_Write in H |- *. cbn [result final events] in H |- *.
  apply bind_Ok_inv in H as ([] & Hv & H & _ & Ev). rewrite Ev. clear Ev.
  cbn [output]. rewrite output_app. cbn [output]. rewrite output_app.
  unfold textOf. cbn. string_norm. reflexivity.
Qed.

Lemma at_out_of_range {A B} (l : list A) (i : nat) (k : A -> Gen B) st :
  (length l <= i)%nat -> at_ l i k st = mkOutcome Undefined st [].
Proof.
  unfold at_. revert i. induction l as [|x l IH]; intros i Hi.
  - destruct i; reflexivity.
  - destruct i as [|j]; cbn in Hi; [lia|]. apply IH. lia.
Qed.

Lemma bind_not_Ok {A B} (m : Gen A) (f : A -> Gen B) st :
  (forall a, result (m st) = Ok a ->
             forall b, result (f a (final (m st))) <> Ok b) ->
  forall b, result (bind m f st) <> Ok b.
Proof.
  intros H b Hb. apply bind_Ok_inv in Hb as (a & Ha & Hb & _).
  exact (H a Ha b Hb).
Qed.

(** X11.  [mul] with a number of arguments other than two: the error
    "invalid number of arguments in intrinsic" is produced at the call.
    When errors are thrown nothing is written.  With fewer than two
    arguments the call never returns: the error is thrown, or the
    generator goes on and reads an argument that is not there.  With more
    than two arguments and errors recorded, the call is written from its
    first two arguments as if the others were not there. *)
Theorem mul_argument_count (env : Env) (area : SourcePosition)
    (varIdent : option VarIdent) (typeDenoter : option TypeDenoter)
    (arguments : list Expr) (st : GenState) :
  let call :=
    mkFunctionCall area varIdent typeDenoter Intrinsic_Mul arguments in
  let r := {| reportType := Severity_Error;
              message := "invalid number of arguments in intrinsic";
              position := Some area |} in
  let o := VisitFunctionCall env call st in
  length arguments <> 2%nat ->
  diagnosed r o /\
  (breakWithException env = true ->
   o = mkOutcome (Throw (Exn_Report r)) st []) /\
  ((length arguments < 2)%nat -> forall a, result o <> Ok a) /\
  (breakWithException env = false ->
   forall A B C rest,
     arguments = A :: B :: C :: rest ->
     let o2 := VisitFunctionCall env
                 (mkFunctionCall area varIdent typeDenoter Intrinsic_Mul
                    [A; B]) st in
     o = mkOutcome (result o2) (final o2) (EvReport r :: events o2)).
Proof.
  cbv zeta. intros Hlen. cbn [VisitFunctionCall Intrinsic_IsMul].
  unfold WriteFunctionCallIntrinsicMul, AssertIntrinsicNumArgs.
  cbn [FunctionCall_arguments FunctionCall_area].
  assert (Hc : ((length arguments <? 2)%nat || (2 <? length arguments)%nat)
               = true).
  { destruct (Nat.ltb_spec (length arguments) 2); [reflexivity|].
    destruct (Nat.ltb_spec 2 (length arguments)); [reflexivity|]. lia. }
  rewrite Hc. unfold Error.
  destruct (breakWithException env) eqn:Hb.
  - rewrite bind_throw. split; [right; reflexivity|].
    split; [reflexivity|]. split; [|discriminate].
    intros _ a. discriminate.
  - rewrite bind_tell. cbn [result final events app].
    split; [left; left; reflexivity|]. split; [discriminate|]. split.
    + intros Hlt a. rewrite bind_Write. cbn [result].
      apply bind_not_Ok. intros [] H0. rewrite bind_Write. cbn [result].
      destruct arguments as [|A [|B l]]; cbn in Hlt; try lia.
      * cbn [at_] in H0. discriminate H0.
      * apply bind_not_Ok. intros [] H1.
        rewrite (@at_out_of_range _ _ [A] 1%nat) in H1 by (cbn; lia).
        discriminate H1.
    + intros _ A B C rest ->. reflexivity.
Qed.

(** The handlers of [WriteTypeDenoter] let through [Report]s only. *)
Lemma WriteTypeDenoter_catch_Throw (env : Env) ast e e' st :
  result (WriteTypeDenoter_catch env ast e st) = Throw e' ->
  exists r, e' = Exn_Report r.
Proof.
  unfold WriteTypeDenoter_catch, Error.
  destruct e; destruct (breakWithException env); cbn; intros H;
    inversion H; eauto; discriminate.
Qed.

Lemma try_catch_Throw {A} (m : Gen A) (h : Exn -> Gen A) st e' :
  result (try_catch m h st) = Throw e' ->
  exists e, result (m st) = Throw e /\
            result (h e (final (m st))) = Throw e'.
Proof.
  unfold try_catch. destruct (result (m st)) as [a|e|] eqn:E; cbn;
    rewrite ?E; try discriminate.
  intros H. eauto.
Qed.

Lemma WriteTypeDenoter_Throw (env : Env) (Visit : Expr -> Gen unit)
    (t : TypeDenoter) ast st e :
  result (WriteTypeDenoter_ env Visit t ast st) = Throw e ->
  exists r, e = Exn_Report r.
Proof.
  intros H. destruct t; cbn [WriteTypeDenoter_] in H;
    apply try_catch_Throw in H as (e0 & _ & H);
    exact (WriteTypeDenoter_catch_Throw _ _ _ _ H).
Qed.

Lemma try_catch_rethrow {A} (m : Gen A) (h : Exn -> Gen A) st :
  (forall e, result (m st) = Throw e -> h e = throw e) ->
  try_catch m h st = m st.
Proof.
  intros H. unfold try_catch.
  destruct (m st) as [[a|e|] s t] eqn:E; cbn in *; try reflexivity.
  rewrite (H e eq_refl). cbn. now rewrite app_nil_r.
Qed.

(** X12.  [WriteTypeDenoter] throws nothing but [Report]s: any other
    exception of the helpers it calls becomes an error at the node.  An
    alias is written as the type it stands for, through any number of
    aliases. *)
Theorem type_denoter_aliases (env : Env) (t : TypeDenoter)
    (ast : option SourcePosition) (st : GenState) :
  WriteTypeDenoter env t ast st = WriteTypeDenoter env (Get t) ast st /\
  (forall e, result (WriteTypeDenoter env t ast st) = Throw e ->
             exists r, e = Exn_Report r).
Proof.
  unfold WriteTypeDenoter. split; [|apply WriteTypeDenoter_Throw].
  induction t; try reflexivity.
  cbn [Get]. rewrite <- IHt. cbn [WriteTypeDenoter_].
  apply try_catch_rethrow. intros e He.
  apply WriteTypeDenoter_Throw in He as (r & ->). reflexivity.
Qed.

(** X13.  A suffix of one identifier after an expression.  On a scalar the
    suffix is a swizzle that builds a vector, and it is written as a
    constructor call: [1.0.xxxx] becomes [vec4(1.0)].  On any other type
    the suffix is written after the expression and a dot. *)
Theorem suffix_emission (env : Env) (area va : SourcePosition) (e : Expr)
    (ident : string) (symbolRef : option SymbolRef) (t : TypeDenoter)
    (st : GenState) :
  let v := mkVarIdent va ident [] None symbolRef in
  let o := VisitExpr env (SuffixExpr area e v) st in
  GetTypeDenoter env e = inr t ->
  result (VisitExpr env e st) = Ok tt ->
  (forall (d d' : DataType) (keyword : string),
     Get t = BaseTypeDenoter d ->
     IsScalarType d = true ->
     SubscriptDataType env d ident = inr d' ->
     DataTypeToGLSLKeyword env
       (if versionOut_ (config st) <? GLSL400
        then DoubleToFloatDataType d' else d') = Some keyword ->
     result o = Ok tt /\
     output (events o) = keyword ++ "(" ++ textOf env st e ++ ")") /\
  (IsScalar (Get t) = false ->
   result o = Ok tt /\
   output (events o) =
     textOf env st e ++ "." ++ FinalIdentFromVarIdent v).
Proof.
  cbv zeta. intros Ht He.
  assert (Ee : VisitExpr env e st
               = mkOutcome (Ok tt) st (events (VisitExpr env e st))).
  { rewrite (outcome_eta (VisitExpr env e st)) at 1.
    now rewrite He, final_VisitExpr. }
  split.
  - intros d d' keyword Hg Hs Hd Hk.
    assert (E : VisitExpr env
                  (SuffixExpr area e (mkVarIdent va ident [] None symbolRef))
                  st
                = mkOutcome (Ok tt) st
                    ([EvWrite keyword; EvWrite "("]
                     ++ events (VisitExpr env e st) ++ [EvWrite ")"])%list).
    { cbn [VisitExpr]. rewrite Ht. cbn [lift]. rewrite bind_ret.
      cbv beta zeta. rewrite Hg.
      apply bind_run with (a := tt) (st1 := st).
      - cbn [WriteSuffixVarIdentBegin]. rewrite bind_ret, Hs, Hd.
        cbn [lift]. rewrite bind_ret. unfold WriteDataType.
        rewrite bind_assoc, bind_getState. cbv zeta. rewrite Hk.
        reflexivity.
      - apply bind_run with (a := tt) (st1 := st); [exact Ee|].
        cbn [WriteSuffixVarIdentEnd IsScalar]. rewrite Hs. reflexivity. }
    rewrite E. cbn [result events]. split; [reflexivity|].
    cbn [app output]. rewrite output_app. cbn [output].
    unfold textOf. string_norm. reflexivity.
  - intros Hs.
    assert (E : VisitExpr env
                  (SuffixExpr area e (mkVarIdent va ident [] None symbolRef))
                  st
                = mkOutcome (Ok tt) st
                    (events (VisitExpr env e st)
                     ++ [EvWrite ".";
                         EvWrite (FinalIdentFromVarIdent
                                    (mkVarIdent va ident [] None symbolRef))])
                    %list).
    { cbn [VisitExpr]. rewrite Ht. cbn [lift]. rewrite bind_ret.
      cbv beta zeta.
      apply bind_run with (a := tt) (st1 := st) (t1 := @nil Event).
      - cbn [WriteSuffixVarIdentBegin]. rewrite bind_ret.
        destruct (Get t) as [|d| | | |]; try reflexivity.
        cbn [IsScalar] in Hs. rewrite Hs. reflexivity.
      - apply bind_run with (a := tt) (st1 := st); [exact Ee|].
        cbn [WriteSuffixVarIdentEnd]. rewrite Hs. reflexivity. }
    rewrite E. cbn [result events]. split; [reflexivity|].
    rewrite output_app. cbn [output]. unfold textOf. string_norm.
    reflexivity.
Qed.

(** *** The whole run: what is thrown, and what is written when it fails
    early *)

Lemma Error_Throw (env : Env) msg ast st e :
  result (Error env msg ast st) = Throw e -> exists r, e = Exn_Report r.
Proof.
  unfold Error. destruct (breakWithException env); cbn; intros H;
    inversion H; eauto.
Qed.

Lemma GenerateCodePrimary_catch_Throw (env : Env) e e' st :
  result (GenerateCodePrimary_catch env e st) = Throw e' ->
  exists r, e' = Exn_Report r.
Proof.
  destruct e; cbn [GenerateCodePrimary_catch].
  - cbn. intros H. inversion H. eauto.
  - apply Error_Throw.
  - apply Error_Throw.
Qed.

(** X14.  A run throws nothing but [Report]s: an [ASTRuntimeError] or any
    other exception of the passes or of the visitor is turned into an
    error, which is thrown as a [Report] or recorded. *)
Theorem run_throws_reports_only (env : Env) (time : string)
    (program : Program) (inputDesc : ShaderInput) (outputDesc : ShaderOutput)
    (st : GenState) (e : Exn) :
  result (GenerateCodePrimary env time program inputDesc outputDesc st)
  = Throw e ->
  exists r : Report, e = Exn_Report r.
Proof.
  unfold GenerateCodePrimary. rewrite bind_modify.
  destruct (entryPointRef program).
  - intros H. apply try_catch_Throw in H as (e0 & _ & H).
    exact (GenerateCodePrimary_catch_Throw _ _ _ H).
  - apply Error_Throw.
Qed.

(** X15.  Without an entry point nothing is written, not even the header:
    the run consists of the error "entry point "NAME" not found", given
    without a position. *)
Theorem run_without_entry_point (env : Env) (time : string)
    (program : Program) (inputDesc : ShaderInput) (outputDesc : ShaderOutput)
    (st : GenState) :
  let r := {| reportType := Severity_Error;
              message := "entry point " ++ dquote ++ entryPoint inputDesc
                         ++ dquote ++ " not found";
              position := None |} in
  entryPointRef program = None ->
  GenerateCodePrimary env time program inputDesc outputDesc st =
  mkOutcome (if breakWithException env then Throw (Exn_Report r) else Ok tt)
    (set_config (storedParameters inputDesc outputDesc) st)
    (if breakWithException env then [] else [EvReport r]).
Proof.
  cbv zeta. intros H. unfold GenerateCodePrimary. rewrite bind_modify, H.
  unfold Error, storedParameters. destruct (breakWithException env);
    reflexivity.
Qed.

(** X16.  When one of the three passes that run first throws, nothing is
    written, not even the header.  A [Report] is thrown on; an
    [ASTRuntimeError] becomes an error at its node, any other exception an
    error without a position, with the message of the exception. *)
Theorem run_with_failing_pass (env : Env) (time : string)
    (program : Program) (inputDesc : ShaderInput) (outputDesc : ShaderOutput)
    (st : GenState) (entry : FunctionDecl) (e : Exn) :
  let o := GenerateCodePrimary env time program inputDesc outputDesc st in
  let st' := set_config (storedParameters inputDesc outputDesc) st in
  entryPointRef program = Some entry ->
  passes env program inputDesc outputDesc = inl e ->
  output (events o) = "" /\
  (forall r, e = Exn_Report r -> o = mkOutcome (Throw e) st' []) /\
  (forall msg ast, e = Exn_ASTRuntimeError msg ast ->
                   o = Error env msg ast st') /\
  (forall msg, e = Exn_exception msg -> o = Error env msg None st').
Proof.
  cbv zeta. intros He Hp.
  assert (E : GenerateCodePrimary env time program inputDesc outputDesc st
              = GenerateCodePrimary_catch env e
                  (set_config (storedParameters inputDesc outputDesc) st)).
  { unfold GenerateCodePrimary. rewrite bind_modify, He.
    fold (storedParameters inputDesc outputDesc).
    generalize (set_config (storedParameters inputDesc outputDesc) st).
    intros s. unfold try_catch, passes in *. rewrite bind_getState.
    destruct (MarkControlPaths env program) as [e1|p1]; cbn [lift].
    { inversion Hp; subst. rewrite bind_throw. cbn.
      now destruct (GenerateCodePrimary_catch env e s). }
    rewrite bind_ret.
    destruct (Convert env p1 _ _) as [e2|p2]; cbn [lift].
    { inversion Hp; subst. rewrite bind_throw. cbn.
      now destruct (GenerateCodePrimary_catch env e s). }
    rewrite bind_ret.
    destruct (MarkReferencesFromEntryPoint env p2) as [e3|p3]; cbn [lift].
    { inversion Hp; subst. rewrite bind_throw. cbn.
      now destruct (GenerateCodePrimary_catch env e s). }
    discriminate Hp. }
  rewrite E. split.
  - destruct e; cbn [GenerateCodePrimary_catch]; try apply output_Error.
    reflexivity.
  - split; [|split].
    + intros r ->. reflexivity.
    + intros msg ast ->. reflexivity.
    + intros msg ->. reflexivity.
Qed.

Lemma forEach_WriteLn_text {A} (text : A -> string) (l : list A)
    (st : GenState) :
  forEach (fun x => WriteLn (text x)) l st =
  mkOutcome (Ok tt) st (events (forEach (fun x => WriteLn (text x)) l st)) /\
  output (events (forEach (fun x => WriteLn (text x)) l st)) =
    String.concat "" (map (fun x => lineText st (text x)) l).
Proof.
  induction l as [|x l IH]; cbn [forEach map].
  - split; reflexivity.
  - destruct IH as (E & O).
    rewrite (bind_Ok _ _ _ (WriteLn_eq (text x) st)).
    rewrite E at 1 2. cbn [result final events]. split; [reflexivity|].
    rewrite output_app, O.
    destruct (WriteLn_run (text x) st) as (_ & _ & Ox & _). rewrite Ox.
    destruct l; cbn [map String.concat];
      [now rewrite string_app_nil_r | reflexivity].
Qed.

(** X17.  The version and the extensions.  With the extensions the agent
    asks for, what is written is the line [#version NNN], a blank line,
    one line [#extension NAME : enable] for each extension in the order
    the agent gave them and, if there was one, another blank line.  When
    the agent throws, nothing is written, the version line neither, and
    the exception becomes an error without a position. *)
Theorem version_and_extensions (env : Env) (ast : Program) (st : GenState) :
  let o := WriteVersionAndExtensions env ast st in
  let required :=
    DetermineRequiredExtensions env ast (versionOut_ (config st))
      (shaderTarget_ (config st)) (allowExtensions_ (config st)) in
  (forall requiredExtensions,
     required = inr requiredExtensions ->
     result o = Ok tt /\ final o = st /\
     output (events o) =
       lineText st ("#version " ++ to_string (versionOut_ (config st)))
       ++ lineText st ""
       ++ String.concat ""
            (map (fun ext =>
                    lineText st ("#extension " ++ ext ++ " : enable"))
               requiredExtensions)
       ++ match requiredExtensions with
          | [] => ""
          | _ :: _ => lineText st ""
          end) /\
  (forall e,
     required = inl e ->
     o = Error env (what e) None st /\ output (events o) = "").
Proof.
  cbv zeta. unfold WriteVersionAndExtensions, try_catch.
  rewrite bind_getState. split.
  - intros exts ->. cbn [lift]. rewrite bind_ret. unfold Version, Blank.
    rewrite (bind_Ok _ _ _ (WriteLn_eq _ st)). cbn [result final events].
    rewrite (bind_Ok _ _ _ (WriteLn_eq _ st)). cbn [result final events].
    destruct (WriteLn_run ("#version " ++ to_string (versionOut_ (config st)))
                st) as (_ & _ & O1 & _).
    destruct (WriteLn_run "" st) as (_ & _ & O2 & _).
    destruct exts as [|x l].
    + cbn [ret result final events]. rewrite app_nil_r.
      repeat split. rewrite !output_app, O1, O2. cbn [map String.concat].
      now rewrite !string_app_nil_r.
    + unfold WriteExtension.
      destruct (forEach_WriteLn_text
                  (fun ext => "#extension " ++ ext ++ " : enable") (x :: l)
                  st) as (E & O).
      rewrite (bind_Ok _ _ _ E). cbn [result final events].
      rewrite (WriteLn_eq "" st). cbn [result final events].
      repeat split. rewrite !output_app, O1, O2, O. reflexivity.
  - intros e ->. cbn [lift]. rewrite bind_throw. cbn [result final events].
    split; [|apply output_Error].
    cbn [app]. now destruct (Error env (what e) None st).
Qed.

(** *** The headers of the statements *)

Lemma run_eta {A} (m : Gen A) (st : GenState) (a : A) :
  result (m st) = Ok a -> final (m st) = st ->
  m st = mkOutcome (Ok a) st (events (m st)).
Proof.
  intros R F. rewrite (outcome_eta (m st)) at 1. now rewrite R, F.
Qed.

Lemma final_VisitOptional (env : Env) (e : option Expr) (st : GenState) :
  final (VisitOptional (VisitExpr env) e st) = st.
Proof. destruct e; [apply final_VisitExpr | reflexivity]. Qed.

Lemma VisitOptional_versionOnly (env : Env) (e : option Expr) :
  versionOnly (VisitOptional (VisitExpr env) e).
Proof.
  destruct e; [apply versionOnly_Expr | apply versionOnly_ret].
Qed.

(** An expression visited with options pushed. *)
Lemma VisitOptional_pushed (env : Env) (e : option Expr) (o : Options)
    (st : GenState) (a : unit) :
  result (VisitOptional (VisitExpr env) e st) = Ok a ->
  VisitOptional (VisitExpr env) e (pushed o st) =
  mkOutcome (Ok a) (pushed o st)
    (events (VisitOptional (VisitExpr env) e st)).
Proof.
  intros H.
  destruct (VisitOptional_versionOnly env e (pushed o st) st eq_refl)
    as (R & Ev & F).
  rewrite (outcome_eta (VisitOptional (VisitExpr env) e (pushed o st))).
  now rewrite R, Ev, F, H.
Qed.

Lemma pop_pushed (o : Options) (st : GenState) :
  set_optionsStack (tl (optionsStack (pushed o st))) (pushed o st) = st.
Proof. destruct st; reflexivity. Qed.

Lemma VisitOptional_Ok (env : Env) (e : option Expr) (st : GenState) :
  result (VisitOptional (VisitExpr env) e st) = Ok tt ->
  VisitOptional (VisitExpr env) e st =
  mkOutcome (Ok tt) st (events (VisitOptional (VisitExpr env) e st)).
Proof. intros H. apply run_eta; [exact H | apply final_VisitOptional]. Qed.

(** X19.  An [if] that is the body of an [else].  The [else] passes the
    address of its local [hasElseParentNode], and the [if] reads its flag
    from the low byte of that address.  When the byte is 1 the [if] is
    written on the line of the [else], as [else if (...)]; when it is 0
    the [if] begins a line of its own after [else ], as an [if] that
    stands alone does; for any other byte the behaviour is undefined.
    What follows the header is the same as for an [if] that stands
    alone. *)
Theorem else_if_header (env : Env) (area area' : SourcePosition)
    (condition : option Expr) (bodyStmnt : option Stmnt)
    (elseStmnt : option ElseStmnt) (st : GenState) :
  let inner := mkIfStmnt area' condition bodyStmnt elseStmnt in
  let chained := VisitElseStmnt env (mkElseStmnt area (Stmnt_If inner)) st in
  let alone := VisitIfStmnt env inner None st in
  let rest :=
    (WriteScopedStmnt_ (fun s => VisitStmnt env s None) bodyStmnt ;;
     VisitOptional (VisitElseStmnt env) elseStmnt) st in
  let byte := Z.land (AddressOfLocal env area) 255 in
  let header := "if (" ++ textOfOptional env st condition ++ ")" in
  result (VisitOptional (VisitExpr env) condition st) = Ok tt ->
  (byte = 1 ->
   result chained = result rest /\ final chained = final rest /\
   output (events chained) =
     lineText st ("else " ++ header) ++ output (events rest)) /\
  (byte = 0 ->
   result chained = result rest /\ final chained = final rest /\
   output (events chained) =
     (if enableIndent (CurrentOptions st) then FullIndent st else "")
     ++ "else " ++ lineText st header ++ output (events rest)) /\
  (byte <> 0 -> byte <> 1 -> result chained = Undefined) /\
  (result alone = result rest /\ final alone = final rest /\
   output (events alone) = lineText st header ++ output (events rest)).
Proof.
  cbv zeta. intros Hc.
  set (rest := WriteScopedStmnt_ (fun s => VisitStmnt env s None) bodyStmnt ;;
               VisitOptional (VisitElseStmnt env) elseStmnt).
  pose proof (VisitOptional_Ok env condition st Hc) as Ec.
  assert (E : forall hasElseParentNode,
             ((if negb hasElseParentNode then BeginLn else ret tt) ;;
              Write "if (" ;;
              VisitOptional (VisitExpr env) condition ;;
              Write ")" ;;
              EndLn ;;
              rest) st
             = mkOutcome (result (rest st)) (final (rest st))
                 (((if negb hasElseParentNode
                    then if enableIndent (CurrentOptions st)
                         then [EvWrite (FullIndent st)] else []
                    else [])
                   ++ [EvWrite "if ("]
                   ++ events (VisitOptional (VisitExpr env) condition st)
                   ++ [EvWrite ")"]
                   ++ (if enableNewLine (CurrentOptions st)
                       then [EvWrite newline] else []))
                  ++ events (rest st))%list).
  { intros f.
    assert (Eb : (if negb f then BeginLn else ret tt) st
                 = mkOutcome (Ok tt) st
                     (if negb f
                      then if enableIndent (CurrentOptions st)
                           then [EvWrite (FullIndent st)] else []
                      else [])).
    { destruct f; [reflexivity | apply BeginLn_run]. }
    rewrite (bind_Ok _ _ _ Eb).
    rewrite bind_Write, (bind_Ok _ _ _ Ec), bind_Write.
    rewrite (bind_Ok _ _ _ (EndLn_run st)).
    cbn [result final events].
    f_equal. rewrite <- !app_assoc. reflexivity. }
  assert (Ech : forall f,
             ArgsAsBool (Some (AddressOfLocal env area)) = ret f ->
             VisitElseStmnt env
               (mkElseStmnt area
                  (Stmnt_If (mkIfStmnt area' condition bodyStmnt elseStmnt)))
               st
             = mkOutcome (result (rest st)) (final (rest st))
                 ((if enableIndent (CurrentOptions st)
                   then [EvWrite (FullIndent st)] else [])
                  ++ EvWrite "else "
                  :: ((if negb f
                       then if enableIndent (CurrentOptions st)
                            then [EvWrite (FullIndent st)] else []
                       else [])
                      ++ [EvWrite "if ("]
                      ++ events (VisitOptional (VisitExpr env) condition st)
                      ++ [EvWrite ")"]
                      ++ (if enableNewLine (CurrentOptions st)
                          then [EvWrite newline] else []))
                  ++ events (rest st))%list).
  { intros f Hf.
    cbn [VisitElseStmnt Stmnt_Type Types_beq VisitStmnt VisitIfStmnt].
    rewrite (bind_Ok _ _ _ (BeginLn_run st)), bind_Write, Hf, bind_ret.
    fold rest. rewrite (E f). reflexivity. }
  split; [|split; [|split]].
  - intros H1. rewrite (Ech true (ArgsAsBool_true _ H1)).
    cbn [result final events negb]. split; [reflexivity|].
    split; [reflexivity|].
    repeat (progress (rewrite ?output_app; cbn [output])).
    unfold lineText, textOfOptional.
    destruct (enableIndent _), (enableNewLine _); cbn [output app];
      string_norm; reflexivity.
  - intros H0. rewrite (Ech false (ArgsAsBool_false _ H0)).
    cbn [result final events negb]. split; [reflexivity|].
    split; [reflexivity|].
    repeat (progress (rewrite ?output_app; cbn [output])).
    unfold lineText, textOfOptional.
    destruct (enableIndent _), (enableNewLine _); cbn [output app];
      string_norm; reflexivity.
  - intros H0 H1.
    cbn [VisitElseStmnt Stmnt_Type Types_beq VisitStmnt VisitIfStmnt].
    rewrite (bind_Ok _ _ _ (BeginLn_run st)), bind_Write.
    rewrite (ArgsAsBool_undefined _ H0 H1), bind_undefined. reflexivity.
  - cbn [VisitIfStmnt ArgsAsBool]. rewrite bind_ret. fold rest.
    rewrite (E false). cbn [result final events negb].
    split; [reflexivity|]. split; [reflexivity|].
    repeat (progress (rewrite ?output_app; cbn [output])).
    unfold lineText, textOfOptional.
    destruct (enableIndent _), (enableNewLine _); cbn [output app];
      string_norm; reflexivity.
Qed.

Lemma forEach_text {A} (f : A -> Gen unit) (l : list A) (st : GenState) :
  (forall x, final (f x st) = st) ->
  result (forEach f l st) = Ok tt ->
  output (events (forEach f l st)) =
    String.concat "" (map (fun x => output (events (f x st))) l) /\
  final (forEach f l st) = st.
Proof.
  intros Hf. induction l as [|x l IH]; cbn [forEach map].
  - intros _. split; reflexivity.
  - intros H. apply bind_Ok_inv in H as ([] & Hx & H & F & Ev).
    rewrite F, Ev, output_app, Hf in *. clear F Ev.
    destruct (IH H) as (O & F). rewrite F, O. split; [|reflexivity].
    destruct l; cbn [map String.concat];
      [now rewrite string_app_nil_r | reflexivity].
Qed.

Lemma final_VisitVarDecl (env : Env) (d : VarDecl) (st : GenState) :
  final (VisitVarDecl env d st) = st.
Proof.
  apply (@stateless_keeps _ (VisitVarDecl env d)). intros st0.
  apply keeps_VisitVarDecl; intros; exact I.
Qed.

(** X20.  A variable declaration statement whose type is not a structure
    declared in place.  The declarators for which code generation is
    disabled, and inside an interface block those that are system values,
    are left out; when none is left nothing at all is written.  Otherwise
    the statement is one line: [in ] or [out ] for a shader input or
    output, the keywords of the storage classes, [const ] for each such
    type modifier, the type, and the declarators that are left, separated
    by [, ] and closed by [;]. *)
Theorem variable_declaration_statement (env : Env) (area ta : SourcePosition)
    (isShaderInput isShaderOutput : bool) (inputModifier : string)
    (storageClasses : list StorageClass) (typeModifiers : list string)
    (typeDenoter : TypeDenoter) (varDecls : list VarDecl) (st : GenState) :
  let ast :=
    mkVarDeclStmnt area isShaderInput isShaderOutput inputModifier
      storageClasses typeModifiers (mkVarType ta None typeDenoter) varDecls in
  let kept := filter (generated st) varDecls in
  let o := VisitVarDeclStmnt env ast st in
  (kept = [] -> o = mkOutcome (Ok tt) st []) /\
  (kept <> [] -> result o = Ok tt ->
   output (events o) =
     lineText st
       ((if isShaderInput then "in "
         else if isShaderOutput then "out " else "")
        ++ String.concat ""
             (map (fun c => match StorageClassToGLSLKeyword env c with
                            | Some keyword => keyword ++ " "
                            | None => ""
                            end) storageClasses)
        ++ String.concat ""
             (map (fun m => if isConst m then m ++ " " else "")
                typeModifiers)
        ++ output (events (WriteTypeDenoter env typeDenoter (Some ta) st))
        ++ " "
        ++ String.concat ", "
             (map (fun d => output (events (VisitVarDecl env d st))) kept)
        ++ ";")).
Proof.
  cbv zeta. cbn [VisitVarDeclStmnt]. rewrite bind_getState.
  fold (generated st). destruct (filter (generated st) varDecls) as [|d ds].
  { split; [reflexivity | intros H; now contradiction H]. }
  split; [discriminate|]. intros _ H.
  set (kept := d :: ds) in *.
  rewrite (bind_Ok _ _ _ (BeginLn_run st)) in H |- *.
  cbn [result final events] in H |- *.
  (* in / out *)
  apply bind_Ok_inv in H as ([] & H1 & H & _ & Ev). rewrite Ev. clear Ev.
  set (inout := if isShaderInput then Write "in "
                else if isShaderOutput then Write "out " else ret tt) in *.
  assert (F1 : final (inout st) = st /\
               output (events (inout st)) =
               (if isShaderInput then "in "
                else if isShaderOutput then "out " else "")).
  { subst inout. destruct isShaderInput; [split; reflexivity|].
    destruct isShaderOutput; split; reflexivity. }
  destruct F1 as (F1 & O1). rewrite F1 in *.
  (* storage classes *)
  apply bind_Ok_inv in H as ([] & H2 & H & _ & Ev). rewrite Ev. clear Ev.
  match type of H2 with
  | result (forEach ?f _ _) = _ =>
      destruct (@forEach_text _ f storageClasses st) as (O2 & F2);
        [|exact H2|]
  end.
  { intros c. destruct (StorageClassToGLSLKeyword env c);
      [reflexivity | apply final_Error]. }
  rewrite F2 in *.
  (* type modifiers *)
  apply bind_Ok_inv in H as ([] & H3 & H & _ & Ev). rewrite Ev. clear Ev.
  unfold WriteTypeModifiers in *.
  match type of H3 with
  | result (forEach ?f _ _) = _ =>
      destruct (@forEach_text _ f typeModifiers st) as (O3 & F3);
        [|exact H3|]
  end.
  { intros m. destruct (isConst m); reflexivity. }
  rewrite F3 in *.
  (* the type *)
  apply bind_Ok_inv in H as ([] & H4 & H & _ & Ev). rewrite Ev. clear Ev.
  cbn [VisitVarType] in *.
  apply bind_Ok_inv in H4 as ([] & H4 & _ & F4 & Ev4). rewrite F4, Ev4 in *.
  clear F4 Ev4. rewrite final_WriteTypeDenoter in *.
  cbn [Write tell final events] in *.
  (* the declarators *)
  apply bind_Ok_inv in H as ([] & H5 & H & _ & Ev). rewrite Ev. clear Ev.
  destruct (@forEachSeparated_text _ (VisitVarDecl env) ", " kept st
              (fun x => final_VisitVarDecl env x st) H5) as (O5 & F5).
  rewrite F5 in *. rewrite bind_Write. cbn [events].
  rewrite (EndLn_run st). cbn [events].
  rewrite !output_app, O1, O2, O3, O5. cbn [output].
  assert (Es : map (fun x => output
                 (events (match StorageClassToGLSLKeyword env x with
                          | Some keyword => Write (keyword ++ " ")
                          | None =>
                              Error env
                                "not all storage classes or interpolation modifiers can be mapped to GLSL keyword"
                                (Some area)
                          end st))) storageClasses
               = map (fun c => match StorageClassToGLSLKeyword env c with
                               | Some keyword => keyword ++ " "
                               | None => ""
                               end) storageClasses).
  { apply map_ext. intros c. destruct (StorageClassToGLSLKeyword env c).
    - cbn. now rewrite string_app_nil_r.
    - apply output_Error. }
  assert (Em : map (fun x => output
                 (events ((if isConst x then Write (x ++ " ") else ret tt)
                            st))) typeModifiers
               = map (fun m => if isConst m then m ++ " " else "")
                   typeModifiers).
  { apply map_ext. intros m. destruct (isConst m); cbn;
      now rewrite ?string_app_nil_r. }
  rewrite Es, Em. unfold lineText.
  destruct (enableIndent _), (enableNewLine _); cbn [output app];
    string_norm; reflexivity.
Qed.

(** *** Registers, attributes, structures and scoped statements *)

Lemma registerAccessor_intro (env : Env) (prefix : ascii) :
  registerAccessor env
    (fun registerName ast =>
       ValidateRegisterPrefix env registerName prefix ast ;;
       substr1 registerName)
    prefix.
Proof.
  split; [|split].
  - intros rest ast st.
    rewrite (bind_Ok _ _ _ (register_prefix_accepted env rest prefix ast st)).
    reflexivity.
  - intros ast st a. apply bind_not_Ok. intros [] _ b. discriminate.
  - intros x rest ast st Hx.
    unfold bind.
    rewrite (@register_prefix_of_nonempty_name env x rest prefix ast st Hx).
    unfold diagnosed, Error. destruct (breakWithException env); cbn.
    + split; [right; reflexivity|]. split; [discriminate|].
      intros _ a. discriminate.
    + split; [left; left; reflexivity|]. split; [reflexivity|discriminate].
Qed.

(** X21.  The four register accessors.  A name that begins with the
    expected character gives the rest of the name, with no effect.  The
    empty name never gives a result: the validation throws its error, or
    [substr(1)] throws [std::out_of_range] after it.  A name that begins
    with another character produces the error "invalid register prefix",
    and, when errors are recorded, gives the rest of the name all the
    same. *)
Theorem register_accessors (env : Env) :
  registerAccessor env (BRegister env) "b" /\
  registerAccessor env (TRegister env) "t" /\
  registerAccessor env (SRegister env) "s" /\
  registerAccessor env (URegister env) "u".
Proof.
  split; [|split; [|split]]; exact (registerAccessor_intro env _).
Qed.

Lemma VisitExpr_Ok (env : Env) (e : Expr) (st : GenState) :
  result (VisitExpr env e st) = Ok tt ->
  VisitExpr env e st = mkOutcome (Ok tt) st (events (VisitExpr env e st)).
Proof. intros H. apply run_eta; [exact H | apply final_VisitExpr]. Qed.

(** X22.  The attributes of the entry point.  [numthreads(x, y, z)] is
    written as the line [layout(local_size_x = x, local_size_y = y,
    local_size_z = z) in;]; with another number of arguments it is an
    error and nothing is written.  [earlydepthstencil] is written as the
    line [layout(early_fragment_tests) in;].  Any other attribute is
    dropped without a diagnostic. *)
Theorem attribute_emission (env : Env) (ast : Attribute) (st : GenState) :
  let o := WriteAttribute env ast st in
  (Attribute_ident ast = "numthreads" ->
   (forall x y z,
      Attribute_arguments ast = [x; y; z] ->
      result (VisitExpr env x st) = Ok tt ->
      result (VisitExpr env y st) = Ok tt ->
      result (VisitExpr env z st) = Ok tt ->
      result o = Ok tt /\ final o = st /\
      output (events o) =
        lineText st
          ("layout(local_size_x = " ++ textOf env st x
           ++ ", local_size_y = " ++ textOf env st y
           ++ ", local_size_z = " ++ textOf env st z ++ ") in;")) /\
   (length (Attribute_arguments ast) <> 3%nat ->
    o = Error env
          ("invalid number of arguments for " ++ dquote ++ "numthreads"
           ++ dquote ++ " attribute")
          (Some (Attribute_area ast)) st)) /\
  (Attribute_ident ast = "earlydepthstencil" ->
   o = WriteLn "layout(early_fragment_tests) in;" st) /\
  (Attribute_ident ast <> "numthreads" ->
   Attribute_ident ast <> "earlydepthstencil" ->
   o = mkOutcome (Ok tt) st []).
Proof.
  cbv zeta. unfold WriteAttribute. split; [|split].
  - intros ->. cbn [String.eqb Ascii.eqb Bool.eqb]. split.
    + intros x y z Ha Hx Hy Hz. unfold WriteAttributeNumThreads. rewrite Ha.
      pose proof (VisitExpr_Ok env x st Hx) as Ex.
      pose proof (VisitExpr_Ok env y st Hy) as Ey.
      pose proof (VisitExpr_Ok env z st Hz) as Ez.
      rewrite (bind_Ok _ _ _ (BeginLn_run st)), bind_Write.
      rewrite (bind_Ok _ _ _ Ex), bind_Write.
      rewrite (bind_Ok _ _ _ Ey), bind_Write.
      rewrite (bind_Ok _ _ _ Ez), bind_Write.
      rewrite (EndLn_run st). cbn [result final events].
      repeat split. rewrite !output_app. cbn [output].
      rewrite !output_app. cbn [output]. rewrite !output_app. cbn [output].
      rewrite !output_app. unfold lineText, textOf.
      destruct (enableIndent _), (enableNewLine _); cbn [output app];
        string_norm; reflexivity.
    + intros Hl. unfold WriteAttributeNumThreads, ErrorInvalidNumArgs.
      destruct (Attribute_arguments ast) as [|a0 [|a1 [|a2 [|a3 l]]]];
        try reflexivity.
      now contradiction Hl.
  - intros ->. reflexivity.
  - intros H1 H2.
    destruct (String.eqb_spec (Attribute_ident ast) "numthreads") as [E|_];
      [contradiction|].
    destruct (String.eqb_spec (Attribute_ident ast) "earlydepthstencil")
      as [E|_]; [contradiction|].
    reflexivity.
Qed.

Lemma bind_ret_r (m : Gen unit) (st : GenState) :
  bind m (fun _ => ret tt) st = m st.
Proof.
  unfold bind. destruct (m st) as [[[]|e|] s t]; cbn; try reflexivity.
  now rewrite app_nil_r.
Qed.

Lemma bind_ext {A B} (m : Gen A) (f g : A -> Gen B) (st : GenState) :
  (forall a s, f a s = g a s) -> bind m f st = bind m g st.
Proof.
  intros H. unfold bind. destruct (result (m st)); try reflexivity.
  now rewrite H.
Qed.

Lemma forEach_app {A} (f : A -> Gen unit) (l1 l2 : list A) (st : GenState) :
  forEach f (l1 ++ l2) st = (forEach f l1 ;; forEach f l2) st.
Proof.
  revert st. induction l1 as [|x l1 IH]; intros st; cbn [forEach app].
  - now rewrite bind_ret.
  - rewrite bind_assoc. apply bind_ext. intros _ s. apply IH.
Qed.

Lemma forEachReverse_rev {A} (f : A -> Gen unit) (l : list A)
    (st : GenState) :
  forEachReverse f l st = forEach f (rev l) st.
Proof.
  revert st. induction l as [|x l IH]; intros st;
    cbn [forEachReverse rev forEach]; [reflexivity|].
  rewrite forEach_app. unfold bind. rewrite IH.
  destruct (result (forEach f (rev l) st)); try reflexivity.
  change (forEach f [x]) with (f x ;; ret tt). now rewrite bind_ret_r.
Qed.

(** X24.  The body of a loop or of a conditional.  A statement that is not
    a code block is written one level deeper than the header, and the
    generator is then back at the level of the header; a code block is
    written at the level of the header, so that its braces line up with
    it. *)
Theorem scoped_statement (env : Env) (s : Stmnt) (st : GenState) :
  let o := WriteScopedStmnt_ (fun s => VisitStmnt env s None) (Some s) st in
  let deeper :=
    VisitStmnt env s None (set_indentLevel (S (indentLevel st)) st) in
  (Stmnt_Type s = Types_CodeBlockStmnt -> o = VisitStmnt env s None st) /\
  (Stmnt_Type s <> Types_CodeBlockStmnt ->
   events o = events deeper /\
   (result deeper = Ok tt ->
    result o = Ok tt /\ indentLevel (final o) = indentLevel st)).
Proof.
  cbv zeta. unfold WriteScopedStmnt_. split.
  - intros ->. reflexivity.
  - intros Hn.
    assert (Hb : Types_beq (Stmnt_Type s) Types_CodeBlockStmnt = false).
    { destruct (Types_beq (Stmnt_Type s) Types_CodeBlockStmnt) eqn:E;
        [|reflexivity].
      apply internal_Types_dec_bl in E. contradiction. }
    rewrite Hb. cbn [negb]. unfold IncIndent, DecIndent.
    rewrite bind_modify.
    set (st1 := set_indentLevel (S (indentLevel st)) st).
    unfold bind. cbv zeta.
    destruct (result (VisitStmnt env s None st1)) as [[]|e|] eqn:R;
      cbn [result final events modify].
    + split; [now rewrite app_nil_r|]. intros _. split; [reflexivity|].
      destruct (proj1 (balanced_Stmnt env) s None st1 tt R) as (L & _).
      cbn. now rewrite L.
    + split; [reflexivity | discriminate].
    + split; [reflexivity | discriminate].
Qed.

(** *** Switches and loops *)

(** A line made of a text, what a computation that keeps the fields
    writes, and another text. *)
Lemma line_around (a b : string) (m : Gen unit) (st : GenState) :
  result (m st) = Ok tt -> final (m st) = st ->
  let o := (BeginLn ;; Write a ;; m ;; Write b ;; EndLn) st in
  result o = Ok tt /\ final o = st /\
  output (events o) = lineText st (a ++ output (events (m st)) ++ b).
Proof.
  cbv zeta. intros R F. pose proof (run_eta m R F) as E.
  rewrite (bind_Ok _ _ _ (BeginLn_run st)), bind_Write.
  rewrite (bind_Ok _ _ _ E), bind_Write, (EndLn_run st).
  cbn [result final events]. repeat split.
  repeat (progress (rewrite ?output_app; cbn [output])). unfold lineText.
  destruct (enableIndent _), (enableNewLine _); cbn [output app];
    string_norm; reflexivity.
Qed.

Lemma line_around_then {B} (a b : string) (m : Gen unit) (k : Gen B)
    (st : GenState) :
  result (m st) = Ok tt -> final (m st) = st ->
  let o := (BeginLn ;; Write a ;; m ;; Write b ;; EndLn ;; k) st in
  result o = result (k st) /\ final o = final (k st) /\
  output (events o) =
    lineText st (a ++ output (events (m st)) ++ b) ++ output (events (k st)).
Proof.
  cbv zeta. intros R F. pose proof (run_eta m R F) as E.
  rewrite (bind_Ok _ _ _ (BeginLn_run st)), bind_Write.
  rewrite (bind_Ok _ _ _ E), bind_Write, (bind_Ok _ _ _ (EndLn_run st)).
  cbn [result final events]. repeat split.
  repeat (progress (rewrite ?output_app; cbn [output])). unfold lineText.
  destruct (enableIndent _), (enableNewLine _); cbn [output app];
    string_norm; reflexivity.
Qed.

(** A scope around a computation that restores the indentation. *)
Lemma scope_around {A B} (m : Gen A) (semicolon : bool) (k : Gen B)
    (st : GenState) (a : A) :
  balanced m ->
  let st1 := set_indentLevel (S (indentLevel st)) st in
  let o := (OpenScope ;; m ;; CloseScope semicolon ;; k) st in
  result (m st1) = Ok a ->
  exists st2,
    indentLevel st2 = indentLevel st /\
    optionsStack st2 = optionsStack st /\
    indent_ st2 = indent_ st /\
    st2 = set_indentLevel (indentLevel st) (final (m st1)) /\
    result o = result (k st2) /\ final o = final (k st2) /\
    output (events o) =
      lineText st "{" ++ output (events (m st1))
      ++ lineText st (if semicolon then "};" else "}")
      ++ output (events (k st2)).
Proof.
  cbv zeta. intros Hb Hin.
  set (st1 := set_indentLevel (S (indentLevel st)) st) in *.
  destruct (Hb st1 a Hin) as (L & O & S).
  change (indentLevel st1) with (Datatypes.S (indentLevel st)) in L.
  change (optionsStack st1) with (optionsStack st) in O.
  change (indent_ st1) with (indent_ st) in S.
  exists (set_indentLevel (indentLevel st) (final (m st1))).
  split; [reflexivity|]. split; [exact O|]. split; [exact S|].
  split; [reflexivity|].
  rewrite (bind_Ok _ _ _ (OpenScope_run st)). fold st1.
  cbn [result final events].
  assert (E : m st1 = mkOutcome (Ok a) (final (m st1)) (events (m st1))).
  { rewrite (outcome_eta (m st1)) at 1. now rewrite Hin. }
  rewrite (bind_Ok _ _ _ E). cbn [result final events].
  rewrite (bind_Ok _ _ _ (CloseScope_run semicolon (final (m st1)))).
  cbn [result final events]. rewrite L. cbn [pred].
  split; [reflexivity|]. split; [reflexivity|].
  rewrite !output_app.
  destruct (WriteLn_run "{" st) as (_ & _ & O1 & _).
  destruct (WriteLn_run (if semicolon then "};" else "}")
              (set_indentLevel (indentLevel st) (final (m st1))))
    as (_ & _ & O2 & _).
  rewrite O1, O2. do 2 f_equal.
  rewrite (@lineText_frame st
             (set_indentLevel (indentLevel st) (final (m st1))));
    [reflexivity | reflexivity | exact O | exact S].
Qed.


(** X25.  A [switch] is written as the line [switch (selector)] and its
    cases between braces at the indentation of the [switch].  A case is
    the line [case expr:], or [default:], one level deeper than the
    [switch], and its statements one level deeper than that line; the
    generator is then back at the level of the line. *)
Theorem switch_emission (env : Env) (st : GenState) :
  (forall area selector cases a,
     let st1 := set_indentLevel (S (indentLevel st)) st in
     let inner := forEach (VisitSwitchCase env) cases st1 in
     let o := VisitSwitchStmnt env (mkSwitchStmnt area selector cases) st in
     result (VisitOptional (VisitExpr env) selector st) = Ok tt ->
     result inner = Ok a ->
     result o = Ok tt /\
     output (events o) =
       lineText st ("switch (" ++ textOfOptional env st selector ++ ")")
       ++ lineText st "{" ++ output (events inner) ++ lineText st "}" /\
     indentLevel (final o) = indentLevel st) /\
  (forall area expr stmnts a,
     let st1 := set_indentLevel (S (indentLevel st)) st in
     let body := forEach (fun s => VisitStmnt env s None) stmnts st1 in
     let o := VisitSwitchCase env (mkSwitchCase area expr stmnts) st in
     result (VisitOptional (VisitExpr env) expr st) = Ok tt ->
     result body = Ok a ->
     result o = Ok tt /\
     output (events o) =
       lineText st (caseLabel env st expr) ++ output (events body) /\
     indentLevel (final o) = indentLevel st).
Proof.
  split.
  - intros area selector cases a. cbv zeta. intros Hs Hin.
    cbn [VisitSwitchStmnt].
    destruct (@line_around_then unit "switch (" ")"
                (VisitOptional (VisitExpr env) selector)
                (OpenScope ;; forEach (VisitSwitchCase env) cases ;;
                 CloseScope false)
                st Hs (final_VisitOptional env selector st))
      as (R & F & O).
    rewrite R, F, O. clear R F O.
    assert (Hb : balanced (forEach (VisitSwitchCase env) cases)).
    { apply balanced_forEach. intros x _. apply balanced_Stmnt. }
    assert (E : forall s,
               (OpenScope ;; forEach (VisitSwitchCase env) cases ;;
                CloseScope false) s =
               (OpenScope ;; forEach (VisitSwitchCase env) cases ;;
                CloseScope false ;; ret tt) s).
    { intros s. apply bind_ext. intros _ s1. apply bind_ext. intros _ s2.
      symmetry. apply bind_ret_r. }
    rewrite E.
    destruct (@scope_around unit unit _ false (ret tt) st a Hb Hin)
      as (st2 & L & _ & _ & _ & R & F & O).
    rewrite R, F, O. cbn [ret result final events output].
    rewrite string_app_nil_r. unfold textOfOptional.
    split; [reflexivity|]. split; [reflexivity | exact L].
  - intros area expr stmnts a. cbv zeta. intros He Hin.
    cbn [VisitSwitchCase]. unfold IncIndent, DecIndent.
    set (body := forEach (fun s => VisitStmnt env s None) stmnts) in *.
    assert (Hb : balanced body).
    { apply balanced_forEach. intros x _. apply balanced_Stmnt. }
    destruct (Hb _ a Hin) as (L & _).
    assert (Hd : exists t,
               (match expr with
                | Some e =>
                    BeginLn ;; Write "case " ;; VisitExpr env e ;;
                    Write ":" ;; EndLn
                | None => WriteLn "default:"
                end) st = mkOutcome (Ok tt) st t /\
               output t = lineText st (caseLabel env st expr)).
    { destruct expr as [e|].
      - destruct (@line_around "case " ":" (VisitExpr env e) st He
                    (final_VisitExpr env e st)) as (R & F & O).
        eexists. split; [|exact O].
        rewrite (outcome_eta (_ st)) at 1. now rewrite R, F.
      - exists (events (WriteLn "default:" st)).
        split; [apply WriteLn_eq | apply WriteLn_run]. }
    destruct Hd as (t & Ed & Od).
    rewrite (bind_Ok _ _ _ Ed). cbn [result final events].
    rewrite bind_modify.
    set (st1 := set_indentLevel (S (indentLevel st)) st) in *.
    assert (E : body st1
                = mkOutcome (Ok a) (final (body st1)) (events (body st1))).
    { rewrite (outcome_eta (body st1)) at 1. now rewrite Hin. }
    rewrite (bind_Ok _ _ _ E). cbn [result final events modify].
    split; [reflexivity|]. split.
    + rewrite !output_app, Od. cbn [output]. now rewrite string_app_nil_r.
    + cbn. now rewrite L.
Qed.

Lemma config_WriteScopedStmnt (env : Env) (body : option Stmnt)
    (st : GenState) :
  config (final (WriteScopedStmnt_ (fun s => VisitStmnt env s None) body st))
  = config st.
Proof.
  refine (proj1 (@keeps_WriteScopedStmnt_ (fun x => config x = config st)
                   (fun _ => True) _ _ body _ st eq_refl)).
  - intros n s H. exact H.
  - intros s _. apply keeps_VisitStmnt;
      try (intros; exact I); try (intros ? ? H; exact H).
Qed.

(** X26.  A [while] loop is written as the line [while (condition)] and its
    body.  A [do] loop whose body returns is written as the line [do], the
    body, and the line [while (condition);] at the indentation of the
    [do]; the condition is written as it would be before the body. *)
Theorem while_loops (env : Env) (area : SourcePosition)
    (condition : option Expr) (bodyStmnt : option Stmnt) (st : GenState) :
  let body :=
    WriteScopedStmnt_ (fun s => VisitStmnt env s None) bodyStmnt st in
  let w :=
    VisitWhileLoopStmnt env (mkWhileLoopStmnt area condition bodyStmnt) st in
  let d :=
    VisitDoWhileLoopStmnt env (mkDoWhileLoopStmnt area bodyStmnt condition)
      st in
  result (VisitOptional (VisitExpr env) condition st) = Ok tt ->
  (result w = result body /\ final w = final body /\
   output (events w) =
     lineText st ("while (" ++ textOfOptional env st condition ++ ")")
     ++ output (events body)) /\
  (result body = Ok tt ->
   result d = Ok tt /\ final d = final body /\
   output (events d) =
     lineText st "do" ++ output (events body)
     ++ lineText st ("while (" ++ textOfOptional env st condition ++ ");")).
Proof.
  cbv zeta. intros Hc. split.
  - cbn [VisitWhileLoopStmnt].
    exact (@line_around_then unit "while (" ")"
             (VisitOptional (VisitExpr env) condition) _ st Hc
             (final_VisitOptional env condition st)).
  - intros Hb. cbn [VisitDoWhileLoopStmnt].
    set (body := WriteScopedStmnt_ (fun s => VisitStmnt env s None)
                   bodyStmnt) in *.
    rewrite (bind_Ok _ _ _ (WriteLn_eq "do" st)). cbn [result final events].
    assert (E : body st = mkOutcome (Ok tt) (final (body st))
                            (events (body st))).
    { rewrite (outcome_eta (body st)) at 1. now rewrite Hb. }
    rewrite (bind_Ok _ _ _ E). cbn [result final events].
    set (st2 := final (body st)).
    assert (Hbal : balanced body).
    { apply balanced_WriteScopedStmnt_. intros s _. apply balanced_Stmnt. }
    destruct (Hbal st tt Hb) as (L & O & S). fold st2 in L, O, S.
    assert (Hv : versionOut_ (config st2) = versionOut_ (config st)).
    { unfold st2, body. now rewrite config_WriteScopedStmnt. }
    destruct (VisitOptional_versionOnly env condition st2 st Hv)
      as (Rc & Ec & _).
    rewrite Hc in Rc.
    destruct (@line_around "while (" ");"
                (VisitOptional (VisitExpr env) condition) st2 Rc
                (final_VisitOptional env condition st2)) as (R & F & Ot).
    rewrite R, F. split; [reflexivity|]. split; [reflexivity|].
    rewrite !output_app, Ot, Ec.
    destruct (WriteLn_run "do" st) as (_ & _ & O1 & _). rewrite O1.
    do 2 f_equal. unfold textOfOptional.
    apply lineText_frame; assumption.
Qed.

(** *** Identifier chains *)

Lemma VarIdent_chain_ind (P : VarIdent -> Prop) :
  (forall a i idx s, P (mkVarIdent a i idx None s)) ->
  (forall a i idx n s, P n -> P (mkVarIdent a i idx (Some n) s)) ->
  forall v, P v.
Proof.
  intros H0 H1. fix IH 1. intros [a i idx [n|] s].
  - apply H1, IH.
  - apply H0.
Qed.

Lemma WriteArrayDims_text (env : Env) (dims : list Expr) (st : GenState) :
  result (WriteArrayDims (VisitExpr env) dims st) = Ok tt ->
  final (WriteArrayDims (VisitExpr env) dims st) = st /\
  output (events (WriteArrayDims (VisitExpr env) dims st)) =
    String.concat ""
      (map (fun dim => "[" ++ textOf env st dim ++ "]") dims).
Proof.
  unfold WriteArrayDims. induction dims as [|d l IH]; cbn [forEach map].
  - intros _. split; reflexivity.
  - intros H. apply bind_Ok_inv in H as ([] & H1 & H2 & F & E).
    rewrite F, E. clear F E. rewrite bind_Write in H1, H2 |- *.
    cbn [result final events] in H1, H2 |- *.
    apply bind_Ok_inv in H1 as ([] & Hd & _ & F & E).
    pose proof (VisitExpr_Ok env d st Hd) as Ed.
    rewrite (bind_Ok _ _ _ Ed) in H2 |- *. cbn [result final events] in *.
    destruct (IH H2) as (Fl & Ol). split; [exact Fl|].
    change (Write "]" st) with (mkOutcome (Ok tt) st [EvWrite "]"]).
    cbn [final events output]. rewrite !output_app, Ol. cbn [output].
    rewrite !output_app. cbn [output]. unfold textOf.
    destruct l; cbn [map String.concat]; string_norm; reflexivity.
Qed.

Lemma WriteVarIdent_first (env : Env) (a : SourcePosition) (i : string)
    (idx : list Expr) (n : option VarIdent) (s : option SymbolRef)
    (st : GenState) :
  result (WriteArrayDims (VisitExpr env) idx st) = Ok tt ->
  result (WriteVarIdent env (mkVarIdent a i idx n s) false st) = Ok tt /\
  output (events (WriteVarIdent env (mkVarIdent a i idx n s) false st)) =
    identSegment env st (mkVarIdent a i idx n s).
Proof.
  intros Hd. destruct (WriteArrayDims_text env idx st Hd) as (F & O).
  cbn [WriteVarIdent WriteVarIdent_]. rewrite bind_Write.
  rewrite (bind_Ok _ _ _ (run_eta _ Hd F)).
  assert (E : (match n with
               | Some n0 => if false then Write "." ;; WriteVarIdent env n0 true
                            else ret tt
               | None => ret tt
               end) st = mkOutcome (Ok tt) st []) by now destruct n.
  rewrite E. cbn [result final events output identSegment].
  rewrite app_nil_r, O. split; reflexivity.
Qed.

(** X27.  An identifier chain is written as its nodes separated by dots,
    each node as its final identifier (the identifier of the variable it
    refers to, when it refers to one) followed by its array indices, each
    between brackets.  Without recursion only the first node is
    written. *)
Theorem var_ident_chain (env : Env) (v : VarIdent) (st : GenState) :
  result (WriteVarIdent env v true st) = Ok tt ->
  output (events (WriteVarIdent env v true st)) =
    String.concat "." (map (identSegment env st) (identChain v)) /\
  result (WriteVarIdent env v false st) = Ok tt /\
  output (events (WriteVarIdent env v false st)) = identSegment env st v.
Proof.
  revert st.
  induction v as [a i idx s|a i idx n s IH] using VarIdent_chain_ind;
    intros st H.
  - assert (Hd : result (WriteArrayDims (VisitExpr env) idx st) = Ok tt).
    { cbn [WriteVarIdent WriteVarIdent_] in H. rewrite bind_Write in H.
      cbn [result] in H. now apply bind_Ok_inv in H as ([] & Hd & _). }
    split; [|exact (WriteVarIdent_first env a i idx None s st Hd)].
    destruct (WriteArrayDims_text env idx st Hd) as (F & O).
    cbn [WriteVarIdent WriteVarIdent_]. rewrite bind_Write.
    rewrite (bind_Ok _ _ _ (run_eta _ Hd F)).
    cbn [ret result final events output identChain map String.concat
         identSegment].
    now rewrite app_nil_r, O.
  - assert (Hd : result (WriteArrayDims (VisitExpr env) idx st) = Ok tt).
    { cbn [WriteVarIdent WriteVarIdent_] in H. rewrite bind_Write in H.
      cbn [result] in H. now apply bind_Ok_inv in H as ([] & Hd & _). }
    split; [|exact (WriteVarIdent_first env a i idx (Some n) s st Hd)].
    destruct (WriteArrayDims_text env idx st Hd) as (F & O).
    cbn [WriteVarIdent WriteVarIdent_] in H |- *. rewrite bind_Write in H |- *.
    rewrite (bind_Ok _ _ _ (run_eta _ Hd F)) in H |- *.
    rewrite bind_Write in H |- *. cbn [result final events output] in H |- *.
    destruct (IH st H) as (On & _).
    rewrite output_app, O. cbn [output]. rewrite On.
    assert (Hc : exists tl, identChain n = n :: tl)
      by (destruct n; eexists; reflexivity).
    destruct Hc as (tl & Hc).
    cbn [identChain map]. rewrite Hc.
    cbn [map String.concat identSegment]. string_norm. reflexivity.
Qed.

(** *** Global declarations *)

(** X28.  A function, a uniform buffer, a texture statement or a structure
    that is not reachable leaves nothing in the output: no text and no
    statistics, the fields are not touched, and the only diagnostic there
    can be is the warning of a function. *)
Theorem unreachable_declarations (env : Env) (s : Stmnt)
    (args : option Z) (st : GenState) :
  let o := VisitStmnt env s args st in
  unreachable s = true ->
  result o = Ok tt /\ final o = st /\
  output (events o) = "" /\ textures (events o) = [] /\
  (forall r, In r (reports (events o)) -> reportType r = Severity_Warning).
Proof.
  cbv zeta. destruct s; try discriminate; cbn [unreachable VisitStmnt].
  - destruct s as [area ident isReachable nonReturn isEntry rt ps cb x1 x2 x3 x4].
    cbn [FunctionDecl_isReachable VisitFunctionDecl]. intros ->.
    destruct nonReturn; cbn; repeat split; try contradiction.
    intros r [<-|[]]. reflexivity.
  - unfold VisitBufferDeclStmnt. intros ->. cbn. repeat split. contradiction.
  - unfold VisitTextureDeclStmnt. intros ->. cbn. repeat split. contradiction.
  - unfold VisitStructDeclStmnt. intros ->. cbn. repeat split. contradiction.
Qed.

(** X29.  A uniform buffer that is reachable is written as the line
    [layout(std140) uniform NAME], with [, binding = N] after [std140]
    when the buffer has a register for the target, then its members
    between braces, one level deeper, the closing brace followed by a
    semicolon, and a blank line.  The generator is then back at the
    indentation it started from. *)
Theorem buffer_declaration (env : Env) (ast : BufferDeclStmnt)
    (st : GenState) (a : unit) :
  let st1 := set_indentLevel (S (indentLevel st)) st in
  let members :=
    forEach (VisitVarDeclStmnt env) (BufferDeclStmnt_members ast) st1 in
  let o := VisitBufferDeclStmnt env ast st in
  BufferDeclStmnt_isReachable ast = true ->
  result members = Ok a ->
  result o = Ok tt /\
  output (events o) =
    (if allowLineMarks_ (config st)
     then lineText st
            ("#line " ++ to_string (Row (BufferDeclStmnt_area ast)))
     else "")
    ++ lineText st (bufferHeader env st ast)
    ++ lineText st "{" ++ output (events members) ++ lineText st "};"
    ++ lineText st "" /\
  indentLevel (final o) = indentLevel st.
Proof.
  cbv zeta. intros Hr Hm. unfold VisitBufferDeclStmnt. rewrite Hr.
  cbn [negb]. rewrite bind_getState.
  assert (Hl : exists t,
             Line_AST (BufferDeclStmnt_area ast) st = mkOutcome (Ok tt) st t /\
             output t =
               if allowLineMarks_ (config st)
               then lineText st
                      ("#line " ++ to_string (Row (BufferDeclStmnt_area ast)))
               else "").
  { unfold Line_AST, Line. rewrite bind_getState.
    destruct (allowLineMarks_ (config st)).
    - eexists. split; [apply WriteLn_eq | apply WriteLn_run].
    - exists []. split; reflexivity. }
  destruct Hl as (t & El & Ol).
  rewrite (bind_Ok _ _ _ El). cbn [result final events].
  rewrite (bind_Ok _ _ _ (BeginLn_run st)), bind_Write.
  assert (Hb : exists w,
             (match Register_GetForTarget env
                      (BufferDeclStmnt_slotRegisters ast)
                      (shaderTarget_ (config st)) with
              | Some slotRegister =>
                  Write (", binding = " ++ to_string (slot slotRegister))
              | None => ret tt
              end) st = mkOutcome (Ok tt) st w /\
             output w =
               match Register_GetForTarget env
                       (BufferDeclStmnt_slotRegisters ast)
                       (shaderTarget_ (config st)) with
               | Some slotRegister =>
                   ", binding = " ++ to_string (slot slotRegister)
               | None => ""
               end).
  { destruct (Register_GetForTarget env _ _).
    - eexists. split; [reflexivity|]. cbn. now rewrite string_app_nil_r.
    - exists []. split; reflexivity. }
  destruct Hb as (w & Eb & Ob).
  rewrite (bind_Ok _ _ _ Eb), !bind_Write, (bind_Ok _ _ _ (EndLn_run st)).
  cbn [result final events].
  assert (Hbal : balanced (forEach (VisitVarDeclStmnt env)
                             (BufferDeclStmnt_members ast))).
  { apply balanced_forEach. intros x _. apply balanced_Decl. }
  destruct (@scope_around unit unit _ true Blank st a Hbal Hm)
    as (st2 & L & O & S & _ & R & F & Os).
  rewrite R, F. unfold Blank in *.
  destruct (WriteLn_run "" st2) as (R2 & F2 & O2 & _).
  rewrite R2, F2. split; [reflexivity|]. split; [|exact L].
  repeat (progress (rewrite ?output_app; cbn [output])).
  rewrite Os, O2, Ol, Ob, (@lineText_frame st st2 "" L O S).
  unfold bufferHeader, lineText.
  destruct (enableIndent _), (enableNewLine _); cbn [output app];
    string_norm; reflexivity.
Qed.

(** *** Structure declarations *)

(** A structure declaration leaves the fields as they were, but for the
    flag of the interface block. *)
Lemma WriteStructDecl_final (env : Env) (s : StructDecl) (ws an : bool)
    (st : GenState) :
  result (WriteStructDecl env s ws an st) = Ok tt ->
  exists b : bool,
    final (WriteStructDecl env s ws an st) = set_isInsideInterfaceBlock b st.
Proof.
  intros R.
  destruct (proj2 (balanced_Decl env)) as (Hs & _).
  destruct (Hs s) as (_ & Hb & _). destruct (Hb ws an st tt R) as (L & O & S).
  assert (K : config (final (WriteStructDecl env s ws an st)) = config st /\
              program_ (final (WriteStructDecl env s ws an st)) = program_ st /\
              isInsideEntryPoint_ (final (WriteStructDecl env s ws an st))
              = isInsideEntryPoint_ st).
  { assert (Hk : forall s0 : StructDecl,
               keeps (fun x => config x = config st /\
                                program_ x = program_ st /\
                                isInsideEntryPoint_ x = isInsideEntryPoint_ st)
                 (fun _ => True) (WriteStructDecl env s0 ws an)).
    { intros s0.
      refine (proj1 (proj2 (proj1 (proj2
                (@keeps_Decl env _ (fun _ => True) _ _ _ _)) s0)) ws an);
        try (intros; exact I); try (intros ? ? H; exact H). }
    apply (Hk s st). auto. }
  destruct K as (C & Pg & E).
  exists (isInsideInterfaceBlock_ (final (WriteStructDecl env s ws an st))).
  destruct (final (WriteStructDecl env s ws an st)), st.
  cbn in *. subst. reflexivity.
Qed.

(** The declaration of a structure that is not an interface block. *)
Lemma WriteStructDecl_standard (env : Env) (a : SourcePosition)
    (i al : string) (r n : bool) (ms : list VarDeclStmnt)
    (ns : list StructDecl) (bs : option StructDecl) (ws an : bool)
    (st : GenState) :
  let s := mkStructDecl a i al r n false false ms ns bs in
  let st1 := set_indentLevel (S (indentLevel st)) st in
  negb n || an = true ->
  result (WriteStructDecl env s ws an st) = Ok tt ->
  result (WriteStructDeclMembers env s st1) = Ok tt /\
  output (events (WriteStructDecl env s ws an st)) =
    lineText st (structHeader s) ++ lineText st "{"
    ++ output (events (WriteStructDeclMembers env s st1))
    ++ lineText st (if ws then "};" else "}").
Proof.
  cbv zeta. intros Hn R.
  set (s := mkStructDecl a i al r n false false ms ns bs) in *.
  set (m := WriteStructDeclMembers env s).
  assert (E : WriteStructDecl env s ws an st =
              (BeginLn ;; Write "struct" ;;
               (if negb (empty i) then Write (" " ++ i) else ret tt) ;;
               EndLn ;; OpenScope ;; m ;; CloseScope ws ;; ret tt) st).
  { unfold WriteStructDecl, WriteStructDecl_, s. rewrite Hn. cbn [orb].
    fold s. fold m.
    repeat (apply bind_ext; intros ? ?). symmetry. apply bind_ret_r. }
  rewrite E in R |- *. clear E.
  rewrite (bind_Ok _ _ _ (BeginLn_run st)), bind_Write in R |- *.
  cbn [result final events] in R |- *.
  assert (H : forall k : Gen unit,
            ((if negb (empty i) then Write (" " ++ i) else ret tt) ;; k) st =
            mkOutcome (result (k st)) (final (k st))
              ((if negb (empty i) then [EvWrite (" " ++ i)] else [])
               ++ events (k st))).
  { intros k. destruct (negb (empty i)); [apply bind_Write|].
    rewrite bind_ret. apply outcome_eta. }
  rewrite H in R |- *. cbn [result final events] in R |- *.
  rewrite (bind_Ok _ _ _ (EndLn_run st)) in R |- *.
  cbn [result final events] in R |- *.
  assert (Rm : result (m (set_indentLevel (S (indentLevel st)) st)) = Ok tt).
  { rewrite (bind_Ok _ _ _ (OpenScope_run st)) in R.
    cbn [result] in R. apply bind_Ok_inv in R as ([] & Rm & _).
    exact Rm. }
  split; [exact Rm|].
  destruct (@scope_around _ _ m ws (ret tt) st tt
              (proj1 (proj1 (proj2 (balanced_Decl env)) s)) Rm)
    as (st2 & _ & _ & _ & _ & _ & _ & O).
  repeat (progress (rewrite ?output_app; cbn [output])).
  rewrite O. cbn [ret events output].
  unfold lineText, structHeader, s. cbn [StructDecl_ident].
  destruct (enableIndent _), (enableNewLine _), (empty i);
    cbn [output app negb]; string_norm; reflexivity.
Qed.

(** What is written for a structure that is not an interface block, from
    fields that are [st] but for the flag of the interface block. *)
Lemma WriteStructDecl_text (env : Env) (s : StructDecl) (ws : bool)
    (st : GenState) (b : bool) :
  let o := WriteStructDecl env s ws true (set_isInsideInterfaceBlock b st) in
  standardStruct s = true ->
  result o = Ok tt ->
  structText env st s ws (output (events o)) /\
  exists b', final o = set_isInsideInterfaceBlock b' st.
Proof.
  cbv zeta. intros Hs R. split.
  - destruct s as [a i al r n si so ms ns bs]. cbn [standardStruct] in Hs.
    apply negb_true_iff in Hs. apply orb_false_iff in Hs as (-> & ->).
    destruct (@WriteStructDecl_standard env a i al r n ms ns bs ws true
                (set_isInsideInterfaceBlock b st) (orb_true_r _) R)
      as (Rm & O).
    exists b. cbv zeta. split; [exact Rm|]. rewrite O. reflexivity.
  - destruct (WriteStructDecl_final env s ws true _ R) as (b' & F).
    exists b'. rewrite F. reflexivity.
Qed.

(** The structures of a list, each one with its semicolon and followed by
    a blank line. *)
Lemma nested_structures_text (env : Env) (st : GenState)
    (l : list StructDecl) :
  forall b : bool,
    let o := forEach (fun nested => WriteStructDecl env nested true true ;;
                                    Blank) l
               (set_isInsideInterfaceBlock b st) in
    forallb standardStruct l = true ->
    result o = Ok tt ->
    exists (texts : list string) (b' : bool),
      Forall2 (fun s text => structText env st s true text) l texts /\
      output (events o) =
        String.concat "" (map (fun text => text ++ lineText st "") texts) /\
      final o = set_isInsideInterfaceBlock b' st.
Proof.
  induction l as [|s l IH]; intros b; cbv zeta; intros Hs R.
  - exists [], b. repeat split. constructor.
  - cbn [forallb] in Hs. apply andb_true_iff in Hs as (Hs & Hl).
    cbn [forEach] in R |- *. rewrite bind_assoc in R |- *.
    pose proof R as R0.
    apply bind_Ok_inv in R0 as ([] & R1 & _).
    destruct (@WriteStructDecl_text env s true st b Hs R1)
      as (T & b1 & F1).
    assert (E1 : WriteStructDecl env s true true
                   (set_isInsideInterfaceBlock b st) =
                 mkOutcome (Ok tt) (set_isInsideInterfaceBlock b1 st)
                   (events (WriteStructDecl env s true true
                              (set_isInsideInterfaceBlock b st)))).
    { rewrite (outcome_eta (WriteStructDecl env s true true _)) at 1.
      now rewrite R1, F1. }
    rewrite (bind_Ok _ _ _ E1) in R |- *. cbn [result final events] in R |- *.
    assert (EB : Blank (set_isInsideInterfaceBlock b1 st) =
                 mkOutcome (Ok tt) (set_isInsideInterfaceBlock b1 st)
                   (events (WriteLn "" (set_isInsideInterfaceBlock b1 st))))
      by apply WriteLn_eq.
    rewrite (bind_Ok _ _ _ EB) in R |- *.
    cbn [result final events] in R |- *.
    destruct (IH b1 Hl R) as (texts & b' & HT & O & F).
    exists (output (events (WriteStructDecl env s true true
                              (set_isInsideInterfaceBlock b st))) :: texts),
      b'.
    split; [constructor; assumption|]. split; [|exact F].
    rewrite !output_app, O.
    destruct (WriteLn_run "" (set_isInsideInterfaceBlock b1 st))
      as (_ & _ & W & _).
    rewrite W. cbn [map].
    change (lineText (set_isInsideInterfaceBlock b1 st) "")
      with (lineText st "").
    destruct texts as [|t ts]; cbn [String.concat map];
      string_norm; reflexivity.
Qed.

Lemma ArgsAsBool_flagRead (args : option Z) (b : bool) :
  flagRead args b -> ArgsAsBool args = ret b.
Proof.
  destruct args as [address|]; cbn [flagRead].
  - destruct b; [apply ArgsAsBool_true | apply ArgsAsBool_false].
  - intros ->. reflexivity.
Qed.

Lemma forallb_reverse {A} (f : A -> bool) (l : list A) :
  forallb f (rev l) = forallb f l.
Proof.
  induction l as [|x l IH]; [reflexivity|]. cbn [rev forallb].
  rewrite forallb_app, IH. cbn [forallb]. rewrite andb_true_r.
  apply andb_comm.
Qed.

(** X23.  A structure that need not be resolved and is not an interface
    block.  When it is not nested, the structures nested in it are written
    first, in the reverse of their order in [nestedStructDeclRefs]; each of
    them is written as its header line [struct NAME], the line [{], its
    members one level deeper and the line [};], with its semicolon, and is
    followed by a blank line.  The structure itself comes last, written
    the same way, and its closing line has a semicolon when the flag read
    from the argument of the visitor is set.  A nested structure visited
    by itself is written as its name and a space, without a line feed,
    when the flag is not set, and not at all when the flag is set.  The
    flag is the low byte of the pointer that is passed: a byte other than
    0 and 1 is an undefined read. *)
Theorem nested_structures_order (env : Env) (area : SourcePosition)
    (ident aliasName : string) (isReachable isNestedStruct : bool)
    (members : list VarDeclStmnt) (nestedStructDeclRefs : list StructDecl)
    (baseStructRef : option StructDecl) (args : option Z)
    (st : GenState) :
  let ast :=
    mkStructDecl area ident aliasName isReachable isNestedStruct false
      false members nestedStructDeclRefs baseStructRef in
  let o := VisitStructDecl env ast args st in
  MustResolveStructForTarget env (shaderTarget_ (config st)) ast = false ->
  (forall semicolon : bool,
     flagRead args semicolon ->
     (isNestedStruct = false ->
      forallb standardStruct nestedStructDeclRefs = true ->
      result o = Ok tt ->
      exists (texts : list string) (text : string),
        Forall2 (fun s t => structText env st s true t)
          (rev nestedStructDeclRefs) texts /\
        structText env st ast semicolon text /\
        output (events o) =
          String.concat "" (map (fun t => t ++ lineText st "") texts)
          ++ text) /\
     (isNestedStruct = true ->
      result o = Ok tt /\
      output (events o) =
        if semicolon then ""
        else (if enableIndent (CurrentOptions st) then FullIndent st else "")
             ++ ident ++ " ")) /\
  (forall address : Z,
     args = Some address ->
     Z.land address 255 <> 0 -> Z.land address 255 <> 1 ->
     result o = Undefined).
Proof.
  cbv zeta. intros Hm.
  set (ast := mkStructDecl area ident aliasName isReachable isNestedStruct
                false false members nestedStructDeclRefs baseStructRef) in *.
  assert (E : VisitStructDecl env ast args st =
              (semicolon <- ArgsAsBool args ;;
               (if negb isNestedStruct
                then forEach (fun nested =>
                                WriteStructDecl env nested true true ;; Blank)
                       (rev nestedStructDeclRefs)
                else ret tt) ;;
               WriteStructDecl env ast semicolon false) st).
  { unfold VisitStructDecl, VisitStructDecl_, MustResolveStruct.
    rewrite bind_assoc, bind_getState, bind_ret, Hm. cbn [negb].
    unfold ast at 1.
    apply bind_ext. intros semicolon s.
    destruct isNestedStruct; cbn [negb]; [reflexivity|].
    unfold bind at 1 3. rewrite forEachReverse_rev. reflexivity. }
  rewrite E. clear E. split.
  - intros semicolon Hf. rewrite (ArgsAsBool_flagRead _ _ Hf), bind_ret.
    split.
    + intros -> Hs R. cbn [negb] in R |- *.
      pose proof R as R0. apply bind_Ok_inv in R0 as ([] & R1 & R2 & _ & Ev).
      pose proof (@nested_structures_text env st (rev nestedStructDeclRefs)
                    (isInsideInterfaceBlock_ st)) as H.
      replace (set_isInsideInterfaceBlock (isInsideInterfaceBlock_ st) st)
        with st in H by (destruct st; reflexivity).
      cbv zeta in H. rewrite forallb_reverse in H.
      destruct (H Hs R1) as (texts & b' & HT & O & F). clear H.
      rewrite F in R2, Ev.
      destruct (@WriteStructDecl_standard env area ident aliasName
                  isReachable false members nestedStructDeclRefs
                  baseStructRef semicolon false
                  (set_isInsideInterfaceBlock b' st) eq_refl R2)
        as (Rm & Om).
      exists texts,
        (output (events (WriteStructDecl env ast semicolon false
                           (set_isInsideInterfaceBlock b' st)))).
      split; [exact HT|]. split.
      * exists b'. cbv zeta. split; [exact Rm|]. unfold ast. rewrite Om.
        reflexivity.
      * rewrite Ev, output_app, O. reflexivity.
    + intros ->. cbn [negb]. rewrite bind_ret.
      unfold WriteStructDecl, WriteStructDecl_, ast. cbn [negb orb].
      destruct semicolon; cbn [negb]; [split; reflexivity|].
      rewrite (bind_Ok _ _ _ (BeginLn_run st)).
      cbn [result final events Write tell]. split; [reflexivity|].
      rewrite output_app.
      destruct (enableIndent (CurrentOptions st)); cbn [output];
        string_norm; reflexivity.
  - intros address -> H0 H1.
    rewrite (ArgsAsBool_undefined _ H0 H1), bind_undefined. reflexivity.
Qed.

(** *** The header of a [for] loop *)




(** *** Return statements in the entry point *)

Lemma GetEntryPoint_run (st : GenState) (entry : FunctionDecl) :
  entryPointRef (program_ st) = Some entry ->
  GetEntryPoint st = mkOutcome (Ok entry) st [].
Proof.
  intros H. unfold GetEntryPoint, GetProgram.
  rewrite bind_assoc, bind_getState, bind_ret, H. reflexivity.
Qed.

(** The assignments of the system-value output variables. *)
Lemma output_variables_run (env : Env) (refs : list VarDeclRef)
    (st : GenState) :
  let m :=
    forEach
      (fun ref =>
         let v := varDecl ref in
         if IsValid (VarDecl_semantic v) then
           match SemanticToGLSLKeyword env (VarDecl_semantic v) with
           | Some semanticKeyword =>
               BeginLn ;;
               Write (semanticKeyword ++ " = " ++ VarDecl_ident v ++ ";") ;;
               EndLn
           | None => ret tt
           end
         else ret tt)
      refs in
  m st = mkOutcome (Ok tt) st (events (m st)) /\
  reports (events (m st)) = [] /\ textures (events (m st)) = [] /\
  output (events (m st)) =
    String.concat "" (map (outputVariableAssignment env st) refs).
Proof.
  cbv zeta. induction refs as [|ref l IH]; cbn [forEach map].
  - repeat split.
  - destruct IH as (E & D & T & O).
    set (f := fun ref : VarDeclRef => _) in *.
    assert (Ef : exists t, f ref st = mkOutcome (Ok tt) st t /\
                           reports t = [] /\ textures t = [] /\
                           output t = outputVariableAssignment env st ref).
    { subst f. unfold outputVariableAssignment. cbv beta zeta.
      destruct (IsValid _); [|exists []; repeat split].
      destruct (SemanticToGLSLKeyword env _) as [k|];
        [|exists []; repeat split].
      fold (WriteLn (k ++ " = " ++ VarDecl_ident (varDecl ref) ++ ";")).
      exists (events (WriteLn (k ++ " = " ++ VarDecl_ident (varDecl ref)
                               ++ ";") st)).
      destruct (WriteLn_run (k ++ " = " ++ VarDecl_ident (varDecl ref)
                             ++ ";") st) as (_ & _ & O1 & D1 & T1).
      split; [apply WriteLn_eq|]. auto. }
    destruct Ef as (t & Ef & Df & Tf & Of).
    rewrite (bind_Ok _ _ _ Ef). rewrite E at 1 2. cbn [result final events].
    split; [reflexivity|].
    rewrite reports_app, textures_app, output_app, D, T, O, Df, Tf, Of.
    repeat split.
    destruct l; cbn [map String.concat]; string_norm; reflexivity.
Qed.

Lemma Error_run (env : Env) (msg : string) (ast : option SourcePosition)
    (st : GenState) :
  let r := {| reportType := Severity_Error; message := msg;
              position := ast |} in
  diagnosed r (Error env msg ast st) /\
  final (Error env msg ast st) = st /\
  output (events (Error env msg ast st)) = "" /\
  (breakWithException env = false ->
   Error env msg ast st = mkOutcome (Ok tt) st [EvReport r]) /\
  (breakWithException env = true ->
   Error env msg ast st = mkOutcome (Throw (Exn_Report r)) st []).
Proof.
  cbv zeta. unfold Error, diagnosed.
  destruct (breakWithException env); cbn; repeat split;
    try discriminate; auto.
Qed.

(** What follows a computation in a sequence, when the computation
    returns with the fields unchanged. *)
Lemma then_tail (m k : Gen unit) (st : GenState) :
  result (m st) = Ok tt -> final (m st) = st ->
  result ((m ;; k) st) = result (k st) /\
  final ((m ;; k) st) = final (k st) /\
  events ((m ;; k) st) = (events (m st) ++ events (k st))%list.
Proof.
  intros R F. rewrite (bind_Ok _ _ _ (run_eta m R F)). auto.
Qed.

(** C8.  A return statement visited inside the entry point writes the
    assignments of the output semantics, then the line [return;] unless
    the statement is flagged [isEndOfFunction].  The assignments are:
    when the entry point has system-value output variables, one line
    [KEYWORD = IDENT;] for each of them whose semantic is valid and has a
    keyword, in their order, with the identifier of the variable, and the
    returned expression is not written; otherwise, when the semantic of
    the entry point is a system value and the statement has an
    expression, the line [KEYWORD = EXPR;] with the returned expression,
    or the error that the semantic has no keyword; otherwise none, and
    for a target other than a compute shader the error "missing output
    semantic". *)
Theorem return_in_entry_point (env : Env) (r : ReturnStmnt)
    (args : option Z) (st : GenState) (entry : FunctionDecl) :
  let refs := varDeclRefsSV (FunctionDecl_outputSemantics entry) in
  let semantic := FunctionDecl_semantic entry in
  let o := VisitStmnt env (Stmnt_Return r) args st in
  let line := if isEndOfFunction r then "" else lineText st "return;" in
  isInsideEntryPoint_ st = true ->
  entryPointRef (program_ st) = Some entry ->
  (refs <> [] ->
   result o = Ok tt /\ final o = st /\ reports (events o) = [] /\
   output (events o) =
     String.concat "" (map (outputVariableAssignment env st) refs) ++ line) /\
  (refs = [] -> IsSystemValue semantic = true ->
   forall e, ReturnStmnt_expr r = Some e ->
     (forall keyword,
        SemanticToGLSLKeyword env semantic = Some keyword ->
        result (VisitExpr env e st) = Ok tt ->
        result o = Ok tt /\ final o = st /\
        output (events o) =
          lineText st (keyword ++ " = " ++ textOf env st e ++ ";") ++ line) /\
     (SemanticToGLSLKeyword env semantic = None ->
      diagnosed {| reportType := Severity_Error;
                   message := "failed to map output semantic to GLSL keyword";
                   position := Some (FunctionDecl_area entry) |} o /\
      (breakWithException env = false ->
       result o = Ok tt /\ output (events o) = line) /\
      (breakWithException env = true -> output (events o) = ""))) /\
  (refs = [] ->
   IsSystemValue semantic = false \/ ReturnStmnt_expr r = None ->
   (shaderTarget_ (config st) = ComputeShader ->
    result o = Ok tt /\ final o = st /\ reports (events o) = [] /\
    output (events o) = line) /\
   (shaderTarget_ (config st) <> ComputeShader ->
    diagnosed {| reportType := Severity_Error;
                 message := "missing output semantic";
                 position := option_map Expr_area (ReturnStmnt_expr r) |} o /\
    (breakWithException env = false ->
     result o = Ok tt /\ output (events o) = line) /\
    (breakWithException env = true -> output (events o) = ""))).
Proof.
  cbv zeta. intros Hin He.
  set (tail := if negb (isEndOfFunction r) then WriteLn "return;"
               else ret tt).
  assert (Et : tail st = mkOutcome (Ok tt) st (events (tail st)) /\
               reports (events (tail st)) = [] /\
               output (events (tail st)) =
                 if isEndOfFunction r then "" else lineText st "return;").
  { subst tail. destruct (isEndOfFunction r); cbn [negb].
    - repeat split.
    - destruct (WriteLn_run "return;" st) as (_ & _ & O & D & _).
      split; [apply WriteLn_eq | auto]. }
  destruct Et as (Et & Dt & Ot).
  assert (E : forall refs,
             refs = varDeclRefsSV (FunctionDecl_outputSemantics entry) ->
             VisitStmnt env (Stmnt_Return r) args st =
             ((match refs with
               | _ :: _ =>
                   forEach
                     (fun ref =>
                        let v := varDecl ref in
                        if IsValid (VarDecl_semantic v) then
                          match SemanticToGLSLKeyword env
                                  (VarDecl_semantic v) with
                          | Some semanticKeyword =>
                              BeginLn ;;
                              Write (semanticKeyword ++ " = "
                                     ++ VarDecl_ident v ++ ";") ;;
                              EndLn
                          | None => ret tt
                          end
                        else ret tt)
                     refs
               | [] =>
                   match (if IsSystemValue (FunctionDecl_semantic entry)
                          then ReturnStmnt_expr r else None) with
                   | Some e =>
                       match SemanticToGLSLKeyword env
                               (FunctionDecl_semantic entry) with
                       | Some semanticKeyword =>
                           BeginLn ;;
                           Write semanticKeyword ;;
                           Write " = " ;;
                           VisitExpr env e ;;
                           Write ";" ;;
                           EndLn
                       | None =>
                           Error env
                             "failed to map output semantic to GLSL keyword"
                             (Some (FunctionDecl_area entry))
                       end
                   | None =>
                       if negb (ShaderTarget_eqb (shaderTarget_ (config st))
                                  ComputeShader)
                       then Error env "missing output semantic"
                              (option_map Expr_area (ReturnStmnt_expr r))
                       else ret tt
                   end
               end) ;; tail) st).
  { intros refs ->. cbn [VisitStmnt]. unfold VisitReturnStmnt.
    rewrite bind_getState, Hin. unfold WriteOutputSemanticsAssignment.
    rewrite !bind_assoc, (bind_Ok _ _ _ (GetEntryPoint_run st He)).
    cbn [result final events app]. rewrite bind_assoc, bind_getState.
    now destruct (bind _ _ st). }
  assert (Herr : forall msg ast,
             let o := (Error env msg ast ;; tail) st in
             diagnosed {| reportType := Severity_Error; message := msg;
                          position := ast |} o /\
             (breakWithException env = false ->
              result o = Ok tt /\
              output (events o) =
                if isEndOfFunction r then "" else lineText st "return;") /\
             (breakWithException env = true -> output (events o) = "")).
  { intros msg ast. cbv zeta.
    destruct (Error_run env msg ast st) as (_ & _ & _ & E0 & E1).
    destruct (breakWithException env).
    - unfold bind. rewrite (E1 eq_refl). unfold diagnosed. cbn.
      split; [right; reflexivity|]. split; [discriminate | reflexivity].
    - rewrite (bind_Ok _ _ _ (E0 eq_refl)), Et. unfold diagnosed.
      cbn [result final events reports app].
      split; [left; left; reflexivity|]. split; [|discriminate].
      intros _. split; [reflexivity | exact Ot]. }
  split; [|split].
  - intros Hr. rewrite (E _ eq_refl).
    destruct (varDeclRefsSV (FunctionDecl_outputSemantics entry))
      as [|x l] eqn:Er; [now contradiction Hr|].
    destruct (output_variables_run env (x :: l) st) as (Ev & D & _ & O).
    cbv zeta in Ev, D, O |- *.
    rewrite (bind_Ok _ _ _ Ev), Et. cbn [result final events].
    split; [reflexivity|]. split; [reflexivity|].
    rewrite reports_app, output_app, D, Dt, O, Ot. split; reflexivity.
  - intros Hr Hs e Hx. rewrite (E _ eq_refl), Hr, Hs, Hx. split.
    + intros keyword Hk Hv. rewrite Hk.
      assert (El : (BeginLn ;; Write keyword ;; Write " = " ;;
                    VisitExpr env e ;; Write ";" ;; EndLn) st
                   = mkOutcome (Ok tt) st
                       ((if enableIndent (CurrentOptions st)
                         then [EvWrite (FullIndent st)] else [])
                        ++ EvWrite keyword :: EvWrite " = "
                        :: events (VisitExpr env e st)
                        ++ EvWrite ";"
                        :: (if enableNewLine (CurrentOptions st)
                            then [EvWrite newline] else []))%list).
      { rewrite (bind_Ok _ _ _ (BeginLn_run st)), !bind_Write.
        rewrite (bind_Ok _ _ _ (VisitExpr_Ok env e st Hv)), bind_Write.
        rewrite (EndLn_run st). reflexivity. }
      rewrite (bind_Ok _ _ _ El), Et. cbn [result final events].
      split; [reflexivity|]. split; [reflexivity|].
      repeat (progress (rewrite ?output_app; cbn [output])).
      rewrite Ot. unfold lineText, textOf.
      destruct (enableIndent _), (enableNewLine _); cbn [output app];
        string_norm; reflexivity.
    + intros Hk. rewrite Hk. apply Herr.
  - intros Hr Hc. rewrite (E _ eq_refl), Hr.
    assert (Hn : (if IsSystemValue (FunctionDecl_semantic entry)
                  then ReturnStmnt_expr r else None) = None).
    { destruct Hc as [-> | ->]; [reflexivity|].
      now destruct (IsSystemValue _). }
    rewrite Hn. split.
    + intros Ht. rewrite Ht. cbn [ShaderTarget_eqb negb].
      rewrite bind_ret, Et. cbn [result final events]. auto.
    + intros Ht.
      assert (Hb : ShaderTarget_eqb (shaderTarget_ (config st)) ComputeShader
                   = false).
      { destruct (shaderTarget_ (config st)); try reflexivity.
        now contradiction Ht. }
      rewrite Hb. cbn [negb]. apply Herr.
Qed.

(* ===================================================================== *)
(** ** The properties on concrete inputs *)
(* ===================================================================== *)

(** [mul(M, p + v)] is written [(M * (p + v))]. *)
Lemma mul_emission_witness :
  VisitExpr (Demo.glsl true) (Demo.lit "M") Demo.state_compute =
    mkOutcome (Ok tt) Demo.state_compute [EvWrite "M"] /\
  VisitExpr (Demo.glsl true)
    (BinaryExpr (Demo.at_row 1) (Demo.lit "p") Add (Demo.lit "v"))
    Demo.state_compute =
    mkOutcome (Ok tt) Demo.state_compute
      [EvWrite "p"; EvWrite " + "; EvWrite "v"] /\
  exists A' B' : string,
    result (VisitFunctionCall (Demo.glsl true) Demo.call_mul
              Demo.state_compute) = Ok tt /\
    final (VisitFunctionCall (Demo.glsl true) Demo.call_mul
             Demo.state_compute) = Demo.state_compute /\
    output (events (VisitFunctionCall (Demo.glsl true) Demo.call_mul
                      Demo.state_compute)) = "(" ++ A' ++ " * " ++ B' ++ ")" /\
    reports (events (VisitFunctionCall (Demo.glsl true) Demo.call_mul
                       Demo.state_compute)) = [] /\
    (isOperatorExpr (Demo.lit "M") -> A' = "(" ++ "M" ++ ")") /\
    (~ isOperatorExpr (Demo.lit "M") -> A' = "M") /\
    (isOperatorExpr
       (BinaryExpr (Demo.at_row 1) (Demo.lit "p") Add (Demo.lit "v")) ->
     B' = "(" ++ "p + v" ++ ")") /\
    (~ isOperatorExpr
         (BinaryExpr (Demo.at_row 1) (Demo.lit "p") Add (Demo.lit "v")) ->
     B' = "p + v").
Proof.
  split; [reflexivity|]. split; [reflexivity|].
  exact (@mul_emission (Demo.glsl true) (Demo.at_row 1) None None
           (Demo.lit "M")
           (BinaryExpr (Demo.at_row 1) (Demo.lit "p") Add (Demo.lit "v"))
           Demo.state_compute Demo.state_compute Demo.state_compute
           [EvWrite "M"] [EvWrite "p"; EvWrite " + "; EvWrite "v"]
           eq_refl eq_refl).
Defined.

(** A run on the empty compute shader succeeds. *)
Lemma run_compute_successful (time : string) :
  successful (GenerateCodePrimary (Demo.glsl true) time Demo.program_empty
                Demo.computeInput Demo.glsl330 Demo.state_compute).
Proof.
  pose proof (GenerateCodePrimary_any_time (Demo.glsl true)
    Demo.program_empty Demo.computeInput Demo.glsl330 Demo.state_compute
    time "") as (R & _ & D & _).
  cbv zeta in R, D. split.
  - exists tt. rewrite R. reflexivity.
  - intros r Hin. rewrite D in Hin. vm_compute in Hin. destruct Hin.
Qed.

(** The first line of the output that is not a comment is the version
    line, on the empty compute shader. *)
Lemma version_line_first_witness :
  successful (GenerateCodePrimary (Demo.glsl true) "2016-11-02 10:00:00"
                Demo.program_empty Demo.computeInput Demo.glsl330
                Demo.state_compute) /\
  atFirstColumn Demo.state_compute /\
  noNewline (TargetToString (Demo.glsl true)
               (shaderTarget Demo.computeInput)) = true /\
  noNewline (entryPoint Demo.computeInput) = true /\
  noNewline "2016-11-02 10:00:00" = true /\
  firstCodeLine
    (output (events (GenerateCodePrimary (Demo.glsl true)
                       "2016-11-02 10:00:00" Demo.program_empty
                       Demo.computeInput Demo.glsl330 Demo.state_compute))) =
    Some "#version 330".
Proof.
  split; [apply run_compute_successful|].
  split; [split; reflexivity|].
  split; [reflexivity|]. split; [reflexivity|]. split; [reflexivity|].
  apply (@version_line_first (Demo.glsl true) "2016-11-02 10:00:00"
           Demo.program_empty Demo.computeInput Demo.glsl330
           Demo.state_compute);
    [apply run_compute_successful | split; reflexivity | reflexivity
    | reflexivity | reflexivity].
Defined.

(** The first line of that output that is not blank is a comment, not the
    version line. *)
Lemma version_line_not_first :
  ~ (successful (GenerateCodePrimary (Demo.glsl true) "2016-11-02 10:00:00"
                   Demo.program_empty Demo.computeInput Demo.glsl330
                   Demo.state_compute) ->
     firstNonBlankLine
       (output (events (GenerateCodePrimary (Demo.glsl true)
                          "2016-11-02 10:00:00" Demo.program_empty
                          Demo.computeInput Demo.glsl330
                          Demo.state_compute))) =
     Some ("#version " ++ to_string (shaderVersion Demo.glsl330))).
Proof.
  intros H. specialize (H (run_compute_successful _)).
  vm_compute in H. discriminate H.
Qed.



(** A function that is not referenced and has a path that does not return:
    a warning, and the function is not written; when it is referenced: an
    error. *)
Lemma non_return_control_path_witness :
  FunctionDecl_hasNonReturnControlPath Demo.f_unreferenced = true /\
  FunctionDecl_isReachable Demo.f_unreferenced = false /\
  VisitStmnt (Demo.glsl true) (Stmnt_FunctionDecl Demo.f_unreferenced) None
    Demo.state_compute =
  mkOutcome (Ok tt) Demo.state_compute
    [EvReport {| reportType := Severity_Warning;
                 message := "not all control paths in unreferenced function 'f' return a value";
                 position := Some (Demo.at_row 5) |}] /\
  FunctionDecl_hasNonReturnControlPath Demo.f_referenced = true /\
  FunctionDecl_isReachable Demo.f_referenced = true /\
  diagnosed {| reportType := Severity_Error;
               message := "not all control paths in function 'f' return a value";
               position := Some (Demo.at_row 5) |}
    (VisitStmnt (Demo.glsl false) (Stmnt_FunctionDecl Demo.f_referenced) None
       Demo.state_compute).
Proof.
  split; [reflexivity|]. split; [reflexivity|]. split.
  - exact (proj1 (@non_return_control_path (Demo.glsl true)
                    Demo.f_unreferenced None Demo.state_compute eq_refl)
             eq_refl).
  - split; [reflexivity|]. split; [reflexivity|].
    exact (proj2 (@non_return_control_path (Demo.glsl false)
                    Demo.f_referenced None Demo.state_compute eq_refl)
             eq_refl).
Defined.

(** [rcp(x)] with [x] a [float] is written [(float(1) / (x))]; [rcp(s)]
    with [s] a structure is an error. *)
Lemma rcp_emission_witness :
  GetTypeDenoter (Demo.glsl true) (Demo.lit "x") =
    inr (BaseTypeDenoter (Scalar Float_)) /\
  output (events (VisitFunctionCall (Demo.glsl true) Demo.call_rcp
                    Demo.state_compute)) = "(float(1) / (x))" /\
  GetTypeDenoter (Demo.glsl true) (Demo.var "s") =
    inr (StructTypeDenoter "S") /\
  IsBase (Get (StructTypeDenoter "S")) = false /\
  diagnosed {| reportType := Severity_Error;
               message := "invalid argument type for intrinsic 'rcp'";
               position := Some (Demo.at_row 1) |}
    (VisitFunctionCall (Demo.glsl true) Demo.call_rcp_struct
       Demo.state_compute) /\
  silent (VisitFunctionCall (Demo.glsl true) Demo.call_rcp_struct
            Demo.state_compute).
Proof.
  split; [reflexivity|]. split.
  - exact (proj1 (proj2 (proj2
      (proj1 (@rcp_emission (Demo.glsl true) (Demo.at_row 1) None None
                (Demo.lit "x") Demo.state_compute
                (BaseTypeDenoter (Scalar Float_)) eq_refl)
         (Scalar Float_) "float" Demo.state_compute [EvWrite "x"]
         eq_refl eq_refl eq_refl)))).
  - split; [reflexivity|]. split; [reflexivity|].
    exact (proj2 (@rcp_emission (Demo.glsl true) (Demo.at_row 1) None None
                    (Demo.var "s") Demo.state_compute
                    (StructTypeDenoter "S") eq_refl) eq_refl).
Defined.

(** [return p;] in the middle of the entry point [main : SV_Position]:
    the assignment of [p] to [gl_Position], then [return;]. *)
Lemma return_in_entry_point_witness :
  isInsideEntryPoint_ Demo.state_entry = true /\
  entryPointRef (program_ Demo.state_entry) = Some Demo.main_passthrough /\
  result (VisitExpr (Demo.glsl true) (Demo.var "p") Demo.state_entry)
  = Ok tt /\
  output (events (VisitStmnt (Demo.glsl true) (Stmnt_Return Demo.return_p)
                    None Demo.state_entry)) =
  "gl_Position = p;" ++ newline ++ "return;" ++ newline.
Proof.
  split; [reflexivity|]. split; [reflexivity|]. split; [reflexivity|].
  destruct (proj1 (proj2 (@return_in_entry_point (Demo.glsl true)
                            Demo.return_p None Demo.state_entry
                            Demo.main_passthrough eq_refl eq_refl))
              eq_refl eq_refl (Demo.var "p") eq_refl) as (K & _).
  destruct (K "gl_Position" eq_refl eq_refl) as (_ & _ & O).
  rewrite O. reflexivity.
Defined.

(** In an entry point whose output is the variable [o_pos], [return p;]
    and [return q;] are written the same: the assignment is that of the
    variable, and the returned expression is not written. *)
Lemma return_expression_not_assigned :
  output (events (VisitStmnt (Demo.glsl true) (Stmnt_Return Demo.return_p)
                    None Demo.state_entry_output)) =
  "gl_Position = o_pos;" ++ newline ++ "return;" ++ newline /\
  output (events (VisitStmnt (Demo.glsl true) (Stmnt_Return Demo.return_q)
                    None Demo.state_entry_output)) =
  "gl_Position = o_pos;" ++ newline ++ "return;" ++ newline.
Proof. split; reflexivity. Qed.

(** The empty register name: the error is produced, and the character in
    its message is the null character, which is no character of the
    name. *)
Lemma register_prefix_of_empty_name :
  empty "" = true /\
  reports (events (ValidateRegisterPrefix (Demo.glsl false) "" "b" None
                     Demo.state_compute)) =
  [{| reportType := Severity_Error;
      message := "invalid register prefix '" ++ string_of_char zero
                 ++ "' (expected 'b')";
      position := None |}].
Proof. split; reflexivity. Qed.

(** The register name [t3] where a name in [b] is expected. *)
Lemma register_prefix_validation_witness :
  (forall rest : string, "t3" <> String "b" rest) /\
  reports (events (ValidateRegisterPrefix (Demo.glsl false) "t3" "b" None
                     Demo.state_compute)) =
  [{| reportType := Severity_Error;
      message := "invalid register prefix 't' (expected 'b')";
      position := None |}].
Proof.
  assert (H : forall rest : string, "t3" <> String "b" rest)
    by (intros rest E; discriminate E).
  split; [exact H|].
  destruct (proj1 (@register_prefix_validation (Demo.glsl false) "t3" "b"
                     None Demo.state_compute) H) as (_ & D & _).
  rewrite D. reflexivity.
Defined.

(** A bare [return;] at the end of an ordinary function is not written. *)
Lemma return_outside_entry_point_witness :
  isInsideEntryPoint_ Demo.state_compute = false /\
  ReturnStmnt_expr Demo.return_at_end = None /\
  isEndOfFunction Demo.return_at_end = true /\
  VisitStmnt (Demo.glsl true) (Stmnt_Return Demo.return_at_end) None
    Demo.state_compute = mkOutcome (Ok tt) Demo.state_compute [].
Proof.
  split; [reflexivity|]. split; [reflexivity|]. split; [reflexivity|].
  exact (@return_outside_entry_point (Demo.glsl true) Demo.return_at_end
           None Demo.state_compute eq_refl eq_refl eq_refl).
Defined.

(** [Texture2D tex : register(t3)] is written with [layout(binding = 3)]
    and recorded with the binding -1. *)
Lemma texture_statistics_binding_witness :
  In ("tex", -1)
     (textures (events (VisitStmnt (Demo.glsl true)
                          (Stmnt_TextureDecl Demo.texture_stmnt) None
                          Demo.state_stats))) /\
  TextureDecl_isReachable Demo.tex = true /\
  stats_ (config Demo.state_stats) = true /\
  Register_GetForTarget (Demo.glsl true) (TextureDecl_slotRegisters Demo.tex)
    (shaderTarget_ (config Demo.state_stats)) = Some Demo.register_t3 /\
  output (events (WriteTextureDecl (Demo.glsl true) (Some "sampler2D")
                    Demo.tex Demo.state_stats)) =
  "layout(binding = 3) uniform sampler2D tex;" ++ newline /\
  textures (events (WriteTextureDecl (Demo.glsl true) (Some "sampler2D")
                      Demo.tex Demo.state_stats)) = [("tex", -1)].
Proof.
  split; [left; reflexivity|].
  split; [reflexivity|]. split; [reflexivity|]. split; [reflexivity|].
  destruct (proj2 (@texture_statistics_binding (Demo.glsl true)
                     Demo.texture_stmnt None Demo.state_stats)
              "sampler2D" Demo.tex Demo.register_t3 eq_refl eq_refl eq_refl)
    as (_ & O & T).
  split; [exact O | exact T].
Defined.

(** With [lineMarks] on, [#line 3] goes before the function [main]
    declared at row 3, and nothing else changes; the statement [x;] is
    written the same with the option on and off. *)
Lemma line_marks_witness :
  markedRow (Demo.glsl true) Demo.state_compute
    (Stmnt_FunctionDecl Demo.main_empty) = Some 3 /\
  output (events (VisitStmnt (Demo.glsl true)
                    (Stmnt_FunctionDecl Demo.main_empty) None
                    (withLineMarks false Demo.state_compute))) =
  "void main()" ++ newline ++ "{" ++ newline ++ "}" ++ newline ++ newline /\
  output (events (VisitStmnt (Demo.glsl true)
                    (Stmnt_FunctionDecl Demo.main_empty) None
                    (withLineMarks true Demo.state_compute))) =
  "#line 3" ++ newline ++
  output (events (VisitStmnt (Demo.glsl true)
                    (Stmnt_FunctionDecl Demo.main_empty) None
                    (withLineMarks false Demo.state_compute))) /\
  plainStmnt Demo.stmnt_x = true /\
  events (VisitStmnt (Demo.glsl true) Demo.stmnt_x None
            (withLineMarks true Demo.state_compute)) =
  events (VisitStmnt (Demo.glsl true) Demo.stmnt_x None
            (withLineMarks false Demo.state_compute)).
Proof.
  split; [reflexivity|]. split; [reflexivity|].
  split.
  - exact (proj1 (proj1 (proj2 (proj2 (@line_marks (Demo.glsl true)
                                         (Stmnt_FunctionDecl Demo.main_empty)
                                         None Demo.state_compute)))
                    3 eq_refl)).
  - split; [reflexivity|].
    exact (proj1 (proj2 (proj2 (proj2 (@line_marks (Demo.glsl true)
                                         Demo.stmnt_x None
                                         Demo.state_compute)))
                    eq_refl)).
Defined.

(** With [lineMarks] on, the statement [x;] at row 7 is written without a
    [#line 7] before it. *)
Lemma expr_stmnt_without_line_mark :
  ~ (allowLineMarks_ (config Demo.state_marks) = true <->
     exists rest : string,
       output (events (VisitStmnt (Demo.glsl true) Demo.stmnt_x None
                         Demo.state_marks)) =
       lineText Demo.state_marks ("#line " ++ to_string 7) ++ rest).
Proof.
  intros [H _]. destruct (H eq_refl) as (rest & E).
  vm_compute in E. discriminate E.
Qed.

(** A code block two levels deep, inside a pushed set of options. *)
Lemma statement_restores_indentation_witness :
  result (VisitStmnt (Demo.glsl true)
            (Stmnt_CodeBlock (mkCodeBlockStmnt (Demo.at_row 6) Demo.block_x))
            None Demo.state_nested) = Ok tt /\
  indentLevel (final (VisitStmnt (Demo.glsl true)
                        (Stmnt_CodeBlock
                           (mkCodeBlockStmnt (Demo.at_row 6) Demo.block_x))
                        None Demo.state_nested)) = 2%nat.
Proof.
  split; [reflexivity|].
  exact (proj1 (@statement_restores_indentation (Demo.glsl true)
                  (Stmnt_CodeBlock (mkCodeBlockStmnt (Demo.at_row 6) Demo.block_x))
                  None Demo.state_nested tt eq_refl)).
Defined.

(** A texture declaration visited without a statistics output records
    nothing. *)
Lemma no_statistics_unless_requested_witness :
  stats_ (config Demo.state_compute) = false /\
  textures (events (VisitStmnt (Demo.glsl true)
                      (Stmnt_TextureDecl Demo.texture_stmnt) None
                      Demo.state_compute)) = [].
Proof.
  split; [reflexivity|].
  exact (proj1 (no_statistics_unless_requested (Demo.glsl true))
           (Stmnt_TextureDecl Demo.texture_stmnt) None Demo.state_compute
           eq_refl).
Defined.

(** The one diagnostic of the function [f] that is not referenced is a
    warning. *)
Lemma thrown_errors_are_not_logged_witness :
  breakWithException (Demo.glsl true) = true /\
  In {| reportType := Severity_Warning;
        message := "not all control paths in unreferenced function 'f' return a value";
        position := Some (Demo.at_row 5) |}
     (reports (events (VisitStmnt (Demo.glsl true)
                         (Stmnt_FunctionDecl Demo.f_unreferenced) None
                         Demo.state_compute))) /\
  reportType
    {| reportType := Severity_Warning;
       message := "not all control paths in unreferenced function 'f' return a value";
       position := Some (Demo.at_row 5) |} = Severity_Warning.
Proof.
  split; [reflexivity|].
  assert (H : In {| reportType := Severity_Warning;
                    message := "not all control paths in unreferenced function 'f' return a value";
                    position := Some (Demo.at_row 5) |}
                (reports (events (VisitStmnt (Demo.glsl true)
                                    (Stmnt_FunctionDecl Demo.f_unreferenced)
                                    None Demo.state_compute))))
    by (left; reflexivity).
  split; [exact H|].
  exact (proj1 (@thrown_errors_are_not_logged (Demo.glsl true) eq_refl)
           (Stmnt_FunctionDecl Demo.f_unreferenced) None Demo.state_compute
           _ H).
Defined.

(** [{ x; }] at the first column. *)
Lemma code_block_braces_witness :
  result (forEach (fun s => VisitStmnt (Demo.glsl true) s None)
            [Demo.stmnt_x]
            (set_indentLevel 1 Demo.state_compute)) = Ok tt /\
  output (events (VisitCodeBlock (Demo.glsl true) Demo.block_x
                    Demo.state_compute)) =
  "{" ++ newline ++ "    x;" ++ newline ++ "}" ++ newline.
Proof.
  split; [reflexivity|].
  destruct (@code_block_braces (Demo.glsl true) (Demo.at_row 6)
              [Demo.stmnt_x] Demo.state_compute tt eq_refl) as (_ & O & _).
  unfold Demo.block_x. rewrite O. reflexivity.
Defined.

(** [mul(M, p + v)] is written the same at the first column and two
    levels deep with options pushed. *)
Lemma expression_reads_version_only_witness :
  versionOut_ (config Demo.state_nested)
  = versionOut_ (config Demo.state_compute) /\
  events (VisitExpr (Demo.glsl true)
            (FunctionCallExpr (Demo.at_row 1) Demo.call_mul)
            Demo.state_nested) =
  events (VisitExpr (Demo.glsl true)
            (FunctionCallExpr (Demo.at_row 1) Demo.call_mul)
            Demo.state_compute).
Proof.
  split; [reflexivity|].
  exact (proj1 (proj2 (@expression_reads_version_only (Demo.glsl true)
                         (FunctionCallExpr (Demo.at_row 1) Demo.call_mul)
                         Demo.state_nested Demo.state_compute eq_refl))).
Defined.

(** The tree [(a + b) * c], with no bracket expression, is written
    [a + b * c]. *)
Lemma binary_expression_is_flat_witness :
  textOf (Demo.glsl true) Demo.state_compute
    (BinaryExpr (Demo.at_row 1)
       (BinaryExpr (Demo.at_row 1) (Demo.lit "a") Add (Demo.lit "b"))
       Mul (Demo.lit "c")) = "a + b * c" /\
  textOf (Demo.glsl true) Demo.state_compute
    (BinaryExpr (Demo.at_row 1) (Demo.lit "a") Add
       (BinaryExpr (Demo.at_row 1) (Demo.lit "b") Mul (Demo.lit "c"))) =
  textOf (Demo.glsl true) Demo.state_compute
    (BinaryExpr (Demo.at_row 1)
       (BinaryExpr (Demo.at_row 1) (Demo.lit "a") Add (Demo.lit "b"))
       Mul (Demo.lit "c")).
Proof.
  destruct (@binary_expression_is_flat (Demo.glsl true) (Demo.at_row 1)
              (Demo.at_row 1) (Demo.at_row 1) (Demo.at_row 1)
              (Demo.lit "a") (Demo.lit "b") (Demo.lit "c") Add Mul
              Demo.state_compute eq_refl eq_refl eq_refl) as (T & E & _).
  split; [rewrite T; reflexivity | exact E].
Defined.

(** [max(a, b)] *)
Lemma function_call_emission_witness :
  result (VisitFunctionCall (Demo.glsl true) Demo.call_max
            Demo.state_compute) = Ok tt /\
  output (events (VisitFunctionCall (Demo.glsl true) Demo.call_max
                    Demo.state_compute)) = "max(a, b)".
Proof.
  split; [reflexivity|].
  destruct (@function_call_emission (Demo.glsl true) (Demo.at_row 1)
              (Some (mkVarIdent (Demo.at_row 1) "max" [] None None)) None
              (Intrinsic_Other "max") [Demo.lit "a"; Demo.lit "b"]
              Demo.state_compute eq_refl eq_refl eq_refl eq_refl)
    as (name & O & K & _).
  unfold Demo.call_max. rewrite O, (K _ "max" eq_refl eq_refl eq_refl).
  reflexivity.
Defined.

(** [{ 1, 2 }] *)
Lemma initializer_emission_witness :
  result (VisitExpr (Demo.glsl true) Demo.initializer_1_2
            Demo.state_compute) = Ok tt /\
  textOf (Demo.glsl true) Demo.state_compute Demo.initializer_1_2
  = "{ 1, 2 }".
Proof.
  split; [reflexivity|]. unfold Demo.initializer_1_2.
  rewrite (@initializer_emission (Demo.glsl true) (Demo.at_row 1)
             [Demo.lit "1"; Demo.lit "2"] Demo.state_compute eq_refl).
  reflexivity.
Defined.

(** [InterlockedAdd(d, v, o)] is written [o = atomicAdd(d, v)]. *)
Lemma atomic_emission_witness :
  result (VisitFunctionCall (Demo.glsl true) Demo.call_interlocked_add
            Demo.state_compute) = Ok tt /\
  output (events (VisitFunctionCall (Demo.glsl true)
                    Demo.call_interlocked_add Demo.state_compute))
  = "o = atomicAdd(d, v)".
Proof.
  split; [reflexivity|]. unfold Demo.call_interlocked_add.
  rewrite (@atomic_emission (Demo.glsl true) (Demo.at_row 1)
             (Some (mkVarIdent (Demo.at_row 1) "InterlockedAdd" [] None None))
             None Intrinsic_InterlockedAdd (Demo.lit "d") (Demo.lit "v")
             [Demo.lit "o"] "atomicAdd" Demo.state_compute eq_refl eq_refl
             eq_refl).
  reflexivity.
Defined.

(** [mul(M)], with errors recorded: the error, and the call does not
    return. *)
Lemma mul_argument_count_witness :
  (length [Demo.lit "M"] < 2)%nat /\
  diagnosed {| reportType := Severity_Error;
               message := "invalid number of arguments in intrinsic";
               position := Some (Demo.at_row 1) |}
    (VisitFunctionCall (Demo.glsl false) Demo.call_mul_one
       Demo.state_compute) /\
  (forall a : unit,
     result (VisitFunctionCall (Demo.glsl false) Demo.call_mul_one
               Demo.state_compute) <> Ok a).
Proof.
  assert (L : (length [Demo.lit "M"] < 2)%nat) by (cbn; lia).
  split; [exact L|].
  destruct (@mul_argument_count (Demo.glsl false) (Demo.at_row 1) None None
              [Demo.lit "M"] Demo.state_compute)
    as (D & _ & N & _); [cbn; lia|].
  split; [exact D | exact (N L)].
Defined.

(** The alias [real] of the alias [scalar] of [float] is written as
    [float]; a type without a keyword throws a [Report]. *)
Lemma type_denoter_aliases_witness :
  output (events (WriteTypeDenoter (Demo.glsl true) Demo.real None
                    Demo.state_compute)) = "float" /\
  result (WriteTypeDenoter (Demo.glsl true) Demo.undefined_type None
            Demo.state_compute) =
  Throw (Exn_Report {| reportType := Severity_Error;
                       message := "failed to map data type to GLSL keyword";
                       position := None |}) /\
  (exists r : Report,
     Exn_Report {| reportType := Severity_Error;
                   message := "failed to map data type to GLSL keyword";
                   position := None |} = Exn_Report r).
Proof.
  split; [|split; [reflexivity|]].
  - rewrite (proj1 (@type_denoter_aliases (Demo.glsl true) Demo.real None
                      Demo.state_compute)).
    reflexivity.
  - exact (proj2 (@type_denoter_aliases (Demo.glsl true)
                    Demo.undefined_type None Demo.state_compute) _ eq_refl).
Defined.

(** [1.0.xxxx] is written [vec4(1.0)]. *)
Lemma suffix_emission_witness :
  result (VisitExpr (Demo.glsl true) (Demo.lit "1.0") Demo.state_compute)
  = Ok tt /\
  output (events (VisitExpr (Demo.glsl true)
                    (SuffixExpr (Demo.at_row 1) (Demo.lit "1.0") Demo.xxxx)
                    Demo.state_compute)) = "vec4(1.0)".
Proof.
  split; [reflexivity|].
  destruct (proj1 (@suffix_emission (Demo.glsl true) (Demo.at_row 1)
                     (Demo.at_row 1) (Demo.lit "1.0") "xxxx" None
                     (BaseTypeDenoter (Scalar Float_)) Demo.state_compute
                     eq_refl eq_refl)
              (Scalar Float_) (Vector Float_ 4) "vec4" eq_refl eq_refl
              eq_refl eq_refl) as (_ & O).
  unfold Demo.xxxx. rewrite O. reflexivity.
Defined.

(** What a run without an entry point throws is a [Report]. *)
Lemma run_throws_reports_only_witness :
  result (GenerateCodePrimary (Demo.glsl true) "2016-11-02 10:00:00"
            Demo.program_without_entry Demo.vertexInput Demo.glsl330
            Demo.state_compute) =
  Throw (Exn_Report {| reportType := Severity_Error;
                       message := "entry point " ++ dquote ++ "main"
                                  ++ dquote ++ " not found";
                       position := None |}) /\
  (exists r : Report,
     Exn_Report {| reportType := Severity_Error;
                   message := "entry point " ++ dquote ++ "main" ++ dquote
                              ++ " not found";
                   position := None |} = Exn_Report r).
Proof.
  split; [reflexivity|].
  exact (@run_throws_reports_only (Demo.glsl true) "2016-11-02 10:00:00"
           Demo.program_without_entry Demo.vertexInput Demo.glsl330
           Demo.state_compute _ eq_refl).
Defined.

(** A run without an entry point writes nothing. *)
Lemma run_without_entry_point_witness :
  entryPointRef Demo.program_without_entry = None /\
  events (GenerateCodePrimary (Demo.glsl false) "2016-11-02 10:00:00"
            Demo.program_without_entry Demo.vertexInput Demo.glsl330
            Demo.state_compute) =
  [EvReport {| reportType := Severity_Error;
               message := "entry point " ++ dquote ++ "main" ++ dquote
                          ++ " not found";
               position := None |}].
Proof.
  split; [reflexivity|].
  rewrite (@run_without_entry_point (Demo.glsl false) "2016-11-02 10:00:00"
             Demo.program_without_entry Demo.vertexInput Demo.glsl330
             Demo.state_compute eq_refl).
  reflexivity.
Defined.

(** When the converter fails at row 9 nothing is written, and the error is
    at row 9. *)
Lemma run_with_failing_pass_witness :
  passes Demo.glsl_failing_converter Demo.program_empty Demo.computeInput
    Demo.glsl330
  = inl (Exn_ASTRuntimeError "unsupported statement" (Some (Demo.at_row 9))) /\
  output (events (GenerateCodePrimary Demo.glsl_failing_converter
                    "2016-11-02 10:00:00" Demo.program_empty
                    Demo.computeInput Demo.glsl330 Demo.state_compute)) = "" /\
  reports (events (GenerateCodePrimary Demo.glsl_failing_converter
                     "2016-11-02 10:00:00" Demo.program_empty
                     Demo.computeInput Demo.glsl330 Demo.state_compute)) =
  [{| reportType := Severity_Error; message := "unsupported statement";
      position := Some (Demo.at_row 9) |}].
Proof.
  split; [reflexivity|].
  destruct (@run_with_failing_pass Demo.glsl_failing_converter
              "2016-11-02 10:00:00" Demo.program_empty Demo.computeInput
              Demo.glsl330 Demo.state_compute Demo.main_empty _ eq_refl
              eq_refl) as (O & _ & A & _).
  split; [exact O|]. rewrite (A _ _ eq_refl). reflexivity.
Defined.

(** The version, a blank line, the extension and a blank line. *)
Lemma version_and_extensions_witness :
  DetermineRequiredExtensions Demo.glsl_with_extension Demo.program_empty
    330 ComputeShader false = inr ["GL_ARB_shading_language_420pack"] /\
  output (events (WriteVersionAndExtensions Demo.glsl_with_extension
                    Demo.program_empty Demo.state_compute)) =
  "#version 330" ++ newline ++ newline
  ++ "#extension GL_ARB_shading_language_420pack : enable" ++ newline
  ++ newline.
Proof.
  split; [reflexivity|].
  destruct (proj1 (@version_and_extensions Demo.glsl_with_extension
                     Demo.program_empty Demo.state_compute)
              ["GL_ARB_shading_language_420pack"] eq_refl) as (_ & _ & O).
  rewrite O. reflexivity.
Defined.


(** The function [main] of the empty compute shader, visited as a
    statement. *)
Lemma statement_keeps_parameters_witness :
  result (VisitStmnt (Demo.glsl true) (Stmnt_FunctionDecl Demo.main_empty)
            None Demo.state_compute) <> Undefined /\
  config (final (VisitStmnt (Demo.glsl true)
                   (Stmnt_FunctionDecl Demo.main_empty) None
                   Demo.state_compute)) = config Demo.state_compute.
Proof.
  assert (H : result (VisitStmnt (Demo.glsl true)
                        (Stmnt_FunctionDecl Demo.main_empty) None
                        Demo.state_compute) <> Undefined)
    by (intros E; vm_compute in E; discriminate E).
  split; [exact H|].
  exact (proj1 (@statement_keeps_parameters (Demo.glsl true)
                  (Stmnt_FunctionDecl Demo.main_empty) None
                  Demo.state_compute H)).
Defined.

(** [else if (c)], with the local of the [else] at an address whose low
    byte is 1. *)
Lemma else_if_header_witness :
  result (VisitOptional (VisitExpr (Demo.glsl true)) (Some (Demo.lit "c"))
            Demo.state_compute) = Ok tt /\
  Z.land (AddressOfLocal (Demo.glsl true) (Demo.at_row 3)) 255 = 1 /\
  output (events (VisitElseStmnt (Demo.glsl true)
                    (mkElseStmnt (Demo.at_row 3) (Stmnt_If Demo.if_c))
                    Demo.state_compute)) = "else if (c)" ++ newline.
Proof.
  split; [reflexivity|]. split; [reflexivity|].
  destruct (proj1 (@else_if_header (Demo.glsl true) (Demo.at_row 3)
                     (Demo.at_row 3) (Some (Demo.lit "c")) None None
                     Demo.state_compute eq_refl) eq_refl) as (_ & _ & O).
  unfold Demo.if_c. rewrite O. reflexivity.
Defined.

(** [static const float a = 1, b;] with code generation disabled for [b]
    is written [static const float a = 1;]. *)
Lemma variable_declaration_statement_witness :
  filter (generated Demo.state_compute) [Demo.decl_a; Demo.decl_b]
  = [Demo.decl_a] /\
  result (VisitVarDeclStmnt (Demo.glsl true)
            (mkVarDeclStmnt (Demo.at_row 1) false false ""
               [Static] ["const"] Demo.float
               [Demo.decl_a; Demo.decl_b])
            Demo.state_compute) = Ok tt /\
  output (events (VisitVarDeclStmnt (Demo.glsl true)
                    (mkVarDeclStmnt (Demo.at_row 1) false false ""
                       [Static] ["const"] Demo.float
                       [Demo.decl_a; Demo.decl_b])
                    Demo.state_compute)) =
  "static const float a = 1;" ++ newline.
Proof.
  split; [reflexivity|]. split; [reflexivity|]. unfold Demo.float.
  rewrite (proj2 (@variable_declaration_statement (Demo.glsl true)
                    (Demo.at_row 1) (Demo.at_row 1) false false ""
                    [Static] ["const"] (BaseTypeDenoter (Scalar Float_))
                    [Demo.decl_a; Demo.decl_b] Demo.state_compute)
             (fun H => eq_ind [Demo.decl_a]
                         (fun l => match l with
                                   | [] => False
                                   | _ :: _ => True
                                   end) I [] H)
             eq_refl).
  reflexivity.
Defined.

(** The register [b3] gives the slot [3]; so does [t3] when errors are
    recorded, after the error. *)
Lemma register_accessors_witness :
  BRegister (Demo.glsl false) "b3" None Demo.state_compute
  = mkOutcome (Ok "3") Demo.state_compute [] /\
  result (BRegister (Demo.glsl false) "t3" None Demo.state_compute)
  = Ok "3".
Proof.
  destruct (proj1 (register_accessors (Demo.glsl false))) as (A & _ & W).
  split; [exact (A "3" None Demo.state_compute)|].
  refine (proj1 (proj2 (W "t"%char "3" None Demo.state_compute _)) eq_refl).
  intros H. discriminate H.
Defined.

(** [numthreads(8, 8, 1)] *)
Lemma attribute_emission_witness :
  Attribute_ident Demo.numthreads_8_8_1 = "numthreads" /\
  output (events (WriteAttribute (Demo.glsl true) Demo.numthreads_8_8_1
                    Demo.state_compute)) =
  "layout(local_size_x = 8, local_size_y = 8, local_size_z = 1) in;"
  ++ newline.
Proof.
  split; [reflexivity|].
  destruct (proj1 (proj1 (@attribute_emission (Demo.glsl true)
                            Demo.numthreads_8_8_1 Demo.state_compute)
                     eq_refl)
              (Demo.lit "8") (Demo.lit "8") (Demo.lit "1") eq_refl eq_refl
              eq_refl eq_refl) as (_ & _ & O).
  rewrite O. reflexivity.
Defined.


(** The structures [B] and [A] nested in [Outer] are written before it,
    [B] first, each with its semicolon and a blank line after it. *)
Lemma nested_structures_order_witness :
  MustResolveStructForTarget (Demo.glsl true) ComputeShader
    Demo.struct_outer = false /\
  flagRead (Some (AddressOfLocal (Demo.glsl true) (Demo.at_row 1))) true /\
  result (VisitStructDecl (Demo.glsl true) Demo.struct_outer
            (Some (AddressOfLocal (Demo.glsl true) (Demo.at_row 1)))
            Demo.state_compute) = Ok tt /\
  output (events (VisitStructDecl (Demo.glsl true) Demo.struct_outer
                    (Some (AddressOfLocal (Demo.glsl true) (Demo.at_row 1)))
                    Demo.state_compute)) =
  "struct B" ++ newline ++ "{" ++ newline ++ "};" ++ newline ++ newline
  ++ "struct A" ++ newline ++ "{" ++ newline ++ "};" ++ newline ++ newline
  ++ "struct Outer" ++ newline ++ "{" ++ newline ++ "};" ++ newline.
Proof.
  split; [reflexivity|]. split; [reflexivity|]. split; [reflexivity|].
  change Demo.struct_outer
    with (mkStructDecl (Demo.at_row 1) "Outer" "" true false false false []
            [Demo.struct_named "A" true []; Demo.struct_named "B" true []]
            None).
  destruct (proj1 (proj1 (@nested_structures_order (Demo.glsl true)
                            (Demo.at_row 1) "Outer" "" true false []
                            [Demo.struct_named "A" true [];
                             Demo.struct_named "B" true []]
                            None
                            (Some (AddressOfLocal (Demo.glsl true)
                                     (Demo.at_row 1)))
                            Demo.state_compute eq_refl)
                     true eq_refl) eq_refl eq_refl eq_refl)
    as (texts & text & HT & (b & _ & Ht) & O).
  rewrite O. cbn [rev app] in HT.
  inversion HT as [|s1 t1 l1 ts1 (b1 & _ & E1) HT1]; subst.
  inversion HT1 as [|s2 t2 l2 ts2 (b2 & _ & E2) HT2]; subst.
  inversion HT2; subst.
  destruct b, b1, b2; reflexivity.
Defined.

(** The statement [x;] as the body of a loop is written one level deep. *)
Lemma scoped_statement_witness :
  result (VisitStmnt (Demo.glsl true) Demo.stmnt_x None
            (set_indentLevel 1 Demo.state_compute)) = Ok tt /\
  output (events (WriteScopedStmnt_
                    (fun s => VisitStmnt (Demo.glsl true) s None)
                    (Some Demo.stmnt_x) Demo.state_compute)) =
  "    x;" ++ newline /\
  indentLevel (final (WriteScopedStmnt_
                        (fun s => VisitStmnt (Demo.glsl true) s None)
                        (Some Demo.stmnt_x) Demo.state_compute)) = 0%nat.
Proof.
  split; [reflexivity|].
  destruct (proj2 (@scoped_statement (Demo.glsl true) Demo.stmnt_x
                     Demo.state_compute))
    as (E & R); [intros H; discriminate H|].
  split; [rewrite E; reflexivity | exact (proj2 (R eq_refl))].
Defined.

(** [switch (x) { case 1: x; default: }] *)
Lemma switch_emission_witness :
  result (VisitOptional (VisitExpr (Demo.glsl true)) (Some (Demo.lit "x"))
            Demo.state_compute) = Ok tt /\
  result (forEach (VisitSwitchCase (Demo.glsl true))
            [mkSwitchCase (Demo.at_row 3) (Some (Demo.lit "1"))
               [Demo.stmnt_x];
             mkSwitchCase (Demo.at_row 4) None []]
            (set_indentLevel 1 Demo.state_compute)) = Ok tt /\
  output (events (VisitSwitchStmnt (Demo.glsl true) Demo.switch_x
                    Demo.state_compute)) =
  "switch (x)" ++ newline ++ "{" ++ newline
  ++ "    case 1:" ++ newline ++ "        x;" ++ newline
  ++ "    default:" ++ newline ++ "}" ++ newline.
Proof.
  split; [reflexivity|]. split; [reflexivity|].
  destruct (proj1 (@switch_emission (Demo.glsl true) Demo.state_compute)
              (Demo.at_row 2) (Some (Demo.lit "x"))
              [mkSwitchCase (Demo.at_row 3) (Some (Demo.lit "1"))
                 [Demo.stmnt_x];
               mkSwitchCase (Demo.at_row 4) None []]
              tt eq_refl eq_refl) as (_ & O & _).
  unfold Demo.switch_x. rewrite O. reflexivity.
Defined.

(** [do x; while (c);] *)
Lemma while_loops_witness :
  result (VisitOptional (VisitExpr (Demo.glsl true)) (Some (Demo.lit "c"))
            Demo.state_compute) = Ok tt /\
  result (WriteScopedStmnt_ (fun s => VisitStmnt (Demo.glsl true) s None)
            (Some Demo.stmnt_x) Demo.state_compute) = Ok tt /\
  output (events (VisitDoWhileLoopStmnt (Demo.glsl true)
                    (mkDoWhileLoopStmnt (Demo.at_row 2) (Some Demo.stmnt_x)
                       (Some (Demo.lit "c")))
                    Demo.state_compute)) =
  "do" ++ newline ++ "    x;" ++ newline ++ "while (c);" ++ newline.
Proof.
  split; [reflexivity|]. split; [reflexivity|].
  destruct (proj2 (@while_loops (Demo.glsl true) (Demo.at_row 2)
                     (Some (Demo.lit "c")) (Some Demo.stmnt_x)
                     Demo.state_compute eq_refl) eq_refl) as (_ & _ & O).
  rewrite O. reflexivity.
Defined.

(** [a[1].b] *)
Lemma var_ident_chain_witness :
  result (WriteVarIdent (Demo.glsl true) Demo.a_1_b true
            Demo.state_compute) = Ok tt /\
  output (events (WriteVarIdent (Demo.glsl true) Demo.a_1_b true
                    Demo.state_compute)) = "a[1].b" /\
  output (events (WriteVarIdent (Demo.glsl true) Demo.a_1_b false
                    Demo.state_compute)) = "a[1]".
Proof.
  split; [reflexivity|].
  destruct (@var_ident_chain (Demo.glsl true) Demo.a_1_b
              Demo.state_compute eq_refl) as (O1 & _ & O2).
  rewrite O1, O2. split; reflexivity.
Defined.

(** The function [f] that is not referenced leaves no text. *)
Lemma unreachable_declarations_witness :
  unreachable (Stmnt_FunctionDecl Demo.f_unreferenced) = true /\
  output (events (VisitStmnt (Demo.glsl true)
                    (Stmnt_FunctionDecl Demo.f_unreferenced) None
                    Demo.state_compute)) = "".
Proof.
  split; [reflexivity|].
  exact (proj1 (proj2 (proj2
           (@unreachable_declarations (Demo.glsl true)
              (Stmnt_FunctionDecl Demo.f_unreferenced) None
              Demo.state_compute eq_refl)))).
Defined.

(** The buffer [Scene] at the register [b3], with line marks. *)
Lemma buffer_declaration_witness :
  BufferDeclStmnt_isReachable Demo.buffer_scene = true /\
  result (forEach (VisitVarDeclStmnt (Demo.glsl true))
            (BufferDeclStmnt_members Demo.buffer_scene)
            (set_indentLevel 1 Demo.state_marks)) = Ok tt /\
  output (events (VisitBufferDeclStmnt (Demo.glsl true) Demo.buffer_scene
                    Demo.state_marks)) =
  "#line 2" ++ newline
  ++ "layout(std140, binding = 3) uniform Scene" ++ newline
  ++ "{" ++ newline ++ "    float a = 1;" ++ newline ++ "};" ++ newline
  ++ newline.
Proof.
  split; [reflexivity|]. split; [reflexivity|].
  destruct (@buffer_declaration (Demo.glsl true) Demo.buffer_scene
              Demo.state_marks tt eq_refl eq_refl) as (_ & O & _).
  rewrite O. reflexivity.
Defined.
